(** * alexa-mp3: stateless navigation and dual-protocol response engine

    A shallow embedding of the navigation core of the alexa-mp3 skill:
    the token codec ([utils/alexa-response.ts]), the adjacency handlers
    of the PartyKit server ([handlers/resolve-handler.ts],
    [handlers/alexa-handler.ts]) and the handlers of the Music-Skill
    Lambda ([get-playable-content.ts], [initiate.ts], [get-item.ts],
    [get-next-item.ts], [get-previous-item.ts]), over a model of the
    platform functions they call ([btoa], [atob], [JSON.stringify],
    [JSON.parse], [split], [join], [indexOf]).

    JavaScript strings are sequences of UTF-16 code units, kept here as
    [list N].  Numbers that the handlers compute with (indexes, lengths,
    offsets) are small integers and are kept in [Z].  A thrown exception
    is the [Throw] result of the [exc] type; the calls from the Lambda
    to the server are taken to arrive. *)

From Stdlib Require Import String Ascii.
From Stdlib Require Import List NArith ZArith Bool Lia.
Import ListNotations.

(* ================================================================== *)
(** ** JavaScript strings and arrays *)
(* ================================================================== *)

Module Js.

Definition jsstring := list N.

(** A literal of the source text, given by its ASCII spelling. *)
Definition lit (s : string) : jsstring :=
  map N_of_ascii (list_ascii_of_string s).

(** [a === b] on strings. *)
Fixpoint str_eqb (a b : jsstring) : bool :=
  match a, b with
  | [], [] => true
  | x :: a', y :: b' => (x =? y)%N && str_eqb a' b'
  | _, _ => false
  end.

(** Truthiness of a string: the empty string is falsy. *)
Definition nonempty (s : jsstring) : bool :=
  match s with [] => false | _ :: _ => true end.

(** [s.startsWith(p)] *)
Fixpoint startsWith (s p : jsstring) {struct p} : bool :=
  match p with
  | [] => true
  | x :: p' =>
      match s with
      | [] => false
      | y :: s' => (x =? y)%N && startsWith s' p'
      end
  end.

(** [s.includes(p)] *)
Fixpoint includes (s p : jsstring) : bool :=
  startsWith s p ||
  match s with
  | [] => false
  | _ :: s' => includes s' p
  end.

(** [s.slice(n)] for [0 <= n]. *)
Definition slice (n : nat) (s : jsstring) : jsstring := skipn n s.

(** [s.split(sep)] for a non-empty separator: the pieces between the
    leftmost non-overlapping occurrences of [sep].  [skip] counts the
    code units of a matched separator that are still to be dropped. *)
Fixpoint split_go (sep : jsstring) (skip : nat) (s : jsstring)
  : list jsstring :=
  match s with
  | [] => [[]]
  | c :: s' =>
      match skip with
      | S k => split_go sep k s'
      | O =>
          if startsWith s sep
          then [] :: split_go sep (length sep - 1) s'
          else match split_go sep 0 s' with
               | piece :: more => (c :: piece) :: more
               | [] => [[c]]
               end
      end
  end.

Definition split (s sep : jsstring) : list jsstring := split_go sep 0 s.

(** [parts.join(sep)] *)
Fixpoint join (parts : list jsstring) (sep : jsstring) : jsstring :=
  match parts with
  | [] => []
  | p :: rest =>
      match rest with
      | [] => p
      | _ :: _ => p ++ sep ++ join rest sep
      end
  end.

(** [arr[i]]: [undefined] (here [None]) outside the array. *)
Definition at_index {A : Type} (l : list A) (i : Z) : option A :=
  if (i <? 0)%Z then None else nth_error l (Z.to_nat i).

(** [arr.indexOf(x)] on an array of strings, [-1] when absent. *)
Fixpoint indexOf_from (l : list jsstring) (x : jsstring) (i : Z) : Z :=
  match l with
  | [] => (-1)%Z
  | y :: l' => if str_eqb y x then i else indexOf_from l' x (i + 1)%Z
  end.

Definition indexOf (l : list jsstring) (x : jsstring) : Z :=
  indexOf_from l x 0%Z.

(** [arr.length] as a JavaScript number. *)
Definition len {A : Type} (l : list A) : Z := Z.of_nat (length l).

(** A thrown exception, for the calls that can raise. *)
Inductive exc (A : Type) : Type :=
| Ok (a : A)
| Throw.
Arguments Ok {A} a.
Arguments Throw {A}.

Definition bind {A B : Type} (m : exc A) (k : A -> exc B) : exc B :=
  match m with
  | Ok a => k a
  | Throw => Throw
  end.

(** An optional string that is present and not empty. *)
Definition if_some_truthy (s : option jsstring) : option jsstring :=
  match s with
  | Some x => if nonempty x then Some x else None
  | None => None
  end.

End Js.

Import Js.

Declare Scope exc_scope.
Delimit Scope exc_scope with exc.
Notation "'let!' x ':=' m 'in' k" :=
(bind m (fun x => k))
(at level 10, x name, m at level 100, k at level 200) : exc_scope.

(* ================================================================== *)
(** ** Platform text codecs: [btoa], [atob]                           *)
(* ================================================================== *)

Module Base64.

Definition alphabet : jsstring :=
  lit "ABCDEFGHIJKLMNOPQRSTUVWXYZabcdefghijklmnopqrstuvwxyz0123456789+/".

Definition pad : N := 61.  (* '=' *)

(** The character of a sextet. *)
Definition char_of (n : N) : N := nth (N.to_nat n) alphabet 0%N.

(** The sextet of a character of the alphabet. *)
Definition val_of (c : N) : option N :=
  if ((65 <=? c) && (c <=? 90))%N then Some (c - 65)%N
  else if ((97 <=? c) && (c <=? 122))%N then Some (c - 97 + 26)%N
  else if ((48 <=? c) && (c <=? 57))%N then Some (c - 48 + 52)%N
  else if (c =? 43)%N then Some 62%N
  else if (c =? 47)%N then Some 63%N
  else None.

Definition in_alphabet (c : N) : bool :=
  match val_of c with Some _ => true | None => false end.

Definition sextet (c : N) : N :=
  match val_of c with Some n => n | None => 0%N end.

(** Base64 of a byte string, with padding. *)
Fixpoint encode (s : list N) : list N :=
  match s with
  | [] => []
  | a :: s1 =>
      match s1 with
      | [] => [char_of (a / 4); char_of ((a mod 4) * 16); pad; pad]%N
      | b :: s2 =>
          match s2 with
          | [] => [char_of (a / 4); char_of ((a mod 4) * 16 + b / 16);
                   char_of ((b mod 16) * 4); pad]%N
          | c :: rest =>
              (char_of (a / 4) :: char_of ((a mod 4) * 16 + b / 16)
               :: char_of ((b mod 16) * 4 + c / 64) :: char_of (c mod 64)
               :: encode rest)%N
          end
      end
  end.

(** [btoa(s)]: raises InvalidCharacterError when a code unit is above
    0xFF. *)
Definition btoa (s : jsstring) : option jsstring :=
  if forallb (fun c => (c <=? 255)%N) s then Some (encode s) else None.

(** ASCII whitespace of the forgiving-base64 decoder. *)
Definition is_ascii_ws (c : N) : bool :=
  ((c =? 9) || (c =? 10) || (c =? 12) || (c =? 13) || (c =? 32))%N.

(** Remove one or two trailing ['='] signs. *)
Fixpoint strip_pad (s : list N) : list N :=
  match s with
  | [] => []
  | c :: s' =>
      if ((c =? pad)%N &&
          match s' with
          | [] => true
          | d :: s'' => (d =? pad)%N && negb (nonempty s'')
          end)
      then []
      else c :: strip_pad s'
  end.

Fixpoint decode (s : list N) : list N :=
  match s with
  | a :: b :: s2 =>
      match s2 with
      | [] => [sextet a * 4 + sextet b / 16]%N
      | c :: s3 =>
          match s3 with
          | [] => [sextet a * 4 + sextet b / 16;
                   (sextet b mod 16) * 16 + sextet c / 4]%N
          | d :: rest =>
              (sextet a * 4 + sextet b / 16
               :: (sextet b mod 16) * 16 + sextet c / 4
               :: (sextet c mod 4) * 64 + sextet d
               :: decode rest)%N
          end
      end
  | _ => []
  end.

(** [atob(s)]: the forgiving-base64 decoder; [None] is the raised
    InvalidCharacterError. *)
Definition atob (s : jsstring) : option jsstring :=
  let data := filter (fun c => negb (is_ascii_ws c)) s in
  let data := if (length data mod 4 =? 0)%nat then strip_pad data else data in
  if (length data mod 4 =? 1)%nat then None
  else if forallb in_alphabet data then Some (decode data)
  else None.

End Base64.


Import Base64.

(* ================================================================== *)
(** ** Platform JSON: [JSON.stringify], [JSON.parse]                  *)
(* ================================================================== *)

Module Json.

(** A parsed JSON value.  A number is kept as the exact decimal
    [m * 10^e] that its literal spells; an object keeps its
    properties in creation order. *)
#[warnings="-register-all"] Inductive json : Type :=
| JNull
| JBool (b : bool)
| JNumber (m e : Z)
| JString (s : jsstring)
| JArray (items : list json)
| JObject (props : list (jsstring * json)).

(** *** QuoteJSONString *)

Definition hex_digit (n : N) : N :=
  if (n <? 10)%N then (48 + n)%N else (87 + n)%N.

(** [\uXXXX] with lower-case digits. *)
Definition unicode_escape (c : N) : jsstring :=
  [92; 117; hex_digit (c / 4096); hex_digit ((c / 256) mod 16);
   hex_digit ((c / 16) mod 16); hex_digit (c mod 16)]%N.

Definition is_high_surrogate (c : N) : bool :=
  ((55296 <=? c) && (c <=? 56319))%N.
Definition is_low_surrogate (c : N) : bool :=
  ((56320 <=? c) && (c <=? 57343))%N.

(** The escape of one code unit that is not part of a surrogate
    pair. *)
Definition quote_unit (c : N) : jsstring :=
  if (c =? 8)%N then [92; 98]%N
  else if (c =? 9)%N then [92; 116]%N
  else if (c =? 10)%N then [92; 110]%N
  else if (c =? 12)%N then [92; 102]%N
  else if (c =? 13)%N then [92; 114]%N
  else if (c =? 34)%N then [92; 34]%N
  else if (c =? 92)%N then [92; 92]%N
  else if ((c <? 32)%N || is_high_surrogate c || is_low_surrogate c)
       then unicode_escape c
  else [c].

(** The characters between the quotes: a well-formed surrogate pair
    is copied, a lone surrogate is escaped. *)
Fixpoint quote_chars (s : jsstring) : jsstring :=
  match s with
  | [] => []
  | c :: s' =>
      if is_high_surrogate c then
        match s' with
        | d :: s'' =>
            if is_low_surrogate d then c :: d :: quote_chars s''
            else quote_unit c ++ quote_chars s'
        | [] => quote_unit c
        end
      else quote_unit c ++ quote_chars s'
  end.

Definition quote (s : jsstring) : jsstring :=
  34%N :: quote_chars s ++ [34%N].

(** *** JSON.parse *)

Definition is_ws (c : N) : bool :=
  ((c =? 32) || (c =? 9) || (c =? 10) || (c =? 13))%N.

Fixpoint skip_ws (s : jsstring) : jsstring :=
  match s with
  | [] => []
  | c :: s' => if is_ws c then skip_ws s' else s
  end.

Definition hex_val (c : N) : option N :=
  if ((48 <=? c) && (c <=? 57))%N then Some (c - 48)%N
  else if ((97 <=? c) && (c <=? 102))%N then Some (c - 87)%N
  else if ((65 <=? c) && (c <=? 70))%N then Some (c - 55)%N
  else None.

Definition hex4 (a b c d : N) : option N :=
  match hex_val a, hex_val b, hex_val c, hex_val d with
  | Some x, Some y, Some z, Some w =>
      Some (x * 4096 + y * 256 + z * 16 + w)%N
  | _, _, _, _ => None
  end.

(** The character of a two-character escape. *)
Definition unescape (e : N) : option N :=
  if (e =? 34)%N then Some 34%N
  else if (e =? 92)%N then Some 92%N
  else if (e =? 47)%N then Some 47%N
  else if (e =? 98)%N then Some 8%N
  else if (e =? 102)%N then Some 12%N
  else if (e =? 110)%N then Some 10%N
  else if (e =? 114)%N then Some 13%N
  else if (e =? 116)%N then Some 9%N
  else None.

Definition push (c : N) (r : option (jsstring * jsstring))
  : option (jsstring * jsstring) :=
  match r with
  | Some (str, rest) => Some (c :: str, rest)
  | None => None
  end.

(** A string literal after its opening quote: the string and the
    text after the closing quote. *)
Fixpoint parse_chars (s : jsstring) : option (jsstring * jsstring) :=
  match s with
  | [] => None
  | c :: s' =>
      if (c =? 34)%N then Some ([], s')
      else if (c =? 92)%N then
        match s' with
        | [] => None
        | e :: s'' =>
            if (e =? 117)%N then
              match s'' with
              | h1 :: h2 :: h3 :: h4 :: s3 =>
                  match hex4 h1 h2 h3 h4 with
                  | Some u => push u (parse_chars s3)
                  | None => None
                  end
              | _ => None
              end
            else
              match unescape e with
              | Some u => push u (parse_chars s'')
              | None => None
              end
        end
      else if (c <? 32)%N then None
      else push c (parse_chars s')
  end.

Definition is_digit (c : N) : bool := ((48 <=? c) && (c <=? 57))%N.

(** A run of digits: its value, its length and the text after it. *)
Fixpoint digits (acc : Z) (n : nat) (s : jsstring) : Z * nat * jsstring :=
  match s with
  | c :: s' =>
      if is_digit c
      then digits (acc * 10 + Z.of_N (c - 48))%Z (S n) s'
      else (acc, n, s)
  | [] => (acc, n, s)
  end.

(** A number literal: an optional minus sign, then [0] or a run of
    digits that does not start with [0], then an optional fraction
    (a dot and at least one digit), then an optional exponent ([e] or
    [E], an optional sign, at least one digit). *)
Definition parse_number (s : jsstring) : option (json * jsstring) :=
  let (neg, s1) :=
    match s with
    | c :: r => if (c =? 45)%N then (true, r) else (false, s)
    | [] => (false, s)
    end in
  let int_part :=
    match s1 with
    | c :: r =>
        if (c =? 48)%N then Some (0%Z, r)
        else if is_digit c
             then let '(v, _, r') := digits 0 0 s1 in Some (v, r')
             else None
    | [] => None
    end in
  match int_part with
  | None => None
  | Some (iv, s2) =>
      let frac_part :=
        match s2 with
        | c :: r =>
            if (c =? 46)%N then
              let '(v, n, r') := digits iv 0 r in
              match n with
              | O => None
              | S _ => Some (v, n, r')
              end
            else Some (iv, O, s2)
        | [] => Some (iv, O, s2)
        end in
      match frac_part with
      | None => None
      | Some (mv, fn, s3) =>
          let exp_part :=
            match s3 with
            | c :: r =>
                if ((c =? 101) || (c =? 69))%N then
                  let (eneg, r1) :=
                    match r with
                    | d :: r0 =>
                        if (d =? 45)%N then (true, r0)
                        else if (d =? 43)%N then (false, r0)
                        else (false, r)
                    | [] => (false, r)
                    end in
                  let '(v, n, r') := digits 0 0 r1 in
                  match n with
                  | O => None
                  | S _ => Some ((if eneg then - v else v)%Z, r')
                  end
                else Some (0%Z, s3)
            | [] => Some (0%Z, s3)
            end in
          match exp_part with
          | None => None
          | Some (ev, s4) =>
              Some (JNumber (if neg then - mv else mv)%Z
                            (ev - Z.of_nat fn)%Z, s4)
          end
      end
  end.

(** Creating a property: a repeated key keeps its place and takes the
    later value. *)
Fixpoint obj_set (k : jsstring) (v : json) (o : list (jsstring * json))
  : list (jsstring * json) :=
  match o with
  | [] => [(k, v)]
  | (k', v') :: o' =>
      if str_eqb k' k then (k', v) :: o' else (k', v') :: obj_set k v o'
  end.

Fixpoint obj_get (k : jsstring) (o : list (jsstring * json)) : option json :=
  match o with
  | [] => None
  | (k', v) :: o' => if str_eqb k' k then Some v else obj_get k o'
  end.

(** Recursive descent; every call consumes input, so a fuel above the
    length of the text is never used up (see [parse_value_fuel]). *)
Fixpoint parse_value (fuel : nat) (s : jsstring) {struct fuel}
  : option (json * jsstring) :=
  match fuel with
  | O => None
  | S fuel' =>
      match s with
      | [] => None
      | c :: r =>
          if (c =? 123)%N then            (* { *)
            match skip_ws r with
            | [] => None
            | d :: r' =>
                if (d =? 125)%N then Some (JObject [], r')
                else
                  match parse_members fuel' [] (d :: r') with
                  | Some (o, r'') => Some (JObject o, r'')
                  | None => None
                  end
            end
          else if (c =? 91)%N then        (* [ *)
            match skip_ws r with
            | [] => None
            | d :: r' =>
                if (d =? 93)%N then Some (JArray [], r')
                else
                  match parse_elements fuel' [] (d :: r') with
                  | Some (a, r'') => Some (JArray a, r'')
                  | None => None
                  end
            end
          else if (c =? 34)%N then        (* string *)
            match parse_chars r with
            | Some (str, r') => Some (JString str, r')
            | None => None
            end
          else if startsWith s (lit "true") then Some (JBool true, skipn 4 s)
          else if startsWith s (lit "false") then Some (JBool false, skipn 5 s)
          else if startsWith s (lit "null") then Some (JNull, skipn 4 s)
          else parse_number s
      end
  end

(** The members of an object, from the first key to the closing
    brace; [acc] holds the properties created so far. *)
with parse_members (fuel : nat) (acc : list (jsstring * json))
                   (s : jsstring) {struct fuel}
  : option (list (jsstring * json) * jsstring) :=
  match fuel with
  | O => None
  | S fuel' =>
      match s with
      | [] => None
      | q :: r =>
          if (q =? 34)%N then
            match parse_chars r with
            | None => None
            | Some (k, r1) =>
                match skip_ws r1 with
                | [] => None
                | colon :: r2 =>
                    if (colon =? 58)%N then
                      match parse_value fuel' (skip_ws r2) with
                      | None => None
                      | Some (v, r3) =>
                          let acc' := obj_set k v acc in
                          match skip_ws r3 with
                          | [] => None
                          | d :: r4 =>
                              if (d =? 125)%N then Some (acc', r4)
                              else if (d =? 44)%N
                                   then parse_members fuel' acc' (skip_ws r4)
                                   else None
                          end
                      end
                    else None
                end
            end
          else None
      end
  end

(** The elements of an array, from the first element to the closing
    bracket. *)
with parse_elements (fuel : nat) (acc : list json) (s : jsstring)
                    {struct fuel}
  : option (list json * jsstring) :=
  match fuel with
  | O => None
  | S fuel' =>
      match parse_value fuel' s with
      | None => None
      | Some (v, r) =>
          let acc' := acc ++ [v] in
          match skip_ws r with
          | [] => None
          | d :: r1 =>
              if (d =? 93)%N then Some (acc', r1)
              else if (d =? 44)%N
                   then parse_elements fuel' acc' (skip_ws r1)
                   else None
          end
      end
  end.

(** [JSON.parse(text)]; [None] is the raised SyntaxError. *)
Definition parse (text : jsstring) : option json :=
  match parse_value (2 * length text + 2) (skip_ws text) with
  | Some (v, rest) =>
      match skip_ws rest with
      | [] => Some v
      | _ :: _ => None
      end
  | None => None
  end.

(** *** Values at run time *)

(** [!!v] for a parsed value.  A number literal is falsy when its
    double is zero: the decimal is zero or rounds to zero, which is
    [|m * 10^e| <= 2^-1075]. *)
Definition number_is_zero (m e : Z) : bool :=
  ((m =? 0) ||
   ((e <? 0) && (Z.abs m * 2 ^ 1075 <=? 10 ^ (- e))))%Z.

Definition truthy (v : json) : bool :=
  match v with
  | JNull => false
  | JBool b => b
  | JNumber m e => negb (number_is_zero m e)
  | JString s => nonempty s
  | JArray _ => true
  | JObject _ => true
  end.

(** [v.k] for a property name [k] that no prototype defines:
    [undefined] is [None]; reading a property of [null] raises. *)
Definition get_prop (v : json) (k : jsstring) : exc (option json) :=
  match v with
  | JNull => Throw
  | JObject o => Ok (obj_get k o)
  | _ => Ok None
  end.

End Json.

Import Json.

(* ================================================================== *)
(** ** Data model and storage ([models/*.ts], [utils/db.ts])          *)
(* ================================================================== *)

Module Track.
Record t : Type := mk {
  id : jsstring;
  title : jsstring;
  artist : jsstring;
  artistId : jsstring;
  album : jsstring;
  duration : Z;
  addedAt : jsstring
}.
End Track.

Module Playlist.
(** [trackIds] is the playlist in position order. *)
Record t : Type := mk {
  id : jsstring;
  name : jsstring;
  trackIds : list jsstring;
  createdAt : jsstring;
  updatedAt : jsstring
}.
End Playlist.

Module Artist.
Record t : Type := mk {
  id : jsstring;
  name : jsstring;
  keywords : jsstring
}.
End Artist.

Module Db.

(** The state of the database as the queries see it: [tracks] lists
    the rows of the table in the order of [ORDER BY added_at DESC]
    (newest first), [playlists] in the order of
    [ORDER BY created_at DESC].  [like pattern text] is the LIKE
    operator of the engine. *)
Record t : Type := mk {
  tracks : list Track.t;
  playlists : list Playlist.t;
  artists : list Artist.t;
  like : jsstring -> jsstring -> bool
}.

Definition getTracks (db : t) : list Track.t := tracks db.

Definition getTrackIds (db : t) : list jsstring := map Track.id (tracks db).

Definition getTracksByArtistId (db : t) (artistId : jsstring)
  : list Track.t :=
  filter (fun tr => str_eqb (Track.artistId tr) artistId) (tracks db).

Definition getTrack (db : t) (id : jsstring) : option Track.t :=
  find (fun tr => str_eqb (Track.id tr) id) (tracks db).

Definition getPlaylist (db : t) (id : jsstring) : option Playlist.t :=
  find (fun pl => str_eqb (Playlist.id pl) id) (playlists db).

(** The join of a playlist's rows with [tracks], in position order. *)
Definition getPlaylistTracks (db : t) (playlistId : jsstring)
  : list Track.t :=
  match getPlaylist db playlistId with
  | None => []
  | Some pl =>
      flat_map (fun i => match getTrack db i with
                         | Some tr => [tr]
                         | None => []
                         end)
               (Playlist.trackIds pl)
  end.

(** The class [\s] of a regular expression. *)
Definition is_space (c : N) : bool :=
  ((c =? 9) || (c =? 10) || (c =? 11) || (c =? 12) || (c =? 13)
   || (c =? 32) || (c =? 160) || (c =? 5760)
   || ((8192 <=? c) && (c <=? 8202))
   || (c =? 8232) || (c =? 8233) || (c =? 8239) || (c =? 8287)
   || (c =? 12288) || (c =? 65279))%N.

(** [query.replace] of every run of [\s] by the empty string. *)
Definition normalized (query : jsstring) : jsstring :=
  filter (fun c => negb (is_space c)) query.

(** [REPLACE(x, ' ', '')] *)
Definition no_blank (x : jsstring) : jsstring :=
  filter (fun c => negb (c =? 32)%N) x.

Definition pattern (q : jsstring) : jsstring := lit "%" ++ q ++ lit "%".

Definition searchTracksByTitle (db : t) (query : jsstring) : list Track.t :=
  filter (fun tr => like db (pattern (normalized query))
                            (no_blank (Track.title tr)))
         (tracks db).

Definition searchTracksByArtist (db : t) (query : jsstring)
  : list Track.t :=
  flat_map
    (fun tr =>
       map (fun _ => tr)
           (filter (fun a =>
                      str_eqb (Track.artistId tr) (Artist.id a) &&
                      (like db (pattern (normalized query))
                               (no_blank (Artist.name a)) ||
                       like db (pattern (normalized query))
                               (no_blank (Artist.keywords a))))
                   (artists db)))
    (tracks db).

Definition searchPlaylistsByName (db : t) (query : jsstring)
  : list Playlist.t :=
  filter (fun pl => like db (pattern query) (Playlist.name pl))
         (playlists db).

End Db.

(* ================================================================== *)
(** ** Token codec and response builders ([utils/alexa-response.ts])  *)
(* ================================================================== *)

Module AlexaResponse.

Record PlaybackToken : Type := mkToken {
  trackId : jsstring;
  context : jsstring
}.

(** The value of an object literal [{ trackId, context }]. *)
Definition token_json (t : PlaybackToken) : json :=
  JObject [(lit "trackId", JString (trackId t));
           (lit "context", JString (context t))].

(** [JSON.stringify] of that object: its two properties in creation
    order. *)
Definition stringify_token (t : PlaybackToken) : jsstring :=
  lit "{" ++ quote (lit "trackId") ++ lit ":" ++ quote (trackId t)
  ++ lit "," ++ quote (lit "context") ++ lit ":" ++ quote (context t)
  ++ lit "}".

(** [btoa(JSON.stringify(token))]; [None] when [btoa] raises. *)
Definition encodeToken (token : PlaybackToken) : option jsstring :=
  btoa (stringify_token token).

(** [try { return JSON.parse(atob(raw)) } catch { return null }]:
    the parsed value is returned as it is. *)
Definition decodeToken (raw : jsstring) : json :=
  match atob raw with
  | None => JNull
  | Some text =>
      match parse text with
      | None => JNull
      | Some v => v
      end
  end.

Inductive PlayBehavior : Type := REPLACE_ALL | ENQUEUE | REPLACE_ENQUEUED.

Record Stream : Type := mkStream {
  url : jsstring;
  token : jsstring;
  offsetInMilliseconds : Z;
  expectedPreviousToken : option jsstring
}.

Record PlayDirective : Type := mkPlay {
  playBehavior : PlayBehavior;
  stream : Stream;
  meta_title : jsstring;
  meta_subtitle : jsstring;
  meta_art : jsstring
}.

(** The [response] member of a reply (the [version] is always 1.0). *)
Inductive Response : Type :=
| Play (directive : PlayDirective) (outputSpeech : option jsstring)
| Stop
| Speech (text : jsstring) (shouldEndSession : bool)
| Empty.

Definition buildPlayResponse (track : Track.t) (mp3Url artUrl : jsstring)
    (token : PlaybackToken) (behavior : PlayBehavior) (offsetMs : Z)
    (expectedPreviousToken speechText : option jsstring) : exc Response :=
  match encodeToken token with
  | None => Throw
  | Some encodedToken =>
      Ok (Play
            {| playBehavior := behavior;
               stream :=
                 {| url := mp3Url;
                    token := encodedToken;
                    offsetInMilliseconds := offsetMs;
                    expectedPreviousToken :=
                      match behavior with
                      | ENQUEUE => if_some_truthy expectedPreviousToken
                      | _ => None
                      end |};
               meta_title := Track.title track;
               meta_subtitle := Track.artist track;
               meta_art := artUrl |}
            (if_some_truthy speechText))
  end.

Definition buildStopResponse : Response := Stop.

Definition buildSpeechResponse (text : jsstring) (shouldEndSession : bool)
  : Response := Speech text shouldEndSession.

Definition buildEmptyResponse : Response := Empty.

End AlexaResponse.

(* ================================================================== *)
(** ** Adjacency for the Lambda ([handlers/resolve-handler.ts])       *)
(* ================================================================== *)

Module ResolveHandler.

(** The JSON body of a reply of [/api/resolve]. *)
Record ResolveResult : Type := mkResolve {
  found : option bool;
  track : option Track.t;
  tracks : option (list Track.t);
  playlist : option Playlist.t;
  totalCount : option Z
}.

(** The JSON body of a reply of [/api/next] and [/api/previous]. *)
Record NextPrevResult : Type := mkNextPrev {
  hasNext : option bool;
  hasPrevious : option bool;
  hasFurtherNext : option bool;
  np_track : option Track.t
}.

Definition resolve_body (f : bool) (tr : option Track.t)
    (trs : option (list Track.t)) (pl : option Playlist.t)
    (n : option Z) : ResolveResult :=
  {| found := Some f; track := tr; tracks := trs; playlist := pl;
     totalCount := n |}.

(** The body [{ error: ... }]. *)
Definition error_body : ResolveResult :=
  {| found := None; track := None; tracks := None; playlist := None;
     totalCount := None |}.

Definition handleResolveEntity (db : Db.t) (entityId entityType : jsstring)
  : Z * ResolveResult :=
  if str_eqb entityType (lit "ALL")
     || (negb (nonempty entityId) && negb (nonempty entityType))
  then
    let tracks := Db.getTracks db in
    if (len tracks =? 0)%Z
    then (404, resolve_body false None None None None)%Z
    else (200, resolve_body true None (Some tracks) None
                            (Some (len tracks)))%Z
  else if str_eqb entityType (lit "TRACK") then
    match Db.getTrack db entityId with
    | None => (404, resolve_body false None None None None)%Z
    | Some tr => (200, resolve_body true (Some tr) None None (Some 1))%Z
    end
  else if str_eqb entityType (lit "ARTIST") then
    let tracks := Db.getTracksByArtistId db entityId in
    if (len tracks =? 0)%Z
    then (404, resolve_body false None None None None)%Z
    else (200, resolve_body true None (Some tracks) None
                            (Some (len tracks)))%Z
  else if str_eqb entityType (lit "PLAYLIST") then
    match Db.getPlaylist db entityId with
    | None => (404, resolve_body false None None None None)%Z
    | Some pl =>
        let tracks := Db.getPlaylistTracks db entityId in
        (200, resolve_body true None (Some tracks) (Some pl)
                           (Some (len tracks)))%Z
    end
  else (400, error_body)%Z.

(** [let trackList] of both handlers: the playlist's ids when a
    truthy [playlistId] is given, all ids otherwise; [None] when the
    playlist does not exist. *)
Definition trackListOf (db : Db.t) (playlistId : option jsstring)
  : option (list jsstring) :=
  match if_some_truthy playlistId with
  | Some pid =>
      match Db.getPlaylist db pid with
      | None => None
      | Some pl => Some (Playlist.trackIds pl)
      end
  | None => Some (Db.getTrackIds db)
  end.

Definition next_body (h : bool) (tr : option Track.t) (f : option bool)
  : NextPrevResult :=
  {| hasNext := Some h; hasPrevious := None; hasFurtherNext := f;
     np_track := tr |}.

Definition prev_body (h : bool) (tr : option Track.t) (n : option bool)
  : NextPrevResult :=
  {| hasNext := n; hasPrevious := Some h; hasFurtherNext := None;
     np_track := tr |}.

Definition handleGetNextTrack (db : Db.t) (currentTrackId : jsstring)
    (playlistId : option jsstring) : Z * NextPrevResult :=
  match trackListOf db playlistId with
  | None => (404, next_body false None None)%Z
  | Some trackList =>
      let currentIndex := indexOf trackList currentTrackId in
      if ((currentIndex =? -1) || (currentIndex >=? len trackList - 1))%Z
      then (200, next_body false None None)%Z
      else
        match at_index trackList (currentIndex + 1) with
        | None => (200, next_body false None None)%Z
        | Some nextTrackId =>
            if negb (nonempty nextTrackId)
            then (200, next_body false None None)%Z
            else
              match Db.getTrack db nextTrackId with
              | None => (200, next_body false None None)%Z
              | Some nextTrack =>
                  let hasFurtherNext :=
                    (currentIndex + 1 <? len trackList - 1)%Z in
                  (200, next_body true (Some nextTrack)
                                  (Some hasFurtherNext))%Z
              end
        end
  end.

Definition handleGetPreviousTrack (db : Db.t) (currentTrackId : jsstring)
    (playlistId : option jsstring) : Z * NextPrevResult :=
  match trackListOf db playlistId with
  | None => (404, prev_body false None None)%Z
  | Some trackList =>
      let currentIndex := indexOf trackList currentTrackId in
      if (currentIndex <=? 0)%Z
      then (200, prev_body false None None)%Z
      else
        match at_index trackList (currentIndex - 1) with
        | None => (200, prev_body false None None)%Z
        | Some prevTrackId =>
            if negb (nonempty prevTrackId)
            then (200, prev_body false None None)%Z
            else
              match Db.getTrack db prevTrackId with
              | None => (200, prev_body false None None)%Z
              | Some prevTrack =>
                  let hasNextFromHere :=
                    (currentIndex - 1 <? len trackList - 1)%Z in
                  (200, prev_body true (Some prevTrack)
                                  (Some hasNextFromHere))%Z
              end
        end
  end.

End ResolveHandler.


(* ================================================================== *)
(** ** Directive flow ([handlers/alexa-handler.ts])                   *)
(* ================================================================== *)

Module AlexaHandler.

Import AlexaResponse.

Record UrlBuilder : Type := mkUrl {
  mp3 : jsstring -> jsstring;
  art : jsstring -> jsstring
}.

(** [request] of an Alexa request, with the members the handlers
    read. *)
Record Request : Type := mkRequest {
  type : jsstring;
  req_token : option jsstring
}.

(** [context.AudioPlayer] *)
Record AudioPlayer : Type := mkAudioPlayer {
  ap_token : option jsstring;
  ap_offsetInMilliseconds : option Z
}.

Inductive Direction : Type := next | previous.

(** Messages of the skill, as UTF-16 code units. *)
Definition msg_not_found : jsstring :=          (* " が見つかりませんでした。" *)
  [32; 12364; 35211; 12388; 12363; 12426; 12414; 12379; 12435; 12391;
   12375; 12383; 12290]%N.
Definition msg_will_play : jsstring :=          (* " を再生します。" *)
  [32; 12434; 20877; 29983; 12375; 12414; 12377; 12290]%N.
Definition msg_artist_not_found : jsstring :=   (* " の曲が見つかりませんでした。" *)
  [32; 12398; 26354; 12364; 35211; 12388; 12363; 12426; 12414; 12379;
   12435; 12391; 12375; 12383; 12290]%N.
Definition msg_artist_will_play : jsstring :=   (* " の曲を再生します。" *)
  [32; 12398; 26354; 12434; 20877; 29983; 12375; 12414; 12377; 12290]%N.
Definition msg_say_playlist : jsstring :=       (* "プレイリスト名を言ってください。" *)
  [12503; 12524; 12452; 12522; 12473; 12488; 21517; 12434; 35328; 12387;
   12390; 12367; 12384; 12373; 12356; 12290]%N.
Definition msg_open_quote : jsstring := [12300]%N.   (* "「" *)
Definition msg_playlist_not_found : jsstring := (* "」というプレイリストが見つかりませんでした。" *)
  [12301; 12392; 12356; 12358; 12503; 12524; 12452; 12522; 12473; 12488;
   12364; 35211; 12388; 12363; 12426; 12414; 12379; 12435; 12391; 12375;
   12383; 12290]%N.
Definition msg_playlist_empty : jsstring :=     (* "プレイリストに曲が含まれていません。" *)
  [12503; 12524; 12452; 12522; 12473; 12488; 12395; 26354; 12364; 21547;
   12414; 12428; 12390; 12356; 12414; 12379; 12435; 12290]%N.
Definition msg_playlist : jsstring :=           (* "プレイリスト " *)
  [12503; 12524; 12452; 12522; 12473; 12488; 32]%N.
Definition msg_nothing_to_play : jsstring :=    (* "再生できる曲がありません。" *)
  [20877; 29983; 12391; 12365; 12427; 26354; 12364; 12354; 12426; 12414;
   12379; 12435; 12290]%N.
Definition msg_nothing_playing : jsstring :=    (* "現在再生中の曲がありません。" *)
  [29694; 22312; 20877; 29983; 20013; 12398; 26354; 12364; 12354; 12426;
   12414; 12379; 12435; 12290]%N.
Definition msg_no_next : jsstring :=            (* "次の曲はありません。" *)
  [27425; 12398; 26354; 12399; 12354; 12426; 12414; 12379; 12435; 12290]%N.
Definition msg_no_previous : jsstring :=        (* "前の曲はありません。" *)
  [21069; 12398; 26354; 12399; 12354; 12426; 12414; 12379; 12435; 12290]%N.

Definition handlePlayAllIntent (db : Db.t) (urlBuilder : UrlBuilder)
  : exc Response :=
  match Db.getTracks db with
  | [] => Ok (buildSpeechResponse msg_nothing_to_play false)
  | first :: _ =>
      buildPlayResponse first
        (mp3 urlBuilder (Track.id first)) (art urlBuilder (Track.id first))
        {| trackId := Track.id first; context := lit "all" |}
        REPLACE_ALL 0 None
        (Some (Track.title first ++ msg_will_play))
  end.

Definition handlePlaySongIntent (db : Db.t) (songName : option jsstring)
    (urlBuilder : UrlBuilder) : exc Response :=
  match if_some_truthy songName with
  | None => handlePlayAllIntent db urlBuilder
  | Some songName =>
      match Db.searchTracksByTitle db songName with
      | [] => Ok (buildSpeechResponse (songName ++ msg_not_found) false)
      | first :: _ =>
          buildPlayResponse first
            (mp3 urlBuilder (Track.id first))
            (art urlBuilder (Track.id first))
            {| trackId := Track.id first; context := lit "single" |}
            REPLACE_ALL 0 None
            (Some (Track.title first ++ msg_will_play))
      end
  end.

Definition handlePlayArtistIntent (db : Db.t) (artistName : option jsstring)
    (urlBuilder : UrlBuilder) : exc Response :=
  match if_some_truthy artistName with
  | None => handlePlayAllIntent db urlBuilder
  | Some artistName =>
      match Db.searchTracksByArtist db artistName with
      | [] =>
          Ok (buildSpeechResponse (artistName ++ msg_artist_not_found) false)
      | first :: _ =>
          buildPlayResponse first
            (mp3 urlBuilder (Track.id first))
            (art urlBuilder (Track.id first))
            {| trackId := Track.id first;
               context := lit "artist::" ++ Track.artistId first |}
            REPLACE_ALL 0 None
            (Some (Track.artist first ++ msg_artist_will_play))
      end
  end.

Definition handlePlayPlaylistIntent (db : Db.t)
    (playlistName : option jsstring) (urlBuilder : UrlBuilder)
  : exc Response :=
  match if_some_truthy playlistName with
  | None => Ok (buildSpeechResponse msg_say_playlist false)
  | Some playlistName =>
      let not_found :=
        Ok (buildSpeechResponse
              (msg_open_quote ++ playlistName ++ msg_playlist_not_found)
              false) in
      match Db.searchPlaylistsByName db playlistName with
      | [] => not_found
      | pl :: _ =>
          if (len (Playlist.trackIds pl) =? 0)%Z then not_found
          else
            match Db.getPlaylistTracks db (Playlist.id pl) with
            | [] => Ok (buildSpeechResponse msg_playlist_empty false)
            | first :: _ =>
                buildPlayResponse first
                  (mp3 urlBuilder (Track.id first))
                  (art urlBuilder (Track.id first))
                  {| trackId := Track.id first;
                     context := lit "playlist::" ++ Playlist.id pl |}
                  REPLACE_ALL 0 None
                  (Some (msg_playlist ++ Playlist.name pl ++ msg_will_play))
            end
      end
  end.

(** [let trackList] of [findAdjacentTrack] for a context that is not
    ["single"]; [None] when the playlist does not exist. *)
Definition contextTrackList (db : Db.t) (context : jsstring)
  : option (list jsstring) :=
  if startsWith context (lit "playlist::") then
    match Db.getPlaylist db (slice 10 context) with
    | None => None
    | Some pl => Some (Playlist.trackIds pl)
    end
  else if startsWith context (lit "artist::") then
    Some (map Track.id (Db.getTracksByArtistId db (slice 8 context)))
  else Some (Db.getTrackIds db).

(** [trackList.indexOf(v)] for a value read from the token: only a
    string can be found in an array of strings. *)
Definition indexOf_value (trackList : list jsstring) (v : option json) : Z :=
  match v with
  | Some (JString x) => indexOf trackList x
  | _ => (-1)%Z
  end.

(** [token] is the value that [decodeToken] returned.  Calling
    [startsWith] on a [context] that is not a string raises. *)
Definition findAdjacentTrack (db : Db.t) (token : json)
    (direction : Direction) : exc (option Track.t) :=
  (let! context := get_prop token (lit "context") in
   match context with
   | Some (JString context) =>
       if str_eqb context (lit "single") then Ok None
       else
         match contextTrackList db context with
         | None => Ok None
         | Some trackList =>
             let! trackId := get_prop token (lit "trackId") in
             let currentIndex := indexOf_value trackList trackId in
             if (currentIndex =? -1)%Z then Ok None
             else
               let targetIndex :=
                 match direction with
                 | next => (currentIndex + 1)%Z
                 | previous => (currentIndex - 1)%Z
                 end in
               match if_some_truthy (at_index trackList targetIndex) with
               | None => Ok None
               | Some targetId => Ok (Db.getTrack db targetId)
               end
         end
   | _ => Throw
   end)%exc.

(** [token.context] where the new token is built: a string whenever
    [findAdjacentTrack] has returned. *)
Definition context_of (token : json) : exc jsstring :=
  (let! context := get_prop token (lit "context") in
   match context with
   | Some (JString c) => Ok c
   | _ => Throw
   end)%exc.

Definition decode_if_present (raw : option jsstring) : json :=
  match if_some_truthy raw with
  | Some r => decodeToken r
  | None => JNull
  end.

Definition handleNavigateIntent (db : Db.t) (audioPlayer : option AudioPlayer)
    (urlBuilder : UrlBuilder) (direction : Direction) : exc Response :=
  let token :=
    decode_if_present
      (match audioPlayer with Some a => ap_token a | None => None end) in
  if negb (truthy token)
  then Ok (buildSpeechResponse msg_nothing_playing false)
  else
    (let! adjacent := findAdjacentTrack db token direction in
     match adjacent with
     | None =>
         Ok (buildSpeechResponse
               (match direction with
                | next => msg_no_next
                | previous => msg_no_previous
                end) false)
     | Some adjacent =>
         let! context := context_of token in
         buildPlayResponse adjacent
           (mp3 urlBuilder (Track.id adjacent))
           (art urlBuilder (Track.id adjacent))
           {| trackId := Track.id adjacent; context := context |}
           REPLACE_ALL 0 None None
     end)%exc.

Definition handleAudioPlayerEvent (db : Db.t) (request : Request)
    (urlBuilder : UrlBuilder) : exc Response :=
  if str_eqb (type request) (lit "AudioPlayer.PlaybackNearlyFinished") then
    match if_some_truthy (req_token request) with
    | None => Ok buildEmptyResponse
    | Some currentToken =>
        let token := decodeToken currentToken in
        if negb (truthy token) then Ok buildEmptyResponse
        else
          (let! nextTrack := findAdjacentTrack db token next in
           match nextTrack with
           | None => Ok buildEmptyResponse
           | Some nextTrack =>
               let! context := context_of token in
               buildPlayResponse nextTrack
                 (mp3 urlBuilder (Track.id nextTrack))
                 (art urlBuilder (Track.id nextTrack))
                 {| trackId := Track.id nextTrack; context := context |}
                 ENQUEUE 0 (Some currentToken) None
           end)%exc
    end
  else Ok buildEmptyResponse.

(** The reply of [handleAlexaRoute] ([server.ts]) for the outcome of
    the handler: its [try { ... } catch { ... }] answers a raised error
    by the empty reply, [{ version: "1.0", response: {} }]. *)
Definition routeReply (outcome : exc Response) : Response :=
  match outcome with
  | Ok r => r
  | Throw => Empty
  end.

End AlexaHandler.

(* ================================================================== *)
(** ** Remote-resolution flow (the Lambda)                            *)
(* ================================================================== *)

Module Lambda.

Import ResolveHandler.

(** *** [clients/partykit-client.ts]: the calls reach the handlers of
    the server; [res.ok] is a status from 200 to 299. *)

Definition ok (status : Z) : bool := ((200 <=? status) && (status <=? 299))%Z.

Definition resolveEntity (db : Db.t) (entityId entityType : jsstring)
  : ResolveResult :=
  let (status, body) := handleResolveEntity db entityId entityType in
  if ok status then body else resolve_body false None None None None.

Definition getNextTrack (db : Db.t) (currentTrackId : jsstring)
    (playlistId : option jsstring) : NextPrevResult :=
  let (status, body) := handleGetNextTrack db currentTrackId playlistId in
  if ok status then body else next_body false None None.

Definition getPreviousTrack (db : Db.t) (currentTrackId : jsstring)
    (playlistId : option jsstring) : NextPrevResult :=
  let (status, body) := handleGetPreviousTrack db currentTrackId playlistId in
  if ok status then body
  else {| hasNext := None; hasPrevious := Some false;
          hasFurtherNext := None; np_track := None |}.

(** The two URL builders of the client. *)
Record Urls : Type := mkUrls {
  buildMp3Url : jsstring -> jsstring;
  buildArtUrl : jsstring -> jsstring
}.

(** *** [utils/response-builder.ts] *)

Record Control : Type := mkControl {
  control_name : jsstring;
  enabled : bool
}.

Record Item : Type := mkItem {
  item_id : jsstring;
  item_name : jsstring;
  item_art : jsstring;
  controls : list Control;
  stream_id : jsstring;
  stream_uri : jsstring;
  stream_offsetInMilliseconds : Z
}.

(** The payload of a reply; the header holds a fresh [messageId]. *)
Inductive Response : Type :=
| GetPlayableContentResponse (contentId : jsstring)
| ContentNotFound
| InitiateResponse (queueId : jsstring) (firstItem : Item)
| ItemResponse (item : Item) (isQueueFinished : bool)
| QueueFinished.

Definition buildItem (u : Urls) (track : Track.t) (mp3Url : jsstring)
    (hasNext : bool) : Item :=
  {| item_id := Track.id track;
     item_name := Track.title track;
     item_art := buildArtUrl u (Track.id track);
     controls := [ {| control_name := lit "NEXT"; enabled := hasNext |};
                   {| control_name := lit "PREVIOUS"; enabled := true |} ];
     stream_id := lit "stream-" ++ Track.id track;
     stream_uri := mp3Url;
     stream_offsetInMilliseconds := 0 |}.

Definition buildGetPlayableContentResponse (contentId : jsstring)
  : Response := GetPlayableContentResponse contentId.

Definition buildContentNotFoundResponse : Response := ContentNotFound.

Definition buildInitiateResponse (u : Urls) (track : Track.t)
    (mp3Url queueId : jsstring) (hasNext : bool) : Response :=
  InitiateResponse queueId (buildItem u track mp3Url hasNext).

Definition buildItemResponse (u : Urls) (track : Track.t)
    (mp3Url : jsstring) (hasMore isLast : bool) : Response :=
  ItemResponse (buildItem u track mp3Url hasMore) isLast.

Definition buildQueueFinishedResponse : Response := QueueFinished.

Definition flag (b : option bool) : bool :=
  match b with Some x => x | None => false end.

(** *** [handlers/get-playable-content.ts] *)

Record SelectionAttribute : Type := mkAttribute {
  attr_type : jsstring;
  attr_entityId : jsstring
}.

Definition is_entity_type (t : jsstring) : bool :=
  str_eqb t (lit "TRACK") || str_eqb t (lit "ARTIST")
  || str_eqb t (lit "PLAYLIST").

(** [toLowerCase] on a string of ASCII letters, which the three entity
    types are. *)
Definition toLowerCase (s : jsstring) : jsstring :=
  map (fun c => if ((65 <=? c) && (c <=? 90))%N then (c + 32)%N else c) s.

(** [attributes] is [payload.selectionCriteria?.attributes ?? []]. *)
Definition handleGetPlayableContent (db : Db.t)
    (attributes : list SelectionAttribute) : Response :=
  let selected := find (fun a => is_entity_type (attr_type a)) attributes in
  let entityId := option_map attr_entityId selected in
  let entityType :=
    match selected with
    | Some a => attr_type a
    | None => lit "TRACK"
    end in
  match if_some_truthy entityId with
  | None =>
      let result := resolveEntity db [] (lit "ALL") in
      if negb (flag (found result)) then buildContentNotFoundResponse
      else buildGetPlayableContentResponse (lit "content::all::")
  | Some entityId =>
      let result := resolveEntity db entityId entityType in
      if negb (flag (found result)) then buildContentNotFoundResponse
      else buildGetPlayableContentResponse
             (lit "content::" ++ toLowerCase entityType ++ lit "::"
              ++ entityId)
  end.

(** *** [handlers/initiate.ts] *)

(** The parse of [contentId] into [type] and [entityId]. *)
Definition parseContentId (contentId : jsstring) : jsstring * jsstring :=
  if includes contentId (lit "::") then
    let segments := split contentId (lit "::") in
    (match at_index segments 1 with Some x => x | None => [] end,
     join (skipn 2 segments) (lit "::"))
  else if str_eqb contentId (lit "content-all") then (lit "all", [])
  else
    let parts := split contentId (lit "-") in
    (match at_index parts 1 with Some x => x | None => [] end,
     join (skipn 2 parts) (lit "-")).

(** [!result.found || !result.tracks?.length] *)
Definition no_tracks (result : ResolveResult) : bool :=
  negb (match found result with Some b => b | None => false end)
  || match tracks result with
     | Some l => (len l =? 0)%Z
     | None => true
     end.

Definition count_of (result : ResolveResult) (l : list Track.t) : Z :=
  match totalCount result with Some n => n | None => len l end.

(** The branches for a list of tracks: [None] is the early return of
    the not-found reply, otherwise [firstTrack] and [totalCount]. *)
Definition first_of_list (result : ResolveResult)
  : option (option Track.t * Z) :=
  if no_tracks result then None
  else
    match tracks result with
    | Some l => Some (nth_error l 0, count_of result l)
    | None => None
    end.

(** [now36] is [Date.now().toString(36)]. *)
Definition handleInitiate (db : Db.t) (u : Urls) (now36 : jsstring)
    (contentId : jsstring) : Response :=
  let queueId := lit "queue-" ++ now36 in
  let (type, entityId) := parseContentId contentId in
  let selected : option (option Track.t * Z) :=
    if str_eqb type (lit "all") then
      first_of_list (resolveEntity db [] (lit "ALL"))
    else if str_eqb type (lit "track") then
      let result := resolveEntity db entityId (lit "TRACK") in
      match found result, track result with
      | Some true, Some tr => Some (Some tr, 1%Z)
      | _, _ => None
      end
    else if str_eqb type (lit "artist") then
      first_of_list (resolveEntity db entityId (lit "ARTIST"))
    else if str_eqb type (lit "playlist") then
      first_of_list (resolveEntity db entityId (lit "PLAYLIST"))
    else Some (None, 0%Z) in
  match selected with
  | None => buildContentNotFoundResponse
  | Some (None, _) => buildContentNotFoundResponse
  | Some (Some firstTrack, totalCount) =>
      let hasNext := (totalCount >? 1)%Z in
      let mp3Url := buildMp3Url u (Track.id firstTrack) in
      buildInitiateResponse u firstTrack mp3Url queueId hasNext
  end.

(** *** [handlers/get-item.ts], [get-next-item.ts],
    [get-previous-item.ts] *)

(** [payload.currentItemReference?.value], flattened. *)
Record ItemPayload : Type := mkPayload {
  ref_id : option jsstring;
  ref_queueId : option jsstring
}.

Definition handleGetItem (db : Db.t) (u : Urls) (payload : ItemPayload)
  : Response :=
  match if_some_truthy (ref_id payload) with
  | None => buildQueueFinishedResponse
  | Some currentItemId =>
      let result := resolveEntity db currentItemId (lit "TRACK") in
      match found result, track result with
      | Some true, Some tr =>
          let mp3Url := buildMp3Url u (Track.id tr) in
          let nextResult := getNextTrack db (Track.id tr) None in
          let hasMore := flag (hasNext nextResult) in
          buildItemResponse u tr mp3Url hasMore (negb hasMore)
      | _, _ => buildQueueFinishedResponse
      end
  end.

Definition handleGetNextItem (db : Db.t) (u : Urls) (payload : ItemPayload)
  : Response :=
  match if_some_truthy (ref_id payload) with
  | None => buildQueueFinishedResponse
  | Some currentItemId =>
      let result := getNextTrack db currentItemId None in
      match flag (hasNext result), np_track result with
      | true, Some tr =>
          let mp3Url := buildMp3Url u (Track.id tr) in
          let hasMore := flag (hasFurtherNext result) in
          buildItemResponse u tr mp3Url hasMore (negb hasMore)
      | _, _ => buildQueueFinishedResponse
      end
  end.

Definition handleGetPreviousItem (db : Db.t) (u : Urls)
    (payload : ItemPayload) : Response :=
  match if_some_truthy (ref_id payload) with
  | None => buildQueueFinishedResponse
  | Some currentItemId =>
      let result := getPreviousTrack db currentItemId None in
      match flag (hasPrevious result), np_track result with
      | true, Some tr =>
          let mp3Url := buildMp3Url u (Track.id tr) in
          let hasMore := flag (hasNext result) in
          buildItemResponse u tr mp3Url hasMore (negb hasMore)
      | _, _ => buildQueueFinishedResponse
      end
  end.

End Lambda.

(* ================================================================== *)
(** ** Invariants of the stored identifiers                           *)
(* ================================================================== *)

(** Identifiers are made by [generateTrackId] (["track." + UUID]),
    [generatePlaylistId] (["pl." + UUID]) and [deriveArtistId]
    (["artist." + base-36 hash]): they are ASCII, so within Latin-1. *)

Definition latin1 (s : jsstring) : bool := forallb (fun c => (c <=? 255)%N) s.

(** The stored ids are within Latin-1. *)
Definition ids_latin1 (db : Db.t) : bool :=
  forallb (fun tr => latin1 (Track.id tr) && latin1 (Track.artistId tr))
          (Db.tracks db)
  && forallb (fun pl => latin1 (Playlist.id pl)) (Db.playlists db).

(** The tokens that the codec is meant for. *)
Definition valid_token (t : AlexaResponse.PlaybackToken) : bool :=
  latin1 (AlexaResponse.trackId t) && latin1 (AlexaResponse.context t).

(* ================================================================== *)
(** ** A small library, for examples                                  *)
(* ================================================================== *)

Module Demo.

Definition track (i ttl art : string) : Track.t :=
  {| Track.id := lit i; Track.title := lit ttl; Track.artist := lit art;
     Track.artistId := lit "artist." ++ lit art; Track.album := [];
     Track.duration := 180; Track.addedAt := [] |}.

Definition t1 : Track.t := track "track.1" "Aurora" "ann".
Definition t2 : Track.t := track "track.2" "Breeze" "bob".
Definition t3 : Track.t := track "track.3" "Comet" "ann".

(** A playlist that starts with the oldest track. *)
Definition mix : Playlist.t :=
  {| Playlist.id := lit "pl.mix"; Playlist.name := lit "Mix";
     Playlist.trackIds := [lit "track.3"; lit "track.1"];
     Playlist.createdAt := []; Playlist.updatedAt := [] |}.

(** A LIKE that matches a pattern [%q%] when [q] occurs in the text. *)
Definition occurs (pattern text : jsstring) : bool :=
  includes text (removelast (tl pattern)).

Definition db : Db.t :=
  {| Db.tracks := [t1; t2; t3];
     Db.playlists := [mix];
     Db.artists := [ {| Artist.id := lit "artist.ann"; Artist.name := lit "Ann";
                        Artist.keywords := [] |};
                     {| Artist.id := lit "artist.bob"; Artist.name := lit "Bob";
                        Artist.keywords := [] |} ];
     Db.like := occurs |}.

Definition urls : AlexaHandler.UrlBuilder :=
  {| AlexaHandler.mp3 := fun i => lit "/api/mp3/" ++ i ++ lit ".mp3";
     AlexaHandler.art := fun i => lit "/api/art/" ++ i ++ lit ".jpg" |}.

Definition client_urls : Lambda.Urls :=
  {| Lambda.buildMp3Url := fun i => lit "/api/mp3/" ++ i ++ lit ".mp3";
     Lambda.buildArtUrl := fun i => lit "/api/art/" ++ i ++ lit ".jpg" |}.

(** The token of track.1 in the context of all tracks, encoded. *)
Definition token1 : jsstring :=
  encode (AlexaResponse.stringify_token
            (AlexaResponse.mkToken (lit "track.1") (lit "all"))).

(** The same token as the skill sends it. *)
Definition token1_text : jsstring :=
  lit "eyJ0cmFja0lkIjoidHJhY2suMSIsImNvbnRleHQiOiJhbGwifQ==".

(** A hand-made token whose context is the escape of U+3042, a unit
    outside Latin-1. *)
Definition token_wide : jsstring :=
  lit "eyJ0cmFja0lkIjoidHJhY2suMSIsImNvbnRleHQiOiJcdTMwNDIifQ==".

(** A table with a row whose id is the empty string. *)
Definition db_blank : Db.t :=
  {| Db.tracks := [track "x" "X" "ann"; track "" "Y" "ann";
                   track "z" "Z" "ann"];
     Db.playlists := [];
     Db.artists := [];
     Db.like := occurs |}.

Definition nearlyFinished (raw : option jsstring) : AlexaHandler.Request :=
  {| AlexaHandler.type := lit "AudioPlayer.PlaybackNearlyFinished";
     AlexaHandler.req_token := raw |}.

End Demo.

(** ** Notions of the specification *)

(** An id resolves to a track when it is the id of a stored track; the
    empty string is no id (the handlers take it for a missing one). *)
Definition resolves (db : Db.t) (i : jsstring) (tr : Track.t) : Prop :=
  nonempty i = true /\ Db.getTrack db i = Some tr.

(** A current item that cannot be resolved: no id, or an id that
    resolves to no track. *)
Definition unresolvable (db : Db.t) (id : option jsstring) : Prop :=
  match id with
  | None => True
  | Some i => forall tr, ~ resolves db i tr
  end.

(** Context Resolver: the ordered sequence that a content reference
    stands for: every track, newest first; the tracks of an artist, in
    the same order; the tracks of a playlist, in position order; the
    one track of a track reference; nothing for another kind. *)
Definition resolvedSequence (db : Db.t) (kind entityId : jsstring)
  : list Track.t :=
  if str_eqb kind (lit "all") then Db.getTracks db
  else if str_eqb kind (lit "track") then
    match Db.getTrack db entityId with
    | Some tr => [tr]
    | None => []
    end
  else if str_eqb kind (lit "artist") then Db.getTracksByArtistId db entityId
  else if str_eqb kind (lit "playlist") then Db.getPlaylistTracks db entityId
  else [].

(** The kinds of a content reference. *)
Inductive Kind : Type := KAll | KTrack | KArtist | KPlaylist.

Definition kind_name (k : Kind) : jsstring :=
  match k with
  | KAll => lit "all"
  | KTrack => lit "track"
  | KArtist => lit "artist"
  | KPlaylist => lit "playlist"
  end.

(** The entity of a kind and an id is there to be played: a playlist
    that is stored, and for the other kinds a sequence that is not
    empty. *)
Definition selectable (db : Db.t) (k : Kind) (entityId : jsstring) : bool :=
  match k with
  | KPlaylist =>
      match Db.getPlaylist db entityId with
      | Some _ => true
      | None => false
      end
  | _ =>
      match resolvedSequence db (kind_name k) entityId with
      | [] => false
      | _ :: _ => true
      end
  end.

(** The two spellings of a content reference. *)
Definition currentFormat (k : Kind) (entityId : jsstring) : jsstring :=
  lit "content::" ++ kind_name k ++ lit "::" ++ entityId.

Definition legacyFormat (k : Kind) (entityId : jsstring) : jsstring :=
  lit "content-" ++ kind_name k ++ lit "-" ++ entityId.

(** An input that is the encoding of no token. *)
Definition malformed (raw : jsstring) : Prop :=
  forall t, AlexaResponse.encodeToken t <> Some raw.

(** The Play reply of the play intents: the queue is replaced and the
    track starts at its beginning. *)
Definition replaceAllReply (u : AlexaHandler.UrlBuilder) (tr : Track.t)
    (encodedToken speech : jsstring) : AlexaResponse.Response :=
  AlexaResponse.Play
    {| AlexaResponse.playBehavior := AlexaResponse.REPLACE_ALL;
       AlexaResponse.stream :=
         {| AlexaResponse.url := AlexaHandler.mp3 u (Track.id tr);
            AlexaResponse.token := encodedToken;
            AlexaResponse.offsetInMilliseconds := 0;
            AlexaResponse.expectedPreviousToken := None |};
       AlexaResponse.meta_title := Track.title tr;
       AlexaResponse.meta_subtitle := Track.artist tr;
       AlexaResponse.meta_art := AlexaHandler.art u (Track.id tr) |}
    (Some speech).


(** A decoded value that has the two string properties of a token. *)
Definition token_shaped (v : json) : Prop :=
  exists tid ctx,
    get_prop v (lit "trackId") = Ok (Some (JString tid)) /\
    get_prop v (lit "context") = Ok (Some (JString ctx)).

(** ** Auxiliary checks *)

(** What is checked of each of the 64 sextets: its character decodes
    to it, and is neither white space nor the padding sign. *)
Definition sextet_check (n : N) : bool :=
  match val_of (char_of n) with
  | Some m => (m =? n)%N
  | None => false
  end
  && negb (is_ascii_ws (char_of n)) && negb (char_of n =? pad)%N.

(** Code units are 16-bit. *)
Definition units (s : jsstring) : bool := forallb (fun c => (c <? 65536)%N) s.

(** Linear arithmetic with division and remainder by constants. *)
Ltac arith := intros; zify; Z.to_euclidean_division_equations; lia.

(* ================================================================== *)
(** ** [JSON.stringify] of a decoded value                            *)
(* ================================================================== *)

Module JsonText.

(** The value of a run of decimal digits. *)
Fixpoint decimal (acc : N) (s : jsstring) : option N :=
  match s with
  | [] => Some acc
  | c :: s' =>
      if is_digit c then decimal (acc * 10 + (c - 48))%N s' else None
  end.

(** A property key that is an array index: the canonical spelling of
    an integer from 0 to 2^32 - 2. *)
Definition array_index (k : jsstring) : option N :=
  match k with
  | [] => None
  | c :: r =>
      if ((c =? 48)%N && nonempty r) then None
      else
        match decimal 0 k with
        | Some n => if (n <? 4294967295)%N then Some n else None
        | None => None
        end
  end.

Section Keys.

Context {A : Type}.

Fixpoint insert_index (n : N) (p : jsstring * A)
    (l : list (N * (jsstring * A))) : list (N * (jsstring * A)) :=
  match l with
  | [] => [(n, p)]
  | (m, q) :: l' =>
      if (n <? m)%N then (n, p) :: l else (m, q) :: insert_index n p l'
  end.

(** The properties whose key is an array index, in ascending order. *)
Definition indexed (o : list (jsstring * A)) : list (N * (jsstring * A)) :=
  fold_right (fun p acc =>
                match array_index (fst p) with
                | Some n => insert_index n p acc
                | None => acc
                end) [] o.

(** The own properties in the order of enumeration: array indices
    first, in ascending order, then the other keys in creation
    order. *)
Definition own_properties (o : list (jsstring * A)) : list (jsstring * A) :=
  map snd (indexed o)
  ++ filter (fun p => match array_index (fst p) with
                      | Some _ => false
                      | None => true
                      end) o.

End Keys.

(** [JSON.stringify(v)] for a value that [JSON.parse] made.
    [number_text m e] is the text of the number that the literal
    [m * 10^e] denotes. *)
Fixpoint stringify (number_text : Z -> Z -> jsstring) (v : json) {struct v}
  : jsstring :=
  match v with
  | JNull => lit "null"
  | JBool b => if b then lit "true" else lit "false"
  | JNumber m e => number_text m e
  | JString s => quote s
  | JArray items =>
      lit "[" ++ join (map (stringify number_text) items) (lit ",")
      ++ lit "]"
  | JObject props =>
      lit "{"
      ++ join (map (fun p => quote (fst p) ++ lit ":" ++ snd p)
                 (own_properties
                    (map (fun p => match p with
                                   | (k, x) => (k, stringify number_text x)
                                   end) props)))
              (lit ",")
      ++ lit "}"
  end.

End JsonText.

(* ================================================================== *)
(** ** Requests of the skill ([handlers/alexa-handler.ts], continued) *)
(* ================================================================== *)

Module AlexaRouter.

Import AlexaResponse AlexaHandler JsonText.

(** What the platform does where the source does not say: the text of
    a number in [JSON.stringify], and the answer of the database
    driver to [getTrack] for an argument that is not a string. *)
Record Runtime : Type := mkRuntime {
  number_text : Z -> Z -> jsstring;
  getTrack_other : Db.t -> option json -> exc (option Track.t)
}.

(** [request.intent]: its name and [slots], a map from slot names to
    slots with an optional [value]. *)
Record Intent : Type := mkIntent {
  intent_name : jsstring;
  slots : option (list (jsstring * option jsstring))
}.

(** The body of a request: [request], [request.intent] and
    [context?.AudioPlayer]. *)
Record Body : Type := mkBody {
  request : Request;
  intent : option Intent;
  audioPlayer : option AudioPlayer
}.

Definition msg_launch : jsstring :=
  (* "音楽プレーヤーです。曲名やアーティスト名、プレイリスト名で再生できます。" *)
  [38899; 27005; 12503; 12524; 12540; 12516; 12540; 12391; 12377; 12290;
   26354; 21517; 12420; 12450; 12540; 12486; 12451; 12473; 12488; 21517;
   12289; 12503; 12524; 12452; 12522; 12473; 12488; 21517; 12391; 20877;
   29983; 12391; 12365; 12414; 12377; 12290]%N.
Definition msg_help : jsstring :=
  (* "曲名、アーティスト名、またはプレイリスト名を言ってください。例えば、ビリーロムの曲をかけて、と言ってみてください。" *)
  [26354; 21517; 12289; 12450; 12540; 12486; 12451; 12473; 12488; 21517;
   12289; 12414; 12383; 12399; 12503; 12524; 12452; 12522; 12473; 12488;
   21517; 12434; 35328; 12387; 12390; 12367; 12384; 12373; 12356; 12290;
   20363; 12360; 12400; 12289; 12499; 12522; 12540; 12525; 12512; 12398;
   26354; 12434; 12363; 12369; 12390; 12289; 12392; 35328; 12387; 12390;
   12415; 12390; 12367; 12384; 12373; 12356; 12290]%N.
Definition msg_default : jsstring :=
  (* "曲名やアーティスト名で再生できます。" *)
  [26354; 21517; 12420; 12450; 12540; 12486; 12451; 12473; 12488; 21517;
   12391; 20877; 29983; 12391; 12365; 12414; 12377; 12290]%N.

(** [slots[k]?.value] *)
Definition slot_value (i : Intent) (k : jsstring) : option jsstring :=
  match slots i with
  | None => None
  | Some l =>
      match find (fun p => str_eqb (fst p) k) l with
      | Some (_, v) => v
      | None => None
      end
  end.

(** [audioPlayer?.token] and [audioPlayer?.offsetInMilliseconds ?? 0] *)
Definition token_of (audioPlayer : option AudioPlayer) : option jsstring :=
  match audioPlayer with
  | Some a => ap_token a
  | None => None
  end.

Definition offset_of (audioPlayer : option AudioPlayer) : Z :=
  match audioPlayer with
  | Some a =>
      match ap_offsetInMilliseconds a with
      | Some o => o
      | None => 0%Z
      end
  | None => 0%Z
  end.

(** [db.getTrack(token.trackId)] for the [trackId] of a decoded
    value. *)
Definition getTrack_value (rt : Runtime) (db : Db.t) (v : option json)
  : exc (option Track.t) :=
  match v with
  | Some (JString id) => Ok (Db.getTrack db id)
  | _ => getTrack_other rt db v
  end.

(** [encodeToken] and [buildPlayResponse] where the token is the
    decoded value itself. *)
Definition encodeToken_value (rt : Runtime) (token : json)
  : option jsstring :=
  btoa (stringify (number_text rt) token).

Definition buildPlayResponse_value (rt : Runtime) (track : Track.t)
    (mp3Url artUrl : jsstring) (token : json) (behavior : PlayBehavior)
    (offsetMs : Z) (expectedPreviousToken speechText : option jsstring)
  : exc Response :=
  match encodeToken_value rt token with
  | None => Throw
  | Some encodedToken =>
      Ok (Play
            {| playBehavior := behavior;
               stream :=
                 {| url := mp3Url;
                    token := encodedToken;
                    offsetInMilliseconds := offsetMs;
                    expectedPreviousToken :=
                      match behavior with
                      | ENQUEUE => if_some_truthy expectedPreviousToken
                      | _ => None
                      end |};
               meta_title := Track.title track;
               meta_subtitle := Track.artist track;
               meta_art := artUrl |}
            (if_some_truthy speechText))
  end.

Definition handleResumeIntent (rt : Runtime)
    (audioPlayer : option AudioPlayer) (urlBuilder : UrlBuilder) (db : Db.t)
  : exc Response :=
  let token := decode_if_present (token_of audioPlayer) in
  let offset := offset_of audioPlayer in
  let from_the_start :=
    match Db.getTracks db with
    | [] => Ok (buildSpeechResponse msg_nothing_to_play false)
    | first :: _ =>
        buildPlayResponse first
          (mp3 urlBuilder (Track.id first)) (art urlBuilder (Track.id first))
          {| trackId := Track.id first; context := lit "all" |}
          REPLACE_ALL 0 None None
    end in
  if truthy token then
    (let! trackId := get_prop token (lit "trackId") in
     let! track := getTrack_value rt db trackId in
     match track with
     | Some track =>
         buildPlayResponse_value rt track
           (mp3 urlBuilder (Track.id track)) (art urlBuilder (Track.id track))
           token REPLACE_ALL offset None None
     | None => from_the_start
     end)%exc
  else from_the_start.

Definition handlePlaybackController (rt : Runtime) (db : Db.t)
    (audioPlayer : option AudioPlayer) (urlBuilder : UrlBuilder)
    (requestType : jsstring) : exc Response :=
  let token := decode_if_present (token_of audioPlayer) in
  let step (direction : Direction) : exc Response :=
    if negb (truthy token) then Ok buildEmptyResponse
    else
      (let! adjacent := findAdjacentTrack db token direction in
       match adjacent with
       | None => Ok buildEmptyResponse
       | Some adjacent =>
           let! context := context_of token in
           buildPlayResponse adjacent
             (mp3 urlBuilder (Track.id adjacent))
             (art urlBuilder (Track.id adjacent))
             {| trackId := Track.id adjacent; context := context |}
             REPLACE_ALL 0 None None
       end)%exc in
  if str_eqb requestType (lit "PlaybackController.NextCommandIssued")
  then step next
  else if str_eqb requestType (lit "PlaybackController.PreviousCommandIssued")
  then step previous
  else if str_eqb requestType (lit "PlaybackController.PlayCommandIssued")
  then
    if truthy token then
      (let! trackId := get_prop token (lit "trackId") in
       let! track := getTrack_value rt db trackId in
       match track with
       | Some track =>
           buildPlayResponse_value rt track
             (mp3 urlBuilder (Track.id track))
             (art urlBuilder (Track.id track))
             token REPLACE_ALL (offset_of audioPlayer) None None
       | None => Ok buildEmptyResponse
       end)%exc
    else Ok buildEmptyResponse
  else if str_eqb requestType (lit "PlaybackController.PauseCommandIssued")
  then Ok buildStopResponse
  else Ok buildEmptyResponse.

Definition handleIntent (rt : Runtime) (db : Db.t) (i : Intent)
    (audioPlayer : option AudioPlayer) (urlBuilder : UrlBuilder)
  : exc Response :=
  let intentName := intent_name i in
  if str_eqb intentName (lit "PlaySongIntent") then
    handlePlaySongIntent db (slot_value i (lit "songName")) urlBuilder
  else if str_eqb intentName (lit "PlayArtistIntent") then
    handlePlayArtistIntent db (slot_value i (lit "artistName")) urlBuilder
  else if str_eqb intentName (lit "PlayPlaylistIntent") then
    handlePlayPlaylistIntent db (slot_value i (lit "playlistName")) urlBuilder
  else if str_eqb intentName (lit "PlayAllIntent") then
    handlePlayAllIntent db urlBuilder
  else if str_eqb intentName (lit "AMAZON.ResumeIntent") then
    handleResumeIntent rt audioPlayer urlBuilder db
  else if str_eqb intentName (lit "AMAZON.PauseIntent")
          || str_eqb intentName (lit "AMAZON.StopIntent")
          || str_eqb intentName (lit "AMAZON.CancelIntent") then
    Ok buildStopResponse
  else if str_eqb intentName (lit "AMAZON.NextIntent") then
    handleNavigateIntent db audioPlayer urlBuilder next
  else if str_eqb intentName (lit "AMAZON.PreviousIntent") then
    handleNavigateIntent db audioPlayer urlBuilder previous
  else if str_eqb intentName (lit "AMAZON.HelpIntent") then
    Ok (buildSpeechResponse msg_help false)
  else Ok (buildSpeechResponse msg_default false).

Definition handleAlexaRequest (rt : Runtime) (db : Db.t) (body : Body)
    (urlBuilder : UrlBuilder) : exc Response :=
  let requestType := type (request body) in
  if str_eqb requestType (lit "LaunchRequest") then
    Ok (buildSpeechResponse msg_launch false)
  else if str_eqb requestType (lit "SessionEndedRequest") then
    Ok buildEmptyResponse
  else if startsWith requestType (lit "AudioPlayer.") then
    handleAudioPlayerEvent db (request body) urlBuilder
  else if startsWith requestType (lit "PlaybackController.") then
    handlePlaybackController rt db (audioPlayer body) urlBuilder requestType
  else if str_eqb requestType (lit "IntentRequest") then
    match intent body with
    | Some i => handleIntent rt db i (audioPlayer body) urlBuilder
    | None => Ok buildEmptyResponse
    end
  else Ok buildEmptyResponse.

End AlexaRouter.

(* ================================================================== *)
(** ** The handlers of the Lambda, over calls that can fail           *)
(* ================================================================== *)

Module LambdaCalls.

Import ResolveHandler.

(** The three calls of [clients/partykit-client.ts] as a handler sees
    them: each returns the body that the client reads, or raises what
    [fetchPartyKit] raises after its last attempt. *)
Record Client : Type := mkClient {
  resolveEntity : jsstring -> jsstring -> exc ResolveResult;
  getNextTrack : jsstring -> option jsstring -> exc NextPrevResult;
  getPreviousTrack : jsstring -> option jsstring -> exc NextPrevResult
}.


Definition handleGetPlayableContent (c : Client)
    (attributes : list Lambda.SelectionAttribute) : exc Lambda.Response :=
  let selected :=
    find (fun a => Lambda.is_entity_type (Lambda.attr_type a)) attributes in
  let entityId := option_map Lambda.attr_entityId selected in
  let entityType :=
    match selected with
    | Some a => Lambda.attr_type a
    | None => lit "TRACK"
    end in
  match if_some_truthy entityId with
  | None =>
      (let! result := resolveEntity c [] (lit "ALL") in
       if negb (Lambda.flag (found result))
       then Ok Lambda.buildContentNotFoundResponse
       else Ok (Lambda.buildGetPlayableContentResponse
                  (lit "content::all::")))%exc
  | Some entityId =>
      (let! result := resolveEntity c entityId entityType in
       if negb (Lambda.flag (found result))
       then Ok Lambda.buildContentNotFoundResponse
       else Ok (Lambda.buildGetPlayableContentResponse
                  (lit "content::" ++ Lambda.toLowerCase entityType
                   ++ lit "::" ++ entityId)))%exc
  end.

Definition handleInitiate (c : Client) (u : Lambda.Urls)
    (now36 contentId : jsstring) : exc Lambda.Response :=
  let queueId := lit "queue-" ++ now36 in
  let (type, entityId) := Lambda.parseContentId contentId in
  (let! selected :=
     if str_eqb type (lit "all") then
       let! result := resolveEntity c [] (lit "ALL") in
       Ok (Lambda.first_of_list result)
     else if str_eqb type (lit "track") then
       let! result := resolveEntity c entityId (lit "TRACK") in
       Ok (match found result, track result with
           | Some true, Some tr => Some (Some tr, 1%Z)
           | _, _ => None
           end)
     else if str_eqb type (lit "artist") then
       let! result := resolveEntity c entityId (lit "ARTIST") in
       Ok (Lambda.first_of_list result)
     else if str_eqb type (lit "playlist") then
       let! result := resolveEntity c entityId (lit "PLAYLIST") in
       Ok (Lambda.first_of_list result)
     else Ok (Some (None, 0%Z)) in
   match selected with
   | None => Ok Lambda.buildContentNotFoundResponse
   | Some (None, _) => Ok Lambda.buildContentNotFoundResponse
   | Some (Some firstTrack, totalCount) =>
       let hasNext := (totalCount >? 1)%Z in
       let mp3Url := Lambda.buildMp3Url u (Track.id firstTrack) in
       Ok (Lambda.buildInitiateResponse u firstTrack mp3Url queueId hasNext)
   end)%exc.

Definition handleGetItem (c : Client) (u : Lambda.Urls)
    (payload : Lambda.ItemPayload) : exc Lambda.Response :=
  match if_some_truthy (Lambda.ref_id payload) with
  | None => Ok Lambda.buildQueueFinishedResponse
  | Some currentItemId =>
      (let! result := resolveEntity c currentItemId (lit "TRACK") in
       match found result, track result with
       | Some true, Some tr =>
           let mp3Url := Lambda.buildMp3Url u (Track.id tr) in
           let! nextResult := getNextTrack c (Track.id tr) None in
           let hasMore := Lambda.flag (hasNext nextResult) in
           Ok (Lambda.buildItemResponse u tr mp3Url hasMore (negb hasMore))
       | _, _ => Ok Lambda.buildQueueFinishedResponse
       end)%exc
  end.

Definition handleGetNextItem (c : Client) (u : Lambda.Urls)
    (payload : Lambda.ItemPayload) : exc Lambda.Response :=
  match if_some_truthy (Lambda.ref_id payload) with
  | None => Ok Lambda.buildQueueFinishedResponse
  | Some currentItemId =>
      (let! result := getNextTrack c currentItemId None in
       match Lambda.flag (hasNext result), np_track result with
       | true, Some tr =>
           let mp3Url := Lambda.buildMp3Url u (Track.id tr) in
           let hasMore := Lambda.flag (hasFurtherNext result) in
           Ok (Lambda.buildItemResponse u tr mp3Url hasMore (negb hasMore))
       | _, _ => Ok Lambda.buildQueueFinishedResponse
       end)%exc
  end.

Definition handleGetPreviousItem (c : Client) (u : Lambda.Urls)
    (payload : Lambda.ItemPayload) : exc Lambda.Response :=
  match if_some_truthy (Lambda.ref_id payload) with
  | None => Ok Lambda.buildQueueFinishedResponse
  | Some currentItemId =>
      (let! result := getPreviousTrack c currentItemId None in
       match Lambda.flag (hasPrevious result), np_track result with
       | true, Some tr =>
           let mp3Url := Lambda.buildMp3Url u (Track.id tr) in
           let hasMore := Lambda.flag (hasNext result) in
           Ok (Lambda.buildItemResponse u tr mp3Url hasMore (negb hasMore))
       | _, _ => Ok Lambda.buildQueueFinishedResponse
       end)%exc
  end.

End LambdaCalls.

(* ================================================================== *)
(** ** Entry point of the Lambda ([lambda/src/index.ts])              *)
(* ================================================================== *)

Module LambdaIndex.

Import Lambda.





Definition msg_launch : jsstring :=
  (* "音楽プレーヤーです。曲名やアーティスト名で再生できます。" *)
  [38899; 27005; 12503; 12524; 12540; 12516; 12540; 12391; 12377; 12290;
   26354; 21517; 12420; 12450; 12540; 12486; 12451; 12473; 12488; 21517;
   12391; 20877; 29983; 12391; 12365; 12414; 12377; 12290]%N.
Definition msg_help : jsstring :=
  (* "曲名やアーティスト名を言ってください。例えば、ビリーロムの曲をかけて、と言ってみてください。" *)
  [26354; 21517; 12420; 12450; 12540; 12486; 12451; 12473; 12488; 21517;
   12434; 35328; 12387; 12390; 12367; 12384; 12373; 12356; 12290; 20363;
   12360; 12400; 12289; 12499; 12522; 12540; 12525; 12512; 12398; 26354;
   12434; 12363; 12369; 12390; 12289; 12392; 35328; 12387; 12390; 12415;
   12390; 12367; 12384; 12373; 12356; 12290]%N.








End LambdaIndex.

(* ================================================================== *)
(** ** Requests of the Lambda to the server
       ([clients/partykit-client.ts])                                 *)
(* ================================================================== *)

Module PartykitClient.

(** What one call of [fetch] does: it resolves to a response with a
    status, or it is rejected. *)
Inductive Outcome : Type :=
| Replied (status : Z)
| Rejected.

Definition MAX_RETRIES : nat := 3.

(** The result of [fetchPartyKit]: the status of the response it
    returns ([None] when it raises), the number of calls of [fetch],
    and the time spent in [setTimeout], in milliseconds. *)
Record Fetched : Type := mkFetched {
  returned : option Z;
  calls : nat;
  waited : Z
}.

(** The loop, from [attempt] on; [fetch i] is the outcome of the call
    number [i], [todo] is [MAX_RETRIES - attempt]. *)
Fixpoint attempts (fetch : nat -> Outcome) (attempt todo : nat) (slept : Z)
  : Fetched :=
  match todo with
  | O => {| returned := None; calls := attempt; waited := slept |}
  | S todo' =>
      let again :=
        attempts fetch (S attempt) todo'
          (if (attempt <? MAX_RETRIES - 1)%nat
           then (slept + 200 * 2 ^ Z.of_nat attempt)%Z
           else slept) in
      match fetch attempt with
      | Replied status =>
          if Lambda.ok status || (status <? 500)%Z
          then {| returned := Some status; calls := S attempt;
                  waited := slept |}
          else again
      | Rejected => again
      end
  end.

Definition fetchPartyKit (fetch : nat -> Outcome) : Fetched :=
  attempts fetch 0 MAX_RETRIES 0.

End PartykitClient.

(* ================================================================== *)
(** ** Derived identifiers ([utils/hash.ts])                          *)
(* ================================================================== *)

Module Hash.

(** UTF-8 of a code point. *)
Definition utf8_of (cp : N) : list N :=
  (if cp <? 128 then [cp]
   else if cp <? 2048 then [192 + cp / 64; 128 + cp mod 64]
   else if cp <? 65536 then
     [224 + cp / 4096; 128 + (cp / 64) mod 64; 128 + cp mod 64]
   else [240 + cp / 262144; 128 + (cp / 4096) mod 64;
         128 + (cp / 64) mod 64; 128 + cp mod 64])%N.

(** [new TextEncoder().encode(str)]: a surrogate pair is one code
    point, a lone surrogate is replaced by U+FFFD. *)
Fixpoint encode (str : jsstring) : list N :=
  match str with
  | [] => []
  | c :: s' =>
      if is_high_surrogate c then
        match s' with
        | d :: s'' =>
            if is_low_surrogate d
            then utf8_of (65536 + (c - 55296) * 1024 + (d - 56320))%N
                 ++ encode s''
            else utf8_of 65533 ++ encode s'
        | [] => utf8_of 65533
        end
      else if is_low_surrogate c then utf8_of 65533 ++ encode s'
      else utf8_of c ++ encode s'
  end.

Definition FNV_OFFSET : Z := 14695981039346656037.
Definition FNV_PRIME : Z := 1099511628211.

(** One turn of the loop: [hash ^= byte], then the product with the
    prime, cut to 64 bits. *)
Definition step (hash : Z) (byte : N) : Z :=
  Z.land (Z.lxor hash (Z.of_N byte) * FNV_PRIME) 18446744073709551615.

(** The digit of [toString(36)]. *)
Definition digit36 (d : Z) : N :=
  Z.to_N (if (d <? 10)%Z then 48 + d else 87 + d)%Z.

Fixpoint digits36 (fuel : nat) (n : Z) (acc : jsstring) : jsstring :=
  match fuel with
  | O => acc
  | S fuel' =>
      if (n =? 0)%Z then acc
      else digits36 fuel' (n / 36)%Z (digit36 (n mod 36)%Z :: acc)
  end.

(** [n.toString(36)] for a BigInt that is not negative; a number has
    no more digits than bits. *)
Definition toString36 (n : Z) : jsstring :=
  if (n =? 0)%Z then lit "0"
  else digits36 (S (Z.to_nat (Z.log2 n))) n [].

Definition hash_of (bytes : list N) : Z := fold_left step bytes FNV_OFFSET.

Definition fnv1a64 (str : jsstring) : jsstring :=
  toString36 (hash_of (encode str)).

Section Normalize.

(** [str.normalize("NFKC").toLowerCase().trim()], of the platform. *)
Variable normalize : jsstring -> jsstring.

Definition deriveArtistId (artistName : jsstring) : jsstring :=
  lit "artist." ++ fnv1a64 (normalize artistName).

Definition deriveAlbumId (albumName : jsstring) : jsstring :=
  lit "album." ++ fnv1a64 (normalize albumName).

End Normalize.

End Hash.

(* ================================================================== *)
(** ** Rows of a playlist ([utils/db.ts], [rowToPlaylist])            *)
(* ================================================================== *)

Module DbRows.

(** A row of the playlist queries: text columns ([None] is NULL);
    [track_ids] is the [GROUP_CONCAT] of the playlist's track ids. *)
Record PlaylistRow : Type := mkPlaylistRow {
  row_id : option jsstring;
  row_name : option jsstring;
  row_created_at : option jsstring;
  row_updated_at : option jsstring;
  row_track_ids : option jsstring
}.

(** [String(v ?? "")] *)
Definition text (v : option jsstring) : jsstring :=
  match v with
  | Some s => s
  | None => []
  end.

Definition rowToPlaylist (row : PlaylistRow) : Playlist.t :=
  {| Playlist.id := text (row_id row);
     Playlist.name := text (row_name row);
     Playlist.trackIds :=
       match if_some_truthy (row_track_ids row) with
       | Some rawTrackIds => split rawTrackIds (lit ",")
       | None => []
       end;
     Playlist.createdAt := text (row_created_at row);
     Playlist.updatedAt := text (row_updated_at row) |}.

(** [GROUP_CONCAT(track_id, ',')] over the rows of a playlist in
    position order: NULL when there is no row. *)
Definition group_concat (track_ids : list jsstring) : option jsstring :=
  match track_ids with
  | [] => None
  | _ :: _ => Some (join track_ids (lit ","))
  end.

End DbRows.

(* ================================================================== *)
(** ** Base64 for URLs ([utils/session.ts]) and data URLs
       ([server.ts], [saveArt])                                       *)
(* ================================================================== *)

Module Base64Url.

(** [s.replace(/=+$/, "")]: the string without its trailing equals
    signs. *)
Fixpoint strip_trailing (s : jsstring) : jsstring :=
  match s with
  | [] => []
  | c :: s' =>
      match strip_trailing s' with
      | [] => if (c =? 61)%N then [] else [c]
      | r => c :: r
      end
  end.

(** [s.replace(/x/g, "y")] for two characters. *)
Definition replace_all (x y : N) (s : jsstring) : jsstring :=
  map (fun c => if (c =? x)%N then y else c) s.

(** [bytes] are the elements of a [Uint8Array]; [None] is an error
    raised by [btoa] or [atob]. *)
Definition base64urlEncode (bytes : list N) : option jsstring :=
  match btoa bytes with
  | Some text =>
      Some (strip_trailing (replace_all 47 95 (replace_all 43 45 text)))
  | None => None
  end.

Definition base64urlDecode (str : jsstring) : option (list N) :=
  let padded := replace_all 95 47 (replace_all 45 43 str) in
  atob padded.

End Base64Url.

Module SaveArt.

(** The call [r2.put(key, binary, mime)]. *)
Record Put : Type := mkPut {
  key : jsstring;
  binary : list N;
  mime : jsstring
}.

(** The text up to the next semicolon. *)
Fixpoint until_semicolon (s : jsstring) : jsstring :=
  match s with
  | [] => []
  | c :: s' => if (c =? 59)%N then [] else c :: until_semicolon s'
  end.

(** [header.match(/data:([^;]+)/)?.[1]]: the first place where
    [data:] is followed by a character other than a semicolon, and
    the characters from there to the next semicolon. *)
Fixpoint match_mime (header : jsstring) : option jsstring :=
  match header with
  | [] => None
  | _ :: rest =>
      if startsWith header (lit "data:")
      then
        match until_semicolon (skipn 5 header) with
        | [] => match_mime rest
        | m => Some m
        end
      else match_mime rest
  end.

(** [saveArt(trackId, dataUrl)]: [None] is the return without a call
    of [r2.put]; [Throw] is the error of [atob]. *)
Definition saveArt (trackId : jsstring) (dataUrl : option jsstring)
  : exc (option Put) :=
  match if_some_truthy dataUrl with
  | None => Ok None
  | Some dataUrl =>
      if negb (includes dataUrl (lit ",")) then Ok None
      else
        let parts := split dataUrl (lit ",") in
        let header := at_index parts 0 in
        let b64 := at_index parts 1 in
        match if_some_truthy b64, header with
        | Some b64, Some header =>
            if negb (startsWith header (lit "data:")) then Ok None
            else
              let mime :=
                match match_mime header with
                | Some m => m
                | None => lit "image/jpeg"
                end in
              match atob b64 with
              | None => Throw
              | Some binary =>
                  Ok (Some {| key := lit "art/" ++ trackId ++ lit ".jpg";
                              binary := binary;
                              mime := mime |})
              end
        | _, _ => Ok None
        end
  end.

End SaveArt.

(* ================================================================== *)
(** ** Writes of the storage ([utils/db.ts])                          *)
(* ================================================================== *)

Module DbWrite.

(** A row of [archived_playlists]. *)
Record ArchivedPlaylist : Type := mkArchived {
  archived_id : jsstring;
  archived_name : jsstring;
  archived_createdAt : jsstring
}.

(** The tables: the live ones as the queries see them, and the two
    archives as [getArchivedTracks] and [getArchivedPlaylists] list
    them. *)
Record t : Type := mk {
  live : Db.t;
  archivedTracks : list Track.t;
  archivedPlaylists : list ArchivedPlaylist
}.

Definition with_live (st : t) (db : Db.t) : t :=
  mk db (archivedTracks st) (archivedPlaylists st).

Definition set_tracks (db : Db.t) (l : list Track.t) : Db.t :=
  Db.mk l (Db.playlists db) (Db.artists db) (Db.like db).

Definition set_playlists (db : Db.t) (l : list Playlist.t) : Db.t :=
  Db.mk (Db.tracks db) l (Db.artists db) (Db.like db).

Definition set_artists (db : Db.t) (l : list Artist.t) : Db.t :=
  Db.mk (Db.tracks db) (Db.playlists db) l (Db.like db).

(** Whether a table holds a row of that primary key. *)
Definition has_track (db : Db.t) (id : jsstring) : bool :=
  existsb (fun tr => str_eqb (Track.id tr) id) (Db.tracks db).

Definition has_playlist (db : Db.t) (id : jsstring) : bool :=
  existsb (fun pl => str_eqb (Playlist.id pl) id) (Db.playlists db).

Definition has_artist (db : Db.t) (id : jsstring) : bool :=
  existsb (fun a => str_eqb (Artist.id a) id) (Db.artists db).

(** A new row among the rows of an ordered query: the order column
    ([added_at], [created_at]) decides the place, the other rows keep
    their order. *)
Definition insert_at {A : Type} (pos : nat) (x : A) (l : list A) : list A :=
  firstn pos l ++ x :: skipn pos l.

(** [INSERT OR IGNORE INTO artists]. *)
Definition insert_or_ignore (db : Db.t) (a : Artist.t) : Db.t :=
  if has_artist db (Artist.id a) then db
  else set_artists db (Db.artists db ++ [a]).

(** The fields of an update that are not [undefined]. *)
Record TrackFields : Type := mkTrackFields {
  f_title : option jsstring;
  f_artist : option jsstring;
  f_album : option jsstring
}.

(** [TrackInput] of [models/track.ts], without the cover art. *)
Record TrackInput : Type := mkTrackInput {
  in_title : jsstring;
  in_artist : jsstring;
  in_album : jsstring;
  in_duration : Z
}.

(** "不明なアーティスト" *)
Definition unknown_artist : jsstring :=
  [19981; 26126; 12394; 12450; 12540; 12486; 12451; 12473; 12488]%N.

(** The loop of [createPlaylist] and [updatePlaylist] over
    [trackIds]: [rows] are the track ids of the playlist in
    [playlist_tracks] so far, in position order ([pos] is their
    number).  A second row of the same track violates the primary key
    [(playlist_id, track_id)]. *)
Fixpoint insert_rows (validIds : list jsstring) (trackIds : list jsstring)
    (rows : list jsstring) : exc (list jsstring) :=
  match trackIds with
  | [] => Ok rows
  | tid :: rest =>
      if negb (nonempty tid) || negb (existsb (str_eqb tid) validIds)
      then insert_rows validIds rest rows
      else if existsb (str_eqb tid) rows then Throw
      else insert_rows validIds rest (rows ++ [tid])
  end.

Section Engine.

(** [str.normalize("NFKC").toLowerCase().trim()], of the platform. *)
Variable normalize : jsstring -> jsstring.

(** Whether the engine takes a statement with that many
    parameters. *)
Variable accepts : nat -> bool.

(** [SELECT id FROM tracks WHERE id IN (...)], collected in a set;
    no query for an empty list.  [None] is the error of a statement
    with too many parameters. *)
Definition validIds (db : Db.t) (trackIds : list jsstring)
  : option (list jsstring) :=
  match trackIds with
  | [] => Some []
  | _ :: _ =>
      if accepts (length trackIds)
      then Some (filter (fun i => existsb (str_eqb i) trackIds)
                        (map Track.id (Db.tracks db)))
      else None
  end.

(** The rows of a playlist that the loop writes, from none. *)
Definition new_rows (db : Db.t) (trackIds : list jsstring)
  : exc (list jsstring) :=
  match validIds db trackIds with
  | None => Throw
  | Some valid => insert_rows valid trackIds []
  end.

(** *** Artists *)

Definition ensureArtist (st : t) (artistName : jsstring) : jsstring * t :=
  let id := Hash.deriveArtistId normalize artistName in
  (id, with_live st (insert_or_ignore (live st) (Artist.mk id artistName []))).

Definition createArtist (st : t) (name keywords : jsstring)
  : Artist.t * t :=
  let id := Hash.deriveArtistId normalize name in
  (Artist.mk id name keywords,
   with_live st (insert_or_ignore (live st) (Artist.mk id name keywords))).

Definition updateArtist (st : t) (id : jsstring)
    (name keywords : option jsstring) : bool * t :=
  match name, keywords with
  | None, None => (false, st)
  | _, _ =>
      (has_artist (live st) id,
       with_live st
         (set_artists (live st)
            (map (fun a =>
                    if str_eqb (Artist.id a) id
                    then Artist.mk (Artist.id a)
                           (match name with
                            | Some n => n
                            | None => Artist.name a
                            end)
                           (match keywords with
                            | Some k => k
                            | None => Artist.keywords a
                            end)
                    else a)
                 (Db.artists (live st)))))
  end.

Definition archiveArtist (st : t) (id : jsstring) : bool * t :=
  let unknownId := Hash.deriveArtistId normalize unknown_artist in
  let db1 := insert_or_ignore (live st)
               (Artist.mk unknownId unknown_artist []) in
  let db2 :=
    set_tracks db1
      (map (fun tr =>
              if str_eqb (Track.artistId tr) id
              then Track.mk (Track.id tr) (Track.title tr) unknown_artist
                     unknownId (Track.album tr) (Track.duration tr)
                     (Track.addedAt tr)
              else tr)
           (Db.tracks db1)) in
  (has_artist db2 id,
   with_live st
     (set_artists db2
        (filter (fun a => negb (str_eqb (Artist.id a) id))
                (Db.artists db2)))).

(** *** Tracks *)

(** [pos] is the place of the new row in [ORDER BY added_at DESC].
    The two statements are not in one transaction: the artist stays
    when the insertion of the track fails on its primary key. *)
Definition addTrack (st : t) (track : Track.t) (pos : nat)
  : exc unit * t :=
  let st1 := snd (ensureArtist st (Track.artist track)) in
  if has_track (live st1) (Track.id track) then (Throw, st1)
  else (Ok tt,
        with_live st1
          (set_tracks (live st1)
             (insert_at pos track (Db.tracks (live st1))))).

Definition updateTrack (st : t) (id : jsstring) (fields : TrackFields)
  : bool * t :=
  let st1 :=
    match f_artist fields with
    | Some a => snd (ensureArtist st a)
    | None => st
    end in
  match f_title fields, f_artist fields, f_album fields with
  | None, None, None => (false, st1)
  | _, _, _ =>
      (has_track (live st1) id,
       with_live st1
         (set_tracks (live st1)
            (map (fun tr =>
                    if str_eqb (Track.id tr) id
                    then Track.mk (Track.id tr)
                           (match f_title fields with
                            | Some x => x
                            | None => Track.title tr
                            end)
                           (match f_artist fields with
                            | Some a => a
                            | None => Track.artist tr
                            end)
                           (match f_artist fields with
                            | Some a => Hash.deriveArtistId normalize a
                            | None => Track.artistId tr
                            end)
                           (match f_album fields with
                            | Some x => x
                            | None => Track.album tr
                            end)
                           (Track.duration tr) (Track.addedAt tr)
                    else tr)
                 (Db.tracks (live st1)))))
  end.

(** [pos] is the place of the archived row in
    [ORDER BY archived_at DESC]: the column is the [datetime('now')]
    of the engine, with a resolution of one second. *)
Definition archiveTrack (st : t) (id : jsstring) (pos : nat) : bool * t :=
  match Db.getTrack (live st) id with
  | None => (false, st)
  | Some tr =>
      let other := fun x => negb (str_eqb x id) in
      (true,
       mk (Db.mk
             (filter (fun x => other (Track.id x)) (Db.tracks (live st)))
             (map (fun pl =>
                     Playlist.mk (Playlist.id pl) (Playlist.name pl)
                       (filter other (Playlist.trackIds pl))
                       (Playlist.createdAt pl) (Playlist.updatedAt pl))
                  (Db.playlists (live st)))
             (Db.artists (live st)) (Db.like (live st)))
          (insert_at pos tr
             (filter (fun x => other (Track.id x)) (archivedTracks st)))
          (archivedPlaylists st))
  end.

(** [handleAddTrack] of [handlers/track-handler.ts]: [now] is the
    time of the call. *)
Definition handleAddTrack (st : t) (id : jsstring) (input : TrackInput)
    (now : jsstring) (pos : nat) : exc Track.t * t :=
  let track :=
    Track.mk id (in_title input) (in_artist input)
      (Hash.deriveArtistId normalize (in_artist input))
      (in_album input) (in_duration input) now in
  match addTrack st track pos with
  | (Ok _, st') => (Ok track, st')
  | (Throw, st') => (Throw, st')
  end.

(** *** Playlists *)

(** [now] is the time of the call, [pos] the place of the new row in
    [ORDER BY created_at DESC].  An error rolls the transaction
    back. *)
Definition createPlaylist (st : t) (id name : jsstring)
    (trackIds : list jsstring) (now : jsstring) (pos : nat)
  : exc (list jsstring) * t :=
  if has_playlist (live st) id then (Throw, st)
  else
    match new_rows (live st) trackIds with
    | Throw => (Throw, st)
    | Ok insertedIds =>
        (Ok insertedIds,
         with_live st
           (set_playlists (live st)
              (insert_at pos (Playlist.mk id name insertedIds now now)
                 (Db.playlists (live st)))))
    end.

Definition updatePlaylist (st : t) (id : jsstring)
    (name : option jsstring) (trackIds : option (list jsstring))
    (now : jsstring) : exc bool * t :=
  if negb (has_playlist (live st) id) then (Ok false, st)
  else
    let rows :=
      match trackIds with
      | None => Ok None
      | Some ids =>
          match new_rows (live st) ids with
          | Ok l => Ok (Some l)
          | Throw => Throw
          end
      end in
    match rows with
    | Throw => (Throw, st)
    | Ok rows =>
        (Ok true,
         with_live st
           (set_playlists (live st)
              (map (fun pl =>
                      if str_eqb (Playlist.id pl) id
                      then Playlist.mk (Playlist.id pl)
                             (match name with
                              | Some n => n
                              | None => Playlist.name pl
                              end)
                             (match rows with
                              | Some l => l
                              | None => Playlist.trackIds pl
                              end)
                             (Playlist.createdAt pl) now
                      else pl)
                   (Db.playlists (live st)))))
    end.

(** [pos] is the place of the archived row in
    [ORDER BY archived_at DESC]. *)
Definition archivePlaylist (st : t) (id : jsstring) (pos : nat) : bool * t :=
  match Db.getPlaylist (live st) id with
  | None => (false, st)
  | Some pl =>
      (true,
       mk (set_playlists (live st)
             (filter (fun p => negb (str_eqb (Playlist.id p) id))
                     (Db.playlists (live st))))
          (archivedTracks st)
          (insert_at pos
             (mkArchived (Playlist.id pl) (Playlist.name pl)
                (Playlist.createdAt pl))
             (filter (fun a => negb (str_eqb (archived_id a) id))
                     (archivedPlaylists st))))
  end.

End Engine.

End DbWrite.

(* ================================================================== *)
(** ** Notions for the requests of the skill                          *)
(* ================================================================== *)

(** The request of the button that steps in a direction. *)
Definition command_of (dir : AlexaHandler.Direction) : jsstring :=
  match dir with
  | AlexaHandler.next => lit "PlaybackController.NextCommandIssued"
  | AlexaHandler.previous => lit "PlaybackController.PreviousCommandIssued"
  end.

(** An outcome with its answer by speech alone replaced by the empty
    reply. *)
Definition silenced (outcome : exc AlexaResponse.Response)
  : exc AlexaResponse.Response :=
  match outcome with
  | Ok (AlexaResponse.Speech _ _) => Ok AlexaResponse.Empty
  | _ => outcome
  end.

(** A Play directive that streams the track [tr]: the URL of its
    audio, its title, its artist and the URL of its picture. *)
Definition plays (u : AlexaHandler.UrlBuilder) (tr : Track.t)
    (d : AlexaResponse.PlayDirective) : Prop :=
  AlexaResponse.url (AlexaResponse.stream d) = AlexaHandler.mp3 u (Track.id tr)
  /\ AlexaResponse.meta_title d = Track.title tr
  /\ AlexaResponse.meta_subtitle d = Track.artist tr
  /\ AlexaResponse.meta_art d = AlexaHandler.art u (Track.id tr).

(** An outcome that, where it is a Play reply, streams a stored track
    with the behaviour [b] and the previous token [prev]. *)
Definition plays_stored (db : Db.t) (u : AlexaHandler.UrlBuilder)
    (b : AlexaResponse.PlayBehavior) (prev : option jsstring)
    (outcome : exc AlexaResponse.Response) : Prop :=
  forall d s,
    outcome = Ok (AlexaResponse.Play d s) ->
    exists tr,
      In tr (Db.tracks db) /\ plays u tr d /\
      AlexaResponse.playBehavior d = b /\
      AlexaResponse.expectedPreviousToken (AlexaResponse.stream d) = prev.

(** The device at work: near the end of the stream with the token
    [raw] it sends the near-end-of-track event with that token, and
    the stream of the reply is played next.  [enqueued] lists the
    directives of the next [n] streams. *)
Fixpoint enqueued (db : Db.t) (u : AlexaHandler.UrlBuilder) (n : nat)
    (raw : jsstring) : list AlexaResponse.PlayDirective :=
  match n with
  | O => []
  | S n' =>
      match AlexaHandler.handleAudioPlayerEvent db
              (AlexaHandler.mkRequest
                 (lit "AudioPlayer.PlaybackNearlyFinished") (Some raw)) u with
      | Ok (AlexaResponse.Play d _) =>
          d :: enqueued db u n'
                 (AlexaResponse.token (AlexaResponse.stream d))
      | _ => []
      end
  end.

(** The queue of the Lambda at work: the items that successive
    get-next-item requests return after the item [cur], each with its
    [isQueueFinished], until no item is returned; at most [n] of
    them. *)
Fixpoint items_after (db : Db.t) (u : Lambda.Urls) (n : nat)
    (cur : jsstring) : list (Lambda.Item * bool) :=
  match n with
  | O => []
  | S n' =>
      match Lambda.handleGetNextItem db u
              (Lambda.mkPayload (Some cur) None) with
      | Lambda.ItemResponse item fin =>
          (item, fin) :: items_after db u n' (Lambda.item_id item)
      | _ => []
      end
  end.

(** The items of the tracks [l] as the Lambda returns them one after
    the other: the NEXT control of every item but the last is enabled,
    and the last comes with [isQueueFinished]. *)
Fixpoint remaining_items (u : Lambda.Urls) (l : list Track.t)
  : list (Lambda.Item * bool) :=
  match l with
  | [] => []
  | t :: r =>
      (Lambda.buildItem u t (Lambda.buildMp3Url u (Track.id t))
         (match r with [] => false | _ :: _ => true end),
       match r with [] => true | _ :: _ => false end)
      :: remaining_items u r
  end.

(** The item of a track in a reply of the Lambda: the id and the
    title of the track, the URL of its picture, the stream
    [stream-<id>] at the URL of its audio from the start, the NEXT
    control enabled when [more] follows, and the PREVIOUS control
    always enabled. *)
Definition queueItem (u : Lambda.Urls) (tr : Track.t) (more : bool)
  : Lambda.Item :=
  {| Lambda.item_id := Track.id tr;
     Lambda.item_name := Track.title tr;
     Lambda.item_art := Lambda.buildArtUrl u (Track.id tr);
     Lambda.controls :=
       [ Lambda.mkControl (lit "NEXT") more;
         Lambda.mkControl (lit "PREVIOUS") true ];
     Lambda.stream_id := lit "stream-" ++ Track.id tr;
     Lambda.stream_uri := Lambda.buildMp3Url u (Track.id tr);
     Lambda.stream_offsetInMilliseconds := 0 |}.

(** The entity type by which the server knows a kind. *)
Definition entityTypeOf (k : Kind) : jsstring :=
  match k with
  | KAll => lit "ALL"
  | KTrack => lit "TRACK"
  | KArtist => lit "ARTIST"
  | KPlaylist => lit "PLAYLIST"
  end.


(** A digit of base 36: [0-9a-z]. *)
Definition is_base36 (c : N) : bool :=
  (((48 <=? c) && (c <=? 57)) || ((97 <=? c) && (c <=? 122)))%N.

(** The number that a text of base 36 spells. *)
Definition value36 (s : jsstring) : Z :=
  fold_left (fun v c =>
               (v * 36 + Z.of_N (if (c <? 58)%N then c - 48 else c - 87))%Z)
            s 0%Z.

(** A character that a URL, a cookie and a dotted token carry
    unchanged: a letter, a digit, [-] or [_]. *)
Definition url_safe (c : N) : bool :=
  ((65 <=? c) && (c <=? 90) || (97 <=? c) && (c <=? 122)
   || (48 <=? c) && (c <=? 57) || (c =? 45) || (c =? 95))%N.

(** What the round trip of [base64urlEncode] needs of one character
    of the alphabet. *)
Definition url_check (c : N) : bool :=
  implb (in_alphabet c)
    (negb (is_ascii_ws c) && negb (c =? pad)%N
     && url_safe (if ((if (c =? 43) then 45 else c) =? 47)
                  then 95 else (if (c =? 43) then 45 else c))%N
     && ((let e := (if ((if (c =? 43) then 45 else c) =? 47)
                    then 95 else (if (c =? 43) then 45 else c)) in
          let d := (if (e =? 45) then 43 else e) in
          (if (d =? 95) then 47 else d)) =? c)%N).

(** One call of a write method of the storage. *)
Inductive write (normalize : jsstring -> jsstring) (accepts : nat -> bool)
  : DbWrite.t -> DbWrite.t -> Prop :=
| write_ensureArtist st name :
    write normalize accepts st (snd (DbWrite.ensureArtist normalize st name))
| write_createArtist st name keywords :
    write normalize accepts st
      (snd (DbWrite.createArtist normalize st name keywords))
| write_updateArtist st id name keywords :
    write normalize accepts st (snd (DbWrite.updateArtist st id name keywords))
| write_archiveArtist st id :
    write normalize accepts st (snd (DbWrite.archiveArtist normalize st id))
| write_addTrack st track pos :
    write normalize accepts st (snd (DbWrite.addTrack normalize st track pos))
| write_updateTrack st id fields :
    write normalize accepts st
      (snd (DbWrite.updateTrack normalize st id fields))
| write_archiveTrack st id pos :
    write normalize accepts st (snd (DbWrite.archiveTrack st id pos))
| write_createPlaylist st id name trackIds now pos :
    write normalize accepts st
      (snd (DbWrite.createPlaylist accepts st id name trackIds now pos))
| write_updatePlaylist st id name trackIds now :
    write normalize accepts st
      (snd (DbWrite.updatePlaylist accepts st id name trackIds now))
| write_archivePlaylist st id pos :
    write normalize accepts st (snd (DbWrite.archivePlaylist st id pos)).

(** The entries of a playlist are in order: no track twice, and every
    entry the non-empty id of a stored track. *)
Definition entries_ok (db : Db.t) (pl : Playlist.t) : Prop :=
  NoDup (Playlist.trackIds pl) /\
  Forall (fun i => nonempty i = true /\ DbWrite.has_track db i = true)
         (Playlist.trackIds pl).

(** The keys of the three tables are unique and the entries of every
    playlist are in order. *)
Definition integrity (db : Db.t) : Prop :=
  NoDup (map Track.id (Db.tracks db)) /\
  NoDup (map Playlist.id (Db.playlists db)) /\
  NoDup (map Artist.id (Db.artists db)) /\
  Forall (entries_ok db) (Db.playlists db).

(** The ids of a list that the loop of [createPlaylist] keeps. *)
Definition kept (db : Db.t) (trackIds : list jsstring) : list jsstring :=
  filter (fun i => nonempty i && DbWrite.has_track db i) trackIds.

(* ================================================================== *)
(** * Properties                                                      *)
(* ================================================================== *)

(* ================================================================== *)
(** ** Strings                                                        *)
(* ================================================================== *)

Lemma str_eqb_refl (a : jsstring) : str_eqb a a = true.
Proof.
  induction a as [|x a IH]; simpl; [reflexivity|].
  now rewrite N.eqb_refl, IH.
Qed.

Lemma str_eqb_eq (a b : jsstring) : str_eqb a b = true <-> a = b.
Proof.
  split.
  - revert b. induction a as [|x a IH]; intros [|y b]; simpl; try discriminate.
    + reflexivity.
    + intros H. apply andb_prop in H as [Hx Hr].
      apply N.eqb_eq in Hx. apply IH in Hr. now subst.
  - intros ->. apply str_eqb_refl.
Qed.

Lemma str_eqb_neq (a b : jsstring) : a <> b -> str_eqb a b = false.
Proof.
  intros H. destruct (str_eqb a b) eqn:E; [|reflexivity].
  apply str_eqb_eq in E. contradiction.
Qed.

Lemma str_eqb_sym (a b : jsstring) : str_eqb a b = str_eqb b a.
Proof.
  destruct (str_eqb a b) eqn:E.
  - apply str_eqb_eq in E. subst. symmetry. apply str_eqb_refl.
  - symmetry. apply str_eqb_neq. intros ->. now rewrite str_eqb_refl in E.
Qed.

Lemma nonempty_false (s : jsstring) : nonempty s = false -> s = [].
Proof. destruct s; [reflexivity|discriminate]. Qed.

(* ================================================================== *)
(** ** Storage                                                        *)
(* ================================================================== *)

Lemma getTrack_id (db : Db.t) (i : jsstring) (tr : Track.t) :
  Db.getTrack db i = Some tr -> Track.id tr = i.
Proof.
  unfold Db.getTrack. intros H. apply find_some in H as [_ H].
  now apply str_eqb_eq.
Qed.

Lemma getTrack_In (db : Db.t) (i : jsstring) (tr : Track.t) :
  Db.getTrack db i = Some tr -> In tr (Db.tracks db).
Proof. unfold Db.getTrack. intros H. now apply find_some in H. Qed.

Lemma stored_track_latin1 (db : Db.t) (tr : Track.t) :
  ids_latin1 db = true -> In tr (Db.tracks db) ->
  latin1 (Track.id tr) = true /\ latin1 (Track.artistId tr) = true.
Proof.
  unfold ids_latin1. intros H Hin. apply andb_prop in H as [H _].
  rewrite forallb_forall in H. specialize (H tr Hin).
  now apply andb_prop in H.
Qed.

Lemma stored_playlist_latin1 (db : Db.t) (pl : Playlist.t) :
  ids_latin1 db = true -> In pl (Db.playlists db) ->
  latin1 (Playlist.id pl) = true.
Proof.
  unfold ids_latin1. intros H Hin. apply andb_prop in H as [_ H].
  rewrite forallb_forall in H. exact (H pl Hin).
Qed.

(* ================================================================== *)
(** ** Adjacency                                                      *)
(* ================================================================== *)

Import AlexaResponse AlexaHandler ResolveHandler.

Lemma indexOf_from_absent (l : list jsstring) (x : jsstring) (i : Z) :
  ~ In x l -> indexOf_from l x i = (-1)%Z.
Proof.
  revert i. induction l as [|y l IH]; intros i Hx; simpl; [reflexivity|].
  rewrite str_eqb_neq.
  - apply IH. intros Hin. apply Hx. now right.
  - intros ->. apply Hx. now left.
Qed.

Lemma indexOf_absent (l : list jsstring) (x : jsstring) :
  ~ In x l -> indexOf l x = (-1)%Z.
Proof. apply indexOf_from_absent. Qed.

(** [indexOf] finds the first occurrence: an index of the array that
    holds [x], or [-1]. *)
Lemma indexOf_from_range (l : list jsstring) (x : jsstring) (i : Z) :
  indexOf_from l x i = (-1)%Z \/
  (i <= indexOf_from l x i < i + len l)%Z.
Proof.
  revert i. induction l as [|y l IH]; intros i; simpl; [now left|].
  unfold len in *. simpl length. rewrite Nat2Z.inj_succ.
  destruct (str_eqb y x).
  - right. lia.
  - destruct (IH (i + 1)%Z) as [H|H]; [now left|right; lia].
Qed.

Lemma ltb_shift (i n : Z) : (i + 1 <? n - 1)%Z = (i + 2 <? n)%Z.
Proof.
  destruct (Z.ltb_spec (i + 1) (n - 1)), (Z.ltb_spec (i + 2) n);
    solve [reflexivity | lia].
Qed.

(** [findAdjacentTrack] on a token of the declared type. *)
Lemma findAdjacentTrack_token (db : Db.t) (tid ctx : jsstring)
    (dir : Direction) :
  findAdjacentTrack db (token_json (mkToken tid ctx)) dir =
  if str_eqb ctx (lit "single") then Ok None
  else
    match contextTrackList db ctx with
    | None => Ok None
    | Some trackList =>
        let i := indexOf trackList tid in
        if (i =? -1)%Z then Ok None
        else
          match if_some_truthy
                  (at_index trackList
                     (match dir with
                      | next => i + 1
                      | previous => i - 1
                      end)%Z) with
          | None => Ok None
          | Some targetId => Ok (Db.getTrack db targetId)
          end
    end.
Proof. reflexivity. Qed.

Section Three.

Variables a b c : jsstring.
Hypothesis distinct : NoDup [a; b; c].

Lemma abc_neq : a <> b /\ a <> c /\ b <> c.
Proof.
  inversion distinct as [|? ? Ha Hbc]; subst.
  inversion Hbc as [|? ? Hb _]; subst.
  repeat split; intros ->.
  - apply Ha. now left.
  - apply Ha. right. now left.
  - apply Hb. now left.
Qed.

Lemma indexOf_abc :
  indexOf [a; b; c] a = 0%Z /\ indexOf [a; b; c] b = 1%Z /\
  indexOf [a; b; c] c = 2%Z.
Proof.
  destruct abc_neq as (Hab & Hac & Hbc).
  unfold indexOf. simpl.
  rewrite !str_eqb_refl, (str_eqb_neq _ _ Hab), (str_eqb_neq _ _ Hac),
    (str_eqb_neq _ _ Hbc).
  now repeat split.
Qed.

End Three.

(** C9.  A token whose context is ["single"] has no adjacent track, in
    either direction, whatever the current track and the storage: for
    a token of the declared type, and more generally for every decoded
    value whose [context] is that string. *)
Theorem single_context_is_closed (db : Db.t) (dir : Direction) :
  (forall tid,
      findAdjacentTrack db (token_json (mkToken tid (lit "single"))) dir
      = Ok None) /\
  (forall token,
      get_prop token (lit "context") = Ok (Some (JString (lit "single"))) ->
      findAdjacentTrack db token dir = Ok None).
Proof.
  assert (H : forall token,
             get_prop token (lit "context")
             = Ok (Some (JString (lit "single"))) ->
             findAdjacentTrack db token dir = Ok None).
  { intros token Hctx. unfold findAdjacentTrack. rewrite Hctx.
    cbn [bind]. now rewrite str_eqb_refl. }
  split; [|exact H].
  intros tid. apply H. reflexivity.
Qed.

Lemma single_context_is_closed_witness :
  findAdjacentTrack Demo.db
    (JObject [(lit "context", JString (lit "single"));
              (lit "trackId", JString (lit "track.1"));
              (lit "extra", JBool true)]) next
  = Ok None.
Proof.
  exact (proj2 (single_context_is_closed Demo.db next)
               (JObject [(lit "context", JString (lit "single"));
                         (lit "trackId", JString (lit "track.1"));
                         (lit "extra", JBool true)])
               eq_refl).
Defined.

(** C3.  On the resolved list of length [n], with the current track at
    index [i], a successful next reports [hasFurtherNext = (i + 2 < n)]
    and a successful previous reports [hasNext = (i - 1 < n - 1)]. *)
Theorem lookahead_flags (db : Db.t) (currentTrackId : jsstring)
    (playlistId : option jsstring) (trackList : list jsstring) :
  trackListOf db playlistId = Some trackList ->
  let i := indexOf trackList currentTrackId in
  let n := len trackList in
  (forall status body,
      handleGetNextTrack db currentTrackId playlistId = (status, body) ->
      hasNext body = Some true ->
      hasFurtherNext body = Some (i + 2 <? n)%Z) /\
  (forall status body,
      handleGetPreviousTrack db currentTrackId playlistId = (status, body) ->
      hasPrevious body = Some true ->
      hasNext body = Some (i - 1 <? n - 1)%Z).
Proof.
  intros Hl i n. split; intros status body H Hflag.
  - unfold handleGetNextTrack in H. rewrite Hl in H. fold i n in H.
    destruct ((i =? -1) || (i >=? n - 1))%Z;
      [inversion H; subst; discriminate|].
    destruct (at_index trackList (i + 1)) as [nid|];
      [|inversion H; subst; discriminate].
    destruct (negb (nonempty nid)); [inversion H; subst; discriminate|].
    destruct (Db.getTrack db nid); inversion H; subst; [|discriminate].
    simpl. now rewrite ltb_shift.
  - unfold handleGetPreviousTrack in H. rewrite Hl in H. fold i n in H.
    destruct (i <=? 0)%Z; [inversion H; subst; discriminate|].
    destruct (at_index trackList (i - 1)) as [pid|];
      [|inversion H; subst; discriminate].
    destruct (negb (nonempty pid)); [inversion H; subst; discriminate|].
    destruct (Db.getTrack db pid); inversion H; subst; [|discriminate].
    reflexivity.
Qed.

Lemma lookahead_flags_witness :
  hasFurtherNext
    (snd (handleGetNextTrack Demo.db (lit "track.1") None)) = Some true /\
  hasNext
    (snd (handleGetPreviousTrack Demo.db (lit "track.3") None)) = Some true.
Proof.
  split.
  - exact (proj1 (lookahead_flags Demo.db (lit "track.1") None
                    [lit "track.1"; lit "track.2"; lit "track.3"] eq_refl)
                 _ _ eq_refl eq_refl).
  - exact (proj2 (lookahead_flags Demo.db (lit "track.3") None
                    [lit "track.1"; lit "track.2"; lit "track.3"] eq_refl)
                 _ _ eq_refl eq_refl).
Defined.

(** C2.  When the resolved id sequence of a context is [[a; b; c]],
    the ids are distinct and each resolves to a stored track, then
    next(a) = b, next(b) = c, next(c) = none, previous(c) = b,
    previous(b) = a, previous(a) = none, and an id outside the sequence
    has no neighbour; in the directive flow ([findAdjacentTrack]) and in
    the handlers that serve the Lambda. *)
Theorem adjacency_of_three (db : Db.t) (a b c : jsstring)
    (ta tb tc : Track.t) :
  NoDup [a; b; c] ->
  resolves db a ta ->
  resolves db b tb ->
  resolves db c tc ->
  (forall ctx,
      str_eqb ctx (lit "single") = false ->
      contextTrackList db ctx = Some [a; b; c] ->
      let adj x d := findAdjacentTrack db (token_json (mkToken x ctx)) d in
      adj a next = Ok (Some tb) /\ adj b next = Ok (Some tc) /\
      adj c next = Ok None /\
      adj c previous = Ok (Some tb) /\ adj b previous = Ok (Some ta) /\
      adj a previous = Ok None /\
      (forall x, ~ In x [a; b; c] ->
                 adj x next = Ok None /\ adj x previous = Ok None)) /\
  (forall playlistId,
      trackListOf db playlistId = Some [a; b; c] ->
      let nx x := handleGetNextTrack db x playlistId in
      let pv x := handleGetPreviousTrack db x playlistId in
      nx a = (200%Z, next_body true (Some tb) (Some true)) /\
      nx b = (200%Z, next_body true (Some tc) (Some false)) /\
      nx c = (200%Z, next_body false None None) /\
      pv c = (200%Z, prev_body true (Some tb) (Some true)) /\
      pv b = (200%Z, prev_body true (Some ta) (Some true)) /\
      pv a = (200%Z, prev_body false None None) /\
      (forall x, ~ In x [a; b; c] ->
                 nx x = (200%Z, next_body false None None) /\
                 pv x = (200%Z, prev_body false None None))).
Proof.
  intros Hnd [Na Ha] [Nb Hb] [Nc Hc].
  destruct (indexOf_abc a b c Hnd) as (Ia & Ib & Ic).
  assert (Habs : forall x, ~ In x [a; b; c] -> indexOf [a; b; c] x = (-1)%Z)
    by (intros x Hx; now apply indexOf_absent).
  split.
  - intros ctx Hs Hl adj. unfold adj.
    repeat split; intros;
      rewrite findAdjacentTrack_token, Hs, Hl; cbv zeta;
      rewrite ?Ia, ?Ib, ?Ic, ?Habs by assumption; simpl;
      unfold if_some_truthy; rewrite ?Na, ?Nb, ?Nc; congruence.
  - intros pl Hl nx pv. unfold nx, pv, handleGetNextTrack,
      handleGetPreviousTrack. rewrite Hl.
    repeat split; intros;
      rewrite ?Ia, ?Ib, ?Ic, ?Habs by assumption; simpl;
      rewrite ?Na, ?Nb, ?Nc; simpl; rewrite ?Ha, ?Hb, ?Hc; reflexivity.
Qed.

(** Adjacency in a list of any length: the successor of the first
    occurrence of [x] is the id that follows it, the predecessor the
    id before it. *)
Lemma indexOf_from_first (pre post : list jsstring) (x : jsstring) (i : Z) :
  ~ In x pre -> indexOf_from (pre ++ x :: post) x i = (i + len pre)%Z.
Proof.
  revert i. induction pre as [|y pre IH]; intros i Hx; simpl.
  - rewrite str_eqb_refl. unfold len. simpl. lia.
  - rewrite str_eqb_neq by (intros ->; apply Hx; now left).
    rewrite IH by (intros H; apply Hx; now right).
    unfold len. simpl length. lia.
Qed.

Lemma at_index_after (pre post : list jsstring) (y : jsstring) :
  at_index (pre ++ y :: post) (len pre) = Some y.
Proof.
  unfold at_index, len.
  destruct (Z.ltb_spec (Z.of_nat (length pre)) 0); [lia|].
  rewrite Nat2Z.id. now rewrite nth_error_app2, Nat.sub_diag by lia.
Qed.

Lemma next_in_list (db : Db.t) (ctx x y : jsstring) (ty : Track.t)
    (pre post : list jsstring) :
  str_eqb ctx (lit "single") = false ->
  contextTrackList db ctx = Some (pre ++ x :: y :: post) ->
  ~ In x pre -> resolves db y ty ->
  findAdjacentTrack db (token_json (mkToken x ctx)) next = Ok (Some ty).
Proof.
  intros Hs Hl Hx [Ny Hy].
  rewrite findAdjacentTrack_token, Hs, Hl. cbv zeta.
  unfold indexOf. rewrite indexOf_from_first by exact Hx.
  destruct (Z.eqb_spec (0 + len pre) (-1)) as [E|_];
    [unfold len in E; lia|].
  replace (0 + len pre + 1)%Z with (len (pre ++ [x])) by
    (unfold len; rewrite length_app; simpl; lia).
  replace (pre ++ x :: y :: post) with ((pre ++ [x]) ++ y :: post)
    by (now rewrite <- app_assoc).
  rewrite at_index_after. cbn [if_some_truthy]. now rewrite Ny, Hy.
Qed.

Lemma previous_in_list (db : Db.t) (ctx x y : jsstring) (ty : Track.t)
    (pre post : list jsstring) :
  str_eqb ctx (lit "single") = false ->
  contextTrackList db ctx = Some (pre ++ y :: x :: post) ->
  ~ In x (pre ++ [y]) -> resolves db y ty ->
  findAdjacentTrack db (token_json (mkToken x ctx)) previous = Ok (Some ty).
Proof.
  intros Hs Hl Hx [Ny Hy].
  rewrite findAdjacentTrack_token, Hs, Hl. cbv zeta.
  replace (pre ++ y :: x :: post) with ((pre ++ [y]) ++ x :: post)
    by (now rewrite <- app_assoc).
  unfold indexOf. rewrite indexOf_from_first by exact Hx.
  destruct (Z.eqb_spec (0 + len (pre ++ [y])) (-1)) as [E|_];
    [unfold len in E; lia|].
  replace (0 + len (pre ++ [y]) - 1)%Z with (len pre) by
    (unfold len; rewrite length_app; simpl; lia).
  rewrite <- app_assoc. cbn [app].
  rewrite at_index_after. cbn [if_some_truthy]. now rewrite Ny, Hy.
Qed.

(** The empty string is no id: a row that has it is skipped over as a
    missing track. *)
Example blank_id_is_no_track :
  handleGetNextTrack Demo.db_blank (lit "x") None
  = (200%Z, next_body false None None) /\
  findAdjacentTrack Demo.db_blank (token_json (mkToken (lit "x") (lit "all")))
    next = Ok None.
Proof. split; reflexivity. Qed.

Lemma adjacency_of_three_witness :
  findAdjacentTrack Demo.db
    (token_json (mkToken (lit "track.1") (lit "all"))) next
  = Ok (Some Demo.t2).
Proof.
  refine (proj1 (proj1 (adjacency_of_three Demo.db
                          (lit "track.1") (lit "track.2") (lit "track.3")
                          Demo.t1 Demo.t2 Demo.t3
                          _ (conj eq_refl eq_refl) (conj eq_refl eq_refl)
                          (conj eq_refl eq_refl))
                       (lit "all") eq_refl eq_refl)).
  repeat constructor; simpl; intuition discriminate.
Defined.

(* ================================================================== *)
(** ** Remote-resolution flow                                         *)
(* ================================================================== *)

Lemma len_cons_pos {A : Type} (x : A) (l : list A) : (len (x :: l) =? 0)%Z = false.
Proof. unfold len. simpl length. apply Z.eqb_neq. lia. Qed.

Lemma resolveEntity_track (db : Db.t) (i : jsstring) :
  nonempty i = true ->
  Lambda.resolveEntity db i (lit "TRACK") =
  match Db.getTrack db i with
  | Some tr => resolve_body true (Some tr) None None (Some 1%Z)
  | None => resolve_body false None None None None
  end.
Proof.
  intros Hi. unfold Lambda.resolveEntity, handleResolveEntity.
  rewrite Hi. simpl. now destruct (Db.getTrack db i).
Qed.

Lemma trackListOf_all (db : Db.t) :
  trackListOf db None = Some (Db.getTrackIds db).
Proof. reflexivity. Qed.

Lemma handleGetNextTrack_status (db : Db.t) (cur : jsstring) :
  fst (handleGetNextTrack db cur None) = 200%Z.
Proof.
  unfold handleGetNextTrack. rewrite trackListOf_all.
  destruct (_ || _); [reflexivity|].
  destruct (at_index _ _); [|reflexivity].
  destruct (negb _); [reflexivity|].
  now destruct (Db.getTrack db _).
Qed.

Lemma handleGetPreviousTrack_status (db : Db.t) (cur : jsstring) :
  fst (handleGetPreviousTrack db cur None) = 200%Z.
Proof.
  unfold handleGetPreviousTrack. rewrite trackListOf_all.
  destruct (_ <=? _)%Z; [reflexivity|].
  destruct (at_index _ _); [|reflexivity].
  destruct (negb _); [reflexivity|].
  now destruct (Db.getTrack db _).
Qed.

Lemma getNextTrack_all (db : Db.t) (cur : jsstring) :
  Lambda.getNextTrack db cur None = snd (handleGetNextTrack db cur None).
Proof.
  unfold Lambda.getNextTrack.
  pose proof (handleGetNextTrack_status db cur) as H.
  destruct (handleGetNextTrack db cur None) as [st body]. simpl in *.
  now subst.
Qed.

Lemma getPreviousTrack_all (db : Db.t) (cur : jsstring) :
  Lambda.getPreviousTrack db cur None
  = snd (handleGetPreviousTrack db cur None).
Proof.
  unfold Lambda.getPreviousTrack.
  pose proof (handleGetPreviousTrack_status db cur) as H.
  destruct (handleGetPreviousTrack db cur None) as [st body]. simpl in *.
  now subst.
Qed.

Lemma first_of_list_found (l : list Track.t) (pl : option Playlist.t) :
  Lambda.first_of_list (resolve_body true None (Some l) pl (Some (len l)))
  = match l with
    | [] => None
    | first :: _ => Some (Some first, len l)
    end.
Proof.
  unfold Lambda.first_of_list, Lambda.no_tracks, Lambda.count_of. simpl.
  destruct l as [|x l]; [reflexivity|]. now rewrite len_cons_pos.
Qed.

Lemma first_of_list_missing :
  Lambda.first_of_list (resolve_body false None None None None) = None.
Proof. reflexivity. Qed.

(** Scenario 1 and 2 of the specification. *)
Example initiate_all :
  Lambda.handleInitiate Demo.db Demo.client_urls (lit "k3") (lit "content::all::")
  = Lambda.InitiateResponse (lit "queue-k3")
      (Lambda.buildItem Demo.client_urls Demo.t1 (lit "/api/mp3/track.1.mp3")
         true).
Proof. reflexivity. Qed.

Example initiate_single_artist :
  Lambda.handleInitiate Demo.db Demo.client_urls (lit "k3")
    (lit "content::artist::artist.bob")
  = Lambda.InitiateResponse (lit "queue-k3")
      (Lambda.buildItem Demo.client_urls Demo.t2 (lit "/api/mp3/track.2.mp3")
         false).
Proof. reflexivity. Qed.

(** Scenario 1: the item after the newest track, and the end of the
    queue after the oldest. *)
Example next_item_after_first :
  Lambda.handleGetNextItem Demo.db Demo.client_urls
    (Lambda.mkPayload (Some (lit "track.1")) None)
  = Lambda.ItemResponse
      (Lambda.buildItem Demo.client_urls Demo.t2 (lit "/api/mp3/track.2.mp3")
         true)
      false.
Proof. reflexivity. Qed.

Example next_item_after_last :
  Lambda.handleGetNextItem Demo.db Demo.client_urls
    (Lambda.mkPayload (Some (lit "track.3")) None)
  = Lambda.QueueFinished.
Proof. reflexivity. Qed.

(* ================================================================== *)
(** ** Content references                                             *)
(* ================================================================== *)

Lemma split_go_not_nil (sep : jsstring) (k : nat) (s : jsstring) :
  split_go sep k s <> [].
Proof.
  revert k. induction s as [|c s IH]; intros k; cbn [split_go];
    [discriminate|].
  destruct k as [|k]; [|apply IH].
  destruct (startsWith (c :: s) sep); [discriminate|].
  destruct (split_go sep 0 s); discriminate.
Qed.

(** Dropping the rest of a matched separator. *)
Lemma split_go_skip (sep : jsstring) (k : nat) (s : jsstring) :
  split_go sep k s = split_go sep 0 (skipn k s).
Proof.
  revert k. induction s as [|c s IH]; intros k.
  - now destruct k.
  - destruct k as [|k]; [reflexivity|]. simpl. apply IH.
Qed.

Lemma startsWith_app (p r : jsstring) : startsWith (p ++ r) p = true.
Proof.
  induction p as [|x p IH]; simpl; [reflexivity|].
  now rewrite N.eqb_refl, IH.
Qed.

Lemma startsWith_inv (s p : jsstring) :
  startsWith s p = true -> s = p ++ skipn (length p) s.
Proof.
  revert s. induction p as [|x p IH]; intros s H; simpl in *; [reflexivity|].
  destruct s as [|y s]; [discriminate|].
  apply andb_prop in H as [Hx Hr]. apply N.eqb_eq in Hx. subst.
  simpl. f_equal. now apply IH.
Qed.

Lemma skipn_app_exact {A : Type} (p r : list A) : skipn (length p) (p ++ r) = r.
Proof. induction p; simpl; auto. Qed.

(** The equations of [split] at a separator and elsewhere. *)
Lemma split_at_sep (h : N) (t r : jsstring) :
  split ((h :: t) ++ r) (h :: t) = [] :: split r (h :: t).
Proof.
  unfold split. simpl app. cbn [split_go].
  change (h :: t ++ r) with ((h :: t) ++ r). rewrite startsWith_app.
  rewrite split_go_skip.
  replace (length (h :: t) - 1)%nat with (length t) by (simpl; lia).
  now rewrite skipn_app_exact.
Qed.

Lemma split_cons_other (c : N) (s sep : jsstring) :
  startsWith (c :: s) sep = false ->
  split (c :: s) sep =
  match split s sep with
  | piece :: more => (c :: piece) :: more
  | [] => [[c]]
  end.
Proof. unfold split. cbn [split_go]. now intros ->. Qed.

(** A piece that is free of the first unit of the separator ends at the
    separator that follows it. *)
Lemma split_prefix (h : N) (t a r : jsstring) :
  ~ In h a ->
  split (a ++ (h :: t) ++ r) (h :: t) = a :: split r (h :: t).
Proof.
  induction a as [|x a IH]; intros Hin.
  - apply split_at_sep.
  - change ((x :: a) ++ (h :: t) ++ r) with (x :: (a ++ (h :: t) ++ r)).
    rewrite split_cons_other.
    + rewrite IH; [reflexivity|]. intros H. apply Hin. now right.
    + simpl. destruct (N.eqb_spec h x) as [->|_]; [|reflexivity].
      exfalso. apply Hin. now left.
Qed.

Lemma join_cons_head (c : N) (piece : jsstring) (more : list jsstring)
    (sep : jsstring) :
  join ((c :: piece) :: more) sep = c :: join (piece :: more) sep.
Proof. now destruct more. Qed.

(** Joining the pieces with the separator gives the string back. *)
Lemma join_split (s : jsstring) (h : N) (t : jsstring) :
  join (split s (h :: t)) (h :: t) = s.
Proof.
  remember (length s) as n eqn:Hn. revert s Hn.
  induction n as [n IH] using lt_wf_ind. intros s Hn.
  destruct s as [|c s]; [reflexivity|].
  destruct (startsWith (c :: s) (h :: t)) eqn:Hs.
  - apply startsWith_inv in Hs.
    remember (skipn (length (h :: t)) (c :: s)) as r eqn:Hr. clear Hr.
    rewrite Hs in Hn |- *. rewrite split_at_sep.
    assert (Hlen : (length r < n)%nat).
    { subst n. rewrite length_app. simpl. lia. }
    pose proof (IH _ Hlen r eq_refl) as Hj.
    pose proof (split_go_not_nil (h :: t) 0 r) as Hne.
    unfold split in *.
    destruct (split_go (h :: t) 0 r) as [|p more]; [contradiction|].
    change (join ([] :: p :: more) (h :: t))
      with ((h :: t) ++ join (p :: more) (h :: t)).
    now rewrite Hj.
  - rewrite split_cons_other by exact Hs.
    assert (Hlen : (length s < n)%nat) by (subst n; simpl; lia).
    pose proof (IH _ Hlen s eq_refl) as Hj.
    pose proof (split_go_not_nil (h :: t) 0 s) as Hne.
    unfold split in *.
    destruct (split_go (h :: t) 0 s) as [|p more]; [contradiction|].
    rewrite join_cons_head. now rewrite Hj.
Qed.

Lemma includes_app_sep (a sep r : jsstring) :
  includes (a ++ sep ++ r) sep = true.
Proof.
  induction a as [|x a IH].
  - simpl app. destruct (sep ++ r) eqn:E; simpl.
    + destruct sep; [reflexivity|discriminate].
    + rewrite <- E, startsWith_app. reflexivity.
  - simpl. rewrite IH. apply orb_true_r.
Qed.

Lemma includes_skip (h : N) (t a s : jsstring) :
  ~ In h a ->
  includes (a ++ s) (h :: t) = includes s (h :: t).
Proof.
  induction a as [|x a IH]; intros Hin; [reflexivity|].
  simpl app. cbn [includes startsWith].
  destruct (N.eqb_spec h x) as [->|_].
  - exfalso. apply Hin. now left.
  - simpl. apply IH. intros H. apply Hin. now right.
Qed.

(** The current format parses to its kind and its entity id, whatever
    the entity id is. *)
Lemma parseContentId_current (k e : jsstring) :
  ~ In 58%N k ->
  Lambda.parseContentId (lit "content::" ++ k ++ lit "::" ++ e) = (k, e).
Proof.
  intros Hk. unfold Lambda.parseContentId.
  change (lit "content::" ++ k ++ lit "::" ++ e)
    with (lit "content" ++ lit "::" ++ (k ++ lit "::" ++ e)).
  rewrite includes_app_sep.
  change (lit "::") with (58%N :: [58%N]).
  rewrite split_prefix by (simpl; intuition discriminate).
  rewrite split_prefix by exact Hk.
  cbn [at_index Z.ltb Z.compare Z.to_nat Pos.to_nat Pos.iter_op Nat.add
       nth_error skipn].
  now rewrite join_split.
Qed.

(** The legacy format parses to the same pair when the entity id is
    free of the current separator. *)
Lemma parseContentId_legacy (k e : jsstring) :
  ~ In 58%N k -> ~ In 45%N k ->
  includes e (lit "::") = false ->
  Lambda.parseContentId (lit "content-" ++ k ++ lit "-" ++ e) = (k, e).
Proof.
  intros Hc Hh He. unfold Lambda.parseContentId.
  assert (Hinc : includes (lit "content-" ++ k ++ lit "-" ++ e) (lit "::")
                 = false).
  { change (lit "::") with (58%N :: [58%N]) in *.
    rewrite includes_skip by (simpl; intuition discriminate).
    rewrite includes_skip by exact Hc.
    rewrite includes_skip by (simpl; intuition discriminate).
    exact He. }
  rewrite Hinc.
  assert (Hall : str_eqb (lit "content-" ++ k ++ lit "-" ++ e)
                         (lit "content-all") = false).
  { apply str_eqb_neq. intros H.
    assert (Hin : In 45%N (k ++ lit "-" ++ e)).
    { apply in_or_app. right. now left. }
    change (lit "content-" ++ k ++ lit "-" ++ e)
      with (lit "content-" ++ (k ++ lit "-" ++ e)) in H.
    change (lit "content-all") with (lit "content-" ++ lit "all") in H.
    apply app_inv_head in H. rewrite H in Hin.
    simpl in Hin. intuition discriminate. }
  rewrite Hall.
  change (lit "content-" ++ k ++ lit "-" ++ e)
    with (lit "content" ++ lit "-" ++ (k ++ lit "-" ++ e)).
  change (lit "-") with (45%N :: []).
  rewrite split_prefix by (simpl; intuition discriminate).
  rewrite split_prefix by exact Hh.
  cbn [at_index Z.ltb Z.compare Z.to_nat Pos.to_nat Pos.iter_op Nat.add
       nth_error skipn].
  now rewrite join_split.
Qed.

Lemma kind_name_plain (k : Kind) :
  ~ In 58%N (kind_name k) /\ ~ In 45%N (kind_name k).
Proof. destruct k; simpl; intuition discriminate. Qed.

(** C4.  For an entity id without the separator ["::"], the current
    format [content::kind::entityId] and the legacy format
    [content-kind-entityId] decode to the same kind and entity id; the
    legacy value [content-all] decodes to the kind [all]. *)
Theorem legacy_and_current_reference_agree (k : Kind) (entityId : jsstring) :
  includes entityId (lit "::") = false ->
  Lambda.parseContentId (currentFormat k entityId) = (kind_name k, entityId) /\
  Lambda.parseContentId (legacyFormat k entityId) = (kind_name k, entityId) /\
  Lambda.parseContentId (lit "content-all") = (kind_name KAll, []).
Proof.
  intros He. destruct (kind_name_plain k) as [Hc Hh].
  split; [now apply parseContentId_current|].
  split; [now apply parseContentId_legacy|reflexivity].
Qed.

Lemma legacy_and_current_reference_agree_witness :
  Lambda.parseContentId (lit "content::artist::artist.1x-y")
  = (lit "artist", lit "artist.1x-y") /\
  Lambda.parseContentId (lit "content-artist-artist.1x-y")
  = (lit "artist", lit "artist.1x-y").
Proof.
  pose proof (legacy_and_current_reference_agree KArtist (lit "artist.1x-y")
                eq_refl) as (H1 & H2 & _).
  exact (conj H1 H2).
Defined.

(** The selection step answers with a content id in the current
    format. *)
Lemma selection_emits_current_format (db : Db.t)
    (attributes : list Lambda.SelectionAttribute) (contentId : jsstring) :
  Lambda.handleGetPlayableContent db attributes
  = Lambda.GetPlayableContentResponse contentId ->
  exists k entityId, contentId = currentFormat k entityId.
Proof.
  unfold Lambda.handleGetPlayableContent.
  destruct (find _ attributes) as [a|] eqn:Hf; cbn [option_map if_some_truthy].
  - apply find_some in Hf as [_ Hty]. unfold Lambda.is_entity_type in Hty.
    destruct (nonempty (Lambda.attr_entityId a)).
    + destruct (negb _); [discriminate|].
      intros H. injection H as <-.
      destruct (str_eqb (Lambda.attr_type a) (lit "TRACK")) eqn:E1.
      { apply str_eqb_eq in E1. rewrite E1.
        now exists KTrack, (Lambda.attr_entityId a). }
      destruct (str_eqb (Lambda.attr_type a) (lit "ARTIST")) eqn:E2.
      { apply str_eqb_eq in E2. rewrite E2.
        now exists KArtist, (Lambda.attr_entityId a). }
      simpl in Hty. apply str_eqb_eq in Hty. rewrite Hty.
      now exists KPlaylist, (Lambda.attr_entityId a).
    + destruct (negb _); [discriminate|].
      intros H. injection H as <-. now exists KAll, [].
  - destruct (negb _); [discriminate|].
    intros H. injection H as <-. now exists KAll, [].
Qed.

(** Scenario 1, from the selection on. *)
Example selection_without_entity :
  Lambda.handleGetPlayableContent Demo.db [] =
  Lambda.GetPlayableContentResponse (currentFormat KAll []).
Proof. reflexivity. Qed.

(** An entity id with the separator is read differently in the legacy
    format. *)
Example legacy_with_separator :
  Lambda.parseContentId (legacyFormat KTrack (lit "a::b"))
  = (lit "b", []).
Proof. reflexivity. Qed.

(* ================================================================== *)
(** ** Base64                                                         *)
(* ================================================================== *)

Lemma list_ind3 {A : Type} (P : list A -> Prop) :
  P [] ->
  (forall a, P [a]) ->
  (forall a b, P [a; b]) ->
  (forall a b c l, P l -> P (a :: b :: c :: l)) ->
  forall l, P l.
Proof.
  intros H0 H1 H2 H3.
  assert (H : forall l, P l /\ (forall a, P (a :: l))
                        /\ (forall a b, P (a :: b :: l))).
  { induction l as [|x l (IH0 & IH1 & IH2)].
    - auto.
    - repeat split; auto. }
  intros l. apply H.
Qed.

Lemma below_64_listed (n : N) :
  (n < 64)%N -> In n (map N.of_nat (seq 0 64)).
Proof.
  intros Hn. rewrite <- (N2Nat.id n). apply in_map. apply in_seq. lia.
Qed.

Lemma char_of_facts (n : N) :
  (n < 64)%N ->
  val_of (char_of n) = Some n /\ is_ascii_ws (char_of n) = false /\
  (char_of n =? pad)%N = false.
Proof.
  intros Hn.
  assert (Hall : forallb sextet_check (map N.of_nat (seq 0 64)) = true)
    by (vm_compute; reflexivity).
  rewrite forallb_forall in Hall.
  specialize (Hall n (below_64_listed n Hn)). unfold sextet_check in Hall.
  apply andb_prop in Hall as [Hall Hp]. apply andb_prop in Hall as [Hv Hw].
  destruct (val_of (char_of n)) as [m|]; [|discriminate].
  apply N.eqb_eq in Hv. subst m.
  repeat split.
  - now destruct (is_ascii_ws (char_of n)).
  - now destruct (char_of n =? pad)%N.
Qed.

Lemma sextet_char_of (n : N) : (n < 64)%N -> sextet (char_of n) = n.
Proof.
  intros Hn. unfold sextet. now rewrite (proj1 (char_of_facts n Hn)).
Qed.

Lemma in_alphabet_char_of (n : N) :
  (n < 64)%N -> in_alphabet (char_of n) = true.
Proof.
  intros Hn. unfold in_alphabet. now rewrite (proj1 (char_of_facts n Hn)).
Qed.

Lemma not_ws_char_of (n : N) :
  (n < 64)%N -> negb (is_ascii_ws (char_of n)) = true.
Proof.
  intros Hn. now rewrite (proj1 (proj2 (char_of_facts n Hn))).
Qed.

Lemma not_pad_char_of (n : N) : (n < 64)%N -> (char_of n =? pad)%N = false.
Proof. intros Hn. apply (char_of_facts n Hn). Qed.

Lemma strip_pad_cons (n : N) (s : list N) :
  (n < 64)%N -> strip_pad (char_of n :: s) = char_of n :: strip_pad s.
Proof. intros Hn. cbn [strip_pad]. now rewrite (not_pad_char_of n Hn). Qed.

Lemma mod4_step (n : nat) : (S (S (S (S n))) mod 4 = n mod 4)%nat.
Proof.
  replace (S (S (S (S n)))) with (n + 1 * 4)%nat by lia.
  apply Nat.Div0.mod_add.
Qed.

Lemma latin1_cons (c : N) (s : jsstring) :
  latin1 (c :: s) = true <-> (c <= 255)%N /\ latin1 s = true.
Proof.
  unfold latin1. simpl. rewrite andb_true_iff, N.leb_le. reflexivity.
Qed.

(** What [atob] sees of an encoding: no white space, a length that is
    a multiple of four, and after the padding is removed only
    characters of the alphabet, which decode to the bytes. *)
Lemma encode_facts (s : jsstring) :
  latin1 s = true ->
  filter (fun c => negb (is_ascii_ws c)) (encode s) = encode s /\
  (length (encode s) mod 4 = 0)%nat /\
  (length (strip_pad (encode s)) mod 4 =? 1)%nat = false /\
  forallb in_alphabet (strip_pad (encode s)) = true /\
  decode (strip_pad (encode s)) = s.
Proof.
  induction s as [|a|a b|a b c s IH] using list_ind3; intros Hs.
  - repeat split; reflexivity.
  - apply latin1_cons in Hs as [Ha _].
    assert (H1 : (a / 4 < 64)%N) by arith.
    assert (H2 : (a mod 4 * 16 < 64)%N) by arith.
    cbn [encode].
    repeat split.
    + cbn [filter]. rewrite !not_ws_char_of by assumption. reflexivity.
    + rewrite !strip_pad_cons by assumption. reflexivity.
    + rewrite !strip_pad_cons by assumption. cbn [strip_pad].
      simpl. now rewrite !in_alphabet_char_of by assumption.
    + rewrite !strip_pad_cons by assumption. simpl.
      rewrite !sextet_char_of by assumption. f_equal. arith.
  - apply latin1_cons in Hs as [Ha Hs]. apply latin1_cons in Hs as [Hb _].
    assert (H1 : (a / 4 < 64)%N) by arith.
    assert (H2 : (a mod 4 * 16 + b / 16 < 64)%N) by arith.
    assert (H3 : (b mod 16 * 4 < 64)%N) by arith.
    cbn [encode].
    repeat split.
    + cbn [filter]. rewrite !not_ws_char_of by assumption. reflexivity.
    + rewrite !strip_pad_cons by assumption. reflexivity.
    + rewrite !strip_pad_cons by assumption. cbn [strip_pad].
      simpl. now rewrite !in_alphabet_char_of by assumption.
    + rewrite !strip_pad_cons by assumption. simpl.
      rewrite !sextet_char_of by assumption. f_equal; [|f_equal]; arith.
  - apply latin1_cons in Hs as [Ha Hs]. apply latin1_cons in Hs as [Hb Hs].
    apply latin1_cons in Hs as [Hc Hs].
    destruct (IH Hs) as (Hf & Hl & Hm & Hal & Hd).
    assert (H1 : (a / 4 < 64)%N) by arith.
    assert (H2 : (a mod 4 * 16 + b / 16 < 64)%N) by arith.
    assert (H3 : (b mod 16 * 4 + c / 64 < 64)%N) by arith.
    assert (H4 : (c mod 64 < 64)%N) by arith.
    cbn [encode].
    repeat split.
    + cbn [filter]. rewrite !not_ws_char_of by assumption.
      now rewrite Hf.
    + cbn [length]. now rewrite mod4_step.
    + rewrite !strip_pad_cons by assumption. cbn [length].
      now rewrite mod4_step.
    + rewrite !strip_pad_cons by assumption. cbn [forallb].
      rewrite !in_alphabet_char_of by assumption. exact Hal.
    + rewrite !strip_pad_cons by assumption. cbn [decode].
      rewrite !sextet_char_of by assumption. rewrite Hd.
      f_equal; [|f_equal; [|f_equal]]; arith.
Qed.

(** [atob] undoes [btoa]. *)
Lemma atob_encode (s : jsstring) : latin1 s = true -> atob (encode s) = Some s.
Proof.
  intros Hs. destruct (encode_facts s Hs) as (Hf & Hl & Hm & Hal & Hd).
  unfold atob. rewrite Hf, Hl. cbv zeta. rewrite Nat.eqb_refl.
  now rewrite Hm, Hal, Hd.
Qed.

Lemma btoa_latin1 (s : jsstring) : latin1 s = true -> btoa s = Some (encode s).
Proof. unfold btoa, latin1. now intros ->. Qed.

(* ================================================================== *)
(** ** JSON text                                                      *)
(* ================================================================== *)

Lemma latin1_units (s : jsstring) : latin1 s = true -> units s = true.
Proof.
  unfold latin1, units. rewrite !forallb_forall. intros H c Hc.
  specialize (H c Hc). apply N.leb_le in H. apply N.ltb_lt. lia.
Qed.

Lemma below_16_listed (n : N) :
  (n < 16)%N -> In n (map N.of_nat (seq 0 16)).
Proof.
  intros Hn. rewrite <- (N2Nat.id n). apply in_map. apply in_seq. lia.
Qed.

Lemma hex_val_digit (n : N) : (n < 16)%N -> hex_val (hex_digit n) = Some n.
Proof.
  intros Hn.
  assert (Hall : forallb (fun n => match hex_val (hex_digit n) with
                                   | Some m => (m =? n)%N
                                   | None => false
                                   end)
                         (map N.of_nat (seq 0 16)) = true)
    by (vm_compute; reflexivity).
  rewrite forallb_forall in Hall. specialize (Hall n (below_16_listed n Hn)).
  destruct (hex_val (hex_digit n)) as [m|]; [|discriminate].
  apply N.eqb_eq in Hall. now subst.
Qed.

Lemma hex4_escape (c : N) :
  (c < 65536)%N ->
  hex4 (hex_digit (c / 4096)) (hex_digit ((c / 256) mod 16))
       (hex_digit ((c / 16) mod 16)) (hex_digit (c mod 16)) = Some c.
Proof.
  intros Hc. unfold hex4.
  rewrite !hex_val_digit by arith. f_equal. arith.
Qed.

Lemma parse_unicode_escape (c : N) (rest : jsstring) :
  (c < 65536)%N ->
  parse_chars (unicode_escape c ++ rest) = push c (parse_chars rest).
Proof.
  intros Hc. unfold unicode_escape. cbn [app parse_chars].
  change (92 =? 34)%N with false. change (92 =? 92)%N with true.
  change (117 =? 117)%N with true. cbv iota.
  now rewrite hex4_escape.
Qed.

Lemma parse_plain_unit (c : N) (rest : jsstring) :
  (c =? 34)%N = false -> (c =? 92)%N = false -> (c <? 32)%N = false ->
  parse_chars (c :: rest) = push c (parse_chars rest).
Proof. intros H1 H2 H3. cbn [parse_chars]. now rewrite H1, H2, H3. Qed.

(** An escaped code unit is read back. *)
Lemma parse_quote_unit (c : N) (rest : jsstring) :
  (c < 65536)%N ->
  parse_chars (quote_unit c ++ rest) = push c (parse_chars rest).
Proof.
  intros Hc. unfold quote_unit.
  destruct (N.eqb_spec c 8) as [->|_]; [reflexivity|].
  destruct (N.eqb_spec c 9) as [->|_]; [reflexivity|].
  destruct (N.eqb_spec c 10) as [->|_]; [reflexivity|].
  destruct (N.eqb_spec c 12) as [->|_]; [reflexivity|].
  destruct (N.eqb_spec c 13) as [->|_]; [reflexivity|].
  destruct (c =? 34)%N eqn:Hq; [apply N.eqb_eq in Hq; now subst|].
  destruct (c =? 92)%N eqn:Hb; [apply N.eqb_eq in Hb; now subst|].
  destruct ((c <? 32)%N || is_high_surrogate c || is_low_surrogate c) eqn:He.
  - now apply parse_unicode_escape.
  - apply orb_false_elim in He as [He _]. apply orb_false_elim in He as [He _].
    now apply parse_plain_unit.
Qed.

Lemma surrogate_plain (c : N) :
  is_high_surrogate c = true \/ is_low_surrogate c = true ->
  (c =? 34)%N = false /\ (c =? 92)%N = false /\ (c <? 32)%N = false.
Proof.
  unfold is_high_surrogate, is_low_surrogate.
  rewrite !andb_true_iff, !N.leb_le, !N.eqb_neq, N.ltb_ge. lia.
Qed.

(** [JSON.parse] reads a quoted string back. *)
Lemma parse_chars_quote (s rest : jsstring) :
  units s = true ->
  parse_chars (quote_chars s ++ 34%N :: rest) = Some (s, rest).
Proof.
  remember (length s) as n eqn:Hn. revert s Hn.
  induction n as [n IH] using lt_wf_ind. intros s Hn Hs.
  destruct s as [|c s]; [reflexivity|].
  unfold units in Hs. cbn [forallb] in Hs.
  apply andb_prop in Hs as [Hc Hs]. apply N.ltb_lt in Hc.
  assert (Hstep : parse_chars ((quote_unit c ++ quote_chars s) ++ 34%N :: rest)
                  = Some (c :: s, rest)).
  { rewrite <- app_assoc, parse_quote_unit by exact Hc.
    rewrite (IH (length s)); [reflexivity|subst n; simpl; lia|reflexivity
                             |exact Hs]. }
  cbn [quote_chars].
  destruct (is_high_surrogate c) eqn:Hh; [|exact Hstep].
  destruct s as [|d s];
    [cbn [quote_chars] in Hstep; now rewrite app_nil_r in Hstep|].
  destruct (is_low_surrogate d) eqn:Hl; [|exact Hstep].
  cbn [forallb] in Hs. apply andb_prop in Hs as [_ Hs].
  destruct (surrogate_plain c (or_introl Hh)) as (C1 & C2 & C3).
  destruct (surrogate_plain d (or_intror Hl)) as (D1 & D2 & D3).
  cbn [app]. rewrite (parse_plain_unit c _ C1 C2 C3).
  rewrite (parse_plain_unit d _ D1 D2 D3).
  rewrite (IH (length s)); [reflexivity|subst n; simpl; lia|reflexivity
                           |exact Hs].
Qed.

Lemma latin1_app (a b : jsstring) : latin1 (a ++ b) = latin1 a && latin1 b.
Proof. apply forallb_app. Qed.

Lemma below_256_listed (n : N) :
  (n <= 255)%N -> In n (map N.of_nat (seq 0 256)).
Proof.
  intros Hn. rewrite <- (N2Nat.id n). apply in_map. apply in_seq. lia.
Qed.

Lemma latin1_quote_unit (c : N) :
  (c <= 255)%N -> latin1 (quote_unit c) = true.
Proof.
  intros Hc.
  assert (Hall : forallb (fun c => latin1 (quote_unit c))
                         (map N.of_nat (seq 0 256)) = true)
    by (vm_compute; reflexivity).
  rewrite forallb_forall in Hall. exact (Hall c (below_256_listed c Hc)).
Qed.

Lemma latin1_not_high (c : N) : (c <= 255)%N -> is_high_surrogate c = false.
Proof.
  intros Hc. unfold is_high_surrogate. apply andb_false_iff. left.
  apply N.leb_gt. lia.
Qed.

Lemma latin1_quote_chars (s : jsstring) :
  latin1 s = true -> latin1 (quote_chars s) = true.
Proof.
  induction s as [|c s IH]; intros Hs; [reflexivity|].
  apply latin1_cons in Hs as [Hc Hs]. cbn [quote_chars].
  rewrite (latin1_not_high c Hc), latin1_app, (latin1_quote_unit c Hc).
  now apply IH.
Qed.

Lemma latin1_quote (s : jsstring) : latin1 s = true -> latin1 (quote s) = true.
Proof.
  intros Hs. unfold quote. apply latin1_cons. split; [lia|].
  rewrite latin1_app, (latin1_quote_chars s Hs). reflexivity.
Qed.

(** The text of a token, unit by unit. *)
Lemma stringify_token_shape (t : PlaybackToken) :
  stringify_token t =
  123%N :: 34%N ::
    (quote_chars (lit "trackId") ++ 34%N :: 58%N :: 34%N ::
       (quote_chars (trackId t) ++ 34%N :: 44%N :: 34%N ::
          (quote_chars (lit "context") ++ 34%N :: 58%N :: 34%N ::
             (quote_chars (context t) ++ 34%N :: [125%N])))).
Proof.
  unfold stringify_token, quote.
  change (lit "{") with [123%N]. change (lit ":") with [58%N].
  change (lit ",") with [44%N]. change (lit "}") with [125%N].
  cbn [app]. repeat (rewrite <- app_assoc; cbn [app]). reflexivity.
Qed.

Lemma latin1_stringify_token (t : PlaybackToken) :
  valid_token t = true -> latin1 (stringify_token t) = true.
Proof.
  unfold valid_token. intros H. apply andb_prop in H as [Ht Hc].
  unfold stringify_token.
  rewrite !latin1_app, (latin1_quote _ Ht), (latin1_quote _ Hc).
  reflexivity.
Qed.

Lemma parse_value_object (f : nat) (r : jsstring) :
  parse_value (S f) (123%N :: r) =
  match skip_ws r with
  | [] => None
  | d :: r' =>
      if (d =? 125)%N then Some (JObject [], r')
      else
        match parse_members f [] (d :: r') with
        | Some (o, r'') => Some (JObject o, r'')
        | None => None
        end
  end.
Proof. reflexivity. Qed.

Lemma parse_value_string (f : nat) (r : jsstring) :
  parse_value (S f) (34%N :: r) =
  match parse_chars r with
  | Some (str, r') => Some (JString str, r')
  | None => None
  end.
Proof. reflexivity. Qed.

(** One member whose value is a string, followed by the unit [d]. *)
Lemma parse_member_string (f : nat) (acc : list (jsstring * json))
    (k v : jsstring) (d : N) (rest : jsstring) :
  units k = true -> units v = true -> is_ws d = false ->
  parse_members (S (S f)) acc
    (34%N :: (quote_chars k ++ 34%N :: 58%N :: 34%N ::
                (quote_chars v ++ 34%N :: d :: rest))) =
  if (d =? 125)%N then Some (obj_set k (JString v) acc, rest)
  else if (d =? 44)%N
       then parse_members (S f) (obj_set k (JString v) acc) (skip_ws rest)
       else None.
Proof.
  intros Hk Hv Hd.
  change (parse_members (S (S f)) acc
            (34%N :: (quote_chars k ++ 34%N :: 58%N :: 34%N ::
                        (quote_chars v ++ 34%N :: d :: rest))))
    with (match parse_chars (quote_chars k ++ 34%N :: 58%N :: 34%N ::
                               (quote_chars v ++ 34%N :: d :: rest)) with
          | None => None
          | Some (k, r1) =>
              match skip_ws r1 with
              | [] => None
              | colon :: r2 =>
                  if (colon =? 58)%N then
                    match parse_value (S f) (skip_ws r2) with
                    | None => None
                    | Some (v, r3) =>
                        let acc' := obj_set k v acc in
                        match skip_ws r3 with
                        | [] => None
                        | d :: r4 =>
                            if (d =? 125)%N then Some (acc', r4)
                            else if (d =? 44)%N
                                 then parse_members (S f) acc' (skip_ws r4)
                                 else None
                        end
                    end
                  else None
              end
          end).
  rewrite (parse_chars_quote k _ Hk).
  change (skip_ws (58%N :: 34%N :: quote_chars v ++ 34%N :: d :: rest))
    with (58%N :: 34%N :: quote_chars v ++ 34%N :: d :: rest).
  change (58 =? 58)%N with true. cbv iota.
  change (skip_ws (34%N :: quote_chars v ++ 34%N :: d :: rest))
    with (34%N :: quote_chars v ++ 34%N :: d :: rest).
  rewrite parse_value_string, (parse_chars_quote v _ Hv). cbv zeta.
  cbn [skip_ws]. rewrite Hd. reflexivity.
Qed.

(** [JSON.parse] of the text of a token is the token. *)
Lemma parse_stringify_token (t : PlaybackToken) :
  units (trackId t) = true -> units (context t) = true ->
  parse (stringify_token t) = Some (token_json t).
Proof.
  intros Ht Hc. unfold parse. rewrite stringify_token_shape.
  set (members := quote_chars (lit "trackId") ++ _).
  change (skip_ws (123%N :: 34%N :: members)) with (123%N :: 34%N :: members).
  replace (2 * length (123%N :: 34%N :: members) + 2)
    with (S (S (S (S (2 * length members + 2))))) by (simpl; lia).
  rewrite parse_value_object.
  change (skip_ws (34%N :: members)) with (34%N :: members).
  change (34 =? 125)%N with false. cbv iota. subst members.
  rewrite parse_member_string by (reflexivity || assumption).
  change (44 =? 125)%N with false. change (44 =? 44)%N with true. cbv iota.
  set (tail := quote_chars (lit "context") ++ _).
  change (skip_ws (34%N :: tail)) with (34%N :: tail). subst tail.
  rewrite parse_member_string by (reflexivity || assumption).
  reflexivity.
Qed.

(** Decoding undoes encoding on the tokens of the codec. *)
Lemma decode_encode_token (t : PlaybackToken) :
  valid_token t = true ->
  encodeToken t = Some (encode (stringify_token t)) /\
  decodeToken (encode (stringify_token t)) = token_json t.
Proof.
  intros Hv. pose proof (latin1_stringify_token t Hv) as Hl.
  split.
  - unfold encodeToken. now apply btoa_latin1.
  - unfold decodeToken. rewrite (atob_encode _ Hl).
    unfold valid_token in Hv. apply andb_prop in Hv as [Ht Hc].
    now rewrite (parse_stringify_token t (latin1_units _ Ht)
                   (latin1_units _ Hc)).
Qed.

(* ================================================================== *)
(** ** Token codec                                                    *)
(* ================================================================== *)

(** Every encoding starts with [eyJ0], the Base64 of the first
    three units of the text: a brace, a quote and the letter t. *)
Lemma encodeToken_head (t : PlaybackToken) (raw : jsstring) :
  encodeToken t = Some raw ->
  exists rest, raw = 101%N :: 121%N :: 74%N :: 48%N :: rest.
Proof.
  unfold encodeToken, btoa. destruct (forallb _ _); [|discriminate].
  intros H. injection H as <-. eexists. reflexivity.
Qed.

(** ["e30="] is the Base64 of [{}]: the encoding of no token, and it
    decodes to an object without properties. *)
Lemma empty_object_malformed : malformed (lit "e30=").
Proof.
  intros t H. apply encodeToken_head in H as [rest H]. discriminate.
Qed.

Lemma empty_object_decoded : decodeToken (lit "e30=") = JObject [].
Proof. reflexivity. Qed.

(** Not every input that is the encoding of no token is decoded to
    [null]. *)
Lemma malformed_input_not_null :
  ~ (forall raw, malformed raw -> decodeToken raw = JNull).
Proof.
  intros H. specialize (H (lit "e30=") empty_object_malformed).
  rewrite empty_object_decoded in H. discriminate.
Qed.

(** C1.  The second half of the claim fails at the input ["e30="],
    the Base64 of the text of an object without properties.  The
    input is the encoding of no token, yet [decodeToken] does not
    answer it with [null]: [atob] and [JSON.parse] accept it, and the
    parsed value is returned as a token without a check of its
    properties.  The value has no [context], so the adjacency
    computation raises on it in both directions, and so does the
    handler of the near-end-of-track event that carries the input. *)
Theorem decodeToken_accepts_a_non_token :
  malformed (lit "e30=") /\
  atob (lit "e30=") = Some (lit "{}") /\
  parse (lit "{}") = Some (JObject []) /\
  decodeToken (lit "e30=") = JObject [] /\
  decodeToken (lit "e30=") <> JNull /\
  (forall db direction,
      findAdjacentTrack db (decodeToken (lit "e30=")) direction = Throw) /\
  (forall db u,
      handleAudioPlayerEvent db
        (Demo.nearlyFinished (Some (lit "e30="))) u = Throw).
Proof.
  split; [exact empty_object_malformed|].
  split; [reflexivity|]. split; [reflexivity|].
  split; [reflexivity|]. split; [discriminate|].
  split.
  - intros db direction. reflexivity.
  - intros db u. reflexivity.
Qed.

(** The round trip of the codec.  A token whose strings are within
    Latin-1 is encoded, and decoding the encoding gives the token
    back; an input that [atob] refuses, or whose decoded text
    [JSON.parse] refuses, decodes to [null]. *)
Theorem token_roundtrip_and_invalid_input :
  (forall t, valid_token t = true ->
             exists raw, encodeToken t = Some raw /\
                         decodeToken raw = token_json t) /\
  (forall raw, atob raw = None -> decodeToken raw = JNull) /\
  (forall raw text, atob raw = Some text -> parse text = None ->
                    decodeToken raw = JNull).
Proof.
  repeat split.
  - intros t Hv. destruct (decode_encode_token t Hv) as [He Hd].
    eexists. split; eassumption.
  - intros raw H. unfold decodeToken. now rewrite H.
  - intros raw text H1 H2. unfold decodeToken. now rewrite H1, H2.
Qed.

Lemma token_roundtrip_and_invalid_input_witness :
  (exists raw,
      encodeToken (mkToken (lit "track.1") (lit "artist::artist.ann"))
      = Some raw /\
      decodeToken raw
      = token_json (mkToken (lit "track.1") (lit "artist::artist.ann"))) /\
  decodeToken (lit "not base64!") = JNull /\
  decodeToken (lit "e3s=") = JNull.
Proof.
  destruct token_roundtrip_and_invalid_input as (H1 & H2 & H3).
  split; [|split].
  - exact (H1 (mkToken (lit "track.1") (lit "artist::artist.ann")) eq_refl).
  - exact (H2 (lit "not base64!") eq_refl).
  - exact (H3 (lit "e3s=") (lit "{{") eq_refl eq_refl).
Defined.

(** Outside Latin-1 [btoa] raises, and so does [encodeToken]. *)
Example encodeToken_raises :
  encodeToken (mkToken [12354%N] (lit "all")) = None.
Proof. reflexivity. Qed.

(* ================================================================== *)
(** ** Directive flow                                                 *)
(* ================================================================== *)

(** A neighbour is found only for a token-shaped value, and it is a
    stored track. *)
Lemma findAdjacentTrack_found (db : Db.t) (v : json) (d : Direction)
    (nt : Track.t) :
  findAdjacentTrack db v d = Ok (Some nt) ->
  token_shaped v /\ In nt (Db.tracks db).
Proof.
  unfold findAdjacentTrack, token_shaped.
  destruct (get_prop v (lit "context")) as [[[| | |ctx| |]|]|] eqn:Hc;
    cbn [bind]; try discriminate.
  destruct (str_eqb ctx (lit "single")); [discriminate|].
  destruct (contextTrackList db ctx) as [trackList|]; [|discriminate].
  destruct (get_prop v (lit "trackId")) as [[[| | |tid| |]|]|] eqn:Ht;
    cbn [bind indexOf_value]; try discriminate.
  destruct (indexOf trackList tid =? -1)%Z; [discriminate|].
  destruct (if_some_truthy _) as [target|]; [|discriminate].
  intros H. injection H as H. split.
  - now exists tid, ctx.
  - eapply getTrack_In. exact H.
Qed.



Lemma nonempty_app_r (a b : jsstring) :
  nonempty b = true -> nonempty (a ++ b) = true.
Proof. destruct a; [trivial|reflexivity]. Qed.

(** The token of a stored track and a Latin-1 context is encoded, and
    decodes to that track and context. *)
Lemma new_token_encoded (db : Db.t) (tr : Track.t) (ctx : jsstring) :
  ids_latin1 db = true -> In tr (Db.tracks db) -> latin1 ctx = true ->
  encodeToken (mkToken (Track.id tr) ctx)
  = Some (encode (stringify_token (mkToken (Track.id tr) ctx))) /\
  decodeToken (encode (stringify_token (mkToken (Track.id tr) ctx)))
  = token_json (mkToken (Track.id tr) ctx).
Proof.
  intros Hok Hin Hctx. apply decode_encode_token.
  unfold valid_token. cbn [trackId context].
  rewrite (proj1 (stored_track_latin1 db tr Hok Hin)), Hctx.
  reflexivity.
Qed.




Example token1_is_the_wire_text : Demo.token1 = Demo.token1_text.
Proof. vm_compute. reflexivity. Qed.

(** The end of the queue, by evaluation; a token that is JSON of
    another shape, and a token whose context is outside Latin-1: the
    handler raises and the route answers with the empty reply. *)
Example nearly_finished_last_track :
  handleAudioPlayerEvent Demo.db
    (Demo.nearlyFinished
       (Some (encode (stringify_token (mkToken (lit "track.3") (lit "all"))))))
    Demo.urls
  = Ok Empty.
Proof. vm_compute. reflexivity. Qed.

Example nearly_finished_empty_object :
  handleAudioPlayerEvent Demo.db (Demo.nearlyFinished (Some (lit "e30=")))
    Demo.urls = Throw /\
  routeReply (handleAudioPlayerEvent Demo.db
                (Demo.nearlyFinished (Some (lit "e30="))) Demo.urls) = Empty.
Proof. split; vm_compute; reflexivity. Qed.

Example nearly_finished_wide_context :
  decodeToken Demo.token_wide
  = token_json (mkToken (lit "track.1") [12354%N]) /\
  handleAudioPlayerEvent Demo.db (Demo.nearlyFinished (Some Demo.token_wide))
    Demo.urls = Throw.
Proof. split; vm_compute; reflexivity. Qed.

(* ------------------------------------------------------------------ *)
(** *** Play intents *)

Lemma search_title_stored (db : Db.t) (q : jsstring) (tr : Track.t) :
  In tr (Db.searchTracksByTitle db q) -> In tr (Db.tracks db).
Proof. unfold Db.searchTracksByTitle. intros H. now apply filter_In in H. Qed.

Lemma search_artist_stored (db : Db.t) (q : jsstring) (tr : Track.t) :
  In tr (Db.searchTracksByArtist db q) -> In tr (Db.tracks db).
Proof.
  unfold Db.searchTracksByArtist. intros H.
  apply in_flat_map in H as (x & Hx & H).
  apply in_map_iff in H as (a & <- & _). exact Hx.
Qed.

Lemma search_playlist_stored (db : Db.t) (q : jsstring) (pl : Playlist.t) :
  In pl (Db.searchPlaylistsByName db q) -> In pl (Db.playlists db).
Proof.
  unfold Db.searchPlaylistsByName. intros H. now apply filter_In in H.
Qed.

Lemma playlist_tracks_stored (db : Db.t) (pid : jsstring) (tr : Track.t) :
  In tr (Db.getPlaylistTracks db pid) -> In tr (Db.tracks db).
Proof.
  unfold Db.getPlaylistTracks. destruct (Db.getPlaylist db pid); [|easy].
  intros H. apply in_flat_map in H as (i & _ & H).
  destruct (Db.getTrack db i) eqn:E; [|easy].
  destruct H as [<-|[]]. eapply getTrack_In. exact E.
Qed.

(** The Play reply that the play intents build for a stored track. *)
Lemma buildPlayResponse_replace_all (db : Db.t) (u : UrlBuilder)
    (tr : Track.t) (ctx speech : jsstring) :
  ids_latin1 db = true -> In tr (Db.tracks db) -> latin1 ctx = true ->
  nonempty speech = true ->
  buildPlayResponse tr (mp3 u (Track.id tr)) (art u (Track.id tr))
    (mkToken (Track.id tr) ctx) REPLACE_ALL 0 None (Some speech)
  = Ok (replaceAllReply u tr
          (encode (stringify_token (mkToken (Track.id tr) ctx))) speech).
Proof.
  intros Hok Hin Hctx Hsp.
  destruct (new_token_encoded db tr ctx Hok Hin Hctx) as [He _].
  unfold buildPlayResponse. rewrite He. cbn [if_some_truthy].
  now rewrite Hsp.
Qed.

(** C8, as stated, fails: a title that matches nothing is answered
    with the not-found message, not with the first of all tracks. *)
Lemma no_match_does_not_play_everything :
  ~ (forall db u songName,
        Db.searchTracksByTitle db songName = [] ->
        handlePlaySongIntent db (Some songName) u = handlePlayAllIntent db u).
Proof.
  intros H. specialize (H Demo.db Demo.urls (lit "zzz") eq_refl).
  vm_compute in H. discriminate.
Qed.

(** C8, amended.  Over a storage whose ids are within Latin-1: with
    an empty slot the song and artist intents play everything, which
    is the first of all tracks in the context [all], or a spoken
    message when there is no track; the playlist intent asks for a
    name.  When the search finds nothing, the reply is a spoken
    not-found message and no directive.  When a match is found, the
    first match is taken and the reply is a Play directive with
    behaviour REPLACE_ALL at offset 0 and an utterance that names the
    match: the title, the artist or the playlist.  For a playlist this
    needs a stored track: a first matching playlist without entries is
    answered like no match, and one whose entries are all unknown
    tracks with the message that the playlist is empty. *)
Theorem play_intents (db : Db.t) (u : UrlBuilder) :
  ids_latin1 db = true ->
  (* empty slot *)
  (forall slot, if_some_truthy slot = None ->
      handlePlaySongIntent db slot u = handlePlayAllIntent db u /\
      handlePlayArtistIntent db slot u = handlePlayAllIntent db u /\
      handlePlayPlaylistIntent db slot u = Ok (Speech msg_say_playlist false)) /\
  (* everything *)
  (forall first rest, Db.getTracks db = first :: rest ->
      handlePlayAllIntent db u
      = Ok (replaceAllReply u first
              (encode (stringify_token (mkToken (Track.id first) (lit "all"))))
              (Track.title first ++ msg_will_play))) /\
  (Db.getTracks db = [] ->
   handlePlayAllIntent db u = Ok (Speech msg_nothing_to_play false)) /\
  (* no match *)
  (forall name, nonempty name = true ->
      (Db.searchTracksByTitle db name = [] ->
       handlePlaySongIntent db (Some name) u
       = Ok (Speech (name ++ msg_not_found) false)) /\
      (Db.searchTracksByArtist db name = [] ->
       handlePlayArtistIntent db (Some name) u
       = Ok (Speech (name ++ msg_artist_not_found) false)) /\
      (Db.searchPlaylistsByName db name = [] ->
       handlePlayPlaylistIntent db (Some name) u
       = Ok (Speech (msg_open_quote ++ name ++ msg_playlist_not_found)
                    false))) /\
  (* match *)
  (forall name, nonempty name = true ->
      (forall first rest,
          Db.searchTracksByTitle db name = first :: rest ->
          handlePlaySongIntent db (Some name) u
          = Ok (replaceAllReply u first
                  (encode (stringify_token
                             (mkToken (Track.id first) (lit "single"))))
                  (Track.title first ++ msg_will_play))) /\
      (forall first rest,
          Db.searchTracksByArtist db name = first :: rest ->
          handlePlayArtistIntent db (Some name) u
          = Ok (replaceAllReply u first
                  (encode (stringify_token
                             (mkToken (Track.id first)
                                (lit "artist::" ++ Track.artistId first))))
                  (Track.artist first ++ msg_artist_will_play))) /\
      (forall pl others,
          Db.searchPlaylistsByName db name = pl :: others ->
          handlePlayPlaylistIntent db (Some name) u
          = match Playlist.trackIds pl, Db.getPlaylistTracks db (Playlist.id pl)
            with
            | [], _ =>
                Ok (Speech (msg_open_quote ++ name ++ msg_playlist_not_found)
                           false)
            | _ :: _, [] => Ok (Speech msg_playlist_empty false)
            | _ :: _, first :: _ =>
                Ok (replaceAllReply u first
                      (encode (stringify_token
                                 (mkToken (Track.id first)
                                    (lit "playlist::" ++ Playlist.id pl))))
                      (msg_playlist ++ Playlist.name pl ++ msg_will_play))
            end)).
Proof.
  intros Hok.
  assert (Hall : forall first rest, Db.getTracks db = first :: rest ->
      handlePlayAllIntent db u
      = Ok (replaceAllReply u first
              (encode (stringify_token (mkToken (Track.id first) (lit "all"))))
              (Track.title first ++ msg_will_play))).
  { intros first rest H. unfold handlePlayAllIntent. rewrite H.
    apply (buildPlayResponse_replace_all db);
      [exact Hok| |reflexivity|now apply nonempty_app_r].
    unfold Db.getTracks in H. rewrite H. now left. }
  split; [|split; [exact Hall|split; [|split]]].
  - intros slot Hs.
    unfold handlePlaySongIntent, handlePlayArtistIntent,
      handlePlayPlaylistIntent. now rewrite Hs.
  - intros H. unfold handlePlayAllIntent. now rewrite H.
  - intros name Hn.
    unfold handlePlaySongIntent, handlePlayArtistIntent,
      handlePlayPlaylistIntent. cbn [if_some_truthy]. rewrite Hn.
    repeat split; now intros ->.
  - intros name Hn.
    unfold handlePlaySongIntent, handlePlayArtistIntent,
      handlePlayPlaylistIntent. cbn [if_some_truthy]. rewrite Hn.
    split; [|split].
    + intros first rest H. rewrite H.
      apply (buildPlayResponse_replace_all db);
        [exact Hok| |reflexivity|now apply nonempty_app_r].
      apply (search_title_stored db name). rewrite H. now left.
    + intros first rest H. rewrite H.
      assert (Hin : In first (Db.tracks db))
        by (apply (search_artist_stored db name); rewrite H; now left).
      apply (buildPlayResponse_replace_all db);
        [exact Hok|exact Hin| |now apply nonempty_app_r].
      rewrite latin1_app.
      now rewrite (proj2 (stored_track_latin1 db first Hok Hin)).
    + intros pl others Hs. rewrite Hs. cbv zeta.
      destruct (Playlist.trackIds pl) as [|i ids] eqn:Hids; [reflexivity|].
      rewrite len_cons_pos.
      destruct (Db.getPlaylistTracks db (Playlist.id pl)) as [|first rest]
        eqn:Ht; [reflexivity|].
      assert (Hp : In pl (Db.playlists db))
        by (apply (search_playlist_stored db name); rewrite Hs; now left).
      apply (buildPlayResponse_replace_all db);
        [exact Hok| | |apply nonempty_app_r; now apply nonempty_app_r].
      * apply (playlist_tracks_stored db (Playlist.id pl)). rewrite Ht.
        now left.
      * rewrite latin1_app.
        now rewrite (stored_playlist_latin1 db pl Hok Hp).
Qed.

(** A title that matches nothing is answered with the not-found
    message; a title that matches plays the match alone; the name of
    the playlist [pl.mix] plays its first stored track, track.3, in
    the context of the playlist. *)
Lemma play_intents_witness :
  handlePlaySongIntent Demo.db (Some (lit "zzz")) Demo.urls
  = Ok (Speech (lit "zzz" ++ msg_not_found) false) /\
  handlePlaySongIntent Demo.db (Some (lit "Breeze")) Demo.urls
  = Ok (replaceAllReply Demo.urls Demo.t2
          (encode (stringify_token (mkToken (lit "track.2") (lit "single"))))
          (lit "Breeze" ++ msg_will_play)) /\
  handlePlayPlaylistIntent Demo.db (Some (lit "Mix")) Demo.urls
  = Ok (replaceAllReply Demo.urls Demo.t3
          (encode (stringify_token
                     (mkToken (lit "track.3") (lit "playlist::pl.mix"))))
          (msg_playlist ++ lit "Mix" ++ msg_will_play)).
Proof.
  destruct (play_intents Demo.db Demo.urls eq_refl)
    as (_ & _ & _ & Hno & Hyes).
  split; [|split].
  - exact (proj1 (Hno (lit "zzz") eq_refl) eq_refl).
  - exact (proj1 (Hyes (lit "Breeze") eq_refl) Demo.t2 [] eq_refl).
  - exact (proj2 (proj2 (Hyes (lit "Mix") eq_refl)) Demo.mix [] eq_refl).
Defined.

(* ================================================================== *)
(** ** The fuel of the parser is never used up                        *)
(* ================================================================== *)

Lemma skip_ws_length (s : jsstring) : length (skip_ws s) <= length s.
Proof.
  induction s as [|c s IH]; simpl; [lia|].
  destruct (is_ws c); simpl; lia.
Qed.

Lemma skip_ws_cons_length (s r : jsstring) (d : N) :
  skip_ws s = d :: r -> length r < length s.
Proof.
  intros H. pose proof (skip_ws_length s) as Hl. rewrite H in Hl.
  simpl in Hl. lia.
Qed.

Lemma push_some (u : N) (res : option (jsstring * jsstring))
    (k rest : jsstring) :
  push u res = Some (k, rest) -> exists k', res = Some (k', rest).
Proof.
  destruct res as [[k' r]|]; [|discriminate].
  intros H. injection H as _ <-. now exists k'.
Qed.

Lemma parse_chars_shorter (s k r : jsstring) :
  parse_chars s = Some (k, r) -> length r < length s.
Proof.
  remember (length s) as n eqn:Hn. revert s k r Hn.
  induction n as [n IH] using lt_wf_ind. intros s k r Hn.
  destruct s as [|c s]; [discriminate|]. cbn [parse_chars].
  destruct (c =? 34)%N.
  { intros H. injection H as _ <-. subst n. simpl. lia. }
  destruct (c =? 92)%N.
  { destruct s as [|e s]; [discriminate|].
    destruct (e =? 117)%N.
    - destruct s as [|h1 [|h2 [|h3 [|h4 s]]]]; try discriminate.
      destruct (hex4 h1 h2 h3 h4); [|discriminate].
      intros H. apply push_some in H as [k' H].
      apply (IH (length s)) in H; subst n; simpl in *; lia.
    - destruct (unescape e); [|discriminate].
      intros H. apply push_some in H as [k' H].
      apply (IH (length s)) in H; subst n; simpl in *; lia. }
  destruct (c <? 32)%N; [discriminate|].
  intros H. apply push_some in H as [k' H].
  apply (IH (length s)) in H; subst n; simpl in *; lia.
Qed.

Lemma digits_shorter (s : jsstring) (acc : Z) (n : nat) :
  length (snd (digits acc n s)) <= length s.
Proof.
  revert acc n. induction s as [|c s IH]; intros acc n; simpl; [lia|].
  destruct (is_digit c); simpl; [|lia].
  specialize (IH (acc * 10 + Z.of_N (c - 48))%Z (S n)). lia.
Qed.

Lemma parse_number_shorter (s : jsstring) (v : json) (r : jsstring) :
  parse_number s = Some (v, r) -> length r < length s.
Proof.
  unfold parse_number.
  set (signed := match s with
                 | [] => (false, s)
                 | c :: r0 => if (c =? 45)%N then (true, r0) else (false, s)
                 end).
  assert (H1 : length (snd signed) <= length s).
  { subst signed. destruct s as [|c r0]; simpl; [lia|].
    destruct (c =? 45)%N; simpl; lia. }
  destruct signed as [neg s1]. simpl in H1.
  set (int_part := match s1 with
                   | [] => None
                   | c :: r0 => _
                   end).
  assert (H2 : forall iv s2, int_part = Some (iv, s2) ->
                             length s2 < length s1).
  { subst int_part. intros iv s2. destruct s1 as [|c r0]; [discriminate|].
    destruct (c =? 48)%N.
    - intros H. injection H as _ <-. simpl. lia.
    - destruct (is_digit c) eqn:Hd; [|discriminate].
      pose proof (digits_shorter r0 (0 * 10 + Z.of_N (c - 48))%Z 1) as Hl.
      cbn [digits]. rewrite Hd.
      destruct (digits _ _ r0) as [[v0 m] r']. simpl in Hl.
      intros H. injection H as _ <-. simpl. lia. }
  destruct int_part as [[iv s2]|]; [|discriminate].
  specialize (H2 iv s2 eq_refl).
  set (frac_part := match s2 with
                    | [] => Some (iv, 0, s2)
                    | c :: r0 => _
                    end).
  assert (H3 : forall mv fn s3, frac_part = Some (mv, fn, s3) ->
                                length s3 <= length s2).
  { subst frac_part. intros mv fn s3. destruct s2 as [|c r0].
    - intros H. injection H as _ _ <-. lia.
    - destruct (c =? 46)%N.
      + pose proof (digits_shorter r0 iv 0) as Hl.
        destruct (digits iv 0 r0) as [[v0 m] r']. simpl in Hl.
        destruct m; [discriminate|].
        intros H. injection H as _ _ <-. simpl. lia.
      + intros H. injection H as _ _ <-. lia. }
  destruct frac_part as [[[mv fn] s3]|]; [|discriminate].
  specialize (H3 mv fn s3 eq_refl).
  set (exp_part := match s3 with
                   | [] => Some (0%Z, s3)
                   | c :: r0 => _
                   end).
  assert (H4 : forall ev s4, exp_part = Some (ev, s4) ->
                             length s4 <= length s3).
  { subst exp_part. intros ev s4. destruct s3 as [|c r0].
    - intros H. injection H as _ <-. lia.
    - destruct ((c =? 101) || (c =? 69))%N.
      + set (esign := match r0 with
                      | [] => (false, r0)
                      | d :: r1 => _
                      end).
        assert (He : length (snd esign) <= length r0).
        { subst esign. destruct r0 as [|d r1]; simpl; [lia|].
          destruct (d =? 45)%N; simpl; [lia|].
          destruct (d =? 43)%N; simpl; lia. }
        destruct esign as [eneg r1]. simpl in He.
        pose proof (digits_shorter r1 0 0) as Hl.
        destruct (digits 0 0 r1) as [[v0 m] r']. simpl in Hl.
        destruct m; [discriminate|].
        intros H. injection H as _ <-. simpl. lia.
      + intros H. injection H as _ <-. lia. }
  destruct exp_part as [[ev s4]|]; [|discriminate].
  specialize (H4 ev s4 eq_refl).
  intros H. injection H as _ <-. lia.
Qed.

Lemma literal_shorter (s : jsstring) (n : nat) :
  s <> [] -> 0 < n -> length (skipn n s) < length s.
Proof.
  intros Hs Hn. rewrite length_skipn. destruct s; [contradiction|].
  cbn [length]. lia.
Qed.

(** Every parser returns a text that is shorter than its input. *)
Lemma parsers_shorter (fuel : nat) :
  (forall s v r, parse_value fuel s = Some (v, r) -> length r < length s) /\
  (forall acc s o r,
      parse_members fuel acc s = Some (o, r) -> length r < length s) /\
  (forall acc s a r,
      parse_elements fuel acc s = Some (a, r) -> length r < length s).
Proof.
  induction fuel as [|f (IHv & IHm & IHe)];
    [repeat split; intros; discriminate|].
  repeat split.
  - intros s v r. cbn [parse_value].
    destruct s as [|c s0]; [discriminate|].
    destruct (c =? 123)%N.
    { destruct (skip_ws s0) as [|d r'] eqn:Hw; [discriminate|].
      pose proof (skip_ws_length s0) as Hl. rewrite Hw in Hl.
      destruct (d =? 125)%N.
      - intros H. injection H as _ <-. simpl in *. lia.
      - destruct (parse_members f [] (d :: r')) as [[o r'']|] eqn:Hm;
          [|discriminate].
        apply IHm in Hm. intros H. injection H as _ <-. simpl in *. lia. }
    destruct (c =? 91)%N.
    { destruct (skip_ws s0) as [|d r'] eqn:Hw; [discriminate|].
      pose proof (skip_ws_length s0) as Hl. rewrite Hw in Hl.
      destruct (d =? 93)%N.
      - intros H. injection H as _ <-. simpl in *. lia.
      - destruct (parse_elements f [] (d :: r')) as [[a r'']|] eqn:He;
          [|discriminate].
        apply IHe in He. intros H. injection H as _ <-. simpl in *. lia. }
    destruct (c =? 34)%N.
    { destruct (parse_chars s0) as [[str r']|] eqn:Hc; [|discriminate].
      apply parse_chars_shorter in Hc.
      intros H. injection H as _ <-. simpl. lia. }
    destruct (startsWith (c :: s0) (lit "true")).
    { intros H. assert (Hr : r = skipn 4 (c :: s0)) by congruence.
      rewrite Hr. apply literal_shorter; [easy|lia]. }
    destruct (startsWith (c :: s0) (lit "false")).
    { intros H. assert (Hr : r = skipn 5 (c :: s0)) by congruence.
      rewrite Hr. apply literal_shorter; [easy|lia]. }
    destruct (startsWith (c :: s0) (lit "null")).
    { intros H. assert (Hr : r = skipn 4 (c :: s0)) by congruence.
      rewrite Hr. apply literal_shorter; [easy|lia]. }
    apply parse_number_shorter.
  - intros acc s o r. cbn [parse_members].
    destruct s as [|q s0]; [discriminate|].
    destruct (q =? 34)%N; [|discriminate].
    destruct (parse_chars s0) as [[k r1]|] eqn:Hc; [|discriminate].
    apply parse_chars_shorter in Hc.
    destruct (skip_ws r1) as [|colon r2] eqn:Hw1; [discriminate|].
    apply skip_ws_cons_length in Hw1.
    destruct (colon =? 58)%N; [|discriminate].
    destruct (parse_value f (skip_ws r2)) as [[v r3]|] eqn:Hv; [|discriminate].
    apply IHv in Hv. pose proof (skip_ws_length r2) as Hl2.
    cbv zeta.
    destruct (skip_ws r3) as [|d r4] eqn:Hw3; [discriminate|].
    apply skip_ws_cons_length in Hw3.
    destruct (d =? 125)%N.
    { intros H. injection H as _ <-. simpl. lia. }
    destruct (d =? 44)%N; [|discriminate].
    intros H. apply IHm in H. pose proof (skip_ws_length r4). simpl. lia.
  - intros acc s a r. cbn [parse_elements].
    destruct (parse_value f s) as [[v r0]|] eqn:Hv; [|discriminate].
    apply IHv in Hv. cbv zeta.
    destruct (skip_ws r0) as [|d r1] eqn:Hw; [discriminate|].
    apply skip_ws_cons_length in Hw.
    destruct (d =? 93)%N.
    { intros H. injection H as _ <-. lia. }
    destruct (d =? 44)%N; [|discriminate].
    intros H. apply IHe in H. pose proof (skip_ws_length r1). lia.
Qed.

(** One more unit of fuel changes nothing once the fuel is above twice
    the length of the input. *)
Lemma parsers_fuel_step (fuel : nat) :
  (forall s, 2 * length s + 1 <= fuel ->
             parse_value (S fuel) s = parse_value fuel s) /\
  (forall acc s, 2 * length s + 2 <= fuel ->
                 parse_members (S fuel) acc s = parse_members fuel acc s) /\
  (forall acc s, 2 * length s + 2 <= fuel ->
                 parse_elements (S fuel) acc s = parse_elements fuel acc s).
Proof.
  induction fuel as [|f (IHv & IHm & IHe)]; [repeat split; intros; lia|].
  destruct (parsers_shorter f) as (Sv & _ & _).
  repeat split.
  - intros s Hf.
    change (parse_value (S (S f)) s) with
      (match s with
       | [] => None
       | c :: r =>
           if (c =? 123)%N then
             match skip_ws r with
             | [] => None
             | d :: r' =>
                 if (d =? 125)%N then Some (JObject [], r')
                 else
                   match parse_members (S f) [] (d :: r') with
                   | Some (o, r'') => Some (JObject o, r'')
                   | None => None
                   end
             end
           else if (c =? 91)%N then
             match skip_ws r with
             | [] => None
             | d :: r' =>
                 if (d =? 93)%N then Some (JArray [], r')
                 else
                   match parse_elements (S f) [] (d :: r') with
                   | Some (a, r'') => Some (JArray a, r'')
                   | None => None
                   end
             end
           else if (c =? 34)%N then
             match parse_chars r with
             | Some (str, r') => Some (JString str, r')
             | None => None
             end
           else if startsWith s (lit "true") then Some (JBool true, skipn 4 s)
           else if startsWith s (lit "false")
                then Some (JBool false, skipn 5 s)
           else if startsWith s (lit "null") then Some (JNull, skipn 4 s)
           else parse_number s
       end).
    cbn [parse_value].
    destruct s as [|c s0]; [reflexivity|].
    destruct (skip_ws s0) as [|d r'] eqn:Hw; [reflexivity|].
    pose proof (skip_ws_length s0) as Hl. rewrite Hw in Hl. simpl in Hl, Hf.
    rewrite IHm by (simpl; lia). rewrite IHe by (simpl; lia).
    reflexivity.
  - intros acc s Hf.
    change (parse_members (S (S f)) acc s) with
      (match s with
       | [] => None
       | q :: r =>
           if (q =? 34)%N then
             match parse_chars r with
             | None => None
             | Some (k, r1) =>
                 match skip_ws r1 with
                 | [] => None
                 | colon :: r2 =>
                     if (colon =? 58)%N then
                       match parse_value (S f) (skip_ws r2) with
                       | None => None
                       | Some (v, r3) =>
                           let acc' := obj_set k v acc in
                           match skip_ws r3 with
                           | [] => None
                           | d :: r4 =>
                               if (d =? 125)%N then Some (acc', r4)
                               else if (d =? 44)%N
                                    then parse_members (S f) acc' (skip_ws r4)
                                    else None
                           end
                       end
                     else None
                 end
             end
           else None
       end).
    cbn [parse_members].
    destruct s as [|q s0]; [reflexivity|].
    destruct (q =? 34)%N; [|reflexivity].
    destruct (parse_chars s0) as [[k r1]|] eqn:Hc; [|reflexivity].
    apply parse_chars_shorter in Hc.
    destruct (skip_ws r1) as [|colon r2] eqn:Hw1; [reflexivity|].
    apply skip_ws_cons_length in Hw1.
    destruct (colon =? 58)%N; [|reflexivity].
    pose proof (skip_ws_length r2) as Hl2. simpl in Hf.
    rewrite IHv by lia.
    destruct (parse_value f (skip_ws r2)) as [[v r3]|] eqn:Hv; [|reflexivity].
    apply Sv in Hv. cbv zeta.
    destruct (skip_ws r3) as [|d r4] eqn:Hw3; [reflexivity|].
    apply skip_ws_cons_length in Hw3.
    destruct (d =? 125)%N; [reflexivity|].
    destruct (d =? 44)%N; [|reflexivity].
    pose proof (skip_ws_length r4). apply IHm. lia.
  - intros acc s Hf.
    change (parse_elements (S (S f)) acc s) with
      (match parse_value (S f) s with
       | None => None
       | Some (v, r) =>
           let acc' := acc ++ [v] in
           match skip_ws r with
           | [] => None
           | d :: r1 =>
               if (d =? 93)%N then Some (acc', r1)
               else if (d =? 44)%N
                    then parse_elements (S f) acc' (skip_ws r1)
                    else None
           end
       end).
    cbn [parse_elements].
    rewrite IHv by lia.
    destruct (parse_value f s) as [[v r0]|] eqn:Hv; [|reflexivity].
    apply Sv in Hv. cbv zeta.
    destruct (skip_ws r0) as [|d r1] eqn:Hw; [reflexivity|].
    apply skip_ws_cons_length in Hw.
    destruct (d =? 93)%N; [reflexivity|].
    destruct (d =? 44)%N; [|reflexivity].
    pose proof (skip_ws_length r1). apply IHe. lia.
Qed.

(** [JSON.parse] does not depend on the fuel: any larger fuel gives the
    same result. *)
Lemma parse_value_fuel (text : jsstring) (extra : nat) :
  parse_value (2 * length text + 2 + extra) (skip_ws text)
  = parse_value (2 * length text + 2) (skip_ws text).
Proof.
  induction extra as [|k IH]; [now rewrite Nat.add_0_r|].
  rewrite Nat.add_succ_r.
  rewrite (proj1 (parsers_fuel_step _)); [exact IH|].
  pose proof (skip_ws_length text). lia.
Qed.

(* ================================================================== *)
(** * Further properties                                              *)
(* ================================================================== *)

(* ================================================================== *)
(** ** The two adjacency engines                                      *)
(* ================================================================== *)

Lemma at_index_beyond {A : Type} (l : list A) (i : Z) :
  (len l <= i)%Z -> at_index l i = None.
Proof.
  intros H. unfold at_index, len in *.
  destruct (Z.ltb_spec i 0); [reflexivity|].
  apply nth_error_None. lia.
Qed.

Lemma at_index_negative {A : Type} (l : list A) (i : Z) :
  (i < 0)%Z -> at_index l i = None.
Proof.
  intros H. unfold at_index. now destruct (Z.ltb_spec i 0); [|lia].
Qed.

(** The element at the index that [indexOf] returns is the one looked
    for. *)
Lemma at_indexOf_from (l : list jsstring) (x : jsstring) (i : Z) :
  (0 <= i)%Z -> indexOf_from l x i <> (-1)%Z ->
  at_index l (indexOf_from l x i - i) = Some x.
Proof.
  revert i. induction l as [|y l IH]; intros i Hi H; simpl in *.
  - contradiction.
  - destruct (str_eqb y x) eqn:E.
    + apply str_eqb_eq in E. subst. now rewrite Z.sub_diag.
    + specialize (IH (i + 1)%Z ltac:(lia) H).
      destruct (indexOf_from_range l x (i + 1)) as [R|R]; [contradiction|].
      unfold at_index in *.
      destruct (Z.ltb_spec (indexOf_from l x (i + 1) - (i + 1)) 0); [lia|].
      destruct (Z.ltb_spec (indexOf_from l x (i + 1) - i) 0); [lia|].
      replace (Z.to_nat (indexOf_from l x (i + 1) - i))
        with (S (Z.to_nat (indexOf_from l x (i + 1) - (i + 1)))) by lia.
      exact IH.
Qed.

Lemma at_indexOf (l : list jsstring) (x : jsstring) :
  indexOf l x <> (-1)%Z -> at_index l (indexOf l x) = Some x.
Proof.
  intros H. pose proof (at_indexOf_from l x 0 ltac:(lia) H) as A.
  now rewrite Z.sub_0_r in A.
Qed.

(** In a list without repetition an element is found where it is. *)
Lemma indexOf_from_nodup (l : list jsstring) (y : jsstring) (j : nat)
    (i : Z) :
  NoDup l -> nth_error l j = Some y ->
  indexOf_from l y i = (i + Z.of_nat j)%Z.
Proof.
  revert j i. induction l as [|z l IH]; intros j i Hn Hj.
  - now destruct j.
  - inversion Hn as [|? ? Hz Hl]; subst. destruct j as [|j]; simpl in *.
    + injection Hj as ->. rewrite str_eqb_refl. lia.
    + rewrite str_eqb_neq.
      * rewrite (IH j (i + 1)%Z Hl Hj). lia.
      * intros ->. apply Hz. eapply nth_error_In. exact Hj.
Qed.

Lemma indexOf_nodup (l : list jsstring) (y : jsstring) (j : Z) :
  NoDup l -> at_index l j = Some y -> indexOf l y = j.
Proof.
  unfold at_index. intros Hn Hj.
  destruct (Z.ltb_spec j 0); [discriminate|].
  unfold indexOf. rewrite (indexOf_from_nodup l y (Z.to_nat j) 0 Hn Hj). lia.
Qed.

(** The two handlers of the server on the list they work on. *)
Lemma handleGetNextTrack_on (db : Db.t) (x : jsstring)
    (pl : option jsstring) (l : list jsstring) :
  trackListOf db pl = Some l ->
  handleGetNextTrack db x pl =
  (200%Z,
   let i := indexOf l x in
   if ((i =? -1) || (i >=? len l - 1))%Z then next_body false None None
   else
     match if_some_truthy (at_index l (i + 1)) with
     | None => next_body false None None
     | Some t =>
         match Db.getTrack db t with
         | None => next_body false None None
         | Some tr => next_body true (Some tr) (Some (i + 1 <? len l - 1)%Z)
         end
     end).
Proof.
  intros H. unfold handleGetNextTrack. rewrite H. cbv zeta.
  destruct (_ || _); [reflexivity|].
  destruct (at_index l _) as [t|]; [|reflexivity]. cbn [if_some_truthy].
  destruct (nonempty t); [|reflexivity]. cbn [negb].
  now destruct (Db.getTrack db t).
Qed.

Lemma handleGetPreviousTrack_on (db : Db.t) (x : jsstring)
    (pl : option jsstring) (l : list jsstring) :
  trackListOf db pl = Some l ->
  handleGetPreviousTrack db x pl =
  (200%Z,
   let i := indexOf l x in
   if (i <=? 0)%Z then prev_body false None None
   else
     match if_some_truthy (at_index l (i - 1)) with
     | None => prev_body false None None
     | Some t =>
         match Db.getTrack db t with
         | None => prev_body false None None
         | Some tr => prev_body true (Some tr) (Some (i - 1 <? len l - 1)%Z)
         end
     end).
Proof.
  intros H. unfold handleGetPreviousTrack. rewrite H. cbv zeta.
  destruct (_ <=? _)%Z; [reflexivity|].
  destruct (at_index l _) as [t|]; [|reflexivity]. cbn [if_some_truthy].
  destruct (nonempty t); [|reflexivity]. cbn [negb].
  now destruct (Db.getTrack db t).
Qed.

(** Where the playlist is missing, both answer 404 without a track. *)
Lemma handlers_without_list (db : Db.t) (x : jsstring)
    (pl : option jsstring) :
  trackListOf db pl = None ->
  handleGetNextTrack db x pl = (404%Z, next_body false None None) /\
  handleGetPreviousTrack db x pl = (404%Z, prev_body false None None).
Proof.
  intros H. unfold handleGetNextTrack, handleGetPreviousTrack.
  now rewrite H.
Qed.

(** Whenever the context of a token and the playlist of a server
    request stand for the same list of ids (or both for a missing
    playlist), the skill and the server find the same neighbour. *)
Lemma engines_agree_on (db : Db.t) (x ctx : jsstring)
    (pl : option jsstring) (dir : Direction) :
  str_eqb ctx (lit "single") = false ->
  contextTrackList db ctx = trackListOf db pl ->
  findAdjacentTrack db (token_json (mkToken x ctx)) dir
  = Ok (np_track (snd (match dir with
                       | next => handleGetNextTrack db x pl
                       | previous => handleGetPreviousTrack db x pl
                       end))).
Proof.
  intros Hs Hl. rewrite findAdjacentTrack_token, Hs, Hl.
  destruct (trackListOf db pl) as [l|] eqn:E.
  - cbv zeta. destruct dir.
    + rewrite (handleGetNextTrack_on db x pl l E). cbn [snd]. cbv zeta.
      destruct (Z.eqb_spec (indexOf l x) (-1)) as [|Hn]; [reflexivity|].
      cbn [orb].
      destruct (Z.geb_spec (indexOf l x) (len l - 1)) as [Hg|Hg].
      * rewrite at_index_beyond by lia. reflexivity.
      * destruct (if_some_truthy _) as [t|]; [|reflexivity].
        now destruct (Db.getTrack db t).
    + rewrite (handleGetPreviousTrack_on db x pl l E). cbn [snd]. cbv zeta.
      destruct (Z.eqb_spec (indexOf l x) (-1)) as [Hn|Hn].
      * rewrite Hn. reflexivity.
      * destruct (Z.leb_spec (indexOf l x) 0) as [Hg|Hg].
        -- rewrite at_index_negative; [reflexivity|].
           destruct (indexOf_from_range l x 0) as [R|R];
             [contradiction|unfold indexOf in *; lia].
        -- destruct (if_some_truthy _) as [t|]; [|reflexivity].
           now destruct (Db.getTrack db t).
  - destruct (handlers_without_list db x pl E) as [-> ->].
    now destruct dir.
Qed.

Lemma contextTrackList_playlist (db : Db.t) (p : jsstring) :
  contextTrackList db (lit "playlist::" ++ p) =
  match Db.getPlaylist db p with
  | None => None
  | Some pl => Some (Playlist.trackIds pl)
  end.
Proof.
  unfold contextTrackList. rewrite startsWith_app.
  unfold slice. change 10%nat with (length (lit "playlist::")).
  now rewrite skipn_app_exact.
Qed.

(** X1.  The skill and the server find the same neighbour.  For the
    context of all tracks and a server request without a playlist, and
    for the context of a playlist and a server request with that
    playlist, [findAdjacentTrack] returns the track of the reply of
    [handleGetNextTrack], respectively [handleGetPreviousTrack] (no
    track when the reply has none); the same holds whenever context and
    playlist stand for the same list. *)
Theorem adjacency_engines_agree (db : Db.t) (x : jsstring) (dir : Direction) :
  let served (pl : option jsstring) :=
    Ok (np_track (snd (match dir with
                       | next => handleGetNextTrack db x pl
                       | previous => handleGetPreviousTrack db x pl
                       end))) in
  findAdjacentTrack db (token_json (mkToken x (lit "all"))) dir = served None
  /\ (forall p, nonempty p = true ->
        findAdjacentTrack db
          (token_json (mkToken x (lit "playlist::" ++ p))) dir
        = served (Some p))
  /\ (forall ctx pl,
        str_eqb ctx (lit "single") = false ->
        contextTrackList db ctx = trackListOf db pl ->
        findAdjacentTrack db (token_json (mkToken x ctx)) dir = served pl).
Proof.
  cbv zeta. split; [|split].
  - now apply engines_agree_on.
  - intros p Hp. apply engines_agree_on.
    + apply str_eqb_neq. discriminate.
    + rewrite contextTrackList_playlist. unfold trackListOf.
      cbn [if_some_truthy]. now rewrite Hp.
  - intros ctx pl. apply engines_agree_on.
Qed.

Lemma adjacency_engines_agree_witness :
  findAdjacentTrack Demo.db
    (token_json (mkToken (lit "track.3") (lit "playlist::pl.mix"))) next
  = Ok (np_track (snd (handleGetNextTrack Demo.db (lit "track.3")
                         (Some (lit "pl.mix"))))).
Proof.
  exact (proj1 (proj2 (adjacency_engines_agree Demo.db (lit "track.3") next))
           (lit "pl.mix") eq_refl).
Defined.

(* ================================================================== *)
(** ** Replies of the server to the Lambda                            *)
(* ================================================================== *)

(** X2.  Going forth and back.  On a list of ids without repetition,
    the track before the next track is the current one, and the track
    after the previous track is the current one: when
    [handleGetNextTrack] answers the current id [x] with a track, then
    [handleGetPreviousTrack] answers the id of that track with the
    track of [x] (and [hasNext = true]); and the other way round, where
    [hasFurtherNext] tells whether [x] has a successor. *)
Theorem next_and_previous_are_inverse (db : Db.t) (pl : option jsstring)
    (l : list jsstring) (x : jsstring) (tx ty : Track.t) :
  trackListOf db pl = Some l -> NoDup l -> resolves db x tx ->
  (np_track (snd (handleGetNextTrack db x pl)) = Some ty ->
   handleGetPreviousTrack db (Track.id ty) pl
   = (200%Z, prev_body true (Some tx) (Some true))) /\
  (np_track (snd (handleGetPreviousTrack db x pl)) = Some ty ->
   handleGetNextTrack db (Track.id ty) pl
   = (200%Z, next_body true (Some tx)
               (Some (indexOf l x + 1 <? len l)%Z))).
Proof.
  intros Hl Hn [Nx Gx]. split.
  - rewrite (handleGetNextTrack_on db x pl l Hl). cbn [snd]. cbv zeta.
    destruct (Z.eqb_spec (indexOf l x) (-1)) as [|Hi]; [discriminate|].
    cbn [orb].
    destruct (Z.geb_spec (indexOf l x) (len l - 1)) as [|Hg]; [discriminate|].
    destruct (at_index l (indexOf l x + 1)) as [t|] eqn:Ht; [|discriminate].
    cbn [if_some_truthy]. destruct (nonempty t); [|discriminate].
    destruct (Db.getTrack db t) as [tr|] eqn:Gt; [|discriminate].
    cbn [np_track next_body]. intros E. injection E as ->.
    apply getTrack_id in Gt. subst t.
    rewrite (handleGetPreviousTrack_on db (Track.id ty) pl l Hl). cbv zeta.
    rewrite (indexOf_nodup l (Track.id ty) _ Hn Ht).
    destruct (indexOf_from_range l x 0) as [R|R]; [contradiction|].
    unfold indexOf in *.
    destruct (Z.leb_spec (indexOf_from l x 0 + 1) 0); [lia|].
    replace (indexOf_from l x 0 + 1 - 1)%Z with (indexOf l x)
      by (unfold indexOf; lia).
    rewrite (at_indexOf l x Hi). cbn [if_some_truthy]. rewrite Nx, Gx.
    unfold indexOf. now destruct (Z.ltb_spec (indexOf_from l x 0) (len l - 1));
      [|lia].
  - rewrite (handleGetPreviousTrack_on db x pl l Hl). cbn [snd]. cbv zeta.
    destruct (Z.leb_spec (indexOf l x) 0) as [|Hi]; [discriminate|].
    destruct (at_index l (indexOf l x - 1)) as [t|] eqn:Ht; [|discriminate].
    cbn [if_some_truthy]. destruct (nonempty t); [|discriminate].
    destruct (Db.getTrack db t) as [tr|] eqn:Gt; [|discriminate].
    cbn [np_track prev_body]. intros E. injection E as ->.
    apply getTrack_id in Gt. subst t.
    rewrite (handleGetNextTrack_on db (Track.id ty) pl l Hl). cbv zeta.
    rewrite (indexOf_nodup l (Track.id ty) _ Hn Ht).
    destruct (indexOf_from_range l x 0) as [R|R];
      [unfold indexOf in *; lia|].
    unfold indexOf in *.
    destruct (Z.eqb_spec (indexOf_from l x 0 - 1) (-1)); [lia|].
    destruct (Z.geb_spec (indexOf_from l x 0 - 1) (len l - 1)); [lia|].
    cbn [orb].
    replace (indexOf_from l x 0 - 1 + 1)%Z with (indexOf l x)
      by (unfold indexOf; lia).
    rewrite (at_indexOf l x) by (unfold indexOf; lia).
    cbn [if_some_truthy]. rewrite Nx, Gx. unfold indexOf.
    do 3 f_equal.
    destruct (Z.ltb_spec (indexOf_from l x 0) (len l - 1)),
             (Z.ltb_spec (indexOf_from l x 0 + 1) (len l));
      solve [reflexivity | lia].
Qed.

Lemma next_and_previous_are_inverse_witness :
  handleGetPreviousTrack Demo.db (lit "track.2") None
  = (200%Z, prev_body true (Some Demo.t1) (Some true)) /\
  handleGetNextTrack Demo.db (lit "track.2") None
  = (200%Z, next_body true (Some Demo.t3) (Some false)).
Proof.
  split.
  - refine (proj1 (next_and_previous_are_inverse Demo.db None
                     [lit "track.1"; lit "track.2"; lit "track.3"]
                     (lit "track.1") Demo.t1 Demo.t2 eq_refl _
                     (conj eq_refl eq_refl)) eq_refl).
    repeat constructor; simpl; intuition discriminate.
  - refine (proj2 (next_and_previous_are_inverse Demo.db None
                     [lit "track.1"; lit "track.2"; lit "track.3"]
                     (lit "track.3") Demo.t3 Demo.t2 eq_refl _
                     (conj eq_refl eq_refl)) eq_refl).
    repeat constructor; simpl; intuition discriminate.
Defined.

Lemma next_reply_cases (db : Db.t) (x : jsstring) (pl : option jsstring) :
  (exists tr f,
      In tr (Db.tracks db) /\
      handleGetNextTrack db x pl
      = (200%Z, next_body true (Some tr) (Some f)))
  \/ snd (handleGetNextTrack db x pl) = next_body false None None.
Proof.
  destruct (trackListOf db pl) as [l|] eqn:Hl.
  - rewrite (handleGetNextTrack_on db x pl l Hl). cbv zeta.
    destruct (_ || _); [now right|].
    destruct (if_some_truthy _) as [t|]; [|now right].
    destruct (Db.getTrack db t) as [tr|] eqn:G; [|now right].
    left. exists tr, (indexOf l x + 1 <? len l - 1)%Z.
    split; [now apply getTrack_In in G|reflexivity].
  - destruct (handlers_without_list db x pl Hl) as [-> _]. now right.
Qed.

Lemma previous_reply_cases (db : Db.t) (x : jsstring)
    (pl : option jsstring) :
  (exists tr,
      In tr (Db.tracks db) /\
      handleGetPreviousTrack db x pl
      = (200%Z, prev_body true (Some tr) (Some true)))
  \/ snd (handleGetPreviousTrack db x pl) = prev_body false None None.
Proof.
  destruct (trackListOf db pl) as [l|] eqn:Hl.
  - rewrite (handleGetPreviousTrack_on db x pl l Hl). cbv zeta.
    destruct (Z.leb_spec (indexOf l x) 0) as [|Hi]; [now right|].
    destruct (if_some_truthy _) as [t|]; [|now right].
    destruct (Db.getTrack db t) as [tr|] eqn:G; [|now right].
    left. exists tr. split; [now apply getTrack_In in G|].
    destruct (indexOf_from_range l x 0) as [R|R];
      [unfold indexOf in *; lia|].
    unfold indexOf in *.
    now destruct (Z.ltb_spec (indexOf_from l x 0 - 1) (len l - 1)); [|lia].
  - destruct (handlers_without_list db x pl Hl) as [_ ->]. now right.
Qed.

(** X3.  The shape of a reply.  [handleGetNextTrack] either returns a
    stored track with [hasNext = true] and a [hasFurtherNext] flag, or
    no track and [hasNext = false]; [handleGetPreviousTrack] either
    returns a stored track with [hasPrevious = true], and then always
    with [hasNext = true], or no track and [hasPrevious = false]. *)
Theorem adjacency_reply_shape (db : Db.t) (x : jsstring)
    (pl : option jsstring) :
  ((exists tr f,
       In tr (Db.tracks db) /\
       handleGetNextTrack db x pl
       = (200%Z, next_body true (Some tr) (Some f)))
   \/ snd (handleGetNextTrack db x pl) = next_body false None None) /\
  ((exists tr,
       In tr (Db.tracks db) /\
       handleGetPreviousTrack db x pl
       = (200%Z, prev_body true (Some tr) (Some true)))
   \/ snd (handleGetPreviousTrack db x pl) = prev_body false None None).
Proof.
  split; [apply next_reply_cases|apply previous_reply_cases].
Qed.

(** The three kinds of reply of [handleResolveEntity]. *)
Lemma resolve_reply_cases (db : Db.t) (entityId entityType : jsstring) :
  let reply := handleResolveEntity db entityId entityType in
  (fst reply = 200%Z /\ found (snd reply) = Some true /\
   ((exists tr,
        Db.getTrack db entityId = Some tr /\
        snd reply = resolve_body true (Some tr) None None (Some 1%Z))
    \/ (exists trs p,
           snd reply = resolve_body true None (Some trs) p (Some (len trs))
           /\ (trs = [] ->
               str_eqb entityType (lit "PLAYLIST") = true /\ p <> None))))
  \/ (fst reply = 404%Z /\
      snd reply = resolve_body false None None None None)
  \/ (fst reply = 400%Z /\ snd reply = error_body /\
      str_eqb entityType (lit "ALL") = false /\
      str_eqb entityType (lit "TRACK") = false /\
      str_eqb entityType (lit "ARTIST") = false /\
      str_eqb entityType (lit "PLAYLIST") = false).
Proof.
  cbv zeta. unfold handleResolveEntity.
  destruct (str_eqb entityType (lit "ALL")) eqn:EA; cbn [orb].
  { destruct (Db.getTracks db) as [|t r] eqn:E.
    - right; left. now split.
    - rewrite len_cons_pos. left. repeat split. right.
      exists (t :: r), None. split; [reflexivity|discriminate]. }
  destruct (negb (nonempty entityId) && negb (nonempty entityType)) eqn:EE.
  { destruct (Db.getTracks db) as [|t r] eqn:E.
    - right; left. now split.
    - rewrite len_cons_pos. left. repeat split. right.
      exists (t :: r), None. split; [reflexivity|discriminate]. }
  destruct (str_eqb entityType (lit "TRACK")) eqn:ET.
  { destruct (Db.getTrack db entityId) as [tr|] eqn:G.
    - left. repeat split. left. now exists tr.
    - right; left. now split. }
  destruct (str_eqb entityType (lit "ARTIST")) eqn:ER.
  { destruct (Db.getTracksByArtistId db entityId) as [|t r] eqn:E.
    - right; left. now split.
    - rewrite len_cons_pos. left. repeat split. right.
      exists (t :: r), None. split; [reflexivity|discriminate]. }
  destruct (str_eqb entityType (lit "PLAYLIST")) eqn:EP.
  { destruct (Db.getPlaylist db entityId) as [p|] eqn:G.
    - left. repeat split. right.
      exists (Db.getPlaylistTracks db entityId), (Some p).
      split; [reflexivity|]. intros _. split; [reflexivity|discriminate].
    - right; left. now split. }
  right; right. now repeat split.
Qed.

(** The reply of [handleResolveEntity] to a list of tracks: not found
    when the list is empty, otherwise the list and its length. *)
Lemma list_reply (trs : list Track.t) :
  (if (len trs =? 0)%Z
   then (404, resolve_body false None None None None)%Z
   else (200, resolve_body true None (Some trs) None (Some (len trs)))%Z)
  = match trs with
    | [] => (404, resolve_body false None None None None)%Z
    | _ :: _ =>
        (200, resolve_body true None (Some trs) None (Some (len trs)))%Z
    end.
Proof. destruct trs; [reflexivity|now rewrite len_cons_pos]. Qed.

(** X4.  The reply of [handleResolveEntity], case by case.  For the
    type ALL, and when both the id and the type are empty: 404 when
    there is no track, otherwise 200 with every track and their
    number.  For TRACK: 200 with the stored track of that id and the
    count 1, or 404.  For ARTIST: 200 with the tracks of the artist
    and their number, 404 when there is none.  For PLAYLIST: 404 when
    no playlist has the id, otherwise 200 with the playlist, its
    stored tracks and their number, also when that list is empty.
    The status is 400, with the error body, exactly when the type is
    none of the four and not both the id and the type are empty.  The
    status is 200 exactly when the entity is found. *)
Theorem resolve_reply_shape (db : Db.t) (entityId entityType : jsstring) :
  let reply := handleResolveEntity db entityId entityType in
  let notFound := (404%Z, resolve_body false None None None None) in
  let listReply (trs : list Track.t) :=
    match trs with
    | [] => notFound
    | _ :: _ =>
        (200%Z, resolve_body true None (Some trs) None (Some (len trs)))
    end in
  (entityType = entityTypeOf KAll \/ (entityId = [] /\ entityType = []) ->
   reply = listReply (Db.getTracks db)) /\
  (entityType = entityTypeOf KTrack ->
   reply = match Db.getTrack db entityId with
           | Some tr =>
               (200%Z, resolve_body true (Some tr) None None (Some 1%Z))
           | None => notFound
           end) /\
  (entityType = entityTypeOf KArtist ->
   reply = listReply (Db.getTracksByArtistId db entityId)) /\
  (entityType = entityTypeOf KPlaylist ->
   reply = match Db.getPlaylist db entityId with
           | Some pl =>
               (200%Z,
                resolve_body true None
                  (Some (Db.getPlaylistTracks db entityId)) (Some pl)
                  (Some (len (Db.getPlaylistTracks db entityId))))
           | None => notFound
           end) /\
  (fst reply = 400%Z <->
   (forall k, entityType <> entityTypeOf k) /\
   ~ (entityId = [] /\ entityType = [])) /\
  (fst reply = 400%Z -> snd reply = error_body) /\
  (fst reply = 200%Z <-> found (snd reply) = Some true) /\
  (fst reply = 404%Z <-> snd reply = resolve_body false None None None None) /\
  (fst reply = 200%Z \/ fst reply = 404%Z \/ fst reply = 400%Z).
Proof.
  cbv zeta.
  assert (Hcases := resolve_reply_cases db entityId entityType).
  cbv zeta in Hcases.
  split; [|split; [|split; [|split; [|split; [|split; [|split; [|split]]]]]]].
  - intros [->|[-> ->]]; unfold handleResolveEntity.
    + change (str_eqb (entityTypeOf KAll) (lit "ALL")) with true.
      cbn [orb]. cbv zeta. apply list_reply.
    + change (negb (nonempty []) && negb (nonempty [])) with true.
      rewrite orb_true_r. cbv zeta. apply list_reply.
  - intros ->. unfold handleResolveEntity.
    change (str_eqb (entityTypeOf KTrack) (lit "ALL")) with false.
    change (negb (nonempty (entityTypeOf KTrack))) with false.
    rewrite andb_false_r. cbn [orb].
    change (str_eqb (entityTypeOf KTrack) (lit "TRACK")) with true.
    cbv iota. now destruct (Db.getTrack db entityId).
  - intros ->. unfold handleResolveEntity.
    change (str_eqb (entityTypeOf KArtist) (lit "ALL")) with false.
    change (negb (nonempty (entityTypeOf KArtist))) with false.
    rewrite andb_false_r. cbn [orb].
    change (str_eqb (entityTypeOf KArtist) (lit "TRACK")) with false.
    change (str_eqb (entityTypeOf KArtist) (lit "ARTIST")) with true.
    cbv iota zeta. apply list_reply.
  - intros ->. unfold handleResolveEntity.
    change (str_eqb (entityTypeOf KPlaylist) (lit "ALL")) with false.
    change (negb (nonempty (entityTypeOf KPlaylist))) with false.
    rewrite andb_false_r. cbn [orb].
    change (str_eqb (entityTypeOf KPlaylist) (lit "TRACK")) with false.
    change (str_eqb (entityTypeOf KPlaylist) (lit "ARTIST")) with false.
    change (str_eqb (entityTypeOf KPlaylist) (lit "PLAYLIST")) with true.
    cbv iota zeta. now destruct (Db.getPlaylist db entityId).
  - split.
    + intros H4.
      destruct Hcases as [(H & _)|[(H & _)|(_ & _ & HA & HT & HR & HP)]];
        [rewrite H in H4; discriminate|rewrite H in H4; discriminate|].
      split.
      * intros k E. subst entityType. destruct k; discriminate.
      * intros [-> ->]. unfold handleResolveEntity in H4.
        cbn in H4. destruct (Db.getTracks db); discriminate.
    + intros [Hk Hne]. unfold handleResolveEntity.
      assert (EA : str_eqb entityType (lit "ALL") = false)
        by (exact (str_eqb_neq _ _ (Hk KAll))).
      assert (ET : str_eqb entityType (lit "TRACK") = false)
        by (exact (str_eqb_neq _ _ (Hk KTrack))).
      assert (ER : str_eqb entityType (lit "ARTIST") = false)
        by (exact (str_eqb_neq _ _ (Hk KArtist))).
      assert (EP : str_eqb entityType (lit "PLAYLIST") = false)
        by (exact (str_eqb_neq _ _ (Hk KPlaylist))).
      rewrite EA, ET, ER, EP. cbn [orb].
      destruct entityId as [|c i]; destruct entityType as [|d t];
        try reflexivity.
      exfalso. apply Hne. now split.
  - intros H4.
    destruct Hcases as [(H & _)|[(H & _)|(_ & Hb & _)]];
      [rewrite H in H4; discriminate|rewrite H in H4; discriminate|exact Hb].
  - split.
    + intros H2.
      destruct Hcases as [(_ & Hf & _)|[(H & _)|(H & _)]];
        [exact Hf|rewrite H in H2; discriminate|rewrite H in H2; discriminate].
    + intros Hf.
      destruct Hcases as [(H & _)|[(_ & Hb)|(_ & Hb & _)]];
        [exact H|rewrite Hb in Hf; discriminate|rewrite Hb in Hf; discriminate].
  - split.
    + intros H4.
      destruct Hcases as [(H & _)|[(_ & Hb)|(H & _)]];
        [rewrite H in H4; discriminate|exact Hb|rewrite H in H4; discriminate].
    + intros Hb'.
      destruct Hcases as [(_ & Hf & _)|[(H & _)|(_ & Hb & _)]];
        [rewrite Hb' in Hf; discriminate|exact H|
         rewrite Hb in Hb'; discriminate].
  - destruct Hcases as [(H & _)|[(H & _)|(H & _)]]; auto.
Qed.

(* ================================================================== *)
(** ** Replies of the Lambda                                          *)
(* ================================================================== *)

Lemma getNextTrack_cases (db : Db.t) (x : jsstring) :
  (exists tr f,
      In tr (Db.tracks db) /\
      Lambda.getNextTrack db x None = next_body true (Some tr) (Some f))
  \/ Lambda.getNextTrack db x None = next_body false None None.
Proof.
  rewrite getNextTrack_all.
  destruct (next_reply_cases db x None) as [(tr & f & Hin & H)|H].
  - left. exists tr, f. now rewrite H.
  - now right.
Qed.

Lemma getPreviousTrack_cases (db : Db.t) (x : jsstring) :
  (exists tr,
      In tr (Db.tracks db) /\
      Lambda.getPreviousTrack db x None
      = prev_body true (Some tr) (Some true))
  \/ Lambda.getPreviousTrack db x None = prev_body false None None.
Proof.
  rewrite getPreviousTrack_all.
  destruct (previous_reply_cases db x None) as [(tr & Hin & H)|H].
  - left. exists tr. now rewrite H.
  - now right.
Qed.

Lemma if_some_truthy_nonempty (o : option jsstring) (x : jsstring) :
  if_some_truthy o = Some x -> o = Some x /\ nonempty x = true.
Proof.
  destruct o as [y|]; [|discriminate]. simpl.
  destruct (nonempty y) eqn:E; [|discriminate].
  intros H. injection H as ->. now split.
Qed.

(** X5.  The items of the queue.  An item that [handleGetItem],
    [handleGetNextItem] or [handleGetPreviousItem] returns is the item
    of a stored track, with the stream URL of that track; its NEXT
    control is enabled exactly when the reply does not say that the
    queue is finished (its PREVIOUS control is always enabled).
    [handleGetPreviousItem] never says that the queue is finished when
    it returns an item. *)
Theorem queue_items (db : Db.t) (u : Lambda.Urls)
    (payload : Lambda.ItemPayload) (item : Lambda.Item) (fin : bool) :
  (Lambda.handleGetItem db u payload = Lambda.ItemResponse item fin \/
   Lambda.handleGetNextItem db u payload = Lambda.ItemResponse item fin \/
   Lambda.handleGetPreviousItem db u payload = Lambda.ItemResponse item fin
   -> exists tr,
       In tr (Db.tracks db) /\
       item = queueItem u tr (negb fin) /\
       Lambda.item_id item = Track.id tr /\
       Lambda.item_name item = Track.title tr /\
       Lambda.stream_uri item = Lambda.buildMp3Url u (Track.id tr) /\
       Lambda.controls item
       = [Lambda.mkControl (lit "NEXT") (negb fin);
          Lambda.mkControl (lit "PREVIOUS") true]) /\
  (Lambda.handleGetPreviousItem db u payload = Lambda.ItemResponse item fin
   -> fin = false).
Proof.
  unfold Lambda.handleGetItem, Lambda.handleGetNextItem,
    Lambda.handleGetPreviousItem.
  destruct (if_some_truthy (Lambda.ref_id payload)) as [cur|] eqn:Hc;
    [|split; [intros [H|[H|H]]|intros H]; discriminate].
  apply if_some_truthy_nonempty in Hc as [_ Hne].
  split.
  - intros [H|[H|H]].
    + rewrite (resolveEntity_track db cur Hne) in H.
      destruct (Db.getTrack db cur) as [tr|] eqn:G; [|discriminate].
      cbn [found track resolve_body] in H. cbv zeta in H.
      unfold Lambda.buildItemResponse in H. injection H as <- <-.
      exists tr. rewrite negb_involutive.
      split; [now apply getTrack_In in G|now repeat split].
    + destruct (getNextTrack_cases db cur) as [(tr & f & Hin & E)|E];
        rewrite E in H; cbn in H; [|discriminate].
      unfold Lambda.buildItemResponse in H. injection H as <- <-.
      exists tr. rewrite negb_involutive. now repeat split.
    + destruct (getPreviousTrack_cases db cur) as [(tr & Hin & E)|E];
        rewrite E in H; cbn in H; [|discriminate].
      unfold Lambda.buildItemResponse in H. injection H as <- <-.
      exists tr. now repeat split.
  - intros H.
    destruct (getPreviousTrack_cases db cur) as [(tr & Hin & E)|E];
      rewrite E in H; cbn in H; [|discriminate].
    unfold Lambda.buildItemResponse in H. now injection H as <- <-.
Qed.

Lemma queue_items_witness :
  exists tr,
    In tr (Db.tracks Demo.db) /\
    Lambda.mkItem (lit "track.2") (lit "Breeze") (lit "/api/art/track.2.jpg")
      [Lambda.mkControl (lit "NEXT") true;
       Lambda.mkControl (lit "PREVIOUS") true]
      (lit "stream-track.2") (lit "/api/mp3/track.2.mp3") 0
    = queueItem Demo.client_urls tr true /\
    lit "track.2" = Track.id tr /\
    lit "Breeze" = Track.title tr /\
    lit "/api/mp3/track.2.mp3"
    = Lambda.buildMp3Url Demo.client_urls (Track.id tr) /\
    [Lambda.mkControl (lit "NEXT") true;
     Lambda.mkControl (lit "PREVIOUS") true]
    = [Lambda.mkControl (lit "NEXT") true;
       Lambda.mkControl (lit "PREVIOUS") true].
Proof.
  exact (proj1 (queue_items Demo.db Demo.client_urls
                  (Lambda.mkPayload (Some (lit "track.1")) None)
                  (Lambda.mkItem (lit "track.2") (lit "Breeze")
                     (lit "/api/art/track.2.jpg")
                     [Lambda.mkControl (lit "NEXT") true;
                      Lambda.mkControl (lit "PREVIOUS") true]
                     (lit "stream-track.2") (lit "/api/mp3/track.2.mp3") 0)
                  false)
           (or_intror (or_introl eq_refl))).
Defined.

(** X6.  [handleGetItem] and [handleGetNextItem] agree on the end of
    the queue: when [handleGetItem] returns the current item, it says
    that the queue is finished exactly when [handleGetNextItem], for
    the same request, returns the queue-finished reply. *)
Theorem getItem_agrees_with_getNextItem (db : Db.t) (u : Lambda.Urls)
    (payload : Lambda.ItemPayload) (item : Lambda.Item) (fin : bool) :
  Lambda.handleGetItem db u payload = Lambda.ItemResponse item fin ->
  (fin = true <->
   Lambda.handleGetNextItem db u payload = Lambda.QueueFinished) /\
  (fin = false <->
   exists item' fin',
     Lambda.handleGetNextItem db u payload
     = Lambda.ItemResponse item' fin').
Proof.
  unfold Lambda.handleGetItem, Lambda.handleGetNextItem.
  destruct (if_some_truthy (Lambda.ref_id payload)) as [cur|] eqn:Hc;
    [|discriminate].
  apply if_some_truthy_nonempty in Hc as [_ Hne].
  rewrite (resolveEntity_track db cur Hne).
  destruct (Db.getTrack db cur) as [tr|] eqn:G; [|discriminate].
  cbn [found track resolve_body]. cbv zeta.
  rewrite (getTrack_id db cur tr G).
  unfold Lambda.buildItemResponse.
  destruct (getNextTrack_cases db cur) as [(tn & f & Hin & E)|E];
    rewrite E; cbn; intros H; injection H as <- <-.
  - split; split; try discriminate; try reflexivity; eauto.
  - split; split; try discriminate; try reflexivity.
    intros (i & f & H). discriminate.
Qed.

Lemma getItem_agrees_with_getNextItem_witness :
  (true = true <->
   Lambda.handleGetNextItem Demo.db Demo.client_urls
     (Lambda.mkPayload (Some (lit "track.3")) None) = Lambda.QueueFinished) /\
  (true = false <->
   exists item' fin',
     Lambda.handleGetNextItem Demo.db Demo.client_urls
       (Lambda.mkPayload (Some (lit "track.3")) None)
     = Lambda.ItemResponse item' fin').
Proof.
  exact (getItem_agrees_with_getNextItem Demo.db Demo.client_urls
           (Lambda.mkPayload (Some (lit "track.3")) None)
           (Lambda.buildItem Demo.client_urls Demo.t3
              (lit "/api/mp3/track.3.mp3") false) true eq_refl).
Defined.

(** [handleInitiate] on a content id that parses to a kind and an
    entity id. *)
Lemma handleInitiate_of (db : Db.t) (u : Lambda.Urls)
    (now36 contentId kind entityId : jsstring) :
  Lambda.parseContentId contentId = (kind, entityId) ->
  Lambda.handleInitiate db u now36 contentId =
  match resolvedSequence db kind entityId with
  | [] => Lambda.ContentNotFound
  | first :: rest =>
      Lambda.InitiateResponse (lit "queue-" ++ now36)
        (Lambda.buildItem u first (Lambda.buildMp3Url u (Track.id first))
           (1 <? len (first :: rest))%Z)
  end.
Proof.
  intros Hp. unfold Lambda.handleInitiate, resolvedSequence. rewrite Hp.
  unfold Lambda.resolveEntity, handleResolveEntity.
  destruct (str_eqb kind (lit "all")).
  { simpl. destruct (Db.getTracks db) as [|x l] eqn:E; [reflexivity|].
    rewrite len_cons_pos. change (Lambda.ok 200) with true. cbv iota.
    rewrite first_of_list_found. unfold Lambda.buildInitiateResponse.
    now rewrite Z.gtb_ltb. }
  destruct (str_eqb kind (lit "track")).
  { simpl. rewrite andb_false_r. simpl.
    now destruct (Db.getTrack db entityId). }
  destruct (str_eqb kind (lit "artist")).
  { simpl. rewrite andb_false_r. simpl.
    destruct (Db.getTracksByArtistId db entityId) as [|x l] eqn:E;
      [reflexivity|].
    rewrite len_cons_pos. change (Lambda.ok 200) with true. cbv iota.
    rewrite first_of_list_found. unfold Lambda.buildInitiateResponse.
    now rewrite Z.gtb_ltb. }
  destruct (str_eqb kind (lit "playlist")); [|reflexivity].
  simpl. rewrite andb_false_r. simpl.
  destruct (Db.getPlaylist db entityId) as [pl|] eqn:Hpl.
  - change (Lambda.ok 200) with true. cbv iota. rewrite first_of_list_found.
    destruct (Db.getPlaylistTracks db entityId); [reflexivity|].
    unfold Lambda.buildInitiateResponse. now rewrite Z.gtb_ltb.
  - unfold Db.getPlaylistTracks. now rewrite Hpl.
Qed.

(** What [resolveEntity] finds, by kind. *)
Lemma resolveEntity_found (db : Db.t) (k : Kind) (e : jsstring) :
  nonempty e = true \/ k = KAll ->
  Lambda.flag (found (Lambda.resolveEntity db e
                        (match k with
                         | KAll => lit "ALL"
                         | KTrack => lit "TRACK"
                         | KArtist => lit "ARTIST"
                         | KPlaylist => lit "PLAYLIST"
                         end))) = true ->
  resolvedSequence db (kind_name k) e <> [] \/
  (k = KPlaylist /\ Db.getPlaylist db e <> None).
Proof.
  intros Hne. unfold Lambda.resolveEntity, handleResolveEntity,
    resolvedSequence.
  destruct k; cbn [kind_name].
  - simpl. destruct (Db.getTracks db) as [|x l] eqn:E.
    + discriminate.
    + intros _. left. discriminate.
  - destruct Hne as [Hne|]; [|discriminate]. simpl. rewrite Hne. simpl.
    destruct (Db.getTrack db e); [|discriminate].
    intros _. left. discriminate.
  - destruct Hne as [Hne|]; [|discriminate]. simpl. rewrite Hne. simpl.
    destruct (Db.getTracksByArtistId db e) as [|x l] eqn:E; [discriminate|].
    intros _. left. discriminate.
  - destruct Hne as [Hne|]; [|discriminate]. simpl. rewrite Hne. simpl.
    destruct (Db.getPlaylist db e); [|discriminate].
    intros _. right. split; [reflexivity|discriminate].
Qed.

(** Whether [resolveEntity] finds the entity of a kind and an id. *)
Lemma resolveEntity_selectable (db : Db.t) (k : Kind) (e : jsstring) :
  nonempty e = true \/ (k = KAll /\ e = []) ->
  Lambda.flag (found (Lambda.resolveEntity db e
                        (match k with
                         | KAll => lit "ALL"
                         | KTrack => lit "TRACK"
                         | KArtist => lit "ARTIST"
                         | KPlaylist => lit "PLAYLIST"
                         end))) = selectable db k e.
Proof.
  intros Hne. unfold Lambda.resolveEntity, handleResolveEntity, selectable,
    resolvedSequence.
  destruct k; cbn [kind_name].
  - simpl. now destruct (Db.getTracks db) as [|x l].
  - destruct Hne as [Hne|[? _]]; [|discriminate]. simpl. rewrite Hne. simpl.
    now destruct (Db.getTrack db e).
  - destruct Hne as [Hne|[? _]]; [|discriminate]. simpl. rewrite Hne. simpl.
    now destruct (Db.getTracksByArtistId db e) as [|x l].
  - destruct Hne as [Hne|[? _]]; [|discriminate]. simpl. rewrite Hne. simpl.
    now destruct (Db.getPlaylist db e).
Qed.

(** X7.  From the selection to the first item.  The first attribute
    whose type is TRACK, ARTIST or PLAYLIST decides the selection: its
    kind and its entity id, or all tracks when its entity id is empty
    or when there is no such attribute.  [handleGetPlayableContent]
    answers with the current format of that kind and id when the
    entity is there, and with content-not-found otherwise.
    [handleInitiate] parses that content id back to the same kind and
    id, whatever characters the id has, and answers with the item of
    the first track of the sequence, with NEXT enabled when the
    sequence has more than one track.  For a selection that was
    answered with a content id, it answers content-not-found only for
    a playlist that is stored and has no stored track. *)
Theorem selection_then_initiate (db : Db.t) (u : Lambda.Urls)
    (now36 : jsstring) (attributes : list Lambda.SelectionAttribute) :
  exists k e,
    match find (fun a => Lambda.is_entity_type (Lambda.attr_type a))
               attributes with
    | Some a =>
        if nonempty (Lambda.attr_entityId a)
        then Lambda.attr_type a = entityTypeOf k /\
             k <> KAll /\ e = Lambda.attr_entityId a
        else k = KAll /\ e = []
    | None => k = KAll /\ e = []
    end /\
    Lambda.handleGetPlayableContent db attributes
    = (if selectable db k e
       then Lambda.GetPlayableContentResponse (currentFormat k e)
       else Lambda.ContentNotFound) /\
    Lambda.parseContentId (currentFormat k e) = (kind_name k, e) /\
    Lambda.handleInitiate db u now36 (currentFormat k e) =
    match resolvedSequence db (kind_name k) e with
    | [] => Lambda.ContentNotFound
    | first :: rest =>
        Lambda.InitiateResponse (lit "queue-" ++ now36)
          (queueItem u first (1 <? len (first :: rest))%Z)
    end /\
    (selectable db k e = true ->
     resolvedSequence db (kind_name k) e = [] ->
     k = KPlaylist /\ Db.getPlaylist db e <> None).
Proof.
  assert (Hparse : forall k e,
             Lambda.parseContentId (currentFormat k e) = (kind_name k, e)).
  { intros k e. apply parseContentId_current. apply kind_name_plain. }
  assert (Hfin : forall k e,
             Lambda.parseContentId (currentFormat k e) = (kind_name k, e) /\
             Lambda.handleInitiate db u now36 (currentFormat k e) =
             match resolvedSequence db (kind_name k) e with
             | [] => Lambda.ContentNotFound
             | first :: rest =>
                 Lambda.InitiateResponse (lit "queue-" ++ now36)
                   (queueItem u first (1 <? len (first :: rest))%Z)
             end /\
             (selectable db k e = true ->
              resolvedSequence db (kind_name k) e = [] ->
              k = KPlaylist /\ Db.getPlaylist db e <> None)).
  { intros k e. split; [apply Hparse|]. split.
    - rewrite (handleInitiate_of db u now36 _ _ _ (Hparse k e)).
      now destruct (resolvedSequence db (kind_name k) e).
    - unfold selectable. intros Hs Hnil.
      destruct k; try (rewrite Hnil in Hs; discriminate).
      split; [reflexivity|].
      now destruct (Db.getPlaylist db e). }
  assert (Hreply : forall k e,
             (if negb (selectable db k e)
              then Lambda.buildContentNotFoundResponse
              else Lambda.buildGetPlayableContentResponse (currentFormat k e))
             = (if selectable db k e
                then Lambda.GetPlayableContentResponse (currentFormat k e)
                else Lambda.ContentNotFound)).
  { intros k e. now destruct (selectable db k e). }
  unfold Lambda.handleGetPlayableContent.
  destruct (find _ attributes) as [a|] eqn:Hfind;
    cbn [option_map if_some_truthy].
  - apply find_some in Hfind as [_ Hty]. unfold Lambda.is_entity_type in Hty.
    destruct (nonempty (Lambda.attr_entityId a)) eqn:Hne.
    + destruct (str_eqb (Lambda.attr_type a) (lit "TRACK")) eqn:E1.
      { apply str_eqb_eq in E1. rewrite E1.
        exists KTrack, (Lambda.attr_entityId a).
        split; [repeat split; discriminate|].
        split; [|apply Hfin].
        rewrite (resolveEntity_selectable db KTrack _ (or_introl Hne)).
        apply (Hreply KTrack). }
      destruct (str_eqb (Lambda.attr_type a) (lit "ARTIST")) eqn:E2.
      { apply str_eqb_eq in E2. rewrite E2.
        exists KArtist, (Lambda.attr_entityId a).
        split; [repeat split; discriminate|].
        split; [|apply Hfin].
        rewrite (resolveEntity_selectable db KArtist _ (or_introl Hne)).
        apply (Hreply KArtist). }
      simpl in Hty. apply str_eqb_eq in Hty. rewrite Hty.
      exists KPlaylist, (Lambda.attr_entityId a).
      split; [repeat split; discriminate|].
      split; [|apply Hfin].
      rewrite (resolveEntity_selectable db KPlaylist _ (or_introl Hne)).
      apply (Hreply KPlaylist).
    + exists KAll, [].
      split; [now split|]. split; [|apply Hfin].
      rewrite (resolveEntity_selectable db KAll []
                 (or_intror (conj eq_refl eq_refl))).
      apply (Hreply KAll).
  - exists KAll, [].
    split; [now split|]. split; [|apply Hfin].
    rewrite (resolveEntity_selectable db KAll []
               (or_intror (conj eq_refl eq_refl))).
    apply (Hreply KAll).
Qed.

(** The selection of the artist Bob, who has one track: the content
    id names the artist, and Initiate answers with that track, with
    NEXT disabled. *)
Lemma selection_then_initiate_witness :
  Lambda.handleGetPlayableContent Demo.db
    [Lambda.mkAttribute (lit "GENRE") (lit "rock");
     Lambda.mkAttribute (lit "ARTIST") (lit "artist.bob");
     Lambda.mkAttribute (lit "TRACK") (lit "track.1")]
  = Lambda.GetPlayableContentResponse (lit "content::artist::artist.bob") /\
  Lambda.handleInitiate Demo.db Demo.client_urls (lit "k3")
    (lit "content::artist::artist.bob")
  = Lambda.InitiateResponse (lit "queue-k3")
      (Lambda.mkItem (lit "track.2") (lit "Breeze")
         (lit "/api/art/track.2.jpg")
         [Lambda.mkControl (lit "NEXT") false;
          Lambda.mkControl (lit "PREVIOUS") true]
         (lit "stream-track.2") (lit "/api/mp3/track.2.mp3") 0).
Proof.
  destruct (selection_then_initiate Demo.db Demo.client_urls (lit "k3")
              [Lambda.mkAttribute (lit "GENRE") (lit "rock");
               Lambda.mkAttribute (lit "ARTIST") (lit "artist.bob");
               Lambda.mkAttribute (lit "TRACK") (lit "track.1")])
    as (k & e & Hsel & Hg & _ & Hi & _).
  cbn in Hsel. destruct Hsel as (Hk & _ & He). subst e.
  destruct k; try discriminate Hk.
  split; [exact Hg|exact Hi].
Defined.

(* ================================================================== *)
(** ** Entry point of the Lambda                                      *)
(* ================================================================== *)






(* ================================================================== *)
(** ** Requests of the Lambda to the server                           *)
(* ================================================================== *)

(** X9.  [fetchPartyKit] calls [fetch] at most three times.  It
    returns the first response whose status is below 500, and never a
    response of status 500 or above; the calls before it were rejected
    or answered by such a status.  It raises exactly when the three
    calls fail in this way.  Between the calls it waits 200 ms, then
    400 ms, and it does not wait after the last one. *)
Theorem fetchPartyKit_retries (fetch : nat -> PartykitClient.Outcome) :
  let result := PartykitClient.fetchPartyKit fetch in
  let failed (i : nat) :=
    match fetch i with
    | PartykitClient.Replied status => (500 <= status)%Z
    | PartykitClient.Rejected => True
    end in
  (1 <= PartykitClient.calls result <= 3)%nat /\
  (forall i, (S i < PartykitClient.calls result)%nat -> failed i) /\
  match PartykitClient.returned result with
  | Some status =>
      (status < 500)%Z /\
      fetch (PartykitClient.calls result - 1)%nat
      = PartykitClient.Replied status
  | None =>
      PartykitClient.calls result = 3%nat /\
      failed 0%nat /\ failed 1%nat /\ failed 2%nat
  end /\
  PartykitClient.waited result =
  match PartykitClient.calls result with
  | 1%nat => 0%Z
  | 2%nat => 200%Z
  | _ => 600%Z
  end.
Proof.
  cbv zeta. unfold PartykitClient.fetchPartyKit, PartykitClient.MAX_RETRIES.
  assert (Hsmall : forall s, Lambda.ok s || (s <? 500)%Z = (s <? 500)%Z).
  { intros s. unfold Lambda.ok.
    destruct (Z.leb_spec 200 s), (Z.leb_spec s 299), (Z.ltb_spec s 500);
      simpl; solve [reflexivity | lia]. }
  assert (Hlt : forall i, (S i < 3)%nat -> i = 0%nat \/ i = 1%nat) by lia.
  cbn [PartykitClient.attempts]. cbv zeta.
  destruct (fetch 0%nat) as [s0|] eqn:F0;
    [rewrite Hsmall; destruct (Z.ltb_spec s0 500)|];
    try (cbn; repeat split; solve [lia | assumption | intros; lia]);
    (destruct (fetch 1%nat) as [s1|] eqn:F1;
     [rewrite Hsmall; destruct (Z.ltb_spec s1 500)|];
     try (cbn; repeat split;
          solve [lia | assumption
                | intros i Hi; assert (i = 0%nat) by lia; subst;
                  rewrite F0; solve [lia | exact I]]);
     (destruct (fetch 2%nat) as [s2|] eqn:F2;
      [rewrite Hsmall; destruct (Z.ltb_spec s2 500)|];
      cbn; repeat split;
      solve [lia | assumption | exact I
            | intros i Hi; destruct (Hlt i Hi); subst;
              rewrite ?F0, ?F1; solve [lia | exact I]])).
Qed.

(* ================================================================== *)
(** ** The token codec, where [encodeToken] returns                   *)
(* ================================================================== *)

Lemma latin1_quote_unit_units (c : N) :
  latin1 (quote_unit c) = true -> (c <? 65536)%N = true.
Proof.
  intros H. destruct (N.ltb_spec c 65536) as [|Hc]; [reflexivity|].
  exfalso. unfold quote_unit, is_high_surrogate, is_low_surrogate in H.
  repeat match type of H with
         | context [(?a =? ?b)%N] =>
             destruct (N.eqb_spec a b); [lia|]
         end.
  destruct (N.ltb_spec c 32); [lia|].
  destruct (N.leb_spec c 56319); [lia|].
  destruct (N.leb_spec c 57343); [lia|].
  rewrite !andb_false_r in H. cbn [orb] in H.
  apply latin1_cons in H as [H _]. lia.
Qed.

(** A quoted string within Latin-1 spells a string of 16-bit units
    (its units above 0xFF are surrogates, written as escapes). *)
Lemma latin1_quote_chars_units (s : jsstring) :
  latin1 (quote_chars s) = true -> units s = true.
Proof.
  remember (length s) as n eqn:Hn. revert s Hn.
  induction n as [n IH] using lt_wf_ind. intros s Hn H.
  destruct s as [|c s]; [reflexivity|].
  assert (Hstep : latin1 (quote_unit c ++ quote_chars s) = true ->
                  units (c :: s) = true).
  { rewrite latin1_app. intros Hq. apply andb_prop in Hq as [Hc Hs].
    unfold units. cbn [forallb]. rewrite (latin1_quote_unit_units c Hc).
    apply (IH (length s)); [subst n; simpl; lia|reflexivity|exact Hs]. }
  cbn [quote_chars] in H.
  destruct (is_high_surrogate c) eqn:Hh; [|now apply Hstep].
  destruct s as [|d s].
  - apply Hstep. cbn [quote_chars]. now rewrite app_nil_r.
  - destruct (is_low_surrogate d); [|now apply Hstep].
    apply latin1_cons in H as [Hc _].
    unfold is_high_surrogate in Hh. apply andb_prop in Hh as [Hh _].
    apply N.leb_le in Hh. lia.
Qed.

Lemma latin1_quote_units (s : jsstring) :
  latin1 (quote s) = true -> units s = true.
Proof.
  unfold quote. intros H. apply latin1_cons in H as [_ H].
  rewrite latin1_app in H. apply andb_prop in H as [H _].
  now apply latin1_quote_chars_units.
Qed.

(** What [encodeToken] returns, and when. *)
Lemma encodeToken_inv (t : PlaybackToken) (raw : jsstring) :
  encodeToken t = Some raw ->
  raw = encode (stringify_token t) /\
  latin1 (stringify_token t) = true /\
  units (trackId t) = true /\ units (context t) = true.
Proof.
  unfold encodeToken, btoa.
  change (forallb (fun c => (c <=? 255)%N) (stringify_token t))
    with (latin1 (stringify_token t)).
  destruct (latin1 (stringify_token t)) eqn:Hl; [|discriminate].
  intros H. injection H as <-. split; [reflexivity|]. split; [reflexivity|].
  unfold stringify_token in Hl. rewrite !latin1_app in Hl.
  repeat (apply andb_prop in Hl as [? Hl]).
  split; now apply latin1_quote_units.
Qed.

Lemma encodeToken_decoded (t : PlaybackToken) (raw : jsstring) :
  encodeToken t = Some raw -> decodeToken raw = token_json t.
Proof.
  intros H. apply encodeToken_inv in H as (-> & Hl & Ht & Hc).
  unfold decodeToken. rewrite (atob_encode _ Hl).
  now rewrite (parse_stringify_token t Ht Hc).
Qed.

(** X10.  The codec, wherever [encodeToken] returns.  Whenever
    [encodeToken] returns a text (it raises for a token with a unit
    above 0xFF that is not a lone surrogate), [decodeToken] of that
    text is the token; so no two tokens have the same encoding. *)
Theorem encodeToken_is_injective (t1 t2 : PlaybackToken) (raw : jsstring) :
  encodeToken t1 = Some raw ->
  decodeToken raw = token_json t1 /\
  (encodeToken t2 = Some raw -> t1 = t2).
Proof.
  intros H1. split; [now apply encodeToken_decoded|].
  intros H2. apply encodeToken_decoded in H1, H2.
  rewrite H1 in H2. destruct t1, t2. unfold token_json in H2.
  cbn [trackId context] in H2. now injection H2 as -> ->.
Qed.

Lemma encodeToken_is_injective_witness :
  decodeToken (encode (stringify_token (mkToken [55357%N] (lit "all"))))
  = token_json (mkToken [55357%N] (lit "all")).
Proof.
  exact (proj1 (encodeToken_is_injective (mkToken [55357%N] (lit "all"))
                  (mkToken [55357%N] (lit "all")) _ eq_refl)).
Defined.

(* ================================================================== *)
(** ** Requests of the skill                                          *)
(* ================================================================== *)

Import AlexaRouter.

(** The text of a decoded token is the text of the token. *)
Lemma stringify_token_json (rt : Runtime) (t : PlaybackToken) :
  JsonText.stringify (number_text rt) (token_json t) = stringify_token t.
Proof.
  rewrite stringify_token_shape. unfold token_json. cbn. unfold quote.
  cbn [app]. repeat (rewrite <- app_assoc; cbn [app]). reflexivity.
Qed.

Lemma encodeToken_value_token (rt : Runtime) (t : PlaybackToken) :
  encodeToken_value rt (token_json t) = encodeToken t.
Proof.
  unfold encodeToken_value, encodeToken. now rewrite stringify_token_json.
Qed.

Lemma encodeToken_nonempty (t : PlaybackToken) (raw : jsstring) :
  encodeToken t = Some raw -> nonempty raw = true.
Proof. intros H. apply encodeToken_head in H as [rest ->]. reflexivity. Qed.

Lemma decode_if_present_token (t : PlaybackToken) (raw : jsstring) :
  encodeToken t = Some raw ->
  decode_if_present (Some raw) = token_json t.
Proof.
  intros H. unfold decode_if_present. cbn [if_some_truthy].
  rewrite (encodeToken_nonempty t raw H). now apply encodeToken_decoded.
Qed.

(** X11.  Resuming.  For a token that the skill has issued (an
    encoding made by [encodeToken]) whose track is stored, the resume
    intent and the play button answer with a Play directive that
    replaces the queue by the same track, at the offset that the
    device reports (0 when it reports none), under the very token that
    came in, and without speech. *)
Theorem resume_keeps_token (rt : Runtime) (db : Db.t) (u : UrlBuilder)
    (t : PlaybackToken) (raw : jsstring) (tr : Track.t) (offset : option Z) :
  encodeToken t = Some raw ->
  Db.getTrack db (trackId t) = Some tr ->
  let audioPlayer := Some (mkAudioPlayer (Some raw) offset) in
  let reply :=
    Ok (Play
          {| playBehavior := REPLACE_ALL;
             stream :=
               {| url := mp3 u (Track.id tr);
                  token := raw;
                  offsetInMilliseconds :=
                    match offset with
                    | Some o => o
                    | None => 0%Z
                    end;
                  expectedPreviousToken := None |};
             meta_title := Track.title tr;
             meta_subtitle := Track.artist tr;
             meta_art := art u (Track.id tr) |}
          None) in
  handleResumeIntent rt audioPlayer u db = reply /\
  handlePlaybackController rt db audioPlayer u
    (lit "PlaybackController.PlayCommandIssued") = reply.
Proof.
  intros He Hg. cbv zeta.
  unfold handleResumeIntent, handlePlaybackController.
  cbn [token_of ap_token offset_of ap_offsetInMilliseconds].
  change (str_eqb (lit "PlaybackController.PlayCommandIssued")
                  (lit "PlaybackController.NextCommandIssued")) with false.
  change (str_eqb (lit "PlaybackController.PlayCommandIssued")
                  (lit "PlaybackController.PreviousCommandIssued"))
    with false.
  change (str_eqb (lit "PlaybackController.PlayCommandIssued")
                  (lit "PlaybackController.PlayCommandIssued")) with true.
  cbv iota.
  rewrite (decode_if_present_token t raw He).
  change (truthy (token_json t)) with true. cbv iota.
  change (get_prop (token_json t) (lit "trackId"))
    with (@Ok (option json) (Some (JString (trackId t)))).
  cbn [bind getTrack_value]. rewrite Hg.
  unfold buildPlayResponse_value. rewrite encodeToken_value_token, He.
  now split.
Qed.

Lemma resume_keeps_token_witness :
  handleResumeIntent (mkRuntime (fun _ _ => []) (fun _ _ => Throw))
    (Some (mkAudioPlayer (Some Demo.token1_text) (Some 42000%Z)))
    Demo.urls Demo.db
  = Ok (Play
          {| playBehavior := REPLACE_ALL;
             stream :=
               {| url := lit "/api/mp3/track.1.mp3";
                  token := Demo.token1_text;
                  offsetInMilliseconds := 42000;
                  expectedPreviousToken := None |};
             meta_title := lit "Aurora";
             meta_subtitle := lit "ann";
             meta_art := lit "/api/art/track.1.jpg" |}
          None).
Proof.
  exact (proj1 (resume_keeps_token
                  (mkRuntime (fun _ _ => []) (fun _ _ => Throw))
                  Demo.db Demo.urls (mkToken (lit "track.1") (lit "all"))
                  Demo.token1_text Demo.t1 (Some 42000%Z) eq_refl eq_refl)).
Defined.

(** The start of [handleResumeIntent] over. *)
Lemma from_the_start (rt : Runtime) (db : Db.t) (u : UrlBuilder)
    (audioPlayer : option AudioPlayer) :
  truthy (decode_if_present (token_of audioPlayer)) = false \/
  (exists t raw,
      token_of audioPlayer = Some raw /\ encodeToken t = Some raw /\
      Db.getTrack db (trackId t) = None) ->
  handleResumeIntent rt audioPlayer u db =
  match Db.getTracks db with
  | [] => Ok (buildSpeechResponse msg_nothing_to_play false)
  | first :: _ =>
      buildPlayResponse first
        (mp3 u (Track.id first)) (art u (Track.id first))
        {| trackId := Track.id first; context := lit "all" |}
        REPLACE_ALL 0 None None
  end /\
  handlePlaybackController rt db audioPlayer u
    (lit "PlaybackController.PlayCommandIssued") = Ok Empty.
Proof.
  unfold handleResumeIntent, handlePlaybackController.
  change (str_eqb (lit "PlaybackController.PlayCommandIssued")
                  (lit "PlaybackController.NextCommandIssued")) with false.
  change (str_eqb (lit "PlaybackController.PlayCommandIssued")
                  (lit "PlaybackController.PreviousCommandIssued"))
    with false.
  change (str_eqb (lit "PlaybackController.PlayCommandIssued")
                  (lit "PlaybackController.PlayCommandIssued")) with true.
  cbv iota zeta.
  intros [H|(t & raw & Ht & He & Hg)].
  - now rewrite H.
  - rewrite Ht, (decode_if_present_token t raw He).
    change (truthy (token_json t)) with true. cbv iota.
    change (get_prop (token_json t) (lit "trackId"))
      with (@Ok (option json) (Some (JString (trackId t)))).
    cbn [bind getTrack_value]. rewrite Hg. now split.
Qed.

(** X12.  Resuming without a track to resume.  When the device
    reports no token (or an empty one), or a token of the skill whose
    track is no longer stored, the resume intent starts over: it plays
    the first of all tracks from its beginning, in the context of all
    tracks and without speech (over a storage whose ids are within
    Latin-1), or says that there is nothing to play when no track is
    stored.  The play button answers with the empty reply. *)
Theorem resume_starts_over (rt : Runtime) (db : Db.t) (u : UrlBuilder)
    (audioPlayer : option AudioPlayer) :
  ids_latin1 db = true ->
  if_some_truthy (token_of audioPlayer) = None \/
  (exists t raw,
      token_of audioPlayer = Some raw /\ encodeToken t = Some raw /\
      Db.getTrack db (trackId t) = None) ->
  handleResumeIntent rt audioPlayer u db =
  match Db.getTracks db with
  | [] => Ok (Speech msg_nothing_to_play false)
  | first :: _ =>
      Ok (Play
            {| playBehavior := REPLACE_ALL;
               stream :=
                 {| url := mp3 u (Track.id first);
                    token := encode (stringify_token
                                       (mkToken (Track.id first) (lit "all")));
                    offsetInMilliseconds := 0;
                    expectedPreviousToken := None |};
               meta_title := Track.title first;
               meta_subtitle := Track.artist first;
               meta_art := art u (Track.id first) |}
            None)
  end /\
  handlePlaybackController rt db audioPlayer u
    (lit "PlaybackController.PlayCommandIssued") = Ok Empty.
Proof.
  intros Hok H.
  destruct (from_the_start rt db u audioPlayer) as [H1 H2].
  { destruct H as [H|H]; [left|now right].
    unfold decode_if_present. now rewrite H. }
  split; [|exact H2]. rewrite H1.
  destruct (Db.getTracks db) as [|first rest] eqn:E; [reflexivity|].
  assert (Hin : In first (Db.tracks db)).
  { unfold Db.getTracks in E. rewrite E. now left. }
  destruct (new_token_encoded db first (lit "all") Hok Hin eq_refl)
    as [He _].
  unfold buildPlayResponse. now rewrite He.
Qed.

Lemma resume_starts_over_witness :
  handlePlaybackController (mkRuntime (fun _ _ => []) (fun _ _ => Throw))
    Demo.db None Demo.urls (lit "PlaybackController.PlayCommandIssued")
  = Ok Empty.
Proof.
  exact (proj2 (resume_starts_over
                  (mkRuntime (fun _ _ => []) (fun _ _ => Throw))
                  Demo.db Demo.urls None eq_refl (or_introl eq_refl))).
Defined.

Lemma silenced_buildPlayResponse (tr : Track.t) (m a : jsstring)
    (t : PlaybackToken) (b : PlayBehavior) (o : Z)
    (e sp : option jsstring) :
  silenced (buildPlayResponse tr m a t b o e sp)
  = buildPlayResponse tr m a t b o e sp.
Proof. unfold buildPlayResponse. now destruct (encodeToken t). Qed.

(** X13.  The buttons follow the intents.  The next and previous
    buttons of a device answer as the next and previous intents do,
    with the same Play directive for the neighbour of the current
    track; where the intent answers by speech alone (no token, or
    no neighbour), the button answers with the empty reply. *)
Theorem buttons_follow_intents (rt : Runtime) (db : Db.t)
    (audioPlayer : option AudioPlayer) (u : UrlBuilder) (dir : Direction) :
  handlePlaybackController rt db audioPlayer u (command_of dir)
  = silenced (handleNavigateIntent db audioPlayer u dir).
Proof.
  unfold handlePlaybackController, handleNavigateIntent.
  fold (token_of audioPlayer).
  destruct dir; cbn [command_of].
  - change (str_eqb (lit "PlaybackController.NextCommandIssued")
                    (lit "PlaybackController.NextCommandIssued")) with true.
    cbv iota zeta.
    destruct (truthy (decode_if_present (token_of audioPlayer)));
      [|reflexivity]. cbn [negb].
    destruct (findAdjacentTrack db _ next) as [[adj|]|]; cbn [bind];
      try reflexivity.
    destruct (context_of _); cbn [bind]; [|reflexivity].
    now rewrite silenced_buildPlayResponse.
  - change (str_eqb (lit "PlaybackController.PreviousCommandIssued")
                    (lit "PlaybackController.NextCommandIssued")) with false.
    change (str_eqb (lit "PlaybackController.PreviousCommandIssued")
                    (lit "PlaybackController.PreviousCommandIssued"))
      with true.
    cbv iota zeta.
    destruct (truthy (decode_if_present (token_of audioPlayer)));
      [|reflexivity]. cbn [negb].
    destruct (findAdjacentTrack db _ previous) as [[adj|]|]; cbn [bind];
      try reflexivity.
    destruct (context_of _); cbn [bind]; [|reflexivity].
    now rewrite silenced_buildPlayResponse.
Qed.

(** A request type with a prefix is none of the types that are
    compared as a whole. *)
Lemma player_types (requestType : jsstring) :
  startsWith requestType (lit "AudioPlayer.") = true \/
  startsWith requestType (lit "PlaybackController.") = true ->
  str_eqb requestType (lit "LaunchRequest") = false /\
  str_eqb requestType (lit "SessionEndedRequest") = false.
Proof.
  intros [H|H]; apply startsWith_inv in H; rewrite H; split; reflexivity.
Qed.

Lemma controller_is_no_event (requestType : jsstring) :
  startsWith requestType (lit "PlaybackController.") = true ->
  startsWith requestType (lit "AudioPlayer.") = false.
Proof. intros H. apply startsWith_inv in H. rewrite H. reflexivity. Qed.

(** A reply without speech: the empty reply, a Stop directive, or a
    Play directive without [outputSpeech]. *)
Lemma buildPlayResponse_silent (tr : Track.t) (m a : jsstring)
    (t : PlaybackToken) (b : PlayBehavior) (o : Z) (e : option jsstring) :
  match routeReply (buildPlayResponse tr m a t b o e None) with
  | Speech _ _ => False
  | Play _ (Some _) => False
  | _ => True
  end.
Proof. unfold buildPlayResponse. now destruct (encodeToken t). Qed.

Lemma buildPlayResponse_value_silent (rt : Runtime) (tr : Track.t)
    (m a : jsstring) (v : json) (b : PlayBehavior) (o : Z)
    (e : option jsstring) :
  match routeReply (buildPlayResponse_value rt tr m a v b o e None) with
  | Speech _ _ => False
  | Play _ (Some _) => False
  | _ => True
  end.
Proof.
  unfold buildPlayResponse_value. now destruct (encodeToken_value rt v).
Qed.

(** X14.  No speech where the device allows none.  The reply to a
    request of the audio player (an [AudioPlayer.] event) or of a
    button (a [PlaybackController.] request) never has an
    [outputSpeech]: it is the empty reply, a Stop directive, or a Play
    directive without speech, whatever the token and the storage are,
    also when the handler raises. *)
Theorem no_speech_for_player_requests (rt : Runtime) (db : Db.t)
    (body : Body) (u : UrlBuilder) :
  startsWith (type (request body)) (lit "AudioPlayer.") = true \/
  startsWith (type (request body)) (lit "PlaybackController.") = true ->
  match routeReply (handleAlexaRequest rt db body u) with
  | Speech _ _ => False
  | Play _ (Some _) => False
  | _ => True
  end.
Proof.
  intros H. unfold handleAlexaRequest. cbv zeta.
  destruct (player_types _ H) as [-> ->].
  destruct H as [H|H].
  - rewrite H. unfold handleAudioPlayerEvent.
    destruct (str_eqb _ _); [|exact I].
    destruct (if_some_truthy _) as [cur|]; [|exact I].
    destruct (negb _); [exact I|].
    destruct (findAdjacentTrack db _ next) as [[nt|]|]; cbn [bind];
      try exact I.
    destruct (context_of _); cbn [bind]; [|exact I].
    apply buildPlayResponse_silent.
  - rewrite (controller_is_no_event _ H), H.
    unfold handlePlaybackController. cbv zeta.
    assert (Hstep : forall dir,
               match routeReply
                       (if negb (truthy (decode_if_present
                                           (token_of (audioPlayer body))))
                        then Ok buildEmptyResponse
                        else
                          (let! adjacent :=
                             findAdjacentTrack db
                               (decode_if_present
                                  (token_of (audioPlayer body))) dir in
                           match adjacent with
                           | None => Ok buildEmptyResponse
                           | Some adjacent =>
                               let! context :=
                                 context_of
                                   (decode_if_present
                                      (token_of (audioPlayer body))) in
                               buildPlayResponse adjacent
                                 (mp3 u (Track.id adjacent))
                                 (art u (Track.id adjacent))
                                 {| trackId := Track.id adjacent;
                                    context := context |}
                                 REPLACE_ALL 0 None None
                           end)%exc) with
               | Speech _ _ => False
               | Play _ (Some _) => False
               | _ => True
               end).
    { intros dir. destruct (negb _); [exact I|].
      destruct (findAdjacentTrack db _ dir) as [[adj|]|]; cbn [bind];
        try exact I.
      destruct (context_of _); cbn [bind]; [|exact I].
      apply buildPlayResponse_silent. }
    destruct (str_eqb _ _); [apply Hstep|].
    destruct (str_eqb _ _); [apply Hstep|].
    destruct (str_eqb _ _).
    + destruct (truthy _); [|exact I].
      destruct (get_prop _ _) as [tid|]; cbn [bind]; [|exact I].
      destruct (getTrack_value rt db tid) as [[tr|]|]; cbn [bind];
        try exact I.
      apply buildPlayResponse_value_silent.
    + now destruct (str_eqb _ _).
Qed.

Lemma no_speech_for_player_requests_witness :
  match routeReply
          (handleAlexaRequest (mkRuntime (fun _ _ => []) (fun _ _ => Throw))
             Demo.db
             (mkBody (Demo.nearlyFinished (Some Demo.token1_text)) None None)
             Demo.urls) with
  | Speech _ _ => False
  | Play _ (Some _) => False
  | _ => True
  end.
Proof.
  exact (no_speech_for_player_requests
           (mkRuntime (fun _ _ => []) (fun _ _ => Throw)) Demo.db
           (mkBody (Demo.nearlyFinished (Some Demo.token1_text)) None None)
           Demo.urls (or_introl eq_refl)).
Defined.

(** *** Every Play reply *)

Lemma plays_stored_build (db : Db.t) (u : UrlBuilder) (tr : Track.t)
    (t : PlaybackToken) (b : PlayBehavior) (o : Z)
    (e sp : option jsstring) :
  In tr (Db.tracks db) ->
  plays_stored db u b
    (match b with
     | ENQUEUE => if_some_truthy e
     | _ => None
     end)
    (buildPlayResponse tr (mp3 u (Track.id tr)) (art u (Track.id tr))
       t b o e sp).
Proof.
  intros Hin d s. unfold buildPlayResponse.
  destruct (encodeToken t); [|discriminate].
  intros H. injection H as <- <-. exists tr. now repeat split.
Qed.

Lemma plays_stored_build_value (rt : Runtime) (db : Db.t) (u : UrlBuilder)
    (tr : Track.t) (v : json) (o : Z) :
  In tr (Db.tracks db) ->
  plays_stored db u REPLACE_ALL None
    (buildPlayResponse_value rt tr (mp3 u (Track.id tr))
       (art u (Track.id tr)) v REPLACE_ALL o None None).
Proof.
  intros Hin d s. unfold buildPlayResponse_value.
  destruct (encodeToken_value rt v); [|discriminate].
  intros H. injection H as <- <-. exists tr. now repeat split.
Qed.

Lemma plays_stored_other (db : Db.t) (u : UrlBuilder) (b : PlayBehavior)
    (prev : option jsstring) (outcome : exc Response) :
  match outcome with
  | Ok (Play _ _) => False
  | _ => True
  end ->
  plays_stored db u b prev outcome.
Proof. intros H d s ->. contradiction. Qed.

Lemma plays_stored_all (db : Db.t) (u : UrlBuilder) :
  plays_stored db u REPLACE_ALL None (handlePlayAllIntent db u).
Proof.
  unfold handlePlayAllIntent, Db.getTracks.
  destruct (Db.tracks db) as [|first rest] eqn:E.
  - now apply plays_stored_other.
  - apply (plays_stored_build db u first _ REPLACE_ALL).
    rewrite E. now left.
Qed.

Lemma plays_stored_song (db : Db.t) (u : UrlBuilder)
    (songName : option jsstring) :
  plays_stored db u REPLACE_ALL None (handlePlaySongIntent db songName u).
Proof.
  unfold handlePlaySongIntent.
  destruct (if_some_truthy songName) as [q|]; [|apply plays_stored_all].
  destruct (Db.searchTracksByTitle db q) as [|first rest] eqn:E.
  - now apply plays_stored_other.
  - apply (plays_stored_build db u first _ REPLACE_ALL).
    apply (search_title_stored db q). rewrite E. now left.
Qed.

Lemma plays_stored_artist (db : Db.t) (u : UrlBuilder)
    (artistName : option jsstring) :
  plays_stored db u REPLACE_ALL None
    (handlePlayArtistIntent db artistName u).
Proof.
  unfold handlePlayArtistIntent.
  destruct (if_some_truthy artistName) as [q|]; [|apply plays_stored_all].
  destruct (Db.searchTracksByArtist db q) as [|first rest] eqn:E.
  - now apply plays_stored_other.
  - apply (plays_stored_build db u first _ REPLACE_ALL).
    apply (search_artist_stored db q). rewrite E. now left.
Qed.

Lemma plays_stored_playlist (db : Db.t) (u : UrlBuilder)
    (playlistName : option jsstring) :
  plays_stored db u REPLACE_ALL None
    (handlePlayPlaylistIntent db playlistName u).
Proof.
  unfold handlePlayPlaylistIntent.
  destruct (if_some_truthy playlistName) as [q|];
    [|now apply plays_stored_other].
  cbv zeta.
  destruct (Db.searchPlaylistsByName db q) as [|pl rest];
    [now apply plays_stored_other|].
  destruct (_ =? _)%Z; [now apply plays_stored_other|].
  destruct (Db.getPlaylistTracks db (Playlist.id pl)) as [|first more] eqn:E.
  - now apply plays_stored_other.
  - apply (plays_stored_build db u first _ REPLACE_ALL).
    apply (playlist_tracks_stored db (Playlist.id pl)). rewrite E. now left.
Qed.

Lemma plays_stored_step (db : Db.t) (u : UrlBuilder) (token : json)
    (dir : Direction) (b : PlayBehavior) (e : option jsstring)
    (none : Response) :
  match none with
  | Play _ _ => False
  | _ => True
  end ->
  plays_stored db u b
    (match b with
     | ENQUEUE => if_some_truthy e
     | _ => None
     end)
    (let! adjacent := findAdjacentTrack db token dir in
     match adjacent with
     | None => Ok none
     | Some adjacent =>
         let! context := context_of token in
         buildPlayResponse adjacent
           (mp3 u (Track.id adjacent)) (art u (Track.id adjacent))
           {| trackId := Track.id adjacent; context := context |}
           b 0 e None
     end)%exc.
Proof.
  intros Hnone.
  destruct (findAdjacentTrack db token dir) as [[adj|]|] eqn:Ha; cbn [bind].
  - destruct (context_of token); cbn [bind];
      [|now apply plays_stored_other].
    apply plays_stored_build.
    now apply findAdjacentTrack_found in Ha.
  - apply plays_stored_other. now destruct none.
  - now apply plays_stored_other.
Qed.

Lemma plays_stored_navigate (db : Db.t) (u : UrlBuilder)
    (ap : option AudioPlayer) (dir : Direction) :
  plays_stored db u REPLACE_ALL None (handleNavigateIntent db ap u dir).
Proof.
  unfold handleNavigateIntent. cbv zeta.
  destruct (negb _); [now apply plays_stored_other|].
  apply (plays_stored_step db u _ dir REPLACE_ALL None). now destruct dir.
Qed.

Section Stored.

Variable rt : Runtime.
Variable db : Db.t.
Variable u : UrlBuilder.

(** The driver returns rows of the table of tracks. *)
Hypothesis getTrack_other_stored :
  forall v tr, getTrack_other rt db v = Ok (Some tr) -> In tr (Db.tracks db).

Lemma getTrack_value_stored (v : option json) (tr : Track.t) :
  getTrack_value rt db v = Ok (Some tr) -> In tr (Db.tracks db).
Proof.
  destruct v as [[| | |id| |]|]; cbn [getTrack_value];
    try apply getTrack_other_stored.
  intros H. injection H as H. eapply getTrack_In. exact H.
Qed.

Lemma plays_stored_resume (ap : option AudioPlayer) :
  plays_stored db u REPLACE_ALL None (handleResumeIntent rt ap u db).
Proof.
  unfold handleResumeIntent. cbv zeta.
  assert (Hstart : plays_stored db u REPLACE_ALL None
                     match Db.getTracks db with
                     | [] => Ok (buildSpeechResponse msg_nothing_to_play false)
                     | first :: _ =>
                         buildPlayResponse first
                           (mp3 u (Track.id first)) (art u (Track.id first))
                           {| trackId := Track.id first;
                              context := lit "all" |}
                           REPLACE_ALL 0 None None
                     end).
  { unfold Db.getTracks.
    destruct (Db.tracks db) as [|first rest] eqn:E.
    - now apply plays_stored_other.
    - apply (plays_stored_build db u first _ REPLACE_ALL).
      rewrite E. now left. }
  destruct (truthy _); [|exact Hstart].
  destruct (get_prop _ _) as [tid|]; cbn [bind];
    [|now apply plays_stored_other].
  destruct (getTrack_value rt db tid) as [[tr|]|] eqn:G; cbn [bind].
  - apply plays_stored_build_value. now apply getTrack_value_stored in G.
  - exact Hstart.
  - now apply plays_stored_other.
Qed.

Lemma plays_stored_controller (ap : option AudioPlayer)
    (requestType : jsstring) :
  plays_stored db u REPLACE_ALL None
    (handlePlaybackController rt db ap u requestType).
Proof.
  unfold handlePlaybackController. cbv zeta.
  assert (Hstep : forall dir,
             plays_stored db u REPLACE_ALL None
               (if negb (truthy (decode_if_present (token_of ap)))
                then Ok buildEmptyResponse
                else
                  (let! adjacent :=
                     findAdjacentTrack db
                       (decode_if_present (token_of ap)) dir in
                   match adjacent with
                   | None => Ok buildEmptyResponse
                   | Some adjacent =>
                       let! context :=
                         context_of (decode_if_present (token_of ap)) in
                       buildPlayResponse adjacent
                         (mp3 u (Track.id adjacent))
                         (art u (Track.id adjacent))
                         {| trackId := Track.id adjacent;
                            context := context |}
                         REPLACE_ALL 0 None None
                   end)%exc)).
  { intros dir. destruct (negb _); [now apply plays_stored_other|].
    now apply (plays_stored_step db u _ dir REPLACE_ALL None). }
  destruct (str_eqb _ _); [apply Hstep|].
  destruct (str_eqb _ _); [apply Hstep|].
  destruct (str_eqb _ _).
  - destruct (truthy _); [|now apply plays_stored_other].
    destruct (get_prop _ _) as [tid|]; cbn [bind];
      [|now apply plays_stored_other].
    destruct (getTrack_value rt db tid) as [[tr|]|] eqn:G; cbn [bind];
      try now apply plays_stored_other.
    apply plays_stored_build_value. now apply getTrack_value_stored in G.
  - destruct (str_eqb _ _); now apply plays_stored_other.
Qed.

Lemma plays_stored_intent (i : Intent) (ap : option AudioPlayer) :
  plays_stored db u REPLACE_ALL None (handleIntent rt db i ap u).
Proof.
  unfold handleIntent. cbv zeta.
  destruct (str_eqb _ _); [apply plays_stored_song|].
  destruct (str_eqb _ _); [apply plays_stored_artist|].
  destruct (str_eqb _ _); [apply plays_stored_playlist|].
  destruct (str_eqb _ _); [apply plays_stored_all|].
  destruct (str_eqb _ _); [apply plays_stored_resume|].
  destruct (_ || _); [now apply plays_stored_other|].
  destruct (str_eqb _ _); [apply plays_stored_navigate|].
  destruct (str_eqb _ _); [apply plays_stored_navigate|].
  destruct (str_eqb _ _); now apply plays_stored_other.
Qed.

End Stored.

(** The type of the near-end-of-track event has the prefix of the
    events of the audio player. *)
Lemma nearly_finished_type (requestType : jsstring) :
  str_eqb requestType (lit "AudioPlayer.PlaybackNearlyFinished") = true ->
  str_eqb requestType (lit "LaunchRequest") = false /\
  str_eqb requestType (lit "SessionEndedRequest") = false /\
  startsWith requestType (lit "AudioPlayer.") = true.
Proof. intros H. apply str_eqb_eq in H. now subst. Qed.

(** X15.  Every Play reply.  Whatever the request is, a Play directive
    that the skill returns streams a track of the storage: the audio
    URL, the title, the artist and the picture URL are those of one
    stored track (given that the database driver returns rows of the
    table).  It enqueues (behaviour ENQUEUE, with the token of the
    event as [expectedPreviousToken]) exactly in reply to the
    near-end-of-track event; every other Play directive replaces the
    queue (REPLACE_ALL) and names no previous token. *)
Theorem play_replies (rt : Runtime) (db : Db.t) (body : Body)
    (u : UrlBuilder) :
  (forall v tr,
      getTrack_other rt db v = Ok (Some tr) -> In tr (Db.tracks db)) ->
  if str_eqb (type (request body)) (lit "AudioPlayer.PlaybackNearlyFinished")
  then plays_stored db u ENQUEUE (req_token (request body))
         (handleAlexaRequest rt db body u)
  else plays_stored db u REPLACE_ALL None (handleAlexaRequest rt db body u).
Proof.
  intros Hdrv. unfold handleAlexaRequest. cbv zeta.
  destruct (str_eqb _ (lit "AudioPlayer.PlaybackNearlyFinished")) eqn:Hn.
  - destruct (nearly_finished_type _ Hn) as (-> & -> & ->).
    unfold handleAudioPlayerEvent. rewrite Hn.
    destruct (if_some_truthy _) as [cur|] eqn:Hc;
      [|now apply plays_stored_other].
    apply if_some_truthy_nonempty in Hc as [-> Hne].
    destruct (negb _); [now apply plays_stored_other|].
    pose proof (plays_stored_step db u (decodeToken cur) next ENQUEUE
                  (Some cur) Empty I) as H.
    cbn [if_some_truthy] in H. now rewrite Hne in H.
  - destruct (str_eqb _ (lit "LaunchRequest"));
      [now apply plays_stored_other|].
    destruct (str_eqb _ (lit "SessionEndedRequest"));
      [now apply plays_stored_other|].
    destruct (startsWith _ (lit "AudioPlayer.")).
    { unfold handleAudioPlayerEvent. rewrite Hn.
      now apply plays_stored_other. }
    destruct (startsWith _ (lit "PlaybackController."));
      [now apply plays_stored_controller|].
    destruct (str_eqb _ (lit "IntentRequest"));
      [|now apply plays_stored_other].
    destruct (intent body); [|now apply plays_stored_other].
    now apply plays_stored_intent.
Qed.

Lemma play_replies_witness :
  exists tr,
    In tr (Db.tracks Demo.db) /\
    plays Demo.urls tr
      {| playBehavior := ENQUEUE;
         stream :=
           {| url := lit "/api/mp3/track.2.mp3";
              token := encode (stringify_token
                                 (mkToken (lit "track.2") (lit "all")));
              offsetInMilliseconds := 0;
              expectedPreviousToken := Some Demo.token1_text |};
         meta_title := lit "Breeze";
         meta_subtitle := lit "bob";
         meta_art := lit "/api/art/track.2.jpg" |} /\
    ENQUEUE = ENQUEUE /\
    Some Demo.token1_text = Some Demo.token1_text.
Proof.
  refine (play_replies (mkRuntime (fun _ _ => []) (fun _ _ => Throw))
            Demo.db
            (mkBody (Demo.nearlyFinished (Some Demo.token1_text)) None None)
            Demo.urls _ _ None eq_refl).
  discriminate.
Defined.

(* ================================================================== *)
(** ** A context, played to its end                                   *)
(* ================================================================== *)

(** After the last id of the list nothing follows. *)
Lemma next_at_end (db : Db.t) (ctx x : jsstring) (pre : list jsstring) :
  str_eqb ctx (lit "single") = false ->
  contextTrackList db ctx = Some (pre ++ [x]) ->
  ~ In x pre ->
  findAdjacentTrack db (token_json (mkToken x ctx)) next = Ok None.
Proof.
  intros Hs Hl Hx. rewrite findAdjacentTrack_token, Hs, Hl. cbv zeta.
  unfold indexOf. rewrite indexOf_from_first by exact Hx.
  destruct (Z.eqb_spec (0 + len pre) (-1)) as [E|_];
    [unfold len in E; lia|].
  rewrite at_index_beyond; [reflexivity|].
  unfold len. rewrite length_app. simpl. lia.
Qed.

(** The reply to the near-end-of-track event of a stream of the
    skill. *)
Lemma nearly_finished_reply (db : Db.t) (u : UrlBuilder)
    (t : PlaybackToken) (raw : jsstring) :
  encodeToken t = Some raw ->
  handleAudioPlayerEvent db
    (mkRequest (lit "AudioPlayer.PlaybackNearlyFinished") (Some raw)) u
  = (let! nextTrack := findAdjacentTrack db (token_json t) next in
     match nextTrack with
     | None => Ok Empty
     | Some nextTrack =>
         buildPlayResponse nextTrack
           (mp3 u (Track.id nextTrack)) (art u (Track.id nextTrack))
           {| trackId := Track.id nextTrack; context := context t |}
           ENQUEUE 0 (Some raw) None
     end)%exc.
Proof.
  intros He. unfold handleAudioPlayerEvent. cbn [type req_token].
  change (str_eqb (lit "AudioPlayer.PlaybackNearlyFinished")
                  (lit "AudioPlayer.PlaybackNearlyFinished")) with true.
  cbv iota. cbn [if_some_truthy]. rewrite (encodeToken_nonempty t raw He).
  rewrite (encodeToken_decoded t raw He).
  change (truthy (token_json t)) with true. cbn [negb].
  destruct (findAdjacentTrack db (token_json t) next) as [[nt|]|];
    reflexivity.
Qed.

(** X16.  A context, played to its end.  Let a context other than
    ["single"] stand for a list of ids without repetition, and let a
    stream of the skill play the id [x] of that list.  When the device
    sends the near-end-of-track event of each stream in turn, the skill
    enqueues the tracks of the ids that follow [x], one after the
    other and in the order of the list, and after the last of them it
    answers with the empty reply: the queue ends there.  (The ids of
    the storage and the context are within Latin-1, and the ids after
    [x] are ids of stored tracks.) *)
Theorem context_is_played_in_order (db : Db.t) (u : UrlBuilder)
    (ctx : jsstring) (post pre : list jsstring) (x raw : jsstring)
    (n : nat) :
  ids_latin1 db = true -> latin1 ctx = true ->
  str_eqb ctx (lit "single") = false ->
  contextTrackList db ctx = Some (pre ++ x :: post) ->
  NoDup (pre ++ x :: post) ->
  (forall y, In y post -> exists ty, resolves db y ty) ->
  encodeToken (mkToken x ctx) = Some raw ->
  Forall2 (fun y d =>
             exists ty,
               resolves db y ty /\ plays u ty d /\
               playBehavior d = ENQUEUE /\
               decodeToken (token (stream d)) = token_json (mkToken y ctx))
          (firstn n post) (enqueued db u n raw).
Proof.
  intros Hok Hctx Hs. revert pre x raw n.
  induction post as [|y post IH]; intros pre x raw n Hl Hn Hres He.
  - rewrite firstn_nil. destruct n as [|n]; [constructor|].
    cbn [enqueued]. rewrite (nearly_finished_reply db u _ raw He).
    rewrite (next_at_end db ctx x pre Hs Hl).
    + constructor.
    + apply NoDup_remove_2 in Hn. rewrite app_nil_r in Hn. exact Hn.
  - destruct n as [|n]; [constructor|].
    destruct (Hres y (or_introl eq_refl)) as [ty Hy].
    assert (Hx : ~ In x pre).
    { apply NoDup_remove_2 in Hn. intros H. apply Hn.
      apply in_or_app. now left. }
    cbn [enqueued firstn]. rewrite (nearly_finished_reply db u _ raw He).
    rewrite (next_in_list db ctx x y ty pre post Hs Hl Hx Hy).
    cbn [bind context].
    destruct Hy as [Ny Gy].
    pose proof (getTrack_In db y ty Gy) as Hin.
    pose proof (getTrack_id db y ty Gy) as Hid.
    destruct (new_token_encoded db ty ctx Hok Hin Hctx) as [Hnew Hdec].
    unfold buildPlayResponse. rewrite Hnew.
    cbn [if_some_truthy]. rewrite (encodeToken_nonempty _ raw He).
    constructor.
    + exists ty. cbn [token stream playBehavior]. rewrite Hdec, Hid.
      split; [now split|].
      split; [unfold plays; cbn; rewrite Hid; now repeat split|].
      now split.
    + cbn [token stream].
      apply (IH (pre ++ [x]) y).
      * rewrite <- app_assoc. exact Hl.
      * rewrite <- app_assoc. exact Hn.
      * intros z Hz. apply Hres. now right.
      * rewrite <- Hid. exact Hnew.
Qed.

Lemma context_is_played_in_order_witness :
  Forall2 (fun y d =>
             exists ty,
               resolves Demo.db y ty /\ plays Demo.urls ty d /\
               playBehavior d = ENQUEUE /\
               decodeToken (token (stream d))
               = token_json (mkToken y (lit "all")))
          (firstn 5 [lit "track.2"; lit "track.3"])
          (enqueued Demo.db Demo.urls 5 Demo.token1_text).
Proof.
  refine (context_is_played_in_order Demo.db Demo.urls (lit "all")
            [lit "track.2"; lit "track.3"] [] (lit "track.1")
            Demo.token1_text 5 eq_refl eq_refl eq_refl eq_refl _ _ eq_refl).
  - repeat constructor; simpl; intuition discriminate.
  - intros y [<-|[<-|[]]].
    + exists Demo.t2. now split.
    + exists Demo.t3. now split.
Defined.

(* ================================================================== *)
(** ** Where the play intents start                                   *)
(* ================================================================== *)

(** The artists that a search matches, for a track. *)
Lemma searchTracksByArtist_cons (tracks : list Track.t)
    (playlists : list Playlist.t) (artists : list Artist.t)
    (like : jsstring -> jsstring -> bool) (t : Track.t) (q : jsstring) :
  Db.searchTracksByArtist (Db.mk (t :: tracks) playlists artists like) q
  = map (fun _ => t)
        (filter (fun a =>
                   str_eqb (Track.artistId t) (Artist.id a) &&
                   (like (Db.pattern (Db.normalized q))
                         (Db.no_blank (Artist.name a)) ||
                    like (Db.pattern (Db.normalized q))
                         (Db.no_blank (Artist.keywords a))))
                artists)
    ++ Db.searchTracksByArtist (Db.mk tracks playlists artists like) q.
Proof. reflexivity. Qed.

(** The first track that a search by artist finds is the first track
    of its artist. *)
Lemma search_head_is_artist_head (tracks : list Track.t)
    (playlists : list Playlist.t) (artists : list Artist.t)
    (like : jsstring -> jsstring -> bool) (q : jsstring)
    (first : Track.t) (more : list Track.t) :
  Db.searchTracksByArtist (Db.mk tracks playlists artists like) q
  = first :: more ->
  exists rest,
    Db.getTracksByArtistId (Db.mk tracks playlists artists like)
      (Track.artistId first) = first :: rest.
Proof.
  unfold Db.getTracksByArtistId. cbn [Db.tracks].
  induction tracks as [|t tracks IH]; intros H; [discriminate|].
  rewrite searchTracksByArtist_cons in H. cbn [filter].
  destruct (filter _ artists) as [|a matched] eqn:Hm.
  - cbn [map app] in H. destruct (IH H) as [rest Hr].
    destruct (str_eqb (Track.artistId t) (Track.artistId first)) eqn:E;
      [|now exists rest].
    exfalso. apply str_eqb_eq in E.
    assert (Hin : In first (Db.searchTracksByArtist
                              (Db.mk tracks playlists artists like) q))
      by (rewrite H; now left).
    unfold Db.searchTracksByArtist in Hin. cbn [Db.tracks Db.artists] in Hin.
    apply in_flat_map in Hin as (t' & _ & Hin).
    apply in_map_iff in Hin as (a & Ha & Hin). subst t'.
    rewrite <- E in Hin. cbn [Db.like] in Hin.
    rewrite Hm in Hin. contradiction.
  - cbn [map app] in H. injection H as -> _.
    rewrite str_eqb_refl. eauto.
Qed.

Lemma contextTrackList_artist (db : Db.t) (a : jsstring) :
  contextTrackList db (lit "artist::" ++ a)
  = Some (map Track.id (Db.getTracksByArtistId db a)).
Proof.
  unfold contextTrackList.
  change (startsWith (lit "artist::" ++ a) (lit "playlist::")) with false.
  cbv iota. rewrite startsWith_app.
  unfold slice. change 8%nat with (length (lit "artist::")).
  now rewrite skipn_app_exact.
Qed.

(** X17.  Where playing an artist starts.  The Play directive of the
    artist intent streams the newest track of its artist: the track is
    the first of the list that its token's context stands for
    (["artist::"] and the artist id of the track), so that the tracks
    of that artist follow it, and no track precedes it. *)
Theorem artist_intent_starts_at_the_head (db : Db.t) (u : UrlBuilder)
    (artistName : option jsstring) (d : PlayDirective)
    (s : option jsstring) (name : jsstring) :
  if_some_truthy artistName = Some name ->
  handlePlayArtistIntent db artistName u = Ok (Play d s) ->
  exists first rest,
    plays u first d /\
    decodeToken (token (stream d))
    = token_json (mkToken (Track.id first)
                    (lit "artist::" ++ Track.artistId first)) /\
    Db.getTracksByArtistId db (Track.artistId first) = first :: rest /\
    contextTrackList db (lit "artist::" ++ Track.artistId first)
    = Some (Track.id first :: map Track.id rest).
Proof.
  intros Hn. unfold handlePlayArtistIntent. rewrite Hn.
  destruct (Db.searchTracksByArtist db name) as [|first more] eqn:E;
    [discriminate|].
  destruct db as [tracks playlists artists like].
  destruct (search_head_is_artist_head _ _ _ _ _ _ _ E) as [rest Hr].
  unfold buildPlayResponse.
  destruct (encodeToken _) as [raw|] eqn:He; [|discriminate].
  intros H. injection H as <- <-.
  exists first, rest. split; [now repeat split|].
  split; [now apply encodeToken_decoded|].
  split; [exact Hr|].
  now rewrite contextTrackList_artist, Hr.
Qed.

Lemma artist_intent_starts_at_the_head_witness :
  exists first rest,
    plays Demo.urls first
      {| playBehavior := REPLACE_ALL;
         stream :=
           {| url := lit "/api/mp3/track.1.mp3";
              token := encode (stringify_token
                                 (mkToken (lit "track.1")
                                    (lit "artist::artist.ann")));
              offsetInMilliseconds := 0;
              expectedPreviousToken := None |};
         meta_title := lit "Aurora";
         meta_subtitle := lit "ann";
         meta_art := lit "/api/art/track.1.jpg" |} /\
    decodeToken (encode (stringify_token
                           (mkToken (lit "track.1")
                              (lit "artist::artist.ann"))))
    = token_json (mkToken (Track.id first)
                    (lit "artist::" ++ Track.artistId first)) /\
    Db.getTracksByArtistId Demo.db (Track.artistId first) = first :: rest /\
    contextTrackList Demo.db (lit "artist::" ++ Track.artistId first)
    = Some (Track.id first :: map Track.id rest).
Proof.
  exact (artist_intent_starts_at_the_head Demo.db Demo.urls
           (Some (lit "Ann")) _ _ (lit "Ann") eq_refl eq_refl).
Defined.

(* ================================================================== *)
(** ** The queue of the Lambda, item by item                          *)
(* ================================================================== *)

(** With ids that do not repeat, a stored track is found by its id. *)
Lemma getTrack_nodup (db : Db.t) (before after : list Track.t)
    (t : Track.t) :
  Db.tracks db = before ++ t :: after ->
  NoDup (Db.getTrackIds db) ->
  Db.getTrack db (Track.id t) = Some t.
Proof.
  unfold Db.getTrack, Db.getTrackIds. intros -> Hn.
  induction before as [|b before IH]; cbn [app find map] in *.
  - now rewrite str_eqb_refl.
  - inversion Hn as [|? ? Hb Hn']; subst.
    rewrite str_eqb_neq; [now apply IH|].
    intros E. apply Hb. rewrite E, map_app. apply in_or_app. right. now left.
Qed.

(** The next track of a stored track, by its place in the table. *)
Lemma getNextTrack_at (db : Db.t) (before after : list Track.t)
    (cur : Track.t) :
  Db.tracks db = before ++ cur :: after ->
  NoDup (Db.getTrackIds db) ->
  (forall t, In t after -> nonempty (Track.id t) = true) ->
  Lambda.getNextTrack db (Track.id cur) None =
  match after with
  | [] => next_body false None None
  | t :: r =>
      next_body true (Some t)
        (Some (match r with [] => false | _ :: _ => true end))
  end.
Proof.
  intros Ht Hn Hne. rewrite getNextTrack_all.
  rewrite (handleGetNextTrack_on db _ None _ (trackListOf_all db)).
  cbv zeta. cbn [snd].
  assert (Hids : Db.getTrackIds db
                 = map Track.id before
                   ++ Track.id cur :: map Track.id after).
  { unfold Db.getTrackIds. now rewrite Ht, map_app. }
  assert (Hx : ~ In (Track.id cur) (map Track.id before)).
  { rewrite Hids in Hn. apply NoDup_remove_2 in Hn. intros H. apply Hn.
    apply in_or_app. now left. }
  rewrite Hids. unfold indexOf. rewrite indexOf_from_first by exact Hx.
  set (k := len (map Track.id before)).
  assert (Hk : (0 <= k)%Z) by (subst k; unfold len; lia).
  assert (Hlen : len (map Track.id before
                      ++ Track.id cur :: map Track.id after)
                 = (k + 1 + len after)%Z).
  { subst k. unfold len. rewrite length_app. simpl. rewrite !length_map.
    lia. }
  rewrite Hlen.
  destruct (Z.eqb_spec (0 + k) (-1)) as [E|_]; [lia|]. cbn [orb].
  destruct after as [|t r].
  - destruct (Z.geb_spec (0 + k) (k + 1 + len (@nil Track.t) - 1)) as [_|E];
      [reflexivity|unfold len in E; simpl in E; lia].
  - destruct (Z.geb_spec (0 + k) (k + 1 + len (t :: r) - 1)) as [E|_];
      [unfold len in E; simpl length in E; lia|].
    replace (0 + k + 1)%Z
      with (len (map Track.id before ++ [Track.id cur]))
      by (subst k; unfold len; rewrite length_app; simpl; lia).
    replace (map Track.id before
             ++ Track.id cur :: map Track.id (t :: r))
      with ((map Track.id before ++ [Track.id cur])
            ++ Track.id t :: map Track.id r)
      by (now rewrite <- app_assoc).
    rewrite at_index_after. cbn [if_some_truthy].
    rewrite (Hne t (or_introl eq_refl)).
    assert (Ht' : Db.tracks db = (before ++ [cur]) ++ t :: r)
      by (now rewrite <- app_assoc).
    rewrite (getTrack_nodup db _ _ t Ht' Hn).
    do 3 f_equal. unfold len. rewrite length_app. simpl.
    destruct r; simpl.
    + apply Z.ltb_ge. subst k. unfold len. lia.
    + apply Z.ltb_lt. subst k. unfold len. lia.
Qed.

(** X18.  The queue of the Lambda, item by item.  Over a table of
    tracks whose ids are not empty and do not repeat, successive
    get-next-item requests, each for the item that the request before
    returned, return the tracks that follow the current one in the
    newest-first order, one after the other; every item but the last
    has its NEXT control enabled, the last one comes with
    [isQueueFinished = true], and the request after it is answered
    with the queue-finished reply. *)
Theorem lambda_queue_item_by_item (db : Db.t) (u : Lambda.Urls)
    (after before : list Track.t) (cur : Track.t) (n : nat) :
  Db.tracks db = before ++ cur :: after ->
  NoDup (Db.getTrackIds db) ->
  (forall t, In t (cur :: after) -> nonempty (Track.id t) = true) ->
  items_after db u n (Track.id cur) = firstn n (remaining_items u after).
Proof.
  revert before cur n.
  induction after as [|t r IH]; intros before cur n Ht Hn Hne.
  - rewrite firstn_nil. destruct n as [|n]; [reflexivity|].
    cbn [items_after]. unfold Lambda.handleGetNextItem.
    cbn [Lambda.ref_id if_some_truthy].
    rewrite (Hne cur (or_introl eq_refl)).
    rewrite (getNextTrack_at db before [] cur Ht Hn); [reflexivity|].
    intros t [].
  - destruct n as [|n]; [reflexivity|].
    cbn [items_after firstn remaining_items].
    unfold Lambda.handleGetNextItem at 1.
    cbn [Lambda.ref_id if_some_truthy].
    rewrite (Hne cur (or_introl eq_refl)).
    rewrite (getNextTrack_at db before (t :: r) cur Ht Hn)
      by (intros t0 H0; apply Hne; now right).
    cbn [hasNext np_track hasFurtherNext next_body Lambda.flag].
    unfold Lambda.buildItemResponse. f_equal.
    + f_equal. now destruct r.
    + cbn [Lambda.item_id Lambda.buildItem].
      apply (IH (before ++ [cur]) t n).
      * now rewrite <- app_assoc.
      * exact Hn.
      * intros t0 H0. apply Hne. now right.
Qed.

Lemma lambda_queue_item_by_item_witness :
  items_after Demo.db Demo.client_urls 5 (lit "track.1")
  = firstn 5 (remaining_items Demo.client_urls [Demo.t2; Demo.t3]).
Proof.
  refine (lambda_queue_item_by_item Demo.db Demo.client_urls
            [Demo.t2; Demo.t3] [] Demo.t1 5 eq_refl _ _).
  - repeat constructor; simpl; intuition discriminate.
  - intros t [<-|[<-|[<-|[]]]]; reflexivity.
Defined.

(* ================================================================== *)
(** ** Derived identifiers                                            *)
(* ================================================================== *)

(** The hash of three names, as the platform computes it. *)
Example fnv1a64_known :
  Hash.fnv1a64 (lit "abc") = lit "3ij4032qvzk23" /\
  Hash.fnv1a64 [55357; 56832]%N = lit "3vllts7slsozs" /\
  Hash.fnv1a64 [19981; 26126; 12394; 12450; 12540; 12486; 12451; 12473;
                12488]%N = lit "2k030zj6zpfgz".
Proof. repeat split; vm_compute; reflexivity. Qed.

Lemma digit36_base36 (d : Z) :
  (0 <= d < 36)%Z -> is_base36 (Hash.digit36 d) = true.
Proof.
  intros H. unfold is_base36, Hash.digit36.
  destruct (Z.ltb_spec d 10).
  - apply orb_true_iff. left. apply andb_true_iff.
    split; apply N.leb_le; lia.
  - apply orb_true_iff. right. apply andb_true_iff.
    split; apply N.leb_le; lia.
Qed.

Lemma digits36_base36 (fuel : nat) (n : Z) (acc : jsstring) :
  (0 <= n)%Z -> forallb is_base36 acc = true ->
  forallb is_base36 (Hash.digits36 fuel n acc) = true.
Proof.
  revert n acc. induction fuel as [|fuel IH]; intros n acc Hn Ha;
    cbn [Hash.digits36]; [exact Ha|].
  destruct (Z.eqb_spec n 0); [exact Ha|].
  apply IH.
  - apply Z.div_pos; lia.
  - cbn [forallb]. rewrite digit36_base36, Ha; [reflexivity|].
    apply Z.mod_pos_bound. lia.
Qed.

Lemma digits36_length_le (k fuel : nat) (n : Z) (acc : jsstring) :
  (0 <= n < 36 ^ Z.of_nat k)%Z ->
  (length (Hash.digits36 fuel n acc) <= length acc + k)%nat.
Proof.
  revert k n acc. induction fuel as [|fuel IH]; intros k n acc Hn;
    cbn [Hash.digits36]; [lia|].
  destruct (Z.eqb_spec n 0); [lia|].
  destruct k as [|k]; [simpl in Hn; lia|].
  specialize (IH k (n / 36)%Z (Hash.digit36 (n mod 36) :: acc)).
  cbn [length] in IH. 
  assert (0 <= n / 36 < 36 ^ Z.of_nat k)%Z.
  { split; [apply Z.div_pos; lia|].
    apply Z.div_lt_upper_bound; [lia|].
    rewrite Nat2Z.inj_succ, Z.pow_succ_r in Hn by lia. lia. }
  specialize (IH H). lia.
Qed.

Lemma digits36_length_ge (fuel : nat) (n : Z) (acc : jsstring) :
  (length acc <= length (Hash.digits36 fuel n acc))%nat.
Proof.
  revert n acc. induction fuel as [|fuel IH]; intros n acc;
    cbn [Hash.digits36]; [lia|].
  destruct (Z.eqb_spec n 0); [lia|].
  specialize (IH (n / 36)%Z (Hash.digit36 (n mod 36) :: acc)).
  cbn [length] in IH. lia.
Qed.

(** The text of a number below [2^64]: from one to thirteen digits. *)
Lemma toString36_shape (n : Z) :
  (0 <= n < 2 ^ 64)%Z ->
  forallb is_base36 (Hash.toString36 n) = true /\
  (1 <= length (Hash.toString36 n) <= 13)%nat.
Proof.
  intros Hn. unfold Hash.toString36.
  destruct (Z.eqb_spec n 0) as [->|Hz]; [split; [reflexivity|simpl; lia]|].
  split.
  - apply digits36_base36; [lia|reflexivity].
  - split.
    + cbn [Hash.digits36]. destruct (Z.eqb_spec n 0); [contradiction|].
      pose proof (digits36_length_ge (Z.to_nat (Z.log2 n)) (n / 36)
                    [Hash.digit36 (n mod 36)]) as H.
      cbn [length] in H. lia.
    + pose proof (digits36_length_le 13 (S (Z.to_nat (Z.log2 n))) n []) as H.
      cbn [length] in H. apply H.
      change (36 ^ Z.of_nat 13)%Z with 170581728179578208256%Z.
      change (2 ^ 64)%Z with 18446744073709551616%Z in Hn. lia.
Qed.

Lemma step_range (hash : Z) (byte : N) :
  (0 <= Hash.step hash byte < 2 ^ 64)%Z.
Proof.
  unfold Hash.step. change 18446744073709551615%Z with (Z.ones 64).
  rewrite Z.land_ones by lia. apply Z.mod_pos_bound. reflexivity.
Qed.

Lemma fold_step_range (bytes : list N) (hash : Z) :
  (0 <= hash < 2 ^ 64)%Z ->
  (0 <= fold_left Hash.step bytes hash < 2 ^ 64)%Z.
Proof.
  revert hash. induction bytes as [|b bytes IH]; intros hash H;
    cbn [fold_left]; [exact H|].
  apply IH, step_range.
Qed.

Lemma hash_of_range (bytes : list N) : (0 <= Hash.hash_of bytes < 2 ^ 64)%Z.
Proof.
  apply fold_step_range. unfold Hash.FNV_OFFSET.
  change (2 ^ 64)%Z with 18446744073709551616%Z. lia.
Qed.

(** X19.  Derived identifiers.  Whatever the name and its
    normalization are, the id that [deriveArtistId] makes is
    ["artist."] followed by one to thirteen digits of base 36
    ([0-9a-z]), and [deriveAlbumId] makes ["album."] followed by the
    same digits: the ids are ASCII, so within the Latin-1 range that
    the tokens of the skill need, and free of the separators of a
    context and of a content reference. *)
Theorem derived_ids_shape (normalize : jsstring -> jsstring)
    (name : jsstring) :
  let digits := Hash.fnv1a64 (normalize name) in
  Hash.deriveArtistId normalize name = lit "artist." ++ digits /\
  Hash.deriveAlbumId normalize name = lit "album." ++ digits /\
  forallb is_base36 digits = true /\
  (1 <= length digits <= 13)%nat /\
  latin1 (Hash.deriveArtistId normalize name) = true /\
  includes (Hash.deriveArtistId normalize name) (lit "::") = false.
Proof.
  cbv zeta. unfold Hash.deriveArtistId, Hash.deriveAlbumId, Hash.fnv1a64.
  destruct (toString36_shape _ (hash_of_range (Hash.encode (normalize name))))
    as [Hd Hl].
  set (digits := Hash.toString36 _) in *. clearbody digits.
  repeat split; try assumption; try lia.
  - rewrite latin1_app. cbn [andb]. change (latin1 (lit "artist.")) with true.
    cbn [andb]. unfold latin1. rewrite forallb_forall in *.
    intros c Hc. specialize (Hd c Hc). unfold is_base36 in Hd.
    apply N.leb_le.
    apply orb_true_iff in Hd as [Hd|Hd]; apply andb_true_iff in Hd as [_ Hd];
      apply N.leb_le in Hd; lia.
  - change (lit "::") with (58%N :: [58%N]).
    rewrite includes_skip by (simpl; intuition discriminate).
    clear Hl. induction digits as [|c digits IH]; [reflexivity|].
    cbn [forallb] in Hd. apply andb_prop in Hd as [Hc Hd].
    cbn [includes startsWith]. rewrite (IH Hd).
    destruct (N.eqb_spec 58 c) as [<-|_]; [discriminate|reflexivity].
Qed.

(** *** No collision by one byte *)

Lemma lxor_cancel_l (a b c : Z) : Z.lxor a b = Z.lxor a c -> b = c.
Proof.
  intros H. apply (f_equal (Z.lxor a)) in H.
  now rewrite <- !Z.lxor_assoc, Z.lxor_nilpotent, !Z.lxor_0_l in H.
Qed.

Lemma lxor_cancel_r (a b c : Z) : Z.lxor a c = Z.lxor b c -> a = b.
Proof.
  rewrite (Z.lxor_comm a c), (Z.lxor_comm b c). apply lxor_cancel_l.
Qed.

Lemma lxor_range (a b : Z) :
  (0 <= a < 2 ^ 64)%Z -> (0 <= b < 2 ^ 64)%Z ->
  (0 <= Z.lxor a b < 2 ^ 64)%Z.
Proof.
  intros Ha Hb. split; [apply Z.lxor_nonneg; lia|].
  destruct (Z.eq_dec (Z.lxor a b) 0) as [->|Hz]; [reflexivity|].
  assert (Hp : (0 < Z.lxor a b)%Z)
    by (pose proof (proj2 (Z.lxor_nonneg a b) ltac:(lia)); lia).
  apply Z.log2_lt_pow2; [exact Hp|].
  pose proof (Z.log2_lxor a b ltac:(lia) ltac:(lia)) as Hl.
  assert (La : (Z.log2 a < 64)%Z).
  { destruct (Z.eq_dec a 0) as [->|]; [reflexivity|].
    apply Z.log2_lt_pow2; lia. }
  assert (Lb : (Z.log2 b < 64)%Z).
  { destruct (Z.eq_dec b 0) as [->|]; [reflexivity|].
    apply Z.log2_lt_pow2; lia. }
  lia.
Qed.

(** The product with the prime, cut to 64 bits, loses nothing: the
    prime is odd, and has an inverse. *)
Lemma times_prime_injective (x y : Z) :
  (0 <= x < 2 ^ 64)%Z -> (0 <= y < 2 ^ 64)%Z ->
  Z.land (x * Hash.FNV_PRIME) 18446744073709551615
  = Z.land (y * Hash.FNV_PRIME) 18446744073709551615 ->
  x = y.
Proof.
  intros Hx Hy. change 18446744073709551615%Z with (Z.ones 64).
  rewrite !Z.land_ones by lia. intros H.
  apply (f_equal (fun v => (v * 14886173955864302971) mod 2 ^ 64)%Z) in H.
  rewrite !Z.mul_mod_idemp_l in H by (now apply Z.pow_nonzero).
  rewrite <- !Z.mul_assoc in H.
  assert (Hone : forall v, (0 <= v < 2 ^ 64)%Z ->
                           ((v * (Hash.FNV_PRIME * 14886173955864302971))
                              mod 2 ^ 64 = v)%Z).
  { intros v Hv.
    replace (Hash.FNV_PRIME * 14886173955864302971)%Z
      with (1 + 887285111055 * 2 ^ 64)%Z by (vm_compute; reflexivity).
    rewrite Z.mul_add_distr_l, Z.mul_1_r, Z.mul_assoc.
    rewrite Z.mod_add by (now apply Z.pow_nonzero).
    apply Z.mod_small. exact Hv. }
  now rewrite !Hone in H.
Qed.

Lemma step_injective_byte (hash : Z) (b1 b2 : N) :
  (0 <= hash < 2 ^ 64)%Z -> (b1 < 256)%N -> (b2 < 256)%N ->
  Hash.step hash b1 = Hash.step hash b2 -> b1 = b2.
Proof.
  intros Hh H1 H2 H. unfold Hash.step in H.
  assert (R : forall b, (b < 256)%N -> (0 <= Z.of_N b < 2 ^ 64)%Z).
  { intros b Hb. change (2 ^ 64)%Z with 18446744073709551616%Z. lia. }
  apply times_prime_injective in H; try (apply lxor_range; auto).
  apply lxor_cancel_l in H. lia.
Qed.

Lemma step_injective_hash (h1 h2 : Z) (b : N) :
  (0 <= h1 < 2 ^ 64)%Z -> (0 <= h2 < 2 ^ 64)%Z -> (b < 256)%N ->
  Hash.step h1 b = Hash.step h2 b -> h1 = h2.
Proof.
  intros H1 H2 Hb H. unfold Hash.step in H.
  assert (R : (0 <= Z.of_N b < 2 ^ 64)%Z).
  { change (2 ^ 64)%Z with 18446744073709551616%Z. lia. }
  apply times_prime_injective in H; try (apply lxor_range; auto).
  now apply lxor_cancel_r in H.
Qed.

Lemma fold_step_injective (bytes : list N) (h1 h2 : Z) :
  forallb (fun b => (b <? 256)%N) bytes = true ->
  (0 <= h1 < 2 ^ 64)%Z -> (0 <= h2 < 2 ^ 64)%Z ->
  fold_left Hash.step bytes h1 = fold_left Hash.step bytes h2 -> h1 = h2.
Proof.
  revert h1 h2. induction bytes as [|b bytes IH]; intros h1 h2 Hb H1 H2 H;
    cbn [fold_left forallb] in *; [exact H|].
  apply andb_prop in Hb as [Hb Hbs]. apply N.ltb_lt in Hb.
  apply IH in H; try apply step_range; try exact Hbs.
  now apply step_injective_hash in H.
Qed.

Lemma digits36_app (fuel : nat) (n : Z) (acc : jsstring) :
  Hash.digits36 fuel n acc = Hash.digits36 fuel n [] ++ acc.
Proof.
  revert n acc. induction fuel as [|fuel IH]; intros n acc;
    cbn [Hash.digits36]; [reflexivity|].
  destruct (Z.eqb_spec n 0); [reflexivity|].
  rewrite (IH _ (_ :: acc)), (IH _ [_]), <- app_assoc. reflexivity.
Qed.

Lemma value36_snoc (s : jsstring) (c : N) :
  value36 (s ++ [c])
  = (value36 s * 36
     + Z.of_N (if (c <? 58)%N then c - 48 else c - 87))%Z.
Proof. unfold value36. now rewrite fold_left_app. Qed.

Lemma undigit36 (d : Z) :
  (0 <= d < 36)%Z ->
  Z.of_N (if (Hash.digit36 d <? 58)%N
          then Hash.digit36 d - 48 else Hash.digit36 d - 87) = d.
Proof.
  intros H. unfold Hash.digit36.
  destruct (Z.ltb_spec d 10).
  - destruct (N.ltb_spec (Z.to_N (48 + d)) 58); lia.
  - destruct (N.ltb_spec (Z.to_N (87 + d)) 58); lia.
Qed.

Lemma value36_digits36 (fuel : nat) (n : Z) :
  (0 <= n < 2 ^ Z.of_nat fuel)%Z ->
  value36 (Hash.digits36 fuel n []) = n.
Proof.
  revert n. induction fuel as [|fuel IH]; intros n Hn.
  - simpl in Hn. assert (n = 0%Z) by lia. now subst.
  - cbn [Hash.digits36]. destruct (Z.eqb_spec n 0) as [->|Hz]; [reflexivity|].
    rewrite digits36_app, value36_snoc.
    rewrite undigit36 by (apply Z.mod_pos_bound; lia).
    rewrite IH.
    + pose proof (Z.div_mod n 36 ltac:(lia)). lia.
    + rewrite Nat2Z.inj_succ, Z.pow_succ_r in Hn by lia.
      split; [apply Z.div_pos; lia|].
      apply Z.div_lt_upper_bound; lia.
Qed.

(** The text of a number spells the number. *)
Lemma value36_toString36 (n : Z) :
  (0 <= n)%Z -> value36 (Hash.toString36 n) = n.
Proof.
  intros Hn. unfold Hash.toString36.
  destruct (Z.eqb_spec n 0) as [->|Hz]; [reflexivity|].
  apply value36_digits36.
  pose proof (Z.log2_spec n ltac:(lia)) as [_ H].
  pose proof (Z.log2_nonneg n).
  rewrite Nat2Z.inj_succ, Z2Nat.id by lia. lia.
Qed.

(** The bytes of a string are bytes. *)
Lemma utf8_of_bytes (cp : N) :
  (cp < 1114112)%N ->
  forallb (fun b => (b <? 256)%N) (Hash.utf8_of cp) = true.
Proof.
  intros H. unfold Hash.utf8_of.
  destruct (N.ltb_spec cp 128); [|destruct (N.ltb_spec cp 2048);
    [|destruct (N.ltb_spec cp 65536)]];
    cbn [forallb]; rewrite ?andb_true_iff, ?N.ltb_lt;
    repeat split; try reflexivity; arith.
Qed.

Lemma encode_bytes (s : jsstring) :
  units s = true ->
  forallb (fun b => (b <? 256)%N) (Hash.encode s) = true.
Proof.
  remember (length s) as n eqn:Hn. revert s Hn.
  induction n as [n IH] using lt_wf_ind. intros s Hn Hs.
  destruct s as [|c s]; [reflexivity|].
  unfold units in Hs. cbn [forallb] in Hs.
  apply andb_prop in Hs as [Hc Hs]. apply N.ltb_lt in Hc.
  assert (Hrest : forallb (fun b => (b <? 256)%N) (Hash.encode s) = true)
    by (apply (IH (length s)); [subst n; simpl; lia|reflexivity|exact Hs]).
  cbn [Hash.encode].
  destruct (is_high_surrogate c) eqn:Hh.
  - destruct s as [|d s]; [reflexivity|].
    destruct (is_low_surrogate d) eqn:Hl.
    + rewrite forallb_app. apply andb_true_iff. split.
      * apply utf8_of_bytes.
        unfold is_high_surrogate, is_low_surrogate in *.
        apply andb_prop in Hh as [H1 H2]. apply andb_prop in Hl as [H3 H4].
        apply N.leb_le in H1, H2, H3, H4. lia.
      * cbn [forallb] in Hs. apply andb_prop in Hs as [_ Hs].
        apply (IH (length s)); [subst n; simpl; lia|reflexivity|exact Hs].
    + rewrite forallb_app, Hrest. reflexivity.
  - destruct (is_low_surrogate c).
    + rewrite forallb_app, Hrest. reflexivity.
    + rewrite forallb_app, Hrest, utf8_of_bytes by lia. reflexivity.
Qed.

(** X20.  No collision by one byte.  Two names whose normalized
    forms, in UTF-8, differ in one byte only (the bytes before it and
    after it are the same) never get the same artist id: each turn of
    the hash, an exclusive-or and a product with an odd prime cut to
    64 bits, is a permutation of the 64-bit numbers, and the text of
    base 36 spells the hash without loss. *)
Theorem one_byte_changes_the_id (normalize : jsstring -> jsstring)
    (a b : jsstring) (pre suf : list N) (b1 b2 : N) :
  units (normalize a) = true -> units (normalize b) = true ->
  Hash.encode (normalize a) = pre ++ b1 :: suf ->
  Hash.encode (normalize b) = pre ++ b2 :: suf ->
  b1 <> b2 ->
  Hash.deriveArtistId normalize a <> Hash.deriveArtistId normalize b.
Proof.
  intros Ua Ub Ea Eb Hne H.
  unfold Hash.deriveArtistId, Hash.fnv1a64 in H.
  apply app_inv_head in H.
  apply (f_equal value36) in H.
  rewrite !value36_toString36 in H by apply hash_of_range.
  pose proof (encode_bytes _ Ua) as Ba. pose proof (encode_bytes _ Ub) as Bb.
  rewrite Ea in *. rewrite Eb in *.
  rewrite forallb_app in Ba, Bb. cbn [forallb] in Ba, Bb.
  apply andb_prop in Ba as [_ Ba]. apply andb_prop in Ba as [B1 Bs].
  apply andb_prop in Bb as [_ Bb]. apply andb_prop in Bb as [B2 _].
  apply N.ltb_lt in B1, B2.
  unfold Hash.hash_of in H. rewrite !fold_left_app in H.
  cbn [fold_left] in H.
  apply fold_step_injective in H; try apply step_range; try exact Bs.
  apply step_injective_byte in H; try assumption.
  - contradiction.
  - apply fold_step_range. unfold Hash.FNV_OFFSET.
    change (2 ^ 64)%Z with 18446744073709551616%Z. lia.
Qed.

Lemma one_byte_changes_the_id_witness :
  Hash.deriveArtistId (fun s => s) (lit "ann")
  <> Hash.deriveArtistId (fun s => s) (lit "anz").
Proof.
  refine (one_byte_changes_the_id (fun s => s) (lit "ann") (lit "anz")
            [97; 110]%N [] 110%N 122%N eq_refl eq_refl eq_refl eq_refl _).
  discriminate.
Defined.

(* ================================================================== *)
(** ** Rows of a playlist                                             *)
(* ================================================================== *)

Lemma split_without_separator (a : jsstring) (h : N) (t : jsstring) :
  ~ In h a -> split a (h :: t) = [a].
Proof.
  induction a as [|c a IH]; intros Hin; [reflexivity|].
  rewrite split_cons_other.
  - rewrite IH; [reflexivity|]. intros H. apply Hin. now right.
  - simpl. destruct (N.eqb_spec h c) as [->|_]; [|reflexivity].
    exfalso. apply Hin. now left.
Qed.

(** Splitting what was joined gives the pieces back, when no piece
    holds the first unit of the separator. *)
Lemma split_join (ids : list jsstring) (h : N) (t : jsstring) :
  ids <> [] -> (forall i, In i ids -> ~ In h i) ->
  split (join ids (h :: t)) (h :: t) = ids.
Proof.
  induction ids as [|a ids IH]; intros Hne Hin; [contradiction|].
  destruct ids as [|b r].
  - apply split_without_separator. apply Hin. now left.
  - change (join (a :: b :: r) (h :: t))
      with (a ++ (h :: t) ++ join (b :: r) (h :: t)).
    rewrite split_prefix by (apply Hin; now left).
    rewrite IH; [reflexivity|discriminate|].
    intros i Hi. apply Hin. now right.
Qed.

Lemma join_nonempty (ids : list jsstring) (sep : jsstring) :
  ids <> [] -> ids <> [[]] -> nonempty sep = true ->
  nonempty (join ids sep) = true.
Proof.
  intros H1 H2 Hs. destruct ids as [|a [|b r]]; [contradiction| |].
  - destruct a; [contradiction|reflexivity].
  - cbn [join]. destruct a; [|reflexivity].
    destruct sep; [discriminate|reflexivity].
Qed.

(** X21.  The ids of a playlist, through the query.  The playlist
    queries pack the track ids of a playlist into one text, joined by
    commas in position order, and [rowToPlaylist] splits that text at
    the commas: the [trackIds] of the playlist are the ids of its
    rows, in position order, whenever no id holds a comma (an empty
    playlist has no text and no ids).  The one exception is a playlist
    whose only id is the empty string, which is read as empty. *)
Theorem playlist_row_ids (ids : list jsstring)
    (id name created updated : option jsstring) :
  (forall i, In i ids -> ~ In 44%N i) ->
  Playlist.trackIds
    (DbRows.rowToPlaylist
       (DbRows.mkPlaylistRow id name created updated
          (DbRows.group_concat ids)))
  = match ids with
    | [[]] => []
    | _ => ids
    end.
Proof.
  intros Hin. unfold DbRows.rowToPlaylist, DbRows.group_concat.
  cbn [DbRows.row_track_ids Playlist.trackIds].
  destruct ids as [|a r]; [reflexivity|].
  destruct (list_eq_dec (list_eq_dec N.eq_dec) (a :: r) [[]]) as [E|E].
  - injection E as -> ->. reflexivity.
  - cbn [if_some_truthy].
    rewrite (join_nonempty (a :: r) (lit ",")); [|discriminate|exact E|
                                                  reflexivity].
    change (lit ",") with (44%N :: []).
    rewrite split_join; [|discriminate|exact Hin].
    destruct a; [|reflexivity]. destruct r; [contradiction|reflexivity].
Qed.

Lemma playlist_row_ids_witness :
  Playlist.trackIds
    (DbRows.rowToPlaylist
       (DbRows.mkPlaylistRow (Some (lit "pl.mix")) (Some (lit "Mix")) None
          None (DbRows.group_concat [lit "track.3"; lit "track.1"])))
  = [lit "track.3"; lit "track.1"].
Proof.
  refine (playlist_row_ids [lit "track.3"; lit "track.1"]
            (Some (lit "pl.mix")) (Some (lit "Mix")) None None _).
  intros i [<-|[<-|[]]]; simpl; intuition discriminate.
Defined.

(* ================================================================== *)
(** ** Base64 for URLs                                                *)
(* ================================================================== *)

Lemma in_alphabet_below (c : N) : in_alphabet c = true -> (c < 123)%N.
Proof.
  unfold in_alphabet, val_of.
  destruct (N.leb_spec 65 c), (N.leb_spec c 90), (N.leb_spec 97 c),
    (N.leb_spec c 122), (N.leb_spec 48 c), (N.leb_spec c 57),
    (N.eqb_spec c 43), (N.eqb_spec c 47); cbn; intros; try lia;
    discriminate.
Qed.

Lemma below_listed (k : nat) (n : N) :
  (n < N.of_nat k)%N -> In n (map N.of_nat (seq 0 k)).
Proof.
  intros Hn. rewrite <- (N2Nat.id n). apply in_map. apply in_seq. lia.
Qed.

Lemma url_check_all (c : N) : url_check c = true.
Proof.
  destruct (in_alphabet c) eqn:E.
  - assert (Hall : forallb url_check (map N.of_nat (seq 0 123)) = true)
      by (vm_compute; reflexivity).
    rewrite forallb_forall in Hall. apply Hall.
    apply below_listed. apply in_alphabet_below in E. lia.
  - unfold url_check. now rewrite E.
Qed.

Lemma alphabet_char (c : N) :
  in_alphabet c = true ->
  negb (is_ascii_ws c) = true /\ (c =? pad)%N = false /\
  url_safe (if ((if (c =? 43) then 45 else c) =? 47)
            then 95 else (if (c =? 43) then 45 else c))%N = true /\
  (let e := (if ((if (c =? 43) then 45 else c) =? 47)
             then 95 else (if (c =? 43) then 45 else c))%N in
   let d := (if (e =? 45) then 43 else e)%N in
   (if (d =? 95) then 47 else d)%N) = c.
Proof.
  intros E. pose proof (url_check_all c) as H. unfold url_check in H.
  rewrite E in H. cbn [implb] in H.
  apply andb_prop in H as [H H4]. apply andb_prop in H as [H H3].
  apply andb_prop in H as [H1 H2].
  repeat split; try assumption.
  - now destruct (c =? pad)%N.
  - now apply N.eqb_eq in H4.
Qed.

(** [atob] also reads an encoding without its padding. *)
Lemma atob_unpadded (d : list N) :
  forallb in_alphabet d = true ->
  (length d mod 4 =? 1)%nat = false ->
  atob d = Some (decode d).
Proof.
  intros Hal Hm.
  assert (Hf : filter (fun c => negb (is_ascii_ws c)) d = d).
  { clear Hm. induction d as [|c d IH]; [reflexivity|].
    cbn [forallb] in Hal. apply andb_prop in Hal as [Hc Hal].
    cbn [filter]. rewrite (proj1 (alphabet_char c Hc)).
    now rewrite IH. }
  assert (Hp : strip_pad d = d).
  { clear Hm Hf. induction d as [|c d IH]; [reflexivity|].
    cbn [forallb] in Hal. apply andb_prop in Hal as [Hc Hal].
    cbn [strip_pad].
    rewrite (proj1 (proj2 (alphabet_char c Hc))). cbn [andb].
    now rewrite IH. }
  unfold atob. rewrite Hf. cbv zeta.
  destruct (length d mod 4 =? 0)%nat; rewrite ?Hp, Hm, Hal; reflexivity.
Qed.

Lemma strip_trailing_cons (c : N) (s : jsstring) :
  (c =? 61)%N = false ->
  Base64Url.strip_trailing (c :: s) = c :: Base64Url.strip_trailing s.
Proof.
  intros Hc. cbn [Base64Url.strip_trailing]. rewrite Hc.
  now destruct (Base64Url.strip_trailing s).
Qed.

Lemma strip_trailing_map (f : N -> N) (s : jsstring) :
  (forall c, (f c =? 61)%N = (c =? 61)%N) ->
  Base64Url.strip_trailing (map f s) = map f (Base64Url.strip_trailing s).
Proof.
  intros Hf. induction s as [|c s IH]; [reflexivity|].
  cbn [map Base64Url.strip_trailing]. rewrite IH, Hf.
  destruct (Base64Url.strip_trailing s); cbn [map]; [|reflexivity].
  now destruct (c =? 61)%N.
Qed.

(** On an encoding, the trailing equals signs are its padding. *)
Lemma strip_trailing_encode (s : jsstring) :
  latin1 s = true ->
  Base64Url.strip_trailing (encode s) = strip_pad (encode s).
Proof.
  induction s as [|a|a b|a b c s IH] using list_ind3; intros Hs.
  - reflexivity.
  - apply latin1_cons in Hs as [Ha _].
    assert (H1 : (a / 4 < 64)%N) by arith.
    assert (H2 : (a mod 4 * 16 < 64)%N) by arith.
    cbn [encode].
    rewrite !strip_pad_cons by assumption.
    rewrite !strip_trailing_cons by (now apply not_pad_char_of).
    reflexivity.
  - apply latin1_cons in Hs as [Ha Hs]. apply latin1_cons in Hs as [Hb _].
    assert (H1 : (a / 4 < 64)%N) by arith.
    assert (H2 : (a mod 4 * 16 + b / 16 < 64)%N) by arith.
    assert (H3 : (b mod 16 * 4 < 64)%N) by arith.
    cbn [encode].
    rewrite !strip_pad_cons by assumption.
    rewrite !strip_trailing_cons by (now apply not_pad_char_of).
    reflexivity.
  - apply latin1_cons in Hs as [Ha Hs]. apply latin1_cons in Hs as [Hb Hs].
    apply latin1_cons in Hs as [Hc Hs].
    assert (H1 : (a / 4 < 64)%N) by arith.
    assert (H2 : (a mod 4 * 16 + b / 16 < 64)%N) by arith.
    assert (H3 : (b mod 16 * 4 + c / 64 < 64)%N) by arith.
    assert (H4 : (c mod 64 < 64)%N) by arith.
    cbn [encode].
    rewrite !strip_pad_cons by assumption.
    rewrite !strip_trailing_cons by (now apply not_pad_char_of).
    now rewrite IH.
Qed.

Lemma url_alphabet (d : list N) :
  forallb in_alphabet d = true ->
  forallb url_safe
    (Base64Url.replace_all 47 95 (Base64Url.replace_all 43 45 d)) = true /\
  Base64Url.replace_all 95 47
    (Base64Url.replace_all 45 43
       (Base64Url.replace_all 47 95 (Base64Url.replace_all 43 45 d))) = d.
Proof.
  unfold Base64Url.replace_all. induction d as [|c d IH]; intros Hal.
  - split; reflexivity.
  - cbn [forallb] in Hal. apply andb_prop in Hal as [Hc Hal].
    destruct (IH Hal) as [IH1 IH2].
    destruct (alphabet_char c Hc) as (_ & _ & Hu & Hr).
    cbn [map forallb]. rewrite Hu, IH1, IH2. cbv zeta in Hr.
    rewrite Hr. split; reflexivity.
Qed.

Lemma base64url_text (bytes : list N) :
  latin1 bytes = true ->
  Base64Url.strip_trailing
    (Base64Url.replace_all 47 95 (Base64Url.replace_all 43 45 (encode bytes)))
  = Base64Url.replace_all 47 95
      (Base64Url.replace_all 43 45 (strip_pad (encode bytes))).
Proof.
  intros Hb. unfold Base64Url.replace_all.
  rewrite !strip_trailing_map
    by (intros c; destruct (N.eqb_spec c 43), (N.eqb_spec c 47),
          (N.eqb_spec c 61); subst; try reflexivity; try lia;
        now apply N.eqb_neq).
  now rewrite (strip_trailing_encode bytes Hb).
Qed.

(** X22.  Base64 for URLs, there and back.  For every byte array,
    [base64urlEncode] returns a text of letters, digits, [-] and [_]
    only (so no [+], [/], [=] and no dot, the separator of the two
    halves of a session token), and [base64urlDecode] reads that text
    back to the same bytes, although the padding is gone. *)
Theorem base64url_round_trip (bytes : list N) :
  latin1 bytes = true ->
  exists text,
    Base64Url.base64urlEncode bytes = Some text /\
    forallb url_safe text = true /\
    Base64Url.base64urlDecode text = Some bytes.
Proof.
  intros Hb. destruct (encode_facts bytes Hb) as (_ & _ & Hm & Hal & Hd).
  unfold Base64Url.base64urlEncode, Base64Url.base64urlDecode.
  rewrite (btoa_latin1 bytes Hb), (base64url_text bytes Hb).
  eexists. split; [reflexivity|].
  destruct (url_alphabet _ Hal) as [Hu Hr].
  split; [exact Hu|]. cbv zeta. rewrite Hr.
  rewrite (atob_unpadded _ Hal Hm). now rewrite Hd.
Qed.

Lemma base64url_round_trip_witness :
  latin1 [251; 255; 190]%N = true /\
  exists text,
    Base64Url.base64urlEncode [251; 255; 190]%N = Some text /\
    forallb url_safe text = true /\
    Base64Url.base64urlDecode text = Some [251; 255; 190]%N.
Proof.
  split; [reflexivity|].
  apply (base64url_round_trip [251; 255; 190]%N). reflexivity.
Defined.

(* ================================================================== *)
(** ** Cover art from a data URL                                      *)
(* ================================================================== *)

Lemma until_semicolon_app (m rest : jsstring) :
  ~ In 59%N m -> SaveArt.until_semicolon (m ++ 59%N :: rest) = m.
Proof.
  induction m as [|c m IH]; intros Hin; [reflexivity|].
  cbn [app SaveArt.until_semicolon].
  destruct (N.eqb_spec c 59) as [->|_].
  - exfalso. apply Hin. now left.
  - rewrite IH; [reflexivity|]. intros H. apply Hin. now right.
Qed.

Lemma match_mime_declared (m rest : jsstring) :
  m <> [] -> ~ In 59%N m ->
  SaveArt.match_mime (lit "data:" ++ m ++ 59%N :: rest) = Some m.
Proof.
  intros Hne Hin.
  change (lit "data:" ++ m ++ 59%N :: rest)
    with (100%N :: (lit "ata:" ++ m ++ 59%N :: rest)).
  cbn [SaveArt.match_mime].
  change (100%N :: (lit "ata:" ++ m ++ 59%N :: rest))
    with (lit "data:" ++ m ++ 59%N :: rest).
  rewrite startsWith_app.
  change (skipn 5 (lit "data:" ++ m ++ 59%N :: rest))
    with (m ++ 59%N :: rest).
  rewrite (until_semicolon_app m rest Hin).
  destruct m; [contradiction|reflexivity].
Qed.

(** X23.  Cover art from a data URL.  For a data URL
    [data:<mime>;<parameters>,<base64>] whose mime type is not empty
    and holds no semicolon, where neither part holds a comma and the
    base64 text is not empty and accepted by [atob], [saveArt] calls
    [r2.put] once, with the key [art/<trackId>.jpg] (whatever the
    mime type), the decoded bytes and the declared mime type. *)
Theorem saveArt_stores (trackId m params b64 bytes : jsstring) :
  m <> [] -> ~ In 59%N m -> ~ In 44%N m -> ~ In 44%N params ->
  b64 <> [] -> ~ In 44%N b64 -> atob b64 = Some bytes ->
  SaveArt.saveArt trackId
    (Some (lit "data:" ++ m ++ 59%N :: params ++ 44%N :: b64))
  = Ok (Some (SaveArt.mkPut (lit "art/" ++ trackId ++ lit ".jpg")
                bytes m)).
Proof.
  intros Hm H59 H44 Hp Hb Hb44 Hat.
  set (header := lit "data:" ++ m ++ 59%N :: params).
  assert (Hh : ~ In 44%N header).
  { unfold header. rewrite !in_app_iff. cbn [In].
    intros [H|[H|[H|H]]]; try contradiction; try discriminate.
    simpl in H. intuition discriminate. }
  assert (E : lit "data:" ++ m ++ 59%N :: params ++ 44%N :: b64
              = join [header; b64] (44%N :: [])).
  { unfold header. cbn [join]. rewrite <- !app_assoc. cbn [app].
    repeat f_equal. }
  unfold SaveArt.saveArt. rewrite E.
  change (lit ",") with (44%N :: []).
  change (if_some_truthy (Some (join [header; b64] [44%N])))
    with (Some (join [header; b64] [44%N])).
  cbv iota beta.
  assert (Hinc : includes (join [header; b64] [44%N]) [44%N] = true).
  { cbn [join]. apply includes_app_sep. }
  rewrite Hinc. cbn [negb].
  rewrite split_join;
    [|discriminate|intros i [<-|[<-|[]]]; assumption].
  change (at_index [header; b64] 1) with (Some b64).
  change (at_index [header; b64] 0) with (Some header).
  destruct b64 as [|c b64]; [contradiction|]. cbn [if_some_truthy nonempty].
  unfold header. rewrite startsWith_app. cbn [negb].
  rewrite (match_mime_declared m params Hm H59), Hat. reflexivity.
Qed.

Lemma saveArt_stores_witness :
  SaveArt.saveArt (lit "track.7")
    (Some (lit "data:" ++ lit "image/png" ++ 59%N :: lit "base64"
             ++ 44%N :: lit "iVBORw=="))
  = Ok (Some (SaveArt.mkPut (lit "art/" ++ lit "track.7" ++ lit ".jpg")
                [137; 80; 78; 71]%N (lit "image/png"))).
Proof.
  apply (saveArt_stores (lit "track.7") (lit "image/png") (lit "base64")
           (lit "iVBORw==") [137; 80; 78; 71]%N);
    try discriminate; try reflexivity;
    simpl; intuition discriminate.
Defined.

(* ================================================================== *)
(** ** Writes of the storage                                          *)
(* ================================================================== *)

Lemma has_track_In (db : Db.t) (i : jsstring) :
  DbWrite.has_track db i = true <-> In i (map Track.id (Db.tracks db)).
Proof.
  unfold DbWrite.has_track. rewrite existsb_exists, in_map_iff.
  split; intros (tr & H1 & H2).
  - apply str_eqb_eq in H2. eauto.
  - exists tr. split; [assumption|]. now apply str_eqb_eq.
Qed.

Lemma has_playlist_In (db : Db.t) (i : jsstring) :
  DbWrite.has_playlist db i = true <-> In i (map Playlist.id (Db.playlists db)).
Proof.
  unfold DbWrite.has_playlist. rewrite existsb_exists, in_map_iff.
  split; intros (pl & H1 & H2).
  - apply str_eqb_eq in H2. eauto.
  - exists pl. split; [assumption|]. now apply str_eqb_eq.
Qed.

Lemma has_artist_In (db : Db.t) (i : jsstring) :
  DbWrite.has_artist db i = true <-> In i (map Artist.id (Db.artists db)).
Proof.
  unfold DbWrite.has_artist. rewrite existsb_exists, in_map_iff.
  split; intros (a & H1 & H2).
  - apply str_eqb_eq in H2. eauto.
  - exists a. split; [assumption|]. now apply str_eqb_eq.
Qed.

Lemma has_track_getTrack (db : Db.t) (i : jsstring) :
  DbWrite.has_track db i = true ->
  exists tr, Db.getTrack db i = Some tr /\ Track.id tr = i.
Proof.
  intros H. unfold DbWrite.has_track in H. apply existsb_exists in H.
  destruct H as (tr0 & Hin & He).
  destruct (Db.getTrack db i) as [tr|] eqn:E.
  - exists tr. split; [reflexivity|]. now apply getTrack_id in E.
  - unfold Db.getTrack in E.
    pose proof (find_none _ _ E tr0 Hin) as Hn. cbv beta in Hn. congruence.
Qed.

Lemma getTrack_has_track (db : Db.t) (i : jsstring) (tr : Track.t) :
  Db.getTrack db i = Some tr -> DbWrite.has_track db i = true.
Proof.
  intros H. apply has_track_In. apply in_map_iff. exists tr.
  split; [now apply getTrack_id in H|now apply getTrack_In in H].
Qed.

Lemma In_insert_at {A : Type} (pos : nat) (x y : A) (l : list A) :
  In y (DbWrite.insert_at pos x l) <-> y = x \/ In y l.
Proof.
  unfold DbWrite.insert_at. rewrite in_app_iff. cbn [In].
  rewrite <- (firstn_skipn pos l) at 3. rewrite in_app_iff.
  intuition congruence.
Qed.

Lemma NoDup_insert_at {A B : Type} (f : A -> B) (pos : nat) (x : A)
    (l : list A) :
  NoDup (map f l) -> ~ In (f x) (map f l) ->
  NoDup (map f (DbWrite.insert_at pos x l)).
Proof.
  unfold DbWrite.insert_at. intros Hn Hx.
  rewrite <- (firstn_skipn pos l) in Hn, Hx.
  rewrite map_app in *. cbn [map].
  apply NoDup_Add with (a := f x) (l := map f (firstn pos l)
                                           ++ map f (skipn pos l)).
  - apply Add_app.
  - split; assumption.
Qed.

Lemma unique_keys_filter {A : Type} (key : A -> jsstring) (keep : A -> bool)
    (rows : list A) :
  NoDup (map key rows) -> NoDup (map key (filter keep rows)).
Proof.
  intros H. induction rows as [|a rows IH]; [constructor|].
  cbn [map] in H. inversion H as [|? ? Hn Hd]; subst.
  cbn [filter]. destruct (keep a); [|now apply IH].
  cbn [map]. constructor; [|now apply IH].
  intros Hin. apply Hn. apply in_map_iff in Hin as (y & Hy & Hiny).
  apply filter_In in Hiny as [Hiny _]. apply in_map_iff. eauto.
Qed.

(** What the loop writes: the kept ids behind the rows, unless a
    kept id is there already. *)
Lemma insert_rows_spec (valid ids rows : list jsstring) :
  let keep := fun i => nonempty i && existsb (str_eqb i) valid in
  (NoDup rows -> NoDup (rows ++ filter keep ids) ->
   DbWrite.insert_rows valid ids rows = Ok (rows ++ filter keep ids)) /\
  (forall out, DbWrite.insert_rows valid ids rows = Ok out ->
     out = rows ++ filter keep ids /\ (NoDup rows -> NoDup out)).
Proof.
  cbv zeta. revert rows. induction ids as [|i ids IH]; intros rows.
  - cbn [DbWrite.insert_rows filter]. rewrite app_nil_r. split.
    + reflexivity.
    + intros out [= <-]. auto.
  - cbn [DbWrite.insert_rows filter].
    destruct (nonempty i); cbn [negb orb andb]; [|apply IH].
    destruct (existsb (str_eqb i) valid); cbn [negb]; [|apply IH].
    destruct (existsb (str_eqb i) rows) eqn:E.
    + split; [|discriminate].
      intros _ Hn. exfalso.
      apply existsb_exists in E as (r & Hr & He).
      apply str_eqb_eq in He. subst r.
      apply NoDup_remove_2 in Hn. apply Hn. apply in_app_iff. now left.
    + assert (Hi : ~ In i rows).
      { intros Hin. apply not_true_iff_false in E. apply E.
        apply existsb_exists. exists i. split; [assumption|].
        apply str_eqb_refl. }
      assert (Ha : (rows ++ [i]) ++ filter
                 (fun i0 => nonempty i0 && existsb (str_eqb i0) valid) ids
                 = rows ++ i :: filter
                 (fun i0 => nonempty i0 && existsb (str_eqb i0) valid) ids)
        by (now rewrite <- app_assoc).
      destruct (IH (rows ++ [i])) as [IH1 IH2]. rewrite Ha in IH1, IH2.
      split.
      * intros Hr Hn. apply IH1; [|assumption].
        apply NoDup_app_remove_r with
          (l' := filter (fun i0 => nonempty i0 && existsb (str_eqb i0) valid)
                   ids).
        now rewrite Ha.
      * intros out Ho. destruct (IH2 out Ho) as [-> Hn].
        split; [reflexivity|]. intros Hr. rewrite <- Ha. rewrite <- Ha in Hn.
        apply Hn.
        apply NoDup_Add with (a := i) (l := rows);
          [|split; assumption].
        rewrite <- (app_nil_r rows) at 1. apply Add_app.
Qed.

Lemma existsb_str_In (i : jsstring) (l : list jsstring) :
  existsb (str_eqb i) l = true <-> In i l.
Proof.
  rewrite existsb_exists. split.
  - intros (x & Hx & He). apply str_eqb_eq in He. now subst.
  - intros H. exists i. split; [assumption|apply str_eqb_refl].
Qed.

Lemma bool_iff (a b : bool) : (a = true <-> b = true) -> a = b.
Proof. destruct a, b; intuition congruence. Qed.

Lemma kept_of_valid (db : Db.t) (ids : list jsstring) :
  filter (fun i => nonempty i &&
            existsb (str_eqb i)
              (filter (fun j => existsb (str_eqb j) ids)
                      (map Track.id (Db.tracks db))))
         ids
  = kept db ids.
Proof.
  unfold kept. apply filter_ext_in. intros i Hi. f_equal.
  apply bool_iff. rewrite existsb_str_In, filter_In, has_track_In.
  rewrite existsb_str_In. tauto.
Qed.

(** The rows that [createPlaylist] and [updatePlaylist] write. *)
Lemma new_rows_spec (accepts : nat -> bool) (db : Db.t)
    (ids : list jsstring) :
  (forall out, DbWrite.new_rows accepts db ids = Ok out ->
     out = kept db ids /\ NoDup out /\
     (ids = [] \/ accepts (length ids) = true)) /\
  (ids = [] \/ accepts (length ids) = true ->
   NoDup (kept db ids) ->
   DbWrite.new_rows accepts db ids = Ok (kept db ids)).
Proof.
  unfold DbWrite.new_rows, DbWrite.validIds.
  destruct ids as [|i ids].
  - split.
    + intros out [= <-]. repeat split; [constructor|now left].
    + reflexivity.
  - destruct (accepts (length (i :: ids))) eqn:Ea.
    + set (valid := filter _ _).
      destruct (insert_rows_spec valid (i :: ids) []) as [H1 H2].
      cbn [app] in H1, H2. unfold valid in H1, H2.
      rewrite kept_of_valid in H1, H2. split.
      * intros out Ho. destruct (H2 out Ho) as [-> Hn].
        repeat split; [apply Hn; constructor|now right].
      * intros _ Hn. apply H1; [constructor|assumption].
    + split; [discriminate|]. intros [H|H]; discriminate.
Qed.

Lemma kept_entries (db : Db.t) (ids : list jsstring) :
  Forall (fun i => nonempty i = true /\ DbWrite.has_track db i = true)
         (kept db ids).
Proof.
  apply Forall_forall. intros i Hi. unfold kept in Hi.
  apply filter_In in Hi as [_ Hi]. now apply andb_prop in Hi.
Qed.

(** *** The invariant *)

Lemma entries_ok_tracks (db db' : Db.t) (pl : Playlist.t) :
  (forall i, DbWrite.has_track db i = true ->
             DbWrite.has_track db' i = true) ->
  entries_ok db pl -> entries_ok db' pl.
Proof.
  intros Hm [Hn Hf]. split; [assumption|].
  eapply Forall_impl; [|exact Hf]. intros i [H1 H2]. auto.
Qed.

Lemma integrity_set_artists (db : Db.t) (l : list Artist.t) :
  integrity db -> NoDup (map Artist.id l) ->
  integrity (DbWrite.set_artists db l).
Proof.
  intros (H1 & H2 & H3 & H4) Hl. repeat split; try assumption.
Qed.

Lemma integrity_insert_or_ignore (db : Db.t) (a : Artist.t) :
  integrity db -> integrity (DbWrite.insert_or_ignore db a).
Proof.
  intros H. unfold DbWrite.insert_or_ignore.
  destruct (DbWrite.has_artist db (Artist.id a)) eqn:E; [assumption|].
  apply integrity_set_artists; [assumption|].
  rewrite map_app. cbn [map].
  apply NoDup_Add with (a := Artist.id a) (l := map Artist.id (Db.artists db)).
  - rewrite <- (app_nil_r (map Artist.id (Db.artists db))) at 1.
    apply Add_app.
  - split; [apply H|]. intros Hin. apply has_artist_In in Hin. congruence.
Qed.

Lemma integrity_same_ids (db : Db.t) (l : list Track.t) :
  integrity db -> map Track.id l = map Track.id (Db.tracks db) ->
  integrity (DbWrite.set_tracks db l).
Proof.
  intros (H1 & H2 & H3 & H4) Hl.
  assert (Hh : forall i, DbWrite.has_track db i = true ->
                         DbWrite.has_track (DbWrite.set_tracks db l) i = true).
  { intros i Hi. apply has_track_In. cbn. rewrite Hl.
    now apply has_track_In. }
  repeat split; cbn; try assumption.
  - now rewrite Hl.
  - eapply Forall_impl; [|exact H4]. intros pl. now apply entries_ok_tracks.
Qed.

Lemma map_id_update (p : Track.t -> bool) (f : Track.t -> Track.t)
    (l : list Track.t) :
  (forall tr, Track.id (f tr) = Track.id tr) ->
  map Track.id (map (fun tr => if p tr then f tr else tr) l)
  = map Track.id l.
Proof.
  intros Hf. rewrite map_map. apply map_ext. intros tr.
  destruct (p tr); [apply Hf|reflexivity].
Qed.

Lemma integrity_new_track (db : Db.t) (tr : Track.t) (pos : nat) :
  integrity db -> DbWrite.has_track db (Track.id tr) = false ->
  integrity (DbWrite.set_tracks db (DbWrite.insert_at pos tr (Db.tracks db))).
Proof.
  intros (H1 & H2 & H3 & H4) Hf. repeat split; cbn; try assumption.
  - apply NoDup_insert_at; [assumption|].
    intros Hin. apply has_track_In in Hin. congruence.
  - eapply Forall_impl; [|exact H4]. intros pl.
    apply entries_ok_tracks. intros i Hi.
    apply has_track_In. cbn. apply has_track_In in Hi.
    apply in_map_iff in Hi as (x & Hx & Hin). apply in_map_iff.
    exists x. split; [assumption|]. apply In_insert_at. now right.
Qed.

Lemma integrity_without_track (db : Db.t) (id : jsstring) :
  integrity db ->
  integrity
    (Db.mk
       (filter (fun x => negb (str_eqb (Track.id x) id)) (Db.tracks db))
       (map (fun pl =>
               Playlist.mk (Playlist.id pl) (Playlist.name pl)
                 (filter (fun x => negb (str_eqb x id)) (Playlist.trackIds pl))
                 (Playlist.createdAt pl) (Playlist.updatedAt pl))
            (Db.playlists db))
       (Db.artists db) (Db.like db)).
Proof.
  intros (H1 & H2 & H3 & H4). repeat split; cbn [Db.tracks Db.playlists
                                                   Db.artists].
  - now apply unique_keys_filter.
  - rewrite map_map. cbn [Playlist.id]. exact H2.
  - exact H3.
  - apply Forall_forall. intros pl' Hin.
    apply in_map_iff in Hin as (pl & <- & Hin).
    rewrite Forall_forall in H4. destruct (H4 pl Hin) as [Hn Hf].
    split; cbn [Playlist.trackIds].
    + now apply NoDup_filter.
    + apply Forall_forall. intros i Hi. apply filter_In in Hi as [Hi Hne].
      rewrite Forall_forall in Hf. destruct (Hf i Hi) as [Hi1 Hi2].
      split; [assumption|]. apply has_track_In. cbn [Db.tracks].
      apply has_track_In in Hi2.
      apply in_map_iff in Hi2 as (x & Hx & Hinx). apply in_map_iff.
      exists x. split; [assumption|]. apply filter_In.
      split; [assumption|]. now rewrite Hx.
Qed.

Lemma integrity_new_playlist (db : Db.t) (pl : Playlist.t) (pos : nat) :
  integrity db -> DbWrite.has_playlist db (Playlist.id pl) = false ->
  entries_ok db pl ->
  integrity
    (DbWrite.set_playlists db (DbWrite.insert_at pos pl (Db.playlists db))).
Proof.
  intros (H1 & H2 & H3 & H4) Hf Hpl. repeat split; cbn; try assumption.
  - apply NoDup_insert_at; [assumption|].
    intros Hin. apply has_playlist_In in Hin. congruence.
  - apply Forall_forall. intros p Hp. apply In_insert_at in Hp as [->|Hp].
    + exact Hpl.
    + rewrite Forall_forall in H4. now apply H4.
Qed.

Lemma integrity_update_playlist (db : Db.t) (id : jsstring)
    (f : Playlist.t -> Playlist.t) :
  integrity db ->
  (forall pl, Playlist.id (f pl) = Playlist.id pl) ->
  (forall pl, entries_ok db pl -> entries_ok db (f pl)) ->
  integrity
    (DbWrite.set_playlists db
       (map (fun pl => if str_eqb (Playlist.id pl) id then f pl else pl)
            (Db.playlists db))).
Proof.
  intros (H1 & H2 & H3 & H4) Hid Hf. repeat split; cbn; try assumption.
  - rewrite map_map.
    rewrite (map_ext _ Playlist.id); [assumption|].
    intros pl. destruct (str_eqb (Playlist.id pl) id); [apply Hid|reflexivity].
  - apply Forall_forall. intros p Hp.
    apply in_map_iff in Hp as (pl & <- & Hin).
    rewrite Forall_forall in H4. specialize (H4 pl Hin).
    destruct (str_eqb (Playlist.id pl) id); [now apply Hf|assumption].
Qed.

Lemma integrity_without_playlist (db : Db.t) (id : jsstring) :
  integrity db ->
  integrity
    (DbWrite.set_playlists db
       (filter (fun p => negb (str_eqb (Playlist.id p) id))
               (Db.playlists db))).
Proof.
  intros (H1 & H2 & H3 & H4). repeat split; cbn; try assumption.
  - now apply unique_keys_filter.
  - apply Forall_forall. intros p Hp. apply filter_In in Hp as [Hp _].
    rewrite Forall_forall in H4. now apply H4.
Qed.

Lemma integrity_ensureArtist (normalize : jsstring -> jsstring)
    (st : DbWrite.t) (name : jsstring) :
  integrity (DbWrite.live st) ->
  integrity (DbWrite.live (snd (DbWrite.ensureArtist normalize st name))).
Proof. intros H. cbn. now apply integrity_insert_or_ignore. Qed.

(** X24.  The invariant of the storage.  Every write method of the
    storage ([ensureArtist], [createArtist], [updateArtist],
    [archiveArtist], [addTrack], [updateTrack], [archiveTrack],
    [createPlaylist], [updatePlaylist], [archivePlaylist]), with any
    arguments, whether it returns or raises, leaves the tables in
    order when they were: the ids of tracks, playlists and artists
    are unique, no playlist holds a track twice, and every entry of a
    playlist is the non-empty id of a stored track.  So a playlist
    never holds an id that does not resolve. *)
Theorem writes_keep_integrity (normalize : jsstring -> jsstring)
    (accepts : nat -> bool) (st st' : DbWrite.t) :
  integrity (DbWrite.live st) ->
  write normalize accepts st st' ->
  integrity (DbWrite.live st').
Proof.
  intros Hi Hw.
  destruct Hw as [st name|st name keywords|st id name keywords|st id
                 |st track pos|st id fields|st id pos
                 |st id name trackIds now pos|st id name trackIds now
                 |st id pos].
  - now apply integrity_ensureArtist.
  - cbn. now apply integrity_insert_or_ignore.
  - unfold DbWrite.updateArtist.
    assert (Hu : forall f : Artist.t -> Artist.t,
               (forall a, Artist.id (f a) = Artist.id a) ->
               integrity
                 (DbWrite.set_artists (DbWrite.live st)
                    (map (fun a => if str_eqb (Artist.id a) id
                                   then f a else a)
                         (Db.artists (DbWrite.live st))))).
    { intros f Hf. apply integrity_set_artists; [assumption|].
      rewrite map_map. rewrite (map_ext _ Artist.id); [apply Hi|].
      intros a. destruct (str_eqb (Artist.id a) id); [apply Hf|reflexivity]. }
    destruct name, keywords; cbn [snd DbWrite.live DbWrite.with_live];
      try assumption; apply (Hu (fun a => Artist.mk _ _ _)); reflexivity.
  - unfold DbWrite.archiveArtist. cbn [snd DbWrite.live DbWrite.with_live].
    apply integrity_set_artists.
    + apply integrity_same_ids.
      * now apply integrity_insert_or_ignore.
      * apply (map_id_update _ (fun tr => Track.mk _ _ _ _ _ _ _)).
        reflexivity.
    + apply unique_keys_filter. cbn [DbWrite.set_tracks Db.artists].
      now apply integrity_insert_or_ignore.
  - unfold DbWrite.addTrack.
    pose proof (integrity_ensureArtist normalize st (Track.artist track) Hi)
      as H1.
    destruct (DbWrite.has_track _ (Track.id track)) eqn:E;
      cbn [snd]; [assumption|].
    cbn [DbWrite.live DbWrite.with_live]. now apply integrity_new_track.
  - unfold DbWrite.updateTrack.
    set (st1 := match DbWrite.f_artist fields with
                | Some a => snd (DbWrite.ensureArtist normalize st a)
                | None => st
                end).
    assert (H1 : integrity (DbWrite.live st1)).
    { unfold st1. destruct (DbWrite.f_artist fields);
        [now apply integrity_ensureArtist|assumption]. }
    assert (Hu : integrity
       (DbWrite.set_tracks (DbWrite.live st1)
          (map (fun tr => if str_eqb (Track.id tr) id
             then Track.mk (Track.id tr)
                    match DbWrite.f_title fields with
                    | Some x => x | None => Track.title tr end
                    match DbWrite.f_artist fields with
                    | Some a => a | None => Track.artist tr end
                    match DbWrite.f_artist fields with
                    | Some a => Hash.deriveArtistId normalize a
                    | None => Track.artistId tr end
                    match DbWrite.f_album fields with
                    | Some x => x | None => Track.album tr end
                    (Track.duration tr) (Track.addedAt tr)
             else tr) (Db.tracks (DbWrite.live st1))))).
    { apply integrity_same_ids; [assumption|].
      apply (map_id_update _ (fun tr => Track.mk _ _ _ _ _ _ _)).
      reflexivity. }
    destruct (DbWrite.f_title fields), (DbWrite.f_artist fields),
      (DbWrite.f_album fields); cbn [snd DbWrite.live DbWrite.with_live];
      assumption.
  - unfold DbWrite.archiveTrack.
    destruct (Db.getTrack (DbWrite.live st) id); cbn [snd DbWrite.live];
      [|assumption].
    now apply integrity_without_track.
  - unfold DbWrite.createPlaylist.
    destruct (DbWrite.has_playlist (DbWrite.live st) id) eqn:E;
      cbn [snd]; [assumption|].
    destruct (DbWrite.new_rows accepts (DbWrite.live st) trackIds)
      as [out|] eqn:En; cbn [snd]; [|assumption].
    cbn [DbWrite.live DbWrite.with_live].
    destruct (proj1 (new_rows_spec accepts _ trackIds) out En)
      as (-> & Hn & _).
    apply integrity_new_playlist; [assumption|exact E|].
    split; [exact Hn|apply kept_entries].
  - unfold DbWrite.updatePlaylist.
    destruct (DbWrite.has_playlist (DbWrite.live st) id) eqn:E;
      cbn [negb snd]; [|assumption].
    destruct trackIds as [ids|].
    + destruct (DbWrite.new_rows accepts (DbWrite.live st) ids)
        as [out|] eqn:En; cbn [snd]; [|assumption].
      cbn [DbWrite.live DbWrite.with_live].
      destruct (proj1 (new_rows_spec accepts _ ids) out En)
        as (-> & Hn & _).
      apply (integrity_update_playlist _ id
               (fun pl => Playlist.mk _ _ _ _ _)); [assumption|reflexivity|].
      intros pl _. split; [exact Hn|apply kept_entries].
    + cbn [snd DbWrite.live DbWrite.with_live].
      apply (integrity_update_playlist _ id
               (fun pl => Playlist.mk _ _ _ _ _)); [assumption|reflexivity|].
      intros pl H. exact H.
  - unfold DbWrite.archivePlaylist.
    destruct (Db.getPlaylist (DbWrite.live st) id); cbn [snd DbWrite.live];
      [|assumption].
    now apply integrity_without_playlist.
Qed.

Lemma integrity_demo : integrity Demo.db.
Proof.
  unfold integrity, entries_ok. cbn.
  repeat split;
    repeat (first [apply NoDup_nil | apply NoDup_cons
                  | apply Forall_nil | apply Forall_cons | split]);
    try reflexivity; cbv; intuition discriminate.
Qed.

Lemma writes_keep_integrity_witness :
  integrity
    (DbWrite.live
       (snd (DbWrite.archiveTrack (DbWrite.mk Demo.db [] [])
               (lit "track.3") 0))).
Proof.
  apply (writes_keep_integrity (fun s => s) (fun _ => true)
           (DbWrite.mk Demo.db [] [])).
  - exact integrity_demo.
  - apply write_archiveTrack.
Defined.

(** *** Reading back *)

Lemma find_insert_at_other {A : Type} (p : A -> bool) (pos : nat) (x : A)
    (l : list A) :
  p x = false -> find p (DbWrite.insert_at pos x l) = find p l.
Proof.
  intros Hx. unfold DbWrite.insert_at. revert pos.
  induction l as [|a l IH]; intros pos.
  - rewrite firstn_nil, skipn_nil. cbn. now rewrite Hx.
  - destruct pos as [|pos].
    + cbn [firstn skipn app find]. now rewrite Hx.
    + cbn [firstn skipn app find]. destruct (p a); [reflexivity|apply IH].
Qed.

Lemma find_insert_at_fresh {A : Type} (p : A -> bool) (pos : nat) (x : A)
    (l : list A) :
  p x = true -> existsb p l = false ->
  find p (DbWrite.insert_at pos x l) = Some x.
Proof.
  intros Hx. unfold DbWrite.insert_at. revert pos.
  induction l as [|a l IH]; intros pos Hl.
  - rewrite firstn_nil, skipn_nil. cbn. now rewrite Hx.
  - cbn [existsb] in Hl. apply orb_false_iff in Hl as [Ha Hl].
    destruct pos as [|pos].
    + cbn [firstn skipn app find]. now rewrite Hx.
    + cbn [firstn skipn app find]. rewrite Ha. now apply IH.
Qed.

(** The join of entries that all are ids of stored tracks drops
    nothing. *)
Lemma resolved_entries (db : Db.t) (ids : list jsstring) (k : nat) :
  Forall (fun i => DbWrite.has_track db i = true) ids ->
  map Track.id
    (flat_map (fun i => match Db.getTrack db i with
                        | Some tr => [tr]
                        | None => []
                        end) ids) = ids /\
  nth_error
    (flat_map (fun i => match Db.getTrack db i with
                        | Some tr => [tr]
                        | None => []
                        end) ids) k
  = match nth_error ids k with
    | Some i => Db.getTrack db i
    | None => None
    end.
Proof.
  revert k. induction ids as [|i ids IH]; intros k H.
  - split; [reflexivity|]. now destruct k.
  - inversion H as [|? ? Hi Hr]; subst.
    destruct (has_track_getTrack db i Hi) as (tr & Hg & Hid).
    cbn [flat_map]. rewrite Hg. cbn [app map]. split.
    + rewrite Hid. f_equal. apply (IH 0%nat Hr).
    + destruct k as [|k]; [now cbn; rewrite Hg|]. cbn [nth_error].
      apply (IH k Hr).
Qed.

(** X25.  Creating a playlist, and reading it back.  [createPlaylist]
    returns exactly the ids of the list that are not empty and are
    ids of stored tracks, in the order of the list; it returns only
    when the playlist id is new, the list is empty or within the
    number of parameters the engine takes, and no kept id is listed
    twice.  Then [getPlaylist] of the new id gives the playlist with
    these ids and both dates equal to the time of the call,
    [getPlaylistTracks] gives their tracks in the same order (none
    dropped), and every other playlist and every track is as before.
    When it raises, the tables are unchanged, and one of the three
    conditions has failed. *)
Theorem createPlaylist_reads_back (accepts : nat -> bool) (st : DbWrite.t)
    (id name : jsstring) (trackIds : list jsstring) (now : jsstring)
    (pos : nat) :
  match DbWrite.createPlaylist accepts st id name trackIds now pos with
  | (Ok insertedIds, st') =>
      insertedIds = kept (DbWrite.live st) trackIds /\
      NoDup insertedIds /\
      DbWrite.has_playlist (DbWrite.live st) id = false /\
      (trackIds = [] \/ accepts (length trackIds) = true) /\
      Db.getPlaylist (DbWrite.live st') id
      = Some (Playlist.mk id name insertedIds now now) /\
      map Track.id (Db.getPlaylistTracks (DbWrite.live st') id)
      = insertedIds /\
      Db.tracks (DbWrite.live st') = Db.tracks (DbWrite.live st) /\
      (forall other, other <> id ->
         Db.getPlaylist (DbWrite.live st') other
         = Db.getPlaylist (DbWrite.live st) other)
  | (Throw, st') =>
      st' = st /\
      (DbWrite.has_playlist (DbWrite.live st) id = true \/
       (trackIds <> [] /\ accepts (length trackIds) = false) \/
       ~ NoDup (kept (DbWrite.live st) trackIds))
  end.
Proof.
  unfold DbWrite.createPlaylist.
  destruct (DbWrite.has_playlist (DbWrite.live st) id) eqn:E.
  { split; [reflexivity|now left]. }
  destruct (new_rows_spec accepts (DbWrite.live st) trackIds) as [H1 H2].
  destruct (DbWrite.new_rows accepts (DbWrite.live st) trackIds)
    as [out|] eqn:En.
  - destruct (H1 out eq_refl) as (-> & Hn & Ha).
    assert (Hg : Db.getPlaylist
                   (DbWrite.live
                      (DbWrite.with_live st
                         (DbWrite.set_playlists (DbWrite.live st)
                            (DbWrite.insert_at pos
                               (Playlist.mk id name
                                  (kept (DbWrite.live st) trackIds) now now)
                               (Db.playlists (DbWrite.live st))))))
                   id
                 = Some (Playlist.mk id name
                           (kept (DbWrite.live st) trackIds) now now)).
    { unfold Db.getPlaylist. cbn [DbWrite.live DbWrite.with_live
                                    DbWrite.set_playlists Db.playlists].
      apply find_insert_at_fresh; [apply str_eqb_refl|exact E]. }
    repeat split; try assumption.
    + unfold Db.getPlaylistTracks. rewrite Hg. cbn [Playlist.trackIds].
      apply (resolved_entries _ _ 0%nat).
      eapply Forall_impl; [|apply kept_entries]. now intros i [_ H].
    + intros other Ho. unfold Db.getPlaylist.
      cbn [DbWrite.live DbWrite.with_live DbWrite.set_playlists Db.playlists].
      apply find_insert_at_other. cbn [Playlist.id].
      apply str_eqb_neq. congruence.
  - split; [reflexivity|]. right.
    destruct trackIds as [|i ids].
    + exfalso. discriminate (H2 (or_introl eq_refl) (NoDup_nil _)).
    + destruct (accepts (length (i :: ids))) eqn:Ea.
      * right. intros Hn. discriminate (H2 (or_intror eq_refl) Hn).
      * left. split; [discriminate|reflexivity].
Qed.

(** *** Archiving *)

Lemma find_filter_other {A : Type} (p q : A -> bool) (l : list A) :
  (forall a, p a = true -> q a = true) ->
  find p (filter q l) = find p l.
Proof.
  intros H. induction l as [|a l IH]; [reflexivity|].
  cbn [filter find]. destruct (p a) eqn:Ep.
  - rewrite (H a Ep). cbn [find]. now rewrite Ep.
  - destruct (q a); [cbn [find]; now rewrite Ep|assumption].
Qed.

Lemma find_filter_none {A : Type} (p : A -> bool) (l : list A) :
  find p (filter (fun a => negb (p a)) l) = None.
Proof.
  induction l as [|a l IH]; [reflexivity|].
  cbn [filter]. destruct (p a) eqn:Ep; cbn [negb]; [assumption|].
  cbn [find]. now rewrite Ep.
Qed.

Lemma not_in_filter_other (id : jsstring) (l : list jsstring) :
  ~ In id (filter (fun x => negb (str_eqb x id)) l).
Proof.
  intros H. apply filter_In in H as [_ H]. now rewrite str_eqb_refl in H.
Qed.

(** After the archiving of a track, no context holds its id. *)
Lemma archived_not_in_context (st : DbWrite.t) (id ctx : jsstring)
    (pos : nat) (tr : Track.t) (l : list jsstring) :
  Db.getTrack (DbWrite.live st) id = Some tr ->
  contextTrackList (DbWrite.live (snd (DbWrite.archiveTrack st id pos))) ctx
  = Some l ->
  ~ In id l.
Proof.
  intros Hg. unfold DbWrite.archiveTrack. rewrite Hg.
  cbn [snd DbWrite.live]. unfold contextTrackList.
  destruct (startsWith ctx (lit "playlist::")).
  - unfold Db.getPlaylist. cbn [Db.playlists].
    destruct (find _ _) as [pl|] eqn:Ef; [|discriminate].
    intros [= <-]. apply find_some in Ef as [Hin _].
    apply in_map_iff in Hin as (pl0 & <- & _). cbn [Playlist.trackIds].
    apply not_in_filter_other.
  - destruct (startsWith ctx (lit "artist::")).
    + intros [= <-]. unfold Db.getTracksByArtistId. cbn [Db.tracks].
      intros Hin. apply in_map_iff in Hin as (x & Hx & Hin).
      apply filter_In in Hin as [Hin _]. apply filter_In in Hin as [_ Hin].
      rewrite Hx, str_eqb_refl in Hin. discriminate.
    + intros [= <-]. unfold Db.getTrackIds. cbn [Db.tracks].
      intros Hin. apply in_map_iff in Hin as (x & Hx & Hin).
      apply filter_In in Hin as [_ Hin].
      rewrite Hx, str_eqb_refl in Hin. discriminate.
Qed.

(** X26.  Archiving the track that plays ends its queue.
    [archiveTrack] of a stored track returns [true], writes the track
    to the archive (once: an older archived row of the same id is
    replaced) and removes it from the tracks and from every playlist;
    every other track is as before.  From then on the id has no
    neighbour: for a token of that id, in every context and in both
    directions, [findAdjacentTrack] finds no track, and the server
    answers a next or previous request for it without a track, with
    or without a playlist.  Where the row stands among the archived
    ones is left to the engine. *)
Theorem archiveTrack_ends_the_queue (st : DbWrite.t) (id : jsstring)
    (pos : nat) (tr : Track.t) :
  Db.getTrack (DbWrite.live st) id = Some tr ->
  let st' := snd (DbWrite.archiveTrack st id pos) in
  fst (DbWrite.archiveTrack st id pos) = true /\
  In tr (DbWrite.archivedTracks st') /\
  (forall x, In x (DbWrite.archivedTracks st') -> Track.id x = id ->
             x = tr) /\
  (forall x, Track.id x <> id ->
     (In x (DbWrite.archivedTracks st')
      <-> In x (DbWrite.archivedTracks st))) /\
  Db.getTrack (DbWrite.live st') id = None /\
  (forall other, other <> id ->
     Db.getTrack (DbWrite.live st') other
     = Db.getTrack (DbWrite.live st) other) /\
  (forall pl, In pl (Db.playlists (DbWrite.live st')) ->
     ~ In id (Playlist.trackIds pl)) /\
  (forall ctx dir,
     findAdjacentTrack (DbWrite.live st') (token_json (mkToken id ctx)) dir
     = Ok None) /\
  (forall pid,
     np_track (snd (handleGetNextTrack (DbWrite.live st') id pid)) = None /\
     np_track (snd (handleGetPreviousTrack (DbWrite.live st') id pid))
     = None).
Proof.
  intros Hg st'.
  assert (Hctx := fun ctx l => archived_not_in_context st id ctx pos tr l Hg).
  fold st' in Hctx.
  assert (Est : DbWrite.archiveTrack st id pos = (true, st')).
  { unfold st', DbWrite.archiveTrack. now rewrite Hg. }
  assert (Elive : Db.tracks (DbWrite.live st')
                  = filter (fun x => negb (str_eqb (Track.id x) id))
                      (Db.tracks (DbWrite.live st))).
  { unfold st', DbWrite.archiveTrack. now rewrite Hg. }
  assert (Earch : DbWrite.archivedTracks st'
                  = DbWrite.insert_at pos tr
                      (filter (fun x => negb (str_eqb (Track.id x) id))
                         (DbWrite.archivedTracks st))).
  { unfold st', DbWrite.archiveTrack. now rewrite Hg. }
  assert (Hid : Track.id tr = id) by (now apply getTrack_id in Hg).
  split; [now rewrite Est|].
  split; [rewrite Earch; apply In_insert_at; now left|].
  split.
  { intros x Hx Hxid. rewrite Earch in Hx.
    apply In_insert_at in Hx as [Hx|Hx]; [exact Hx|].
    apply filter_In in Hx as [_ Hx].
    rewrite Hxid, str_eqb_refl in Hx. discriminate. }
  split.
  { intros x Hx. rewrite Earch, In_insert_at, filter_In.
    rewrite (str_eqb_neq _ _ Hx). cbn [negb]. split.
    - intros [->|[H _]]; [now rewrite Hid in Hx|exact H].
    - intros H. right. now split. }
  repeat split.
  - unfold Db.getTrack. rewrite Elive.
    apply (find_filter_none (fun x => str_eqb (Track.id x) id)).
  - intros other Ho. unfold Db.getTrack. rewrite Elive.
    apply find_filter_other. intros a Ha. apply str_eqb_eq in Ha.
    rewrite Ha. rewrite str_eqb_neq; [reflexivity|assumption].
  - intros pl Hin. unfold st', DbWrite.archiveTrack in Hin.
    rewrite Hg in Hin. cbn [snd DbWrite.live Db.playlists] in Hin.
    apply in_map_iff in Hin as (pl0 & <- & _). cbn [Playlist.trackIds].
    apply not_in_filter_other.
  - intros ctx dir. rewrite findAdjacentTrack_token.
    destruct (str_eqb ctx (lit "single")); [reflexivity|].
    destruct (contextTrackList (DbWrite.live st') ctx) as [l|] eqn:El;
      [|reflexivity].
    cbv zeta. now rewrite (indexOf_absent l id (Hctx ctx l El)).
  - unfold handleGetNextTrack.
    destruct (trackListOf (DbWrite.live st') pid) as [l|] eqn:El;
      [|reflexivity].
    assert (Hn : ~ In id l).
    { unfold trackListOf in El.
      destruct (if_some_truthy pid) as [p|].
      - apply (Hctx (lit "playlist::" ++ p) l).
        rewrite contextTrackList_playlist. exact El.
      - apply (Hctx (lit "all") l). exact El. }
    cbv zeta. now rewrite (indexOf_absent l id Hn).
  - unfold handleGetPreviousTrack.
    destruct (trackListOf (DbWrite.live st') pid) as [l|] eqn:El;
      [|reflexivity].
    assert (Hn : ~ In id l).
    { unfold trackListOf in El.
      destruct (if_some_truthy pid) as [p|].
      - apply (Hctx (lit "playlist::" ++ p) l).
        rewrite contextTrackList_playlist. exact El.
      - apply (Hctx (lit "all") l). exact El. }
    cbv zeta. now rewrite (indexOf_absent l id Hn).
Qed.

Lemma archiveTrack_ends_the_queue_witness :
  let st' := snd (DbWrite.archiveTrack (DbWrite.mk Demo.db [Demo.t1] [])
                    (lit "track.2") 1) in
  fst (DbWrite.archiveTrack (DbWrite.mk Demo.db [Demo.t1] [])
         (lit "track.2") 1) = true /\
  In Demo.t2 (DbWrite.archivedTracks st') /\
  (forall x, In x (DbWrite.archivedTracks st') ->
             Track.id x = lit "track.2" -> x = Demo.t2) /\
  (forall x, Track.id x <> lit "track.2" ->
     (In x (DbWrite.archivedTracks st') <-> In x [Demo.t1])) /\
  Db.getTrack (DbWrite.live st') (lit "track.2") = None /\
  (forall other, other <> lit "track.2" ->
     Db.getTrack (DbWrite.live st') other = Db.getTrack Demo.db other) /\
  (forall pl, In pl (Db.playlists (DbWrite.live st')) ->
     ~ In (lit "track.2") (Playlist.trackIds pl)) /\
  (forall ctx dir,
     findAdjacentTrack (DbWrite.live st')
       (token_json (mkToken (lit "track.2") ctx)) dir
     = Ok None) /\
  (forall pid,
     np_track (snd (handleGetNextTrack (DbWrite.live st') (lit "track.2")
                      pid)) = None /\
     np_track (snd (handleGetPreviousTrack (DbWrite.live st')
                      (lit "track.2") pid)) = None).
Proof.
  apply (archiveTrack_ends_the_queue (DbWrite.mk Demo.db [Demo.t1] [])
           (lit "track.2") 1 Demo.t2).
  reflexivity.
Defined.

(** *** What the invariant gives *)

Lemma find_by_key {A : Type} (key : A -> jsstring) (l : list A) (x : A) :
  NoDup (map key l) -> In x l ->
  find (fun y => str_eqb (key y) (key x)) l = Some x.
Proof.
  induction l as [|a l IH]; intros Hn Hin; [contradiction|].
  cbn [map] in Hn. inversion Hn as [|? ? Ha Hl]; subst.
  cbn [find]. destruct Hin as [->|Hin].
  - now rewrite str_eqb_refl.
  - destruct (str_eqb (key a) (key x)) eqn:E.
    + apply str_eqb_eq in E. exfalso. apply Ha. rewrite E.
      now apply in_map.
    + now apply IH.
Qed.

Lemma integrity_playlist (db : Db.t) (pl : Playlist.t) :
  integrity db -> In pl (Db.playlists db) ->
  Db.getPlaylist db (Playlist.id pl) = Some pl /\
  map Track.id (Db.getPlaylistTracks db (Playlist.id pl))
  = Playlist.trackIds pl /\
  (forall k,
     nth_error (Db.getPlaylistTracks db (Playlist.id pl)) k
     = match nth_error (Playlist.trackIds pl) k with
       | Some i => Db.getTrack db i
       | None => None
       end).
Proof.
  intros (_ & H2 & _ & H4) Hin.
  assert (Hg : Db.getPlaylist db (Playlist.id pl) = Some pl)
    by (now apply (find_by_key Playlist.id)).
  rewrite Forall_forall in H4. destruct (H4 pl Hin) as [_ Hf].
  assert (Hf' : Forall (fun i => DbWrite.has_track db i = true)
                  (Playlist.trackIds pl))
    by (eapply Forall_impl; [|exact Hf]; now intros i [_ H]).
  split; [exact Hg|]. unfold Db.getPlaylistTracks. rewrite Hg.
  split; [apply (resolved_entries db _ 0%nat Hf')|].
  intros k. apply (resolved_entries db _ k Hf').
Qed.

(** X27.  Playlists hold their tracks.  In tables that are in order
    (as every write method leaves them), a playlist is found by its
    id, the join [getPlaylistTracks] drops no entry (its tracks are
    those of the playlist's ids, in position order), and
    [handleResolveEntity] counts every entry.  So the playlist intent
    never answers that the playlist holds no track: for a playlist
    that the search finds first it either reports "not found" (no
    entry) or starts the track of the first entry, in the context of
    that playlist. *)
Theorem playlists_hold_their_tracks (db : Db.t) :
  integrity db ->
  (forall pl, In pl (Db.playlists db) ->
     Db.getPlaylist db (Playlist.id pl) = Some pl /\
     map Track.id (Db.getPlaylistTracks db (Playlist.id pl))
     = Playlist.trackIds pl /\
     handleResolveEntity db (Playlist.id pl) (lit "PLAYLIST")
     = (200%Z,
        resolve_body true None
          (Some (Db.getPlaylistTracks db (Playlist.id pl))) (Some pl)
          (Some (len (Playlist.trackIds pl))))) /\
  (forall slot u,
     handlePlayPlaylistIntent db slot u
     <> Ok (buildSpeechResponse msg_playlist_empty false)) /\
  (forall name u pl others i rest,
     nonempty name = true ->
     Db.searchPlaylistsByName db name = pl :: others ->
     Playlist.trackIds pl = i :: rest ->
     exists first,
       resolves db i first /\
       handlePlayPlaylistIntent db (Some name) u
       = buildPlayResponse first (mp3 u i) (art u i)
           (mkToken i (lit "playlist::" ++ Playlist.id pl))
           REPLACE_ALL 0 None
           (Some (msg_playlist ++ Playlist.name pl ++ msg_will_play))).
Proof.
  intros Hi.
  assert (Hhead : forall name pl others i rest,
             Db.searchPlaylistsByName db name = pl :: others ->
             Playlist.trackIds pl = i :: rest ->
             exists first more,
               resolves db i first /\
               Db.getPlaylistTracks db (Playlist.id pl) = first :: more).
  { intros name pl others i rest Hs Hl.
    assert (Hin : In pl (Db.playlists db)).
    { apply (search_playlist_stored db name). rewrite Hs. now left. }
    destruct (integrity_playlist db pl Hi Hin) as (_ & _ & Hk).
    specialize (Hk 0%nat). rewrite Hl in Hk. cbn [nth_error] in Hk.
    destruct Hi as (_ & _ & _ & H4). rewrite Forall_forall in H4.
    destruct (H4 pl Hin) as [_ Hf]. rewrite Hl in Hf.
    inversion Hf as [|? ? [Hne Hh] _]; subst.
    destruct (has_track_getTrack db i Hh) as (tr & Hg & _).
    rewrite Hg in Hk.
    destruct (Db.getPlaylistTracks db (Playlist.id pl)) as [|first more];
      [discriminate|].
    injection Hk as ->. exists tr, more. repeat split; assumption. }
  split; [|split].
  - intros pl Hin.
    destruct (integrity_playlist db pl Hi Hin) as (Hg & Hm & _).
    repeat split; try assumption.
    unfold handleResolveEntity.
    change (str_eqb (lit "PLAYLIST") (lit "ALL")) with false.
    change (nonempty (lit "PLAYLIST")) with true.
    rewrite andb_false_r. cbn [orb].
    change (str_eqb (lit "PLAYLIST") (lit "TRACK")) with false.
    change (str_eqb (lit "PLAYLIST") (lit "ARTIST")) with false.
    change (str_eqb (lit "PLAYLIST") (lit "PLAYLIST")) with true.
    cbv iota. rewrite Hg. cbv zeta. repeat f_equal.
    unfold len. now rewrite <- Hm, length_map.
  - intros slot u. unfold handlePlayPlaylistIntent.
    destruct (if_some_truthy slot) as [name|]; [|discriminate].
    cbv zeta.
    destruct (Db.searchPlaylistsByName db name) as [|pl others] eqn:Hs;
      [discriminate|].
    destruct (Playlist.trackIds pl) as [|i rest] eqn:Hl;
      [discriminate|].
    destruct (Hhead name pl others i rest Hs Hl) as (first & more & _ & Hg).
    rewrite Hg.
    change (len (i :: rest) =? 0)%Z with false. cbv iota.
    unfold buildPlayResponse. destruct (encodeToken _); discriminate.
  - intros name u pl others i rest Hn Hs Hl.
    destruct (Hhead name pl others i rest Hs Hl)
      as (first & more & Hr & Hg).
    exists first. split; [assumption|].
    unfold handlePlayPlaylistIntent. cbn [if_some_truthy]. rewrite Hn.
    cbv zeta. rewrite Hs, Hl, Hg.
    assert (Hlen : (len (i :: rest) =? 0)%Z = false).
    { unfold len. cbn [length]. apply Z.eqb_neq. lia. }
    rewrite Hlen. destruct Hr as [_ Hr]. apply getTrack_id in Hr.
    now rewrite Hr.
Qed.

Lemma playlists_hold_their_tracks_witness :
  (forall pl, In pl (Db.playlists Demo.db) ->
     Db.getPlaylist Demo.db (Playlist.id pl) = Some pl /\
     map Track.id (Db.getPlaylistTracks Demo.db (Playlist.id pl))
     = Playlist.trackIds pl /\
     handleResolveEntity Demo.db (Playlist.id pl) (lit "PLAYLIST")
     = (200%Z,
        resolve_body true None
          (Some (Db.getPlaylistTracks Demo.db (Playlist.id pl))) (Some pl)
          (Some (len (Playlist.trackIds pl))))) /\
  (forall slot u,
     handlePlayPlaylistIntent Demo.db slot u
     <> Ok (buildSpeechResponse msg_playlist_empty false)) /\
  (forall name u pl others i rest,
     nonempty name = true ->
     Db.searchPlaylistsByName Demo.db name = pl :: others ->
     Playlist.trackIds pl = i :: rest ->
     exists first,
       resolves Demo.db i first /\
       handlePlayPlaylistIntent Demo.db (Some name) u
       = buildPlayResponse first (mp3 u i) (art u i)
           (mkToken i (lit "playlist::" ++ Playlist.id pl))
           REPLACE_ALL 0 None
           (Some (msg_playlist ++ Playlist.name pl ++ msg_will_play))).
Proof.
  apply (playlists_hold_their_tracks Demo.db). exact integrity_demo.
Defined.

(** *** Updating a playlist *)

Lemma find_map_update {A : Type} (key : A -> jsstring) (id other : jsstring)
    (f : A -> A) (l : list A) :
  (forall a, key (f a) = key a) ->
  find (fun a => str_eqb (key a) other)
       (map (fun a => if str_eqb (key a) id then f a else a) l)
  = if str_eqb other id
    then option_map f (find (fun a => str_eqb (key a) id) l)
    else find (fun a => str_eqb (key a) other) l.
Proof.
  intros Hf. induction l as [|a l IH].
  - now destruct (str_eqb other id).
  - cbn [map find]. destruct (str_eqb (key a) id) eqn:Ea.
    + rewrite Hf. apply str_eqb_eq in Ea.
      destruct (str_eqb other id) eqn:Eo.
      * apply str_eqb_eq in Eo. subst other. rewrite Ea, str_eqb_refl.
        reflexivity.
      * rewrite Ea, (str_eqb_sym id other), Eo. exact IH.
    + destruct (str_eqb other id) eqn:Eo.
      * apply str_eqb_eq in Eo. subst other. rewrite Ea. exact IH.
      * destruct (str_eqb (key a) other); [reflexivity|exact IH].
Qed.

Lemma has_playlist_getPlaylist (db : Db.t) (id : jsstring) :
  DbWrite.has_playlist db id
  = match Db.getPlaylist db id with Some _ => true | None => false end.
Proof.
  unfold DbWrite.has_playlist, Db.getPlaylist.
  induction (Db.playlists db) as [|pl l IH]; [reflexivity|].
  cbn [existsb find]. now destruct (str_eqb (Playlist.id pl) id).
Qed.

(** X28.  Updating a playlist.  [updatePlaylist] returns [false], and
    changes nothing, exactly when no playlist has the id.  Otherwise
    it returns [true] and the playlist reads back with the new name
    (or the old one when none is given), with the kept ids of the new
    list (those that are not empty and are ids of stored tracks; or
    the old entries when no list is given), with the creation date it
    had and the time of the call as date of update; every other
    playlist and every track is as before.  When the new list makes
    it raise (a kept id twice, or more parameters than the engine
    takes) nothing is changed, the name neither. *)
Theorem updatePlaylist_reads_back (accepts : nat -> bool) (st : DbWrite.t)
    (id : jsstring) (name : option jsstring)
    (trackIds : option (list jsstring)) (now : jsstring) :
  match DbWrite.updatePlaylist accepts st id name trackIds now with
  | (Ok true, st') =>
      exists pl,
        Db.getPlaylist (DbWrite.live st) id = Some pl /\
        Db.getPlaylist (DbWrite.live st') id
        = Some (Playlist.mk (Playlist.id pl)
                  (match name with
                   | Some n => n
                   | None => Playlist.name pl
                   end)
                  (match trackIds with
                   | Some ids => kept (DbWrite.live st) ids
                   | None => Playlist.trackIds pl
                   end)
                  (Playlist.createdAt pl) now) /\
        (forall other, other <> id ->
           Db.getPlaylist (DbWrite.live st') other
           = Db.getPlaylist (DbWrite.live st) other) /\
        Db.tracks (DbWrite.live st') = Db.tracks (DbWrite.live st)
  | (Ok false, st') =>
      st' = st /\ Db.getPlaylist (DbWrite.live st) id = None
  | (Throw, st') =>
      st' = st /\
      exists ids,
        trackIds = Some ids /\
        ((ids <> [] /\ accepts (length ids) = false) \/
         ~ NoDup (kept (DbWrite.live st) ids))
  end.
Proof.
  unfold DbWrite.updatePlaylist.
  rewrite has_playlist_getPlaylist.
  destruct (Db.getPlaylist (DbWrite.live st) id) as [pl|] eqn:Eg;
    cbn [negb]; [|split; reflexivity].
  assert (Hread : forall (rows : option (list jsstring)) other,
    Db.getPlaylist
      (DbWrite.live
         (DbWrite.with_live st
            (DbWrite.set_playlists (DbWrite.live st)
               (map (fun p =>
                       if str_eqb (Playlist.id p) id
                       then Playlist.mk (Playlist.id p)
                              match name with
                              | Some n => n
                              | None => Playlist.name p
                              end
                              match rows with
                              | Some l => l
                              | None => Playlist.trackIds p
                              end
                              (Playlist.createdAt p) now
                       else p)
                    (Db.playlists (DbWrite.live st))))))
      other
    = if str_eqb other id
        then option_map
               (fun p => Playlist.mk (Playlist.id p)
                           match name with
                           | Some n => n
                           | None => Playlist.name p
                           end
                           match rows with
                           | Some l => l
                           | None => Playlist.trackIds p
                           end
                           (Playlist.createdAt p) now)
               (Db.getPlaylist (DbWrite.live st) id)
      else Db.getPlaylist (DbWrite.live st) other).
  { intros rows other. unfold Db.getPlaylist.
    cbn [DbWrite.live DbWrite.with_live DbWrite.set_playlists Db.playlists].
    apply (find_map_update Playlist.id id other
             (fun p => Playlist.mk _ _ _ _ _)).
    reflexivity. }
  destruct trackIds as [ids|].
  - destruct (new_rows_spec accepts (DbWrite.live st) ids) as [H1 H2].
    destruct (DbWrite.new_rows accepts (DbWrite.live st) ids)
      as [out|] eqn:En.
    + destruct (H1 out eq_refl) as (-> & Hn & Ha).
      exists pl. rewrite (Hread (Some (kept (DbWrite.live st) ids)) id).
      rewrite str_eqb_refl, Eg. repeat split.
      intros other Ho.
      rewrite (Hread (Some (kept (DbWrite.live st) ids)) other).
      now rewrite (str_eqb_neq other id Ho).
    + split; [reflexivity|]. exists ids. split; [reflexivity|].
      destruct ids as [|i ids].
      * exfalso. discriminate (H2 (or_introl eq_refl) (NoDup_nil _)).
      * destruct (accepts (length (i :: ids))) eqn:Ea.
        -- right. intros Hn. discriminate (H2 (or_intror eq_refl) Hn).
        -- left. split; [discriminate|reflexivity].
  - exists pl. rewrite (Hread None id).
    rewrite str_eqb_refl, Eg. repeat split.
    intros other Ho. rewrite (Hread None other).
    now rewrite (str_eqb_neq other id Ho).
Qed.

(** *** Adding a track *)

Lemma has_artist_insert_or_ignore (db : Db.t) (a : Artist.t) :
  DbWrite.has_artist (DbWrite.insert_or_ignore db a) (Artist.id a) = true.
Proof.
  unfold DbWrite.insert_or_ignore.
  destruct (DbWrite.has_artist db (Artist.id a)) eqn:E; [exact E|].
  unfold DbWrite.has_artist. cbn [DbWrite.set_artists Db.artists].
  rewrite existsb_app. cbn [existsb]. rewrite str_eqb_refl.
  now rewrite orb_true_r.
Qed.

(** X29.  Adding a track.  [handleAddTrack] derives the artist id of
    the new track from its artist name and first makes sure that this
    artist has a row.  When the id is new, the track is stored as
    returned: [getTrack] finds it, it is among the tracks of its
    artist id, every other track and every playlist is as before.
    When the id is taken, the call raises and no track is changed,
    but the two statements are not one transaction: the artist row
    that [ensureArtist] wrote stays. *)
Theorem handleAddTrack_stores (normalize : jsstring -> jsstring)
    (st : DbWrite.t) (id : jsstring) (input : DbWrite.TrackInput)
    (now : jsstring) (pos : nat) :
  let artistId :=
    Hash.deriveArtistId normalize (DbWrite.in_artist input) in
  let st1 :=
    snd (DbWrite.ensureArtist normalize st (DbWrite.in_artist input)) in
  match DbWrite.handleAddTrack normalize st id input now pos with
  | (Ok track, st') =>
      track = Track.mk id (DbWrite.in_title input)
                (DbWrite.in_artist input) artistId
                (DbWrite.in_album input) (DbWrite.in_duration input) now /\
      Db.getTrack (DbWrite.live st) id = None /\
      Db.getTrack (DbWrite.live st') id = Some track /\
      In track (Db.getTracksByArtistId (DbWrite.live st') artistId) /\
      DbWrite.has_artist (DbWrite.live st') artistId = true /\
      (forall other, other <> id ->
         Db.getTrack (DbWrite.live st') other
         = Db.getTrack (DbWrite.live st) other) /\
      Db.playlists (DbWrite.live st') = Db.playlists (DbWrite.live st)
  | (Throw, st') =>
      st' = st1 /\
      DbWrite.has_track (DbWrite.live st) id = true /\
      Db.tracks (DbWrite.live st') = Db.tracks (DbWrite.live st) /\
      Db.playlists (DbWrite.live st') = Db.playlists (DbWrite.live st) /\
      DbWrite.has_artist (DbWrite.live st') artistId = true
  end.
Proof.
  cbv zeta. unfold DbWrite.handleAddTrack, DbWrite.addTrack.
  set (track := Track.mk id _ _ _ _ _ now).
  set (st1 := snd (DbWrite.ensureArtist normalize st (Track.artist track))).
  assert (Ht : Db.tracks (DbWrite.live st1) = Db.tracks (DbWrite.live st)).
  { unfold st1. cbn. unfold DbWrite.insert_or_ignore.
    now destruct (DbWrite.has_artist _ _). }
  assert (Hp : Db.playlists (DbWrite.live st1)
               = Db.playlists (DbWrite.live st)).
  { unfold st1. cbn. unfold DbWrite.insert_or_ignore.
    now destruct (DbWrite.has_artist _ _). }
  assert (Ha : DbWrite.has_artist (DbWrite.live st1)
                 (Hash.deriveArtistId normalize (DbWrite.in_artist input))
               = true).
  { unfold st1. cbn [snd DbWrite.ensureArtist DbWrite.live
                       DbWrite.with_live].
    apply (has_artist_insert_or_ignore _ (Artist.mk _ _ _)). }
  assert (Hh : DbWrite.has_track (DbWrite.live st1) id
               = DbWrite.has_track (DbWrite.live st) id).
  { unfold DbWrite.has_track. now rewrite Ht. }
  change (Track.id track) with id. rewrite Hh.
  destruct (DbWrite.has_track (DbWrite.live st) id) eqn:E.
  - repeat split; try assumption; reflexivity.
  - assert (Hex : existsb (fun tr => str_eqb (Track.id tr) id)
                    (Db.tracks (DbWrite.live st)) = false) by exact E.
    assert (Hg : Db.getTrack
                   (DbWrite.live
                      (DbWrite.with_live st1
                         (DbWrite.set_tracks (DbWrite.live st1)
                            (DbWrite.insert_at pos track
                               (Db.tracks (DbWrite.live st1)))))) id
                 = Some track).
    { unfold Db.getTrack.
      cbn [DbWrite.live DbWrite.with_live DbWrite.set_tracks Db.tracks].
      rewrite Ht. apply find_insert_at_fresh; [apply str_eqb_refl|exact Hex]. }
    repeat split.
    + destruct (Db.getTrack (DbWrite.live st) id) eqn:Eg; [|reflexivity].
      apply getTrack_has_track in Eg. congruence.
    + exact Hg.
    + unfold Db.getTracksByArtistId. apply filter_In. split.
      * now apply getTrack_In in Hg.
      * apply str_eqb_refl.
    + exact Ha.
    + intros other Ho. unfold Db.getTrack.
      cbn [DbWrite.live DbWrite.with_live DbWrite.set_tracks Db.tracks].
      rewrite Ht. apply find_insert_at_other.
      apply str_eqb_neq. intros H. apply Ho. symmetry. exact H.
    + exact Hp.
Qed.

(** *** Archiving an artist *)

Lemma has_artist_other (db : Db.t) (a : Artist.t) (id : jsstring) :
  DbWrite.has_artist (DbWrite.insert_or_ignore db a) id
  = DbWrite.has_artist db id || str_eqb (Artist.id a) id.
Proof.
  unfold DbWrite.insert_or_ignore.
  destruct (DbWrite.has_artist db (Artist.id a)) eqn:E.
  - destruct (str_eqb (Artist.id a) id) eqn:Ei.
    + apply str_eqb_eq in Ei. subst id. rewrite E. reflexivity.
    + now rewrite orb_false_r.
  - unfold DbWrite.has_artist. cbn [DbWrite.set_artists Db.artists].
    rewrite existsb_app. cbn [existsb]. now rewrite orb_false_r.
Qed.

(** X30.  Archiving an artist.  [archiveArtist] first makes sure that
    the unknown artist has a row, moves every track of the artist to
    the unknown artist (name and id; nothing else of a track, no
    other track and no playlist is changed) and deletes the artist's
    row.  It returns whether the artist had a row, and always [true]
    for the id of the unknown artist itself.  Afterwards the artist
    has no row, and the search by artist finds no track of that id.
    For another id than the unknown artist's, no track has the id any
    more and the unknown artist has a row; but archiving the unknown
    artist itself leaves its tracks under an id without a row. *)
Theorem archiveArtist_moves_tracks (normalize : jsstring -> jsstring)
    (st : DbWrite.t) (id : jsstring) :
  let unknownId := Hash.deriveArtistId normalize DbWrite.unknown_artist in
  let moved := fun tr =>
    Track.mk (Track.id tr) (Track.title tr) DbWrite.unknown_artist
      unknownId (Track.album tr) (Track.duration tr) (Track.addedAt tr) in
  let st' := snd (DbWrite.archiveArtist normalize st id) in
  fst (DbWrite.archiveArtist normalize st id)
  = DbWrite.has_artist (DbWrite.live st) id || str_eqb unknownId id /\
  DbWrite.has_artist (DbWrite.live st') id = false /\
  Db.tracks (DbWrite.live st')
  = map (fun tr => if str_eqb (Track.artistId tr) id then moved tr else tr)
        (Db.tracks (DbWrite.live st)) /\
  Db.playlists (DbWrite.live st') = Db.playlists (DbWrite.live st) /\
  (forall q tr,
     In tr (Db.searchTracksByArtist (DbWrite.live st') q) ->
     Track.artistId tr <> id) /\
  (id <> unknownId ->
   Db.getTracksByArtistId (DbWrite.live st') id = [] /\
   DbWrite.has_artist (DbWrite.live st') unknownId = true) /\
  (id = unknownId ->
   Db.getTracksByArtistId (DbWrite.live st') id
   = map moved (Db.getTracksByArtistId (DbWrite.live st) id)).
Proof.
  cbv zeta. unfold DbWrite.archiveArtist.
  set (unknownId := Hash.deriveArtistId normalize DbWrite.unknown_artist).
  set (a0 := Artist.mk unknownId DbWrite.unknown_artist []).
  set (db1 := DbWrite.insert_or_ignore (DbWrite.live st) a0).
  assert (Ht : Db.tracks db1 = Db.tracks (DbWrite.live st)).
  { unfold db1, DbWrite.insert_or_ignore.
    now destruct (DbWrite.has_artist _ _). }
  assert (Hp : Db.playlists db1 = Db.playlists (DbWrite.live st)).
  { unfold db1, DbWrite.insert_or_ignore.
    now destruct (DbWrite.has_artist _ _). }
  cbn [fst snd DbWrite.live DbWrite.with_live].
  assert (Hgone : forall a,
             In a (filter (fun a => negb (str_eqb (Artist.id a) id))
                          (Db.artists db1)) ->
             Artist.id a <> id).
  { intros a Ha. apply filter_In in Ha as [_ Ha]. intros E.
    rewrite E, str_eqb_refl in Ha. discriminate. }
  repeat split.
  - change (DbWrite.has_artist (DbWrite.set_tracks db1 _) id)
      with (DbWrite.has_artist db1 id).
    unfold db1. apply (has_artist_other _ a0).
  - unfold DbWrite.has_artist.
    cbn [DbWrite.set_artists DbWrite.set_tracks Db.artists].
    destruct (existsb _ _) eqn:E; [|reflexivity].
    apply existsb_exists in E as (a & Ha & He). apply str_eqb_eq in He.
    now apply Hgone in Ha.
  - cbn [DbWrite.set_artists DbWrite.set_tracks Db.tracks].
    now rewrite Ht.
  - cbn [DbWrite.set_artists DbWrite.set_tracks Db.playlists]. exact Hp.
  - intros q tr Hin. unfold Db.searchTracksByArtist in Hin.
    apply in_flat_map in Hin as (x & _ & Hin).
    apply in_map_iff in Hin as (a & <- & Hin).
    apply filter_In in Hin as [Ha He].
    apply andb_prop in He as [He _]. apply str_eqb_eq in He.
    rewrite He. apply Hgone.
    exact Ha.
  - unfold Db.getTracksByArtistId.
    cbn [DbWrite.set_artists DbWrite.set_tracks Db.tracks]. rewrite Ht.
    clear Ht. induction (Db.tracks (DbWrite.live st)) as [|tr l IH]; [reflexivity|].
    cbn [map filter]. destruct (str_eqb (Track.artistId tr) id) eqn:E.
    + cbn [Track.artistId]. rewrite (str_eqb_neq unknownId id); [exact IH|].
      congruence.
    + rewrite E. exact IH.
  - change (DbWrite.has_artist (DbWrite.set_artists _ _) unknownId)
      with (existsb (fun a => str_eqb (Artist.id a) unknownId)
              (filter (fun a => negb (str_eqb (Artist.id a) id))
                 (Db.artists db1))).
    apply existsb_exists.
    assert (Hin : DbWrite.has_artist db1 unknownId = true)
      by apply (has_artist_insert_or_ignore _ a0).
    apply existsb_exists in Hin as (a & Ha & He).
    exists a. split; [|exact He]. apply filter_In. split; [exact Ha|].
    apply str_eqb_eq in He. rewrite He.
    rewrite (str_eqb_neq unknownId id); [reflexivity|congruence].
  - intros ->. unfold Db.getTracksByArtistId.
    cbn [DbWrite.set_artists DbWrite.set_tracks Db.tracks]. rewrite Ht.
    clear Ht. induction (Db.tracks (DbWrite.live st)) as [|tr l IH]; [reflexivity|].
    cbn [map filter].
    destruct (str_eqb (Track.artistId tr) unknownId) eqn:E.
    + cbn [Track.artistId]. rewrite str_eqb_refl. cbn [map].
      now rewrite IH.
    + rewrite E. exact IH.
Qed.

(* ================================================================== *)
(** ** The queue of the Lambda: first item, current item, neighbours  *)
(* ================================================================== *)

Lemma track_ids_split (db : Db.t) (before after : list Track.t)
    (cur : Track.t) :
  Db.tracks db = before ++ cur :: after ->
  NoDup (Db.getTrackIds db) ->
  Db.getTrackIds db
  = map Track.id before ++ Track.id cur :: map Track.id after /\
  ~ In (Track.id cur) (map Track.id before) /\
  indexOf (Db.getTrackIds db) (Track.id cur) = len before /\
  len (Db.getTrackIds db) = (len before + 1 + len after)%Z.
Proof.
  intros Ht Hn.
  assert (Hids : Db.getTrackIds db
                 = map Track.id before
                   ++ Track.id cur :: map Track.id after).
  { unfold Db.getTrackIds. now rewrite Ht, map_app. }
  assert (Hx : ~ In (Track.id cur) (map Track.id before)).
  { rewrite Hids in Hn. apply NoDup_remove_2 in Hn. intros H. apply Hn.
    apply in_or_app. now left. }
  repeat split; try assumption.
  - rewrite Hids. unfold indexOf. rewrite indexOf_from_first by exact Hx.
    unfold len. rewrite length_map. lia.
  - rewrite Hids. unfold len. rewrite length_app. simpl.
    rewrite !length_map. lia.
Qed.

(** The next track of a stored track, by its place in the table. *)
Lemma getNextTrack_here (db : Db.t) (before after : list Track.t)
    (cur t : Track.t) :
  Db.tracks db = before ++ cur :: t :: after ->
  NoDup (Db.getTrackIds db) ->
  nonempty (Track.id t) = true ->
  Lambda.getNextTrack db (Track.id cur) None
  = next_body true (Some t)
      (Some (match after with [] => false | _ :: _ => true end)).
Proof.
  intros Ht Hn Hne. rewrite getNextTrack_all.
  rewrite (handleGetNextTrack_on db _ None _ (trackListOf_all db)).
  cbv zeta. cbn [snd].
  destruct (track_ids_split db before (t :: after) cur Ht Hn)
    as (Hids & Hx & Hi & Hl).
  rewrite Hi, Hl.
  assert (Hk : (0 <= len before)%Z) by (unfold len; lia).
  assert (Ha : (0 <= len after)%Z) by (unfold len; lia).
  assert (Hta : len (t :: after) = (1 + len after)%Z)
    by (unfold len; simpl length; lia).
  rewrite Hta.
  destruct (Z.eqb_spec (len before) (-1)) as [E|_]; [lia|]. cbn [orb].
  destruct (Z.geb_spec (len before) (len before + 1 + (1 + len after) - 1))
    as [E|_]; [lia|].
  rewrite Hids.
  replace (len before + 1)%Z
    with (len (map Track.id before ++ [Track.id cur]))
    by (unfold len; rewrite length_app, length_map; simpl; lia).
  replace (map Track.id before ++ Track.id cur :: map Track.id (t :: after))
    with ((map Track.id before ++ [Track.id cur])
          ++ Track.id t :: map Track.id after)
    by (now rewrite <- app_assoc).
  rewrite at_index_after. cbn [if_some_truthy]. rewrite Hne.
  assert (Ht' : Db.tracks db = (before ++ [cur]) ++ t :: after)
    by (now rewrite <- app_assoc).
  rewrite (getTrack_nodup db _ _ t Ht' Hn).
  do 3 f_equal.
  replace (len (map Track.id before ++ [Track.id cur]))
    with (len before + 1)%Z
    by (unfold len; rewrite length_app, length_map; simpl; lia).
  destruct after as [|a r].
  - change (len (@nil Track.t)) with 0%Z. apply Z.ltb_ge. lia.
  - assert (0 < len (a :: r))%Z by (unfold len; simpl length; lia).
    apply Z.ltb_lt. lia.
Qed.

(** After the last track nothing follows. *)
Lemma getNextTrack_last (db : Db.t) (before : list Track.t) (cur : Track.t) :
  Db.tracks db = before ++ [cur] ->
  NoDup (Db.getTrackIds db) ->
  Lambda.getNextTrack db (Track.id cur) None = next_body false None None.
Proof.
  intros Ht Hn. rewrite getNextTrack_all.
  rewrite (handleGetNextTrack_on db _ None _ (trackListOf_all db)).
  cbv zeta. cbn [snd].
  destruct (track_ids_split db before [] cur Ht Hn) as (_ & _ & Hi & Hl).
  rewrite Hi, Hl.
  assert (Hk : (0 <= len before)%Z) by (unfold len; lia).
  change (len (@nil Track.t)) with 0%Z.
  destruct (Z.geb_spec (len before) (len before + 1 + 0 - 1)) as [_|E];
    [|lia].
  now rewrite orb_true_r.
Qed.

(** The track before a stored track, by its place in the table. *)
Lemma getPreviousTrack_here (db : Db.t) (before after : list Track.t)
    (t cur : Track.t) :
  Db.tracks db = before ++ t :: cur :: after ->
  NoDup (Db.getTrackIds db) ->
  nonempty (Track.id t) = true ->
  Lambda.getPreviousTrack db (Track.id cur) None
  = prev_body true (Some t) (Some true).
Proof.
  intros Ht Hn Hne. rewrite getPreviousTrack_all.
  rewrite (handleGetPreviousTrack_on db _ None _ (trackListOf_all db)).
  cbv zeta. cbn [snd].
  assert (Ht' : Db.tracks db = (before ++ [t]) ++ cur :: after)
    by (now rewrite <- app_assoc).
  destruct (track_ids_split db (before ++ [t]) after cur Ht' Hn)
    as (Hids & Hx & Hi & Hl).
  rewrite Hi, Hl.
  assert (Hb : len (before ++ [t]) = (len before + 1)%Z)
    by (unfold len; rewrite length_app; simpl; lia).
  assert (Hk : (0 <= len before)%Z) by (unfold len; lia).
  assert (Ha : (0 <= len after)%Z) by (unfold len; lia).
  rewrite Hb.
  destruct (Z.leb_spec (len before + 1) 0) as [E|_]; [lia|].
  replace (len before + 1 - 1)%Z with (len (map Track.id before))
    by (unfold len; rewrite length_map; lia).
  rewrite Hids, map_app, <- app_assoc. cbn [map app].
  rewrite at_index_after. cbn [if_some_truthy]. rewrite Hne.
  rewrite (getTrack_nodup db _ _ t Ht Hn).
  do 3 f_equal. apply Z.ltb_lt. unfold len. rewrite length_map. lia.
Qed.

(** Before the first track there is nothing. *)
Lemma getPreviousTrack_first (db : Db.t) (after : list Track.t)
    (cur : Track.t) :
  Db.tracks db = cur :: after ->
  Lambda.getPreviousTrack db (Track.id cur) None = prev_body false None None.
Proof.
  intros Ht. rewrite getPreviousTrack_all.
  rewrite (handleGetPreviousTrack_on db _ None _ (trackListOf_all db)).
  cbv zeta. cbn [snd]. unfold Db.getTrackIds. rewrite Ht. cbn [map].
  unfold indexOf. cbn [indexOf_from]. now rewrite str_eqb_refl.
Qed.

(** C6.  The reply to a get-current-item request is the terminal
    queue-finished reply exactly when the current id cannot be resolved.
    When it resolves, the item of the same track is returned, with its
    id, its title, the URL of its audio built anew and its NEXT
    control set by the more-available flag, which is the [hasNext] of
    the adjacency handler over all tracks.  The item is returned also
    when there is no next track: for the last track of the table the
    reply is its item with NEXT disabled and [isQueueFinished]. *)
Theorem getItem_terminal_iff_unresolvable (db : Db.t) (u : Lambda.Urls)
    (payload : Lambda.ItemPayload) :
  (Lambda.handleGetItem db u payload = Lambda.QueueFinished
   <-> unresolvable db (Lambda.ref_id payload)) /\
  (forall cur tr,
      Lambda.ref_id payload = Some cur ->
      resolves db cur tr ->
      let hasMore :=
        Lambda.flag (hasNext (snd (handleGetNextTrack db cur None))) in
      Track.id tr = cur /\
      Lambda.handleGetItem db u payload =
      Lambda.ItemResponse (queueItem u tr hasMore) (negb hasMore)) /\
  (forall before cur,
      Lambda.ref_id payload = Some (Track.id cur) ->
      nonempty (Track.id cur) = true ->
      NoDup (Db.getTrackIds db) ->
      (forall next after,
          Db.tracks db = before ++ cur :: next :: after ->
          nonempty (Track.id next) = true ->
          Lambda.handleGetItem db u payload =
          Lambda.ItemResponse (queueItem u cur true) false) /\
      (Db.tracks db = before ++ [cur] ->
       Lambda.handleGetItem db u payload =
       Lambda.ItemResponse (queueItem u cur false) true)).
Proof.
  assert (Hres : forall cur tr,
             Lambda.ref_id payload = Some cur ->
             resolves db cur tr ->
             Track.id tr = cur /\
             Lambda.handleGetItem db u payload =
             Lambda.ItemResponse
               (queueItem u tr
                  (Lambda.flag
                     (hasNext (snd (handleGetNextTrack db cur None)))))
               (negb (Lambda.flag
                        (hasNext (snd (handleGetNextTrack db cur None)))))).
  { intros cur tr Hid [Hne Htr].
    pose proof (getTrack_id _ _ _ Htr) as Hcur. subst cur.
    split; [reflexivity|].
    unfold Lambda.handleGetItem. rewrite Hid. cbn [if_some_truthy].
    rewrite Hne.
    rewrite (resolveEntity_track db _ Hne), Htr.
    cbn [found track resolve_body]. cbv zeta.
    now rewrite getNextTrack_all. }
  split; [|split; [exact Hres|]].
  - destruct (Lambda.ref_id payload) as [cur|] eqn:Hid; simpl.
    + split.
      * intros Hfin tr Hr. destruct (Hres cur tr eq_refl Hr) as [_ H].
        rewrite H in Hfin. discriminate.
      * intros Hun. unfold Lambda.handleGetItem. rewrite Hid. simpl.
        destruct (nonempty cur) eqn:Hne; [|reflexivity].
        rewrite (resolveEntity_track db cur Hne).
        destruct (Db.getTrack db cur) as [tr|] eqn:Htr; [|reflexivity].
        exfalso. apply (Hun tr). now split.
    + split; [easy|]. intros _. unfold Lambda.handleGetItem.
      now rewrite Hid.
  - intros before cur Hid Hne Hn. split.
    + intros nxt after Ht Hnn.
      assert (Hr : resolves db (Track.id cur) cur).
      { split; [exact Hne|]. apply (getTrack_nodup db before _ cur Ht Hn). }
      destruct (Hres _ _ Hid Hr) as [_ ->].
      rewrite <- getNextTrack_all.
      now rewrite (getNextTrack_here db before after cur nxt Ht Hn Hnn).
    + intros Ht.
      assert (Hr : resolves db (Track.id cur) cur).
      { split; [exact Hne|]. apply (getTrack_nodup db before _ cur Ht Hn). }
      destruct (Hres _ _ Hid Hr) as [_ ->].
      rewrite <- getNextTrack_all.
      now rewrite (getNextTrack_last db before cur Ht Hn).
Qed.

(** The last track of the library: its item is returned, with the
    audio URL built anew, the NEXT control disabled and
    [isQueueFinished]. *)
Lemma getItem_terminal_iff_unresolvable_witness :
  Lambda.handleGetItem Demo.db Demo.client_urls
    (Lambda.mkPayload (Some (lit "track.3")) None)
  = Lambda.ItemResponse
      (Lambda.mkItem (lit "track.3") (lit "Comet")
         (lit "/api/art/track.3.jpg")
         [Lambda.mkControl (lit "NEXT") false;
          Lambda.mkControl (lit "PREVIOUS") true]
         (lit "stream-track.3") (lit "/api/mp3/track.3.mp3") 0)
      true.
Proof.
  exact (proj2 (proj1 (proj2 (getItem_terminal_iff_unresolvable Demo.db
                                Demo.client_urls
                                (Lambda.mkPayload (Some (lit "track.3"))
                                   None)))
                 (lit "track.3") Demo.t3 eq_refl
                 (conj eq_refl eq_refl))).
Defined.

(** The item that [buildItem] makes with the audio URL of the track
    is the item of the track. *)
Lemma buildItem_queueItem (u : Lambda.Urls) (tr : Track.t) (more : bool) :
  Lambda.buildItem u tr (Lambda.buildMp3Url u (Track.id tr)) more
  = queueItem u tr more.
Proof. reflexivity. Qed.

(** A name that is none of the four kinds selects no branch of
    [handleInitiate]. *)
Lemma resolvedSequence_unknown (db : Db.t) (kind entityId : jsstring) :
  (forall k, kind <> kind_name k) ->
  resolvedSequence db kind entityId = [].
Proof.
  intros Hk. unfold resolvedSequence.
  destruct (str_eqb kind (lit "all")) eqn:E1.
  { apply str_eqb_eq in E1. now destruct (Hk KAll). }
  destruct (str_eqb kind (lit "track")) eqn:E2.
  { apply str_eqb_eq in E2. now destruct (Hk KTrack). }
  destruct (str_eqb kind (lit "artist")) eqn:E3.
  { apply str_eqb_eq in E3. now destruct (Hk KArtist). }
  destruct (str_eqb kind (lit "playlist")) eqn:E4.
  { apply str_eqb_eq in E4. now destruct (Hk KPlaylist). }
  reflexivity.
Qed.

(** C5.  Initiate answers a content reference, in its current or in
    its legacy spelling, with the first track of the sequence that the
    reference stands for: every track for [all], the one track of a
    [track] reference, the tracks of the artist, the stored tracks of
    the playlist.  The item is the item of that track, with its id,
    its title and its URLs, and its NEXT control ([hasNext]) is
    enabled exactly when the sequence has more than one element.  An
    empty sequence, which includes the reference to an entity that is
    not stored, and a reference of an unknown kind are answered with
    content-not-found. *)
Theorem initiate_returns_first_of_sequence (db : Db.t) (u : Lambda.Urls)
    (now36 : jsstring) (k : Kind) (entityId : jsstring) :
  let reply (sequence : list Track.t) :=
    match sequence with
    | [] => Lambda.ContentNotFound
    | first :: rest =>
        Lambda.InitiateResponse (lit "queue-" ++ now36)
          (queueItem u first (1 <? len (first :: rest))%Z)
    end in
  let sequence :=
    match k with
    | KAll => Db.getTracks db
    | KTrack => match Db.getTrack db entityId with
                | Some tr => [tr]
                | None => []
                end
    | KArtist => Db.getTracksByArtistId db entityId
    | KPlaylist => Db.getPlaylistTracks db entityId
    end in
  Lambda.handleInitiate db u now36 (currentFormat k entityId)
  = reply sequence /\
  (includes entityId (lit "::") = false ->
   Lambda.handleInitiate db u now36 (legacyFormat k entityId)
   = reply sequence) /\
  Lambda.handleInitiate db u now36 (lit "content-all")
  = reply (Db.getTracks db) /\
  (forall kind,
      ~ In 58%N kind -> (forall k', kind <> kind_name k') ->
      Lambda.handleInitiate db u now36
        (lit "content::" ++ kind ++ lit "::" ++ entityId)
      = Lambda.ContentNotFound).
Proof.
  intros reply sequence.
  assert (Hseq : resolvedSequence db (kind_name k) entityId = sequence).
  { now destruct k. }
  assert (Hof : forall contentId kind e,
             Lambda.parseContentId contentId = (kind, e) ->
             Lambda.handleInitiate db u now36 contentId
             = reply (resolvedSequence db kind e)).
  { intros contentId kind e Hp.
    rewrite (handleInitiate_of db u now36 contentId kind e Hp).
    unfold reply. now destruct (resolvedSequence db kind e). }
  destruct (kind_name_plain k) as [Hc Hh].
  split; [|split; [|split]].
  - rewrite <- Hseq. apply Hof. now apply parseContentId_current.
  - intros He. rewrite <- Hseq. apply Hof. now apply parseContentId_legacy.
  - now rewrite (Hof (lit "content-all") (lit "all") [] eq_refl).
  - intros kind Hk Hn.
    rewrite (Hof _ kind entityId (parseContentId_current kind entityId Hk)).
    now rewrite (resolvedSequence_unknown db kind entityId Hn).
Qed.

(** Scenario 2 of the specification: an artist with exactly one
    track; Initiate returns it with [hasNext] false. *)
Lemma initiate_returns_first_of_sequence_witness :
  Lambda.handleInitiate Demo.db Demo.client_urls (lit "k3")
    (lit "content-artist-artist.bob")
  = Lambda.InitiateResponse (lit "queue-k3")
      (Lambda.mkItem (lit "track.2") (Track.title Demo.t2)
         (lit "/api/art/track.2.jpg")
         [Lambda.mkControl (lit "NEXT") false;
          Lambda.mkControl (lit "PREVIOUS") true]
         (lit "stream-track.2") (lit "/api/mp3/track.2.mp3") 0).
Proof.
  exact (proj1 (proj2 (initiate_returns_first_of_sequence Demo.db
                         Demo.client_urls (lit "k3") KArtist
                         (lit "artist.bob")))
               eq_refl).
Defined.

(** The ids of the demo library are distinct. *)
Lemma demo_ids_distinct : NoDup (Db.getTrackIds Demo.db).
Proof.
  repeat constructor; simpl; intuition discriminate.
Qed.

(** C10.  The queue operations of the Lambda ask for the neighbour of
    the current id with that id alone, without the playlist or the
    artist of the initiation.  For two tracks [x], [y] that stand next
    to each other in the newest-first list of all tracks, whatever the
    queue is: the next item of [x] is the item of [y], with NEXT
    enabled when a track follows [y] in the list; the previous item of
    [y] is the item of [x]; before the first track and after the last
    one of the list the queue is finished.  The replies are the same
    over every storage with the same table of tracks, whatever its
    playlists and artists. *)
Theorem lambda_queue_follows_all_tracks (db : Db.t) (u : Lambda.Urls)
    (before after : list Track.t) (x y : Track.t)
    (queueId : option jsstring) :
  Db.tracks db = before ++ x :: y :: after ->
  NoDup (Db.getTrackIds db) ->
  nonempty (Track.id x) = true ->
  nonempty (Track.id y) = true ->
  let more := match after with [] => false | _ :: _ => true end in
  Lambda.handleGetNextItem db u (Lambda.mkPayload (Some (Track.id x)) queueId)
  = Lambda.ItemResponse (queueItem u y more) (negb more) /\
  Lambda.handleGetPreviousItem db u
    (Lambda.mkPayload (Some (Track.id y)) queueId)
  = Lambda.ItemResponse (queueItem u x true) false /\
  (before = [] ->
   Lambda.handleGetPreviousItem db u
     (Lambda.mkPayload (Some (Track.id x)) queueId)
   = Lambda.QueueFinished) /\
  (after = [] ->
   Lambda.handleGetNextItem db u
     (Lambda.mkPayload (Some (Track.id y)) queueId)
   = Lambda.QueueFinished) /\
  (forall db' payload,
      Db.tracks db' = Db.tracks db ->
      Lambda.handleGetNextItem db' u payload
      = Lambda.handleGetNextItem db u payload /\
      Lambda.handleGetPreviousItem db' u payload
      = Lambda.handleGetPreviousItem db u payload).
Proof.
  intros Ht Hn Hx Hy more.
  split; [|split; [|split; [|split]]].
  - unfold Lambda.handleGetNextItem. cbn [Lambda.ref_id if_some_truthy].
    rewrite Hx.
    rewrite (getNextTrack_here db before after x y Ht Hn Hy).
    reflexivity.
  - unfold Lambda.handleGetPreviousItem. cbn [Lambda.ref_id if_some_truthy].
    rewrite Hy.
    rewrite (getPreviousTrack_here db before after x y Ht Hn Hx).
    reflexivity.
  - intros Hb. subst before.
    unfold Lambda.handleGetPreviousItem. cbn [Lambda.ref_id if_some_truthy].
    rewrite Hx.
    now rewrite (getPreviousTrack_first db (y :: after) x Ht).
  - intros Ha. subst after.
    assert (Ht' : Db.tracks db = (before ++ [x]) ++ [y])
      by (now rewrite <- app_assoc).
    unfold Lambda.handleGetNextItem. cbn [Lambda.ref_id if_some_truthy].
    rewrite Hy.
    now rewrite (getNextTrack_last db (before ++ [x]) y Ht' Hn).
  - intros db' payload Htracks.
    assert (Hnx : forall cur, handleGetNextTrack db' cur None
                              = handleGetNextTrack db cur None).
    { intros cur. unfold handleGetNextTrack. rewrite !trackListOf_all.
      unfold Db.getTrackIds, Db.getTrack. now rewrite Htracks. }
    assert (Hpv : forall cur, handleGetPreviousTrack db' cur None
                              = handleGetPreviousTrack db cur None).
    { intros cur. unfold handleGetPreviousTrack. rewrite !trackListOf_all.
      unfold Db.getTrackIds, Db.getTrack. now rewrite Htracks. }
    split.
    + unfold Lambda.handleGetNextItem.
      destruct (if_some_truthy _); [|reflexivity].
      now rewrite !getNextTrack_all, Hnx.
    + unfold Lambda.handleGetPreviousItem.
      destruct (if_some_truthy _); [|reflexivity].
      now rewrite !getPreviousTrack_all, Hpv.
Qed.

(** A queue initiated from the playlist [pl.mix] = [track.3; track.1]
    starts with track.3.  In the list of all tracks track.3 is the
    last one and comes after track.2: the queue is finished after
    track.3, although the playlist goes on with track.1, and the
    previous item of track.3 is track.2, which is not in the
    playlist. *)
Lemma lambda_queue_follows_all_tracks_witness :
  Lambda.handleInitiate Demo.db Demo.client_urls (lit "k3")
    (lit "content::playlist::pl.mix")
  = Lambda.InitiateResponse (lit "queue-k3")
      (queueItem Demo.client_urls Demo.t3 true) /\
  Lambda.handleGetNextItem Demo.db Demo.client_urls
    (Lambda.mkPayload (Some (lit "track.3")) (Some (lit "queue-k3")))
  = Lambda.QueueFinished /\
  Lambda.handleGetPreviousItem Demo.db Demo.client_urls
    (Lambda.mkPayload (Some (lit "track.3")) (Some (lit "queue-k3")))
  = Lambda.ItemResponse
      (Lambda.mkItem (lit "track.2") (lit "Breeze")
         (lit "/api/art/track.2.jpg")
         [Lambda.mkControl (lit "NEXT") true;
          Lambda.mkControl (lit "PREVIOUS") true]
         (lit "stream-track.2") (lit "/api/mp3/track.2.mp3") 0)
      false.
Proof.
  pose proof (lambda_queue_follows_all_tracks Demo.db Demo.client_urls
                [Demo.t1] [] Demo.t2 Demo.t3 (Some (lit "queue-k3"))
                eq_refl demo_ids_distinct eq_refl eq_refl) as H.
  split; [reflexivity|]. split.
  - exact (proj1 (proj2 (proj2 (proj2 H))) eq_refl).
  - exact (proj1 (proj2 H)).
Defined.
